(** * Kyber (round-one parameters, q = 7681): reference arithmetic, packing
    and the Fujisaki-Okamoto KEM wrapper, embedded from the Go sources.

    Conventions of the embedding.
    - A Go [uint16]/[uint32]/[uint64] value is a [Z] kept in range by an
      explicit reduction ([u16], [u32], [u64]) after every operation that can
      leave the range; [byte(x)] is [u8 x].
    - A [[kyberN]uint16] array and a [[]byte] slice are [list Z]; [a !!! i]
      reads index [i] and [<[i:=v]> a] writes it.
    - Functions that fill a caller-allocated buffer return the bytes they
      write, in order. *)

From Stdlib Require Import ZArith Lia Bool String Btauto.
From stdpp Require Import base numbers list strings.

Local Open Scope Z_scope.

(** Go's bit operators; [&], [<<] and [>>] bind like [*], [|] and [^] like
    [+].  A left shift can leave the operand's width and is written with the
    width-specific [shl8], [shl16], [shl32], [shl64] below. *)
Notation "x .| y" := (Z.lor x y) (at level 50, left associativity) : Z_scope.
Notation "x .^ y" := (Z.lxor x y) (at level 50, left associativity) : Z_scope.
Notation "x .& y" := (Z.land x y) (at level 40, left associativity) : Z_scope.
Notation "x >> k" := (Z.shiftr x k) (at level 40, left associativity) : Z_scope.

(** ** Fixed-width integers *)

Definition u8 (x : Z) : Z := x mod 256.
Definition u16 (x : Z) : Z := x mod 65536.
Definition u32 (x : Z) : Z := x mod 4294967296.
Definition u64 (x : Z) : Z := x mod 18446744073709551616.

Definition shl8 (x k : Z) : Z := u8 (Z.shiftl x k).
Definition shl16 (x k : Z) : Z := u16 (Z.shiftl x k).
Definition shl32 (x k : Z) : Z := u32 (Z.shiftl x k).
Definition shl64 (x k : Z) : Z := u64 (Z.shiftl x k).

(** ** params.go *)

(** Lengths, counts and indices (Go [int]) are [nat]; the modulus takes
    part in coefficient arithmetic and is a [Z]. *)
Definition SymSize : nat := 32.
Definition kyberN : nat := 256.
Definition kyberQ : Z := 7681.
Definition polySize : nat := 416.
Definition polyCompressedSize : nat := 96.
Definition compressedCoeffSize : nat := 352.

(** ** reduce.go *)

Definition qinv : Z := 7679.
Definition rlog : Z := 18.

(** [montgomeryReduce(a uint32) uint16]; every assignment to [u] and [a]
    is a [uint32] operation. *)
Definition montgomeryReduce (a : Z) : Z :=
  let u := u32 (a * qinv) in
  let u := u .& (shl32 1 rlog - 1) in
  let u := u32 (u * kyberQ) in
  let a := u32 (a + u) in
  u16 (a >> rlog).

(** [barrettReduce(a uint16) uint16]. *)
Definition barrettReduce (a : Z) : Z :=
  let u := a >> 13 in
  let u := u32 (u * kyberQ) in
  u16 (a - u16 u).

(** [int16(m) >> 15] followed by the conversion back to [uint16]: all ones
    when the sign bit of [m] is set, zero otherwise. *)
Definition signmask16 (m : Z) : Z :=
  let c := if 32768 <=? m then m - 65536 else m in
  u16 (c >> 15).

(** [freeze(x uint16) uint16]. *)
Definition freeze (x : Z) : Z :=
  let r := barrettReduce x in
  let m := u16 (r - kyberQ) in
  let c := signmask16 m in
  m .^ ((r .^ m) .& c).

(** The Montgomery radix and its inverse modulo q. *)
Definition montR : Z := 2 ^ rlog.
Definition montRinv : Z := 225.

(** ** poly.go *)

(** [type poly struct { coeffs [kyberN]uint16 }]: the array of coefficients. *)
Abbreviation poly := (list Z) (only parsing).

(** [poly.compress(r []byte)]: the 96 bytes written to [r]; iteration [g]
    of the outer loop has [i = 8*g] and [k = 3*g]. *)
Definition poly_compress (p : poly) : list Z :=
  flat_map (fun g : nat =>
    let i := (8 * g)%nat in
    let t (j : nat) : Z :=
      (u16 (shl16 (freeze (p !!! (i + j)%nat)) 3 + kyberQ / 2) / kyberQ) .& 7 in
    [ u8 (t 0%nat .| shl32 (t 1%nat) 3 .| shl32 (t 2%nat) 6);
      u8 ((t 2%nat >> 2) .| shl32 (t 3%nat) 1 .| shl32 (t 4%nat) 4 .| shl32 (t 5%nat) 7);
      u8 ((t 5%nat >> 1) .| shl32 (t 6%nat) 2 .| shl32 (t 7%nat) 5) ])
  (seq 0 (kyberN / 8)).

(** [poly.decompress(a []byte)]: iteration [g] has [i = 8*g], [off = 3*g]. *)
Definition poly_decompress (a : list Z) : poly :=
  flat_map (fun g : nat =>
    let off := (3 * g)%nat in
    let a0 := a !!! off in
    let a1 := a !!! (off + 1)%nat in
    let a2 := a !!! (off + 2)%nat in
    [ u16 (u16 ((a0 .& 7) * kyberQ) + 4) >> 3;
      u16 (u16 (((a0 >> 3) .& 7) * kyberQ) + 4) >> 3;
      u16 (u16 (((a0 >> 6) .| (shl8 a1 2 .& 4)) * kyberQ) + 4) >> 3;
      u16 (u16 (((a1 >> 1) .& 7) * kyberQ) + 4) >> 3;
      u16 (u16 (((a1 >> 4) .& 7) * kyberQ) + 4) >> 3;
      u16 (u16 (((a1 >> 7) .| (shl8 a2 1 .& 6)) * kyberQ) + 4) >> 3;
      u16 (u16 (((a2 >> 2) .& 7) * kyberQ) + 4) >> 3;
      u16 (u16 ((a2 >> 5) * kyberQ) + 4) >> 3 ])
  (seq 0 (kyberN / 8)).

(** [poly.toBytes(r []byte)]: the 416 bytes written to [r]. *)
Definition poly_toBytes (p : poly) : list Z :=
  flat_map (fun i : nat =>
    let t (j : nat) : Z := freeze (p !!! (8 * i + j)%nat) in
    [ u8 (t 0%nat .& 255);
      u8 ((t 0%nat >> 8) .| shl16 (t 1%nat .& 7) 5);
      u8 ((t 1%nat >> 3) .& 255);
      u8 ((t 1%nat >> 11) .| shl16 (t 2%nat .& 63) 2);
      u8 ((t 2%nat >> 6) .| shl16 (t 3%nat .& 1) 7);
      u8 ((t 3%nat >> 1) .& 255);
      u8 ((t 3%nat >> 9) .| shl16 (t 4%nat .& 15) 4);
      u8 ((t 4%nat >> 4) .& 255);
      u8 ((t 4%nat >> 12) .| shl16 (t 5%nat .& 127) 1);
      u8 ((t 5%nat >> 7) .| shl16 (t 6%nat .& 3) 6);
      u8 ((t 6%nat >> 2) .& 255);
      u8 ((t 6%nat >> 10) .| shl16 (t 7%nat .& 31) 3);
      u8 (t 7%nat >> 5) ])
  (seq 0 (kyberN / 8)).

(** [poly.fromBytes(a []byte)]. *)
Definition poly_fromBytes (a : list Z) : poly :=
  flat_map (fun i : nat =>
    let b (j : nat) : Z := a !!! (13 * i + j)%nat in
    [ b 0%nat .| shl16 (b 1%nat .& 31) 8;
      (b 1%nat >> 5) .| shl16 (b 2%nat) 3 .| shl16 (b 3%nat .& 3) 11;
      (b 3%nat >> 2) .| shl16 (b 4%nat .& 127) 6;
      (b 4%nat >> 7) .| shl16 (b 5%nat) 1 .| shl16 (b 6%nat .& 15) 9;
      (b 6%nat >> 4) .| shl16 (b 7%nat) 4 .| shl16 (b 8%nat .& 1) 12;
      (b 8%nat >> 1) .| shl16 (b 9%nat .& 63) 7;
      (b 9%nat >> 6) .| shl16 (b 10%nat) 2 .| shl16 (b 11%nat .& 7) 10;
      (b 11%nat >> 3) .| shl16 (b 12%nat) 5 ])
  (seq 0 (kyberN / 8)).

(** [poly.fromMsg(msg []byte)], for a [msg] of at least 32 bytes, as
    [indcpaEncrypt] passes; [msg[:SymSize]] panics on a shorter one.
    [mask] is the 16-bit negation of one bit. *)
Definition poly_fromMsg (msg : list Z) : poly :=
  flat_map (fun i : nat =>
    let v := msg !!! i in
    map (fun j : nat =>
           let mask := u16 (- ((v >> Z.of_nat j) .& 1)) in
           mask .& ((kyberQ + 1) / 2))
        (seq 0 8))
  (seq 0 SymSize).

(** [poly.toMsg(msg []byte)]: the 32 bytes written to [msg]. *)
Definition poly_toMsg (p : poly) : list Z :=
  map (fun i : nat =>
    fold_left (fun (m : Z) (j : nat) =>
                 let t := (u16 (shl16 (freeze (p !!! (8 * i + j)%nat)) 1 + kyberQ / 2)
                             / kyberQ) .& 1 in
                 m .| u8 (shl16 t (Z.of_nat j)))
              (seq 0 8) 0)
  (seq 0 SymSize).

(** [poly.add(a, b *poly)]. *)
Definition poly_add (a b : poly) : poly :=
  map (fun i : nat => barrettReduce (u16 (a !!! i + b !!! i))) (seq 0 kyberN).

(** [poly.sub(a, b *poly)]. *)
Definition poly_sub (a b : poly) : poly :=
  map (fun i : nat => barrettReduce (u16 (u16 (a !!! i + 3 * kyberQ) - b !!! i)))
      (seq 0 kyberN).

(** ** cbd.go *)

(** [loadLittleEndian(x []byte, bytes int) uint64], for [x] of at least
    [bytes] bytes; on a shorter slice [x[:bytes]] panics, which [cbdRef],
    the only caller, accounts for. *)
Definition loadLittleEndian (x : list Z) (bytes : nat) : Z :=
  fold_left (fun (r : Z) (i : nat) => r .| shl64 (x !!! i) (8 * Z.of_nat i))
            (seq 0 bytes) 0.

(** What a run of the library ends in: a value, an [error] handed back to
    the caller, a Go [panic], or a loop that used up the fuel given to it. *)
Inductive error : Type :=
  | ErrInvalidKeySize
  | ErrInvalidCipherTextSize
  | ErrInvalidPrivateKey
  | ErrInvalidMessageSize
  | ErrParameterSetMismatch
  | ErrEOF
  | ErrUnexpectedEOF.

Inductive panic_value : Type :=
  | PanicError (e : error)
  | PanicString (s : string)
  | PanicIndex.

Inductive outcome (A : Type) : Type :=
  | Ok (a : A)
  | Err (e : error)
  | Panic (v : panic_value)
  | OutOfFuel.

Arguments Ok {A} a.
Arguments Err {A} e.
Arguments Panic {A} v.
Arguments OutOfFuel {A}.

Definition obind {A B : Type} (m : outcome A) (f : A -> outcome B) : outcome B :=
  match m with
  | Ok a => f a
  | Err e => Err e
  | Panic v => Panic v
  | OutOfFuel => OutOfFuel
  end.

Notation "'do' x <- m ; k" := (obind m (fun x => k))
  (at level 10, x pattern, m at level 100, k at level 200).

(** [cbdRef(p *poly, buf []byte, eta int)]; iteration [i] fills
    [p.coeffs[4*i .. 4*i+3]].  [d], [a] and [b] are [uint32] for eta 3 and 4
    and [uint64] for eta 5.  The slicings [buf[eta*i:]] and [x[:bytes]] go
    out of range, and the run panics, when the buffer has fewer than
    [eta * N/4] bytes. *)
Definition cbdRef (buf : list Z) (eta : nat) : outcome poly :=
  match eta with
  | 3%nat =>
      if (length buf <? 3 * (kyberN / 4))%nat then Panic PanicIndex else
      Ok (flat_map (fun i : nat =>
        let t := loadLittleEndian (drop (3 * i) buf) 3 in
        let d := fold_left (fun (d : Z) (j : nat) =>
                   u32 (d + u32 ((t >> Z.of_nat j) .& 0x249249)))
                 (seq 0 3) 0 in
        let a0 := d .& 7 in
        let b0 := (d >> 3) .& 7 in
        let a1 := (d >> 6) .& 7 in
        let b1 := (d >> 9) .& 7 in
        let a2 := (d >> 12) .& 7 in
        let b2 := (d >> 15) .& 7 in
        let a3 := (d >> 18) .& 7 in
        let b3 := d >> 21 in
        [ u16 (u32 (u32 (a0 + kyberQ) - b0));
          u16 (u32 (u32 (a1 + kyberQ) - b1));
          u16 (u32 (u32 (a2 + kyberQ) - b2));
          u16 (u32 (u32 (a3 + kyberQ) - b3)) ])
      (seq 0 (kyberN / 4)))
  | 4%nat =>
      if (length buf <? 4 * (kyberN / 4))%nat then Panic PanicIndex else
      Ok (flat_map (fun i : nat =>
        let t := loadLittleEndian (drop (4 * i) buf) 4 in
        let d := fold_left (fun (d : Z) (j : nat) =>
                   u32 (d + u32 ((t >> Z.of_nat j) .& 0x11111111)))
                 (seq 0 4) 0 in
        let a0 := d .& 15 in
        let b0 := (d >> 4) .& 15 in
        let a1 := (d >> 8) .& 15 in
        let b1 := (d >> 12) .& 15 in
        let a2 := (d >> 16) .& 15 in
        let b2 := (d >> 20) .& 15 in
        let a3 := (d >> 24) .& 15 in
        let b3 := d >> 28 in
        [ u16 (u32 (u32 (a0 + kyberQ) - b0));
          u16 (u32 (u32 (a1 + kyberQ) - b1));
          u16 (u32 (u32 (a2 + kyberQ) - b2));
          u16 (u32 (u32 (a3 + kyberQ) - b3)) ])
      (seq 0 (kyberN / 4)))
  | 5%nat =>
      if (length buf <? 5 * (kyberN / 4))%nat then Panic PanicIndex else
      Ok (flat_map (fun i : nat =>
        let t := loadLittleEndian (drop (5 * i) buf) 5 in
        let d := fold_left (fun (d : Z) (j : nat) =>
                   u64 (d + ((t >> Z.of_nat j) .& 0x0842108421)))
                 (seq 0 5) 0 in
        let a0 := d .& 31 in
        let b0 := (d >> 5) .& 31 in
        let a1 := (d >> 10) .& 31 in
        let b1 := (d >> 15) .& 31 in
        let a2 := (d >> 20) .& 31 in
        let b2 := (d >> 25) .& 31 in
        let a3 := (d >> 30) .& 31 in
        let b3 := d >> 35 in
        [ u16 (u64 (u64 (a0 + kyberQ) - b0));
          u16 (u64 (u64 (a1 + kyberQ) - b1));
          u16 (u64 (u64 (a2 + kyberQ) - b2));
          u16 (u64 (u64 (a3 + kyberQ) - b3)) ])
      (seq 0 (kyberN / 4)))
  | _ => Panic (PanicString "kyber: eta must be in {3,4,5}")
  end.

(** [poly.cbd] dispatches through [hardwareAccelImpl]; the reference
    back-end is the one embedded. *)
Definition poly_cbd (buf : list Z) (eta : nat) : outcome poly := cbdRef buf eta.

(** ** ntt.go *)

(** Modelled from the spec: the twiddle table [zetas] (its declaration is
    not among the sources).  Section 4.N fixes it as the reference table of
    256 entries in Montgomery domain, reproducible from the parameters:
    entry [i] is [R * psi^brv8(i) mod q] for the primitive 512-th root of
    unity [psi = 62], with [brv8] the reversal of 8 bits. *)
Definition zetas : list Z :=
  [
    990; 7427; 2634; 6819; 578; 3281; 2143; 1095; 484; 6362; 3336; 5382;
    6086; 3823; 877; 5656; 3583; 7010; 6414; 263; 1285; 291; 7143; 7338;
    1581; 5134; 5184; 5932; 4042; 5775; 2468; 3; 606; 729; 5383; 962;
    3240; 7548; 5129; 7653; 5929; 4965; 2461; 641; 1584; 2666; 1142; 157;
    7407; 5222; 5602; 5142; 6140; 5485; 4931; 1559; 2085; 5284; 2056; 3538;
    7269; 3535; 7190; 1957; 3465; 6792; 1538; 4664; 2023; 7643; 3660; 7673;
    1694; 6905; 3995; 3475; 5939; 1859; 6910; 4434; 1019; 1492; 7087; 4761;
    657; 4859; 5798; 2640; 1693; 2607; 2782; 5400; 6466; 1010; 957; 3851;
    2121; 6392; 7319; 3367; 3659; 3375; 6430; 7583; 1549; 5856; 4773; 6084;
    5544; 1650; 3997; 4390; 6722; 2915; 4245; 2635; 6128; 7676; 5737; 1616;
    3457; 3132; 7196; 4702; 6239; 851; 2122; 3009; 7613; 7295; 2007; 323;
    5112; 3716; 2289; 6442; 6965; 2713; 7126; 3401; 963; 6596; 607; 5027;
    7078; 4484; 5937; 944; 2860; 2680; 5049; 1777; 5850; 3387; 6487; 6777;
    4812; 4724; 7077; 186; 6848; 6793; 3463; 5877; 1174; 7116; 3077; 5945;
    6591; 590; 6643; 1337; 6036; 3991; 1675; 2053; 6055; 1162; 1679; 3883;
    4311; 2106; 6163; 4486; 6374; 5006; 4576; 4288; 5180; 4102; 282; 6119;
    7443; 6330; 3184; 4971; 2530; 5325; 4171; 7185; 5175; 5655; 1898; 382;
    7211; 43; 5965; 6073; 1730; 332; 1577; 3304; 2329; 1699; 6150; 2379;
    5113; 333; 3502; 4517; 1480; 1172; 5567; 651; 925; 4573; 599; 1367;
    4109; 1863; 6929; 1605; 3866; 2065; 4048; 839; 5764; 2447; 2022; 3345;
    1990; 4067; 2036; 2069; 3567; 7371; 2368; 339; 6947; 2159; 654; 7327;
    2768; 6676; 987; 2214
  ].

(** Modelled from the spec: the table [omegasInvBitrevMontgomery] read by
    [invnttRef] at indices below 128; entry [i] is [R * omega^(-brv7(i)) mod q]
    with [omega = psi^2 = 3844]. *)
Definition omegasInvBitrevMontgomery : list Z :=
  [
    990; 254; 862; 5047; 6586; 5538; 4400; 7103; 2025; 6804; 3858; 1595;
    2299; 4345; 1319; 7197; 7678; 5213; 1906; 3639; 1749; 2497; 2547; 6100;
    343; 538; 7390; 6396; 7418; 1267; 671; 4098; 5724; 491; 4146; 412;
    4143; 5625; 2397; 5596; 6122; 2750; 2196; 1541; 2539; 2079; 2459; 274;
    7524; 6539; 5015; 6097; 7040; 5220; 2716; 1752; 28; 2552; 133; 4441;
    6719; 2298; 6952; 7075; 4672; 5559; 6830; 1442; 2979; 485; 4549; 4224;
    6065; 1944; 5; 1553; 5046; 3436; 4766; 959; 3291; 3684; 6031; 2137;
    1597; 2908; 1825; 6132; 98; 1251; 4306; 4022; 4314; 362; 1289; 5560;
    3830; 6724; 6671; 1215; 2281; 4899; 5074; 5988; 5041; 1883; 2822; 7024;
    2920; 594; 6189; 6662; 3247; 771; 5822; 1742; 4206; 3686; 776; 5987;
    8; 4021; 38; 5658; 3017; 6143; 889; 4216
  ].

(** Modelled from the spec: the table [psisInvMontgomery]; entry [i] is
    [R * n^-1 * psi^(-i) mod q], which carries the Montgomery correction and
    the factor [1/n] of the inverse transform. *)
Definition psisInvMontgomery : list Z :=
  [
    1024; 4972; 5779; 6907; 4943; 4168; 315; 5580; 90; 497; 1123; 142;
    4710; 5527; 2443; 4871; 698; 2489; 2394; 4003; 684; 2241; 2390; 7224;
    5072; 2064; 4741; 1687; 6841; 482; 7441; 1235; 2126; 4742; 2802; 5744;
    6287; 4933; 699; 3604; 1297; 2127; 5857; 1705; 3868; 3779; 4397; 2177;
    159; 622; 2240; 1275; 640; 6948; 4572; 5277; 209; 2605; 1157; 7328;
    5817; 3191; 1662; 2009; 4864; 574; 2487; 164; 6197; 4436; 7257; 3462;
    4268; 4281; 3414; 4515; 3170; 1290; 2003; 5855; 7156; 6062; 7531; 1732;
    3249; 4884; 7512; 3590; 1049; 2123; 1397; 6093; 3691; 6130; 6541; 3946;
    6258; 3322; 1788; 4241; 4900; 2309; 1400; 1757; 400; 502; 6698; 2338;
    3011; 668; 7444; 4580; 6516; 6795; 2959; 4136; 3040; 2279; 6355; 3943;
    2913; 6613; 7416; 4084; 6508; 5556; 4054; 3782; 61; 6567; 2212; 779;
    632; 5709; 5667; 4923; 4911; 6893; 4695; 4164; 3536; 2287; 7594; 2848;
    3267; 1911; 3128; 546; 1991; 156; 4958; 5531; 6903; 483; 875; 138;
    250; 2234; 2266; 7222; 2842; 4258; 812; 6703; 232; 5207; 6650; 2585;
    1900; 6225; 4932; 7265; 4701; 3173; 4635; 6393; 227; 7313; 4454; 4284;
    6759; 1224; 5223; 1447; 395; 2608; 4502; 4037; 189; 3348; 54; 6443;
    2210; 6230; 2826; 1780; 3002; 5995; 1955; 6102; 6045; 3938; 5019; 4417;
    1434; 1262; 1507; 5847; 5917; 7157; 7177; 6434; 7537; 741; 4348; 1309;
    145; 374; 2236; 4496; 5028; 6771; 6923; 7421; 1978; 1023; 3857; 6876;
    1102; 7451; 4704; 6518; 1344; 765; 384; 5705; 1207; 1630; 4734; 1563;
    6839; 5933; 1954; 4987; 7142; 5814; 7527; 4953; 7637; 4707; 2182; 5734;
    2818; 541; 4097; 5641
  ].

(** Innermost loop of [nttRef], [for j = start; j < start+distance; j++]:
    [n] iterations remain; the final [j] is returned because the enclosing
    loop continues from it. *)
Fixpoint ntt_inner (n level : nat) (zeta : Z) (distance j : nat) (p : poly)
  : poly * nat :=
  match n with
  | O => (p, j)
  | S n' =>
      let t := montgomeryReduce (u32 (zeta * p !!! (j + distance)%nat)) in
      let p := <[(j + distance)%nat :=
                   barrettReduce (u16 (u16 (p !!! j + 4 * kyberQ) - t))]> p in
      let p := if Nat.odd level
               then <[j := u16 (p !!! j + t)]> p
               else <[j := barrettReduce (u16 (p !!! j + t))]> p in
      ntt_inner n' level zeta distance (S j) p
  end.

(** [for start := 0; start < kyberN; start = j + distance]; [k] indexes
    [zetas] and runs on across levels. *)
Fixpoint ntt_starts (fuel level distance start k : nat) (p : poly) : poly * nat :=
  match fuel with
  | O => (p, k)
  | S fuel' =>
      if decide (start < kyberN)%nat then
        let zeta := zetas !!! k in
        let '(p, j) := ntt_inner distance level zeta distance start p in
        ntt_starts fuel' level distance (j + distance)%nat (S k) p
      else (p, k)
  end.

(** [nttRef(p *[kyberN]uint16)], levels 7 down to 0. *)
Definition nttRef (p : poly) : poly :=
  fst (fold_left (fun (st : poly * nat) (level : nat) =>
                    ntt_starts kyberN level (2 ^ level)%nat 0 (snd st) (fst st))
                 (rev (seq 0 8)) (p, 1%nat)).

(** Innermost loop of [invnttRef],
    [for j := start; j < kyberN-1; j += 2*distance]. *)
Fixpoint invntt_inner (fuel level distance j jTwiddle : nat) (a : poly) : poly :=
  match fuel with
  | O => a
  | S fuel' =>
      if decide (j < kyberN - 1)%nat then
        let w := omegasInvBitrevMontgomery !!! jTwiddle in
        let temp := a !!! j in
        let a := if Nat.odd level
                 then <[j := barrettReduce (u16 (temp + a !!! (j + distance)%nat))]> a
                 else <[j := u16 (temp + a !!! (j + distance)%nat)]> a in
        let t := u32 (w * u32 (u32 (temp + 4 * kyberQ) - a !!! (j + distance)%nat)) in
        let a := <[(j + distance)%nat := montgomeryReduce t]> a in
        invntt_inner fuel' level distance (j + 2 * distance)%nat (S jTwiddle) a
      else a
  end.

(** [invnttRef(a *[kyberN]uint16)]: levels 0 to 7, then the pointwise
    multiplication by [psisInvMontgomery]. *)
Definition invnttRef (a : poly) : poly :=
  let a :=
    fold_left (fun (a : poly) (level : nat) =>
                 let distance := (2 ^ level)%nat in
                 fold_left (fun (a : poly) (start : nat) =>
                              invntt_inner kyberN level distance start 0 a)
                           (seq 0 distance) a)
              (seq 0 8) a in
  fold_left (fun (a : poly) (i : nat) =>
               <[i := montgomeryReduce (u32 (a !!! i * psisInvMontgomery !!! i))]> a)
            (seq 0 (length psisInvMontgomery)) a.

(** [poly.ntt], [poly.invntt]: the reference back-end of [hardwareAccelImpl]. *)
Definition poly_ntt (p : poly) : poly := nttRef p.
Definition poly_invntt (p : poly) : poly := invnttRef p.

(** ** polyvec.go *)

(** [type polyVec struct { vec []*poly }]: the polynomials, in order. *)
Abbreviation polyVec := (list (list Z)) (only parsing).

(** [polyVec.compress(r []byte)]: 352 bytes per polynomial. *)
Definition polyVec_compress (v : polyVec) : list Z :=
  flat_map (fun vec : poly =>
    flat_map (fun j : nat =>
      let t (k : nat) : Z :=
        u16 ((u32 (shl32 (freeze (vec !!! (8 * j + k)%nat)) 11 + kyberQ / 2) / kyberQ)
               .& 0x7ff) in
      [ u8 (t 0%nat .& 0xff);
        u8 ((t 0%nat >> 8) .| shl16 (t 1%nat .& 0x1f) 3);
        u8 ((t 1%nat >> 5) .| shl16 (t 2%nat .& 0x03) 6);
        u8 ((t 2%nat >> 2) .& 0xff);
        u8 ((t 2%nat >> 10) .| shl16 (t 3%nat .& 0x7f) 1);
        u8 ((t 3%nat >> 7) .| shl16 (t 4%nat .& 0x0f) 4);
        u8 ((t 4%nat >> 4) .| shl16 (t 5%nat .& 0x01) 7);
        u8 ((t 5%nat >> 1) .& 0xff);
        u8 ((t 5%nat >> 9) .| shl16 (t 6%nat .& 0x3f) 2);
        u8 ((t 6%nat >> 6) .| shl16 (t 7%nat .& 0x07) 5);
        u8 (t 7%nat >> 3) ])
    (seq 0 (kyberN / 8)))
  v.

(** [polyVec.decompress(a []byte)] on a receiver of [k] polynomials; the
    polynomial of index [idx] reads from [off = idx * compressedCoeffSize]. *)
Definition polyVec_decompress (k : nat) (a : list Z) : polyVec :=
  map (fun idx : nat =>
    let off := (idx * compressedCoeffSize)%nat in
    flat_map (fun j : nat =>
      let b (m : nat) : Z := a !!! (off + 11 * j + m)%nat in
      [ u16 (u32 (u32 ((b 0%nat .| shl32 (b 1%nat .& 0x07) 8) * kyberQ) + 1024) >> 11);
        u16 (u32 (u32 (((b 1%nat >> 3) .| shl32 (b 2%nat .& 0x3f) 5) * kyberQ) + 1024) >> 11);
        u16 (u32 (u32 (((b 2%nat >> 6) .| shl32 (b 3%nat .& 0xff) 2
                          .| shl32 (b 4%nat .& 0x01) 10) * kyberQ) + 1024) >> 11);
        u16 (u32 (u32 (((b 4%nat >> 1) .| shl32 (b 5%nat .& 0x0f) 7) * kyberQ) + 1024) >> 11);
        u16 (u32 (u32 (((b 5%nat >> 4) .| shl32 (b 6%nat .& 0x7f) 4) * kyberQ) + 1024) >> 11);
        u16 (u32 (u32 (((b 6%nat >> 7) .| shl32 (b 7%nat .& 0xff) 1
                          .| shl32 (b 8%nat .& 0x03) 9) * kyberQ) + 1024) >> 11);
        u16 (u32 (u32 (((b 8%nat >> 2) .| shl32 (b 9%nat .& 0x1f) 6) * kyberQ) + 1024) >> 11);
        u16 (u32 (u32 (((b 9%nat >> 5) .| shl32 (b 10%nat .& 0xff) 3) * kyberQ) + 1024) >> 11) ])
    (seq 0 (kyberN / 8)))
  (seq 0 k).

(** [polyVec.toBytes(r []byte)]: polynomial [i] is written at
    [r[i*polySize:]], 416 bytes each. *)
Definition polyVec_toBytes (v : polyVec) : list Z :=
  flat_map poly_toBytes v.

(** [polyVec.fromBytes(a []byte)] on a receiver of [k] polynomials. *)
Definition polyVec_fromBytes (k : nat) (a : list Z) : polyVec :=
  map (fun i : nat => poly_fromBytes (drop (i * polySize) a)) (seq 0 k).

Definition polyVec_ntt (v : polyVec) : polyVec := map poly_ntt v.
Definition polyVec_invntt (v : polyVec) : polyVec := map poly_invntt v.

(** [polyVec.add(a, b *polyVec)] on a receiver of [k] polynomials. *)
Definition polyVec_add (k : nat) (a b : polyVec) : polyVec :=
  map (fun i : nat => poly_add (a !!! i) (b !!! i)) (seq 0 k).

(** [polyVec.compressedSize() int]. *)
Definition polyVec_compressedSize (v : polyVec) : nat :=
  (length v * compressedCoeffSize)%nat.

(** [pointwiseAccRef(p *poly, a, b *polyVec)]; the accumulation into
    [p.coeffs[j]] is a [uint16] addition. *)
Definition pointwiseAccRef (a b : polyVec) : poly :=
  map (fun j : nat =>
    let t := montgomeryReduce (u32 (4613 * (b !!! 0%nat) !!! j)) in
    let pj := montgomeryReduce (u32 ((a !!! 0%nat) !!! j * t)) in
    let pj := fold_left (fun (pj : Z) (i : nat) =>
                let t := montgomeryReduce (u32 (4613 * (b !!! i) !!! j)) in
                u16 (pj + montgomeryReduce (u32 ((a !!! i) !!! j * t))))
              (seq 1 (length a - 1)) pj in
    barrettReduce pj)
  (seq 0 kyberN).

(** [poly.pointwiseAcc]: the reference back-end. *)
Definition poly_pointwiseAcc (a b : polyVec) : poly := pointwiseAccRef a b.

(** ** params.go: parameter sets *)

Record ParameterSet : Type := {
  ps_name : string;
  ps_k : nat;
  ps_eta : nat;
  polyVecSize : nat;
  polyVecCompressedSize : nat;
  indcpaMsgSize : nat;
  indcpaPublicKeySize : nat;
  indcpaSecretKeySize : nat;
  indcpaSize : nat;
  publicKeySize : nat;
  secretKeySize : nat;
  cipherTextSize : nat
}.

Global Instance ParameterSet_eq_dec : EqDecision ParameterSet.
Proof. solve_decision. Defined.

(** The field assignments of [newParameterSet] once [eta] is chosen. *)
Definition fillParameterSet (name : string) (k eta : nat) : ParameterSet :=
  let polyVecSize := (k * polySize)%nat in
  let polyVecCompressedSize := (k * compressedCoeffSize)%nat in
  let indcpaMsgSize := SymSize in
  let indcpaPublicKeySize := (polyVecCompressedSize + SymSize)%nat in
  let indcpaSecretKeySize := polyVecSize in
  let indcpaSize := (polyVecCompressedSize + polyCompressedSize)%nat in
  {| ps_name := name; ps_k := k; ps_eta := eta;
     polyVecSize := polyVecSize;
     polyVecCompressedSize := polyVecCompressedSize;
     indcpaMsgSize := indcpaMsgSize;
     indcpaPublicKeySize := indcpaPublicKeySize;
     indcpaSecretKeySize := indcpaSecretKeySize;
     indcpaSize := indcpaSize;
     publicKeySize := indcpaPublicKeySize;
     secretKeySize := (indcpaSecretKeySize + indcpaPublicKeySize + 2 * SymSize)%nat;
     cipherTextSize := indcpaSize |}.

(** [newParameterSet(name string, k int) *ParameterSet]. *)
Definition newParameterSet (name : string) (k : nat) : outcome ParameterSet :=
  match k with
  | 2%nat => Ok (fillParameterSet name k 5)
  | 3%nat => Ok (fillParameterSet name k 4)
  | 4%nat => Ok (fillParameterSet name k 3)
  | _ => Panic (PanicString "kyber: k must be in {2,3,4}")
  end.

Definition Kyber512 : ParameterSet := fillParameterSet "Kyber-512" 2 5.
Definition Kyber768 : ParameterSet := fillParameterSet "Kyber-768" 3 4.
Definition Kyber1024 : ParameterSet := fillParameterSet "Kyber-1024" 4 3.

Definition PublicKeySize (p : ParameterSet) : nat := publicKeySize p.
Definition PrivateKeySize (p : ParameterSet) : nat := secretKeySize p.
Definition CipherTextSize (p : ParameterSet) : nat := cipherTextSize p.

(** The three parameter sets the package exports. *)
Definition is_parameter_set (p : ParameterSet) : Prop :=
  p = Kyber512 \/ p = Kyber768 \/ p = Kyber1024.

(** ** External collaborators *)

(** The sponge functions of [golang.org/x/crypto/sha3], as black boxes:
    [sha3_256] and [sha3_512] are [Sum256] and [Sum512] (also reached
    through [New256]/[New512] with [Write] calls, which hash the
    concatenation of what was written); [shake256 x n] is the first [n]
    output bytes of SHAKE-256 on input [x]; [shake128 x i] is byte [i] of the
    SHAKE-128 output stream on input [x]. *)
Class Sponge : Type := {
  sha3_256 : list Z -> list Z;
  sha3_512 : list Z -> list Z;
  shake256 : list Z -> nat -> list Z;
  shake128 : list Z -> nat -> Z
}.

(** The caller's [io.Reader], as the tape of bytes it will deliver. *)
Abbreviation tape := (list Z) (only parsing).

(** [io.ReadFull(rng, buf)] for a buffer of [n] bytes: the error is
    [io.EOF] when no byte could be read and [io.ErrUnexpectedEOF] when the
    tape ends before [n] bytes. *)
Definition ReadFull (rng : tape) (n : nat) : outcome (list Z * tape) :=
  if decide (n <= length rng)%nat then Ok (take n rng, drop n rng)
  else if decide (length rng = 0%nat) then Err ErrEOF
  else Err ErrUnexpectedEOF.

(** Go's built-in [copy(dst, src)]: the contents of [dst] afterwards. *)
Definition gocopy (dst src : list Z) : list Z :=
  take (length dst) src ++ drop (length src) dst.

(** [b[lo:hi]]. *)
Definition slice (b : list Z) (lo hi : nat) : list Z := take (hi - lo) (drop lo b).

(** [crypto/subtle], by its documentation. *)
Definition ConstantTimeCompare (x y : list Z) : Z :=
  if decide (length x = length y) then
    if decide (x = y) then 1 else 0
  else 0.

Definition ConstantTimeSelect (v x y : Z) : Z := if v =? 1 then x else y.

Definition ConstantTimeCopy (v : Z) (x y : list Z) : outcome (list Z) :=
  if decide (length x = length y) then Ok (if v =? 1 then y else x)
  else Panic (PanicString "subtle: slices have different lengths").

Fixpoint omapM {A B : Type} (f : A -> outcome B) (l : list A) : outcome (list B) :=
  match l with
  | [] => Ok []
  | x :: l' => do y <- f x; do ys <- omapM f l'; Ok (y :: ys)
  end.

(** ** indcpa.go *)

Section WithSponge.
Context {sponge : Sponge}.

(** [poly.getNoise(seed []byte, nonce byte, eta int)] (poly.go). *)
Definition poly_getNoise (seed : list Z) (nonce : Z) (eta : nat) : outcome poly :=
  let extSeed := seed ++ [nonce] in
  let buf := shake256 extSeed (eta * kyberN / 4) in
  poly_cbd buf eta.

Definition packPublicKey (pk : polyVec) (seed : list Z) : list Z :=
  polyVec_compress pk ++ take SymSize seed.

(** [unpackPublicKey(pk *polyVec, seed, packedPk []byte)] on a receiver of
    [k] polynomials; [seed] is a 32-byte buffer.  For a [packedPk] of
    [indcpaPublicKeySize] bytes, the size [indcpaPublicKey.fromBytes]
    checks; on a shorter one [polyVec.decompress] indexes out of range and
    panics. *)
Definition unpackPublicKey (k : nat) (packedPk : list Z) : polyVec * list Z :=
  let pk := polyVec_decompress k packedPk in
  let off := (k * compressedCoeffSize)%nat in
  (pk, gocopy (replicate SymSize 0) (slice packedPk off (off + SymSize))).

Definition packCiphertext (b : polyVec) (v : poly) : list Z :=
  polyVec_compress b ++ poly_compress v.

Definition unpackCiphertext (k : nat) (c : list Z) : polyVec * poly :=
  let b := polyVec_decompress k c in
  let v := poly_decompress (drop (k * compressedCoeffSize) c) in
  (b, v).

Definition packSecretKey (sk : polyVec) : list Z := polyVec_toBytes sk.
Definition unpackSecretKey (k : nat) (packedSk : list Z) : polyVec :=
  polyVec_fromBytes k packedSk.

Definition shake128Rate : nat := 168.
Definition maxBlocks : nat := 4.

(** [xof.Read] of [n] bytes when [off] bytes of the stream have been read. *)
Definition xof_read (extSeed : list Z) (off n : nat) : list Z :=
  map (fun i : nat => shake128 extSeed (off + i)) (seq 0 n).

(** The rejection loop of [genMatrix] for one cell,
    [for ctr, pos, maxPos := 0, 0, len(buf); ctr < kyberN; { ... }];
    [off] counts the stream bytes squeezed so far. *)
Fixpoint genMatrix_sample (fuel : nat) (extSeed : list Z) (off : nat) (buf : list Z)
    (ctr pos maxPos : nat) (p : poly) : outcome poly :=
  match fuel with
  | O => OutOfFuel
  | S fuel' =>
      if decide (ctr < kyberN)%nat then
        let val := (buf !!! pos .| shl16 (buf !!! (pos + 1)%nat) 8) .& 0x1fff in
        let '(p, ctr) := if decide (val < kyberQ) then (<[ctr := val]> p, S ctr)
                         else (p, ctr) in
        let pos := (pos + 2)%nat in
        if decide (pos = maxPos) then
          let buf := gocopy buf (xof_read extSeed off shake128Rate) in
          genMatrix_sample fuel' extSeed (off + shake128Rate) buf ctr 0 shake128Rate p
        else genMatrix_sample fuel' extSeed off buf ctr pos maxPos p
      else Ok p
  end.

(** [genMatrix(a []polyVec, seed []byte, transposed bool)] for a [k] by [k]
    matrix of zero polynomials from [allocMatrix]. *)
Definition genMatrix (fuel k : nat) (seed : list Z) (transposed : bool)
  : outcome (list polyVec) :=
  let seed32 := gocopy (replicate SymSize 0) seed in
  omapM (fun i : nat =>
    omapM (fun j : nat =>
      let extSeed :=
        if transposed then seed32 ++ [u8 (Z.of_nat i); u8 (Z.of_nat j)]
        else seed32 ++ [u8 (Z.of_nat j); u8 (Z.of_nat i)] in
      let buf := xof_read extSeed 0 (shake128Rate * maxBlocks) in
      genMatrix_sample fuel extSeed (shake128Rate * maxBlocks) buf
                       0 0 (length buf) (replicate kyberN 0))
    (seq 0 k))
  (seq 0 k).

Record indcpaPublicKey : Type := {
  pk_packed : list Z;
  pk_h : list Z
}.

Record indcpaSecretKey : Type := {
  sk_packed : list Z
}.

Definition indcpaPublicKey_toBytes (pk : indcpaPublicKey) : list Z := pk_packed pk.

Definition indcpaPublicKey_fromBytes (p : ParameterSet) (b : list Z)
  : outcome indcpaPublicKey :=
  if decide (length b <> indcpaPublicKeySize p) then Err ErrInvalidKeySize
  else Ok {| pk_packed := b; pk_h := sha3_256 b |}.

Definition indcpaSecretKey_fromBytes (p : ParameterSet) (b : list Z)
  : outcome indcpaSecretKey :=
  if decide (length b <> indcpaSecretKeySize p) then Err ErrInvalidKeySize
  else Ok {| sk_packed := b |}.

(** The loops [for _, pv := range v.vec { pv.getNoise(seed, nonce, eta); nonce++ }]
    over a vector of [k] polynomials, starting at [nonce]. *)
Definition getNoise_vec (k : nat) (seed : list Z) (nonce : Z) (eta : nat)
  : outcome polyVec :=
  omapM (fun i : nat => poly_getNoise seed (u8 (nonce + Z.of_nat i)) eta) (seq 0 k).

(** [ParameterSet.indcpaKeyPair(rng io.Reader)]. *)
Definition indcpaKeyPair (fuel : nat) (p : ParameterSet) (rng : tape)
  : outcome (indcpaPublicKey * indcpaSecretKey * tape) :=
  do (d, rng) <- ReadFull rng SymSize;
  let buf := sha3_512 d in
  let publicSeed := take SymSize buf in
  let noiseSeed := drop SymSize buf in
  do a <- genMatrix fuel (ps_k p) publicSeed false;
  do skpv <- getNoise_vec (ps_k p) noiseSeed 0 (ps_eta p);
  let skpv := polyVec_ntt skpv in
  do e <- getNoise_vec (ps_k p) noiseSeed (Z.of_nat (ps_k p)) (ps_eta p);
  let pkpv := map (fun i : nat => poly_pointwiseAcc skpv (a !!! i)) (seq 0 (ps_k p)) in
  let pkpv := polyVec_invntt pkpv in
  let pkpv := polyVec_add (ps_k p) pkpv e in
  let sk := {| sk_packed := packSecretKey skpv |} in
  let packed := packPublicKey pkpv publicSeed in
  let pk := {| pk_packed := packed; pk_h := sha3_256 packed |} in
  Ok (pk, sk, rng).

(** [ParameterSet.indcpaEncrypt(c, m []byte, pk *indcpaPublicKey, coins []byte)]:
    the bytes written to [c]. *)
Definition indcpaEncrypt (fuel : nat) (p : ParameterSet) (m : list Z)
    (pk : indcpaPublicKey) (coins : list Z) : outcome (list Z) :=
  let '(pkpv, seed) := unpackPublicKey (ps_k p) (pk_packed pk) in
  let k := poly_fromMsg m in
  let pkpv := polyVec_ntt pkpv in
  do at_ <- genMatrix fuel (ps_k p) seed true;
  do sp <- getNoise_vec (ps_k p) coins 0 (ps_eta p);
  let sp := polyVec_ntt sp in
  do ep <- getNoise_vec (ps_k p) coins (Z.of_nat (ps_k p)) (ps_eta p);
  let bp := map (fun i : nat => poly_pointwiseAcc sp (at_ !!! i)) (seq 0 (ps_k p)) in
  let bp := polyVec_invntt bp in
  let bp := polyVec_add (ps_k p) bp ep in
  let v := poly_pointwiseAcc pkpv sp in
  let v := poly_invntt v in
  do epp <- poly_getNoise coins (u8 (Z.of_nat (ps_k p) + Z.of_nat (ps_k p))) (ps_eta p);
  let v := poly_add v epp in
  let v := poly_add v k in
  Ok (packCiphertext bp v).

(** [ParameterSet.indcpaDecrypt(m, c []byte, sk *indcpaSecretKey)]: the 32
    bytes written to [m]. *)
Definition indcpaDecrypt (p : ParameterSet) (c : list Z) (sk : indcpaSecretKey)
  : list Z :=
  let '(bp, v) := unpackCiphertext (ps_k p) c in
  let skpv := unpackSecretKey (ps_k p) (sk_packed sk) in
  let bp := polyVec_ntt bp in
  let mp := poly_pointwiseAcc skpv bp in
  let mp := poly_invntt mp in
  let mp := poly_sub mp v in
  poly_toMsg mp.

(** ** kem.go *)

Record PublicKey : Type := {
  PublicKey_pk : indcpaPublicKey;
  PublicKey_p : ParameterSet
}.

(** [PrivateKey] embeds its [PublicKey]. *)
Record PrivateKey : Type := {
  PrivateKey_PublicKey : PublicKey;
  PrivateKey_sk : indcpaSecretKey;
  PrivateKey_z : list Z
}.

(** [PrivateKey.Bytes() []byte]. *)
Definition PrivateKey_Bytes (sk : PrivateKey) : list Z :=
  let b := [] in
  let b := b ++ sk_packed (PrivateKey_sk sk) in
  let b := b ++ pk_packed (PublicKey_pk (PrivateKey_PublicKey sk)) in
  let b := b ++ pk_h (PublicKey_pk (PrivateKey_PublicKey sk)) in
  let b := b ++ PrivateKey_z sk in
  b.

(** [ParameterSet.PrivateKeyFromBytes(b []byte) (PrivateKey, error)]. *)
Definition PrivateKeyFromBytes (p : ParameterSet) (b : list Z) : outcome PrivateKey :=
  if decide (length b <> secretKeySize p) then Err ErrInvalidKeySize
  else
    let z := replicate SymSize 0 in
    let off := indcpaSecretKeySize p in
    do pk <- indcpaPublicKey_fromBytes p (slice b off (off + publicKeySize p));
    let off := (off + publicKeySize p)%nat in
    if decide (pk_h pk <> slice b off (off + SymSize)) then Err ErrInvalidPrivateKey
    else
      let off := (off + SymSize)%nat in
      let z := gocopy z (drop off b) in
      do sk <- indcpaSecretKey_fromBytes p (take (indcpaSecretKeySize p) b);
      Ok {| PrivateKey_PublicKey := {| PublicKey_pk := pk; PublicKey_p := p |};
            PrivateKey_sk := sk;
            PrivateKey_z := z |}.

(** [PublicKey.Bytes() []byte]. *)
Definition PublicKey_Bytes (pk : PublicKey) : list Z :=
  indcpaPublicKey_toBytes (PublicKey_pk pk).

(** [ParameterSet.PublicKeyFromBytes(b []byte) (PublicKey, error)]. *)
Definition PublicKeyFromBytes (p : ParameterSet) (b : list Z) : outcome PublicKey :=
  do pk <- indcpaPublicKey_fromBytes p b;
  Ok {| PublicKey_pk := pk; PublicKey_p := p |}.

(** [ParameterSet.GenerateKeyPair(rng io.Reader)]; the returned public key
    is the one embedded in the private key. *)
Definition GenerateKeyPair (fuel : nat) (p : ParameterSet) (rng : tape)
  : outcome (PublicKey * PrivateKey * tape) :=
  do (pksk, rng) <- indcpaKeyPair fuel p rng;
  let pub := {| PublicKey_pk := fst pksk; PublicKey_p := p |} in
  do (z, rng) <- ReadFull rng SymSize;
  let kp := {| PrivateKey_PublicKey := pub; PrivateKey_sk := snd pksk;
               PrivateKey_z := z |} in
  Ok (PrivateKey_PublicKey kp, kp, rng).

(** [PublicKey.KEMEncrypt(rng io.Reader) (cipherText, sharedSecret []byte, err error)]. *)
Definition KEMEncrypt (fuel : nat) (pk : PublicKey) (rng : tape)
  : outcome (list Z * list Z * tape) :=
  do (buf, rng) <- ReadFull rng SymSize;
  let buf := sha3_256 buf in
  let kr := sha3_512 (buf ++ pk_h (PublicKey_pk pk)) in
  do cipherText <- indcpaEncrypt fuel (PublicKey_p pk) buf (PublicKey_pk pk)
                                 (drop SymSize kr);
  let hc := sha3_256 cipherText in
  let kr := take SymSize kr ++ gocopy (drop SymSize kr) hc in
  let sharedSecret := sha3_256 kr in
  Ok (cipherText, sharedSecret, rng).

(** [PrivateKey.KEMDecrypt(cipherText []byte) (sharedSecret []byte)]. *)
Definition KEMDecrypt (fuel : nat) (sk : PrivateKey) (cipherText : list Z)
  : outcome (list Z) :=
  let p := PublicKey_p (PrivateKey_PublicKey sk) in
  if decide (length cipherText <> CipherTextSize p)
  then Panic (PanicError ErrInvalidCipherTextSize)
  else
    let m := indcpaDecrypt p cipherText (PrivateKey_sk sk) in
    let buf := m ++ gocopy (replicate SymSize 0)
                           (pk_h (PublicKey_pk (PrivateKey_PublicKey sk))) in
    let kr := sha3_512 buf in
    do cmp <- indcpaEncrypt fuel p (take SymSize buf)
                            (PublicKey_pk (PrivateKey_PublicKey sk)) (drop SymSize kr);
    let hc := sha3_256 cipherText in
    let kr := take SymSize kr ++ gocopy (drop SymSize kr) hc in
    let fail := ConstantTimeSelect (ConstantTimeCompare cipherText cmp) 0 1 in
    do kr_lo <- ConstantTimeCopy fail (drop SymSize kr) (PrivateKey_z sk);
    let kr := take SymSize kr ++ kr_lo in
    Ok (sha3_256 kr).

(** ** kex.go *)

Definition UAKEInitiatorMessageSize (p : ParameterSet) : nat :=
  (PublicKeySize p + CipherTextSize p)%nat.
Definition UAKEResponderMessageSize (p : ParameterSet) : nat := CipherTextSize p.
Definition AKEInitiatorMessageSize (p : ParameterSet) : nat :=
  (PublicKeySize p + CipherTextSize p)%nat.
Definition AKEResponderMessageSize (p : ParameterSet) : nat :=
  (2 * CipherTextSize p)%nat.

Record UAKEInitiatorState : Type := {
  UAKE_Message : list Z;
  UAKE_eSk : PrivateKey;
  UAKE_tk : list Z
}.

Record AKEInitiatorState : Type := {
  AKE_Message : list Z;
  AKE_eSk : PrivateKey;
  AKE_tk : list Z
}.

(** [UAKEInitiatorState.Shared(recv []byte) (sharedSecret []byte)]. *)
Definition UAKEInitiatorState_Shared (fuel : nat) (s : UAKEInitiatorState)
    (recv : list Z) : outcome (list Z) :=
  do tk <- KEMDecrypt fuel (UAKE_eSk s) recv;
  Ok (shake256 (tk ++ UAKE_tk s) SymSize).

(** [PublicKey.NewUAKEInitiatorState(rng io.Reader)]. *)
Definition NewUAKEInitiatorState (fuel : nat) (pk : PublicKey) (rng : tape)
  : outcome (UAKEInitiatorState * tape) :=
  do (kp, rng) <- GenerateKeyPair fuel (PublicKey_p pk) rng;
  let eSk := snd kp in
  let Message := PublicKey_Bytes (PrivateKey_PublicKey eSk) in
  do (cttk, rng) <- KEMEncrypt fuel pk rng;
  let Message := Message ++ fst cttk in
  Ok ({| UAKE_Message := Message; UAKE_eSk := eSk; UAKE_tk := snd cttk |}, rng).

(** A returned error that the caller turns into [panic(err)]. *)
Definition must {A : Type} (m : outcome A) : outcome A :=
  match m with
  | Err e => Panic (PanicError e)
  | _ => m
  end.

(** [PrivateKey.UAKEResponderShared(rng io.Reader, recv []byte)
    (message, sharedSecret []byte)]. *)
Definition UAKEResponderShared (fuel : nat) (sk : PrivateKey) (rng : tape)
    (recv : list Z) : outcome (list Z * list Z * tape) :=
  let p := PublicKey_p (PrivateKey_PublicKey sk) in
  let pkLen := PublicKeySize p in
  if decide (length recv <> UAKEInitiatorMessageSize p)
  then Panic (PanicError ErrInvalidMessageSize)
  else
    let rawPk := take pkLen recv in
    let ct := drop pkLen recv in
    do pk <- must (PublicKeyFromBytes p rawPk);
    do (mtk, rng) <- must (KEMEncrypt fuel pk rng);
    let message := fst mtk in
    let tk1 := snd mtk in
    do tk2 <- KEMDecrypt fuel sk ct;
    Ok (message, shake256 (tk1 ++ tk2) SymSize, rng).

(** [AKEInitiatorState.Shared(recv []byte, initiatorPrivateKey *PrivateKey)
    (sharedSecret []byte)].  The guard [initiatorPrivateKey.PublicKey.p != p]
    compares two [*ParameterSet] pointers.  A key is modelled with the value
    of its parameter set, and the value does not determine the pointer (a
    caller can hold a copy of [*Kyber768]); the outcome of the comparison is
    therefore an argument: [same_p] tells whether the two pointers are
    equal. *)
Definition AKEInitiatorState_Shared (fuel : nat) (s : AKEInitiatorState)
    (recv : list Z) (initiatorPrivateKey : PrivateKey) (same_p : bool)
  : outcome (list Z) :=
  let p := PublicKey_p (PrivateKey_PublicKey (AKE_eSk s)) in
  if negb same_p
  then Panic (PanicError ErrParameterSetMismatch)
  else if decide (length recv <> AKEResponderMessageSize p)
  then Panic (PanicError ErrInvalidMessageSize)
  else
    let ctLen := CipherTextSize p in
    do tk1 <- KEMDecrypt fuel (AKE_eSk s) (take ctLen recv);
    do tk2 <- KEMDecrypt fuel initiatorPrivateKey (drop ctLen recv);
    Ok (shake256 (tk1 ++ tk2 ++ AKE_tk s) SymSize).

(** [PublicKey.NewAKEInitiatorState(rng io.Reader)]. *)
Definition NewAKEInitiatorState (fuel : nat) (pk : PublicKey) (rng : tape)
  : outcome (AKEInitiatorState * tape) :=
  do (us, rng) <- NewUAKEInitiatorState fuel pk rng;
  Ok ({| AKE_Message := UAKE_Message us; AKE_eSk := UAKE_eSk us;
         AKE_tk := UAKE_tk us |}, rng).

(** [PrivateKey.AKEResponderShared(rng io.Reader, recv []byte,
    peerPublicKey *PublicKey) (message, sharedSecret []byte)].  The guard
    [peerPublicKey.p != p] compares two [*ParameterSet] pointers; as in
    [AKEInitiatorState_Shared], [same_p] tells whether they are equal. *)
Definition AKEResponderShared (fuel : nat) (sk : PrivateKey) (rng : tape)
    (recv : list Z) (peerPublicKey : PublicKey) (same_p : bool)
  : outcome (list Z * list Z * tape) :=
  let p := PublicKey_p (PrivateKey_PublicKey sk) in
  let pkLen := PublicKeySize p in
  if negb same_p
  then Panic (PanicError ErrParameterSetMismatch)
  else if decide (length recv <> AKEInitiatorMessageSize p)
  then Panic (PanicError ErrInvalidMessageSize)
  else
    let rawPk := take pkLen recv in
    let ct := drop pkLen recv in
    do pk <- must (PublicKeyFromBytes p rawPk);
    do (tmptk1, rng) <- must (KEMEncrypt fuel pk rng);
    let message := [] ++ fst tmptk1 in
    do (tmptk2, rng) <- must (KEMEncrypt fuel peerPublicKey rng);
    let message := message ++ fst tmptk2 in
    do tk3 <- KEMDecrypt fuel sk ct;
    Ok (message, shake256 (snd tmptk1 ++ snd tmptk2 ++ tk3) SymSize, rng).

End WithSponge.

(** ** Assumptions on the sponge, and a small instance *)

(** Candidate [g] of a SHAKE-128 stream [s] in [genMatrix], and the number
    of candidates below [n] that the rejection test accepts. *)
Definition xof_candidate (s : nat -> Z) (g : nat) : Z :=
  (s (2 * g)%nat .| shl16 (s (2 * g + 1)%nat) 8) .& 0x1fff.

Fixpoint accepted_upto (s : nat -> Z) (n : nat) : nat :=
  match n with
  | O => O
  | S n' =>
      let hit := if decide (xof_candidate s n' < kyberQ) then 1%nat else 0%nat in
      (accepted_upto s n' + hit)%nat
  end.

Definition is_byte (b : Z) : Prop := 0 <= b < 256.

(** What the library relies on: digest lengths, outputs that are bytes, and
    a SHAKE-128 stream that eventually delivers [kyberN] accepted
    candidates. *)
Class SpongeLaws (sponge : Sponge) : Prop := {
  sha3_256_length : forall x, length (sha3_256 x) = 32%nat;
  sha3_512_length : forall x, length (sha3_512 x) = 64%nat;
  shake256_length : forall x n, length (shake256 x n) = n;
  shake256_bytes : forall x n, Forall is_byte (shake256 x n);
  shake128_bytes : forall x i, is_byte (shake128 x i);
  shake128_productive :
    forall x, exists n, (kyberN <= accepted_upto (shake128 x) n)%nat
}.

(** A stand-in sponge, used to run the definitions on concrete inputs. *)
Definition toy_digest (n : nat) (x : list Z) : list Z :=
  map (fun i : nat => (fold_left Z.add x 1 + Z.of_nat i) mod 256) (seq 0 n).

Definition toy_sponge : Sponge := {|
  sha3_256 := toy_digest 32;
  sha3_512 := toy_digest 64;
  shake256 := fun x n => toy_digest n x;
  shake128 := fun _ _ => 0
|}.


(** What [GenerateKeyPair] and [PublicKeyFromBytes] leave in a public key:
    a packed key of the size of the parameter set and a 32-byte digest. *)
Definition wf_PublicKey (pk : PublicKey) : Prop :=
  let p := PublicKey_p pk in
  is_parameter_set p /\
  length (pk_packed (PublicKey_pk pk)) = indcpaPublicKeySize p /\
  length (pk_h (PublicKey_pk pk)) = SymSize.

(** What [GenerateKeyPair], [PrivateKeyFromBytes] and the tests leave in a
    private key: buffers of the sizes of the parameter set. *)
Definition wf_PrivateKey (sk : PrivateKey) : Prop :=
  let p := PublicKey_p (PrivateKey_PublicKey sk) in
  is_parameter_set p /\
  length (sk_packed (PrivateKey_sk sk)) = indcpaSecretKeySize p /\
  length (pk_packed (PublicKey_pk (PrivateKey_PublicKey sk))) = indcpaPublicKeySize p /\
  length (pk_h (PublicKey_pk (PrivateKey_PublicKey sk))) = SymSize /\
  length (PrivateKey_z sk) = SymSize.

(** Bounded universal quantification over [x, x + n), decided by
    enumeration. *)
Fixpoint forall_from (n : nat) (x : Z) (f : Z -> bool) : bool :=
  match n with
  | O => true
  | S n' => f x && forall_from n' (x + 1) f
  end.

(** Upper bound of the Barrett output when the input is at most [h]. *)
Definition barrett_hi (h : Z) : Z :=
  if h <? 2 ^ 13 then h else 2 ^ 13 - 1 + 511 * (h / 2 ^ 13).

Definition freeze_ok (x : Z) : bool :=
  (0 <=? freeze x) && (freeze x <? kyberQ) && (freeze x =? x mod kyberQ).

(** ** Proof devices: one group of each packing *)

(** The bodies of the packing loops, as functions of the values of one
    group; the packing functions above are these bodies applied to the
    group read at each iteration (lemmas [*_groups] below). *)
Definition pack13 (t0 t1 t2 t3 t4 t5 t6 t7 : Z) : list Z :=
  [ u8 (t0 .& 255);
    u8 ((t0 >> 8) .| shl16 (t1 .& 7) 5);
    u8 ((t1 >> 3) .& 255);
    u8 ((t1 >> 11) .| shl16 (t2 .& 63) 2);
    u8 ((t2 >> 6) .| shl16 (t3 .& 1) 7);
    u8 ((t3 >> 1) .& 255);
    u8 ((t3 >> 9) .| shl16 (t4 .& 15) 4);
    u8 ((t4 >> 4) .& 255);
    u8 ((t4 >> 12) .| shl16 (t5 .& 127) 1);
    u8 ((t5 >> 7) .| shl16 (t6 .& 3) 6);
    u8 ((t6 >> 2) .& 255);
    u8 ((t6 >> 10) .| shl16 (t7 .& 31) 3);
    u8 (t7 >> 5) ].

Definition unpack13 (b0 b1 b2 b3 b4 b5 b6 b7 b8 b9 b10 b11 b12 : Z) : list Z :=
  [ b0 .| shl16 (b1 .& 31) 8;
    (b1 >> 5) .| shl16 (b2) 3 .| shl16 (b3 .& 3) 11;
    (b3 >> 2) .| shl16 (b4 .& 127) 6;
    (b4 >> 7) .| shl16 (b5) 1 .| shl16 (b6 .& 15) 9;
    (b6 >> 4) .| shl16 (b7) 4 .| shl16 (b8 .& 1) 12;
    (b8 >> 1) .| shl16 (b9 .& 63) 7;
    (b9 >> 6) .| shl16 (b10) 2 .| shl16 (b11 .& 7) 10;
    (b11 >> 3) .| shl16 (b12) 5 ].

Definition quant3 (c : Z) : Z := (u16 (shl16 c 3 + kyberQ / 2) / kyberQ) .& 7.

Definition pack3 (t0 t1 t2 t3 t4 t5 t6 t7 : Z) : list Z :=
  [ u8 (t0 .| shl32 (t1) 3 .| shl32 (t2) 6);
    u8 ((t2 >> 2) .| shl32 (t3) 1 .| shl32 (t4) 4 .| shl32 (t5) 7);
    u8 ((t5 >> 1) .| shl32 (t6) 2 .| shl32 (t7) 5) ].

Definition scale3 (x : Z) : Z := u16 (u16 (x * kyberQ) + 4) >> 3.

Definition unpack3 (a0 a1 a2 : Z) : list Z :=
  [ (a0 .& 7);
    ((a0 >> 3) .& 7);
    ((a0 >> 6) .| (shl8 a1 2 .& 4));
    ((a1 >> 1) .& 7);
    ((a1 >> 4) .& 7);
    ((a1 >> 7) .| (shl8 a2 1 .& 6));
    ((a2 >> 2) .& 7);
    (a2 >> 5) ].

Definition quant11 (c : Z) : Z :=
  u16 ((u32 (shl32 c 11 + kyberQ / 2) / kyberQ) .& 0x7ff).

Definition pack11 (t0 t1 t2 t3 t4 t5 t6 t7 : Z) : list Z :=
  [ u8 (t0 .& 0xff);
    u8 ((t0 >> 8) .| shl16 (t1 .& 0x1f) 3);
    u8 ((t1 >> 5) .| shl16 (t2 .& 0x03) 6);
    u8 ((t2 >> 2) .& 0xff);
    u8 ((t2 >> 10) .| shl16 (t3 .& 0x7f) 1);
    u8 ((t3 >> 7) .| shl16 (t4 .& 0x0f) 4);
    u8 ((t4 >> 4) .| shl16 (t5 .& 0x01) 7);
    u8 ((t5 >> 1) .& 0xff);
    u8 ((t5 >> 9) .| shl16 (t6 .& 0x3f) 2);
    u8 ((t6 >> 6) .| shl16 (t7 .& 0x07) 5);
    u8 (t7 >> 3) ].

Definition scale11 (x : Z) : Z := u16 (u32 (u32 (x * kyberQ) + 1024) >> 11).

Definition unpack11 (b0 b1 b2 b3 b4 b5 b6 b7 b8 b9 b10 : Z) : list Z :=
  [ (b0 .| shl32 (b1 .& 0x07) 8);
    ((b1 >> 3) .| shl32 (b2 .& 0x3f) 5);
    ((b2 >> 6) .| shl32 (b3 .& 0xff) 2 .| shl32 (b4 .& 0x01) 10);
    ((b4 >> 1) .| shl32 (b5 .& 0x0f) 7);
    ((b5 >> 4) .| shl32 (b6 .& 0x7f) 4);
    ((b6 >> 7) .| shl32 (b7 .& 0xff) 1 .| shl32 (b8 .& 0x03) 9);
    ((b8 >> 2) .| shl32 (b9 .& 0x1f) 6);
    ((b9 >> 5) .| shl32 (b10 .& 0xff) 3) ].

(** ** Coefficient ranges *)

(** A polynomial: [kyberN] coefficients, all in [0, bound). *)
Definition poly_below (bound : Z) (p : poly) : Prop :=
  length p = kyberN /\ Forall (fun c : Z => 0 <= c < bound) p.

Definition quant3_scale3_ok (x : Z) : bool := quant3 (freeze (scale3 x)) =? x.

Definition quant11_scale11_ok (x : Z) : bool := quant11 (freeze (scale11 x)) =? x.

(** ** Proof devices: the transforms over an arbitrary coefficient domain *)

(** The loops of [nttRef] and [invnttRef] with the arithmetic of one
    butterfly abstracted: [bf level zeta x y] maps the pair
    [(p[j], p[j+distance])] to its new values.  Instantiated with the
    arithmetic of the source ([ntt_bf], [invntt_bf], [invntt_scale]) they
    are [nttRef] and [invnttRef]; instantiated with [abs_*] they compute
    bounds and linear forms for all inputs at once. *)
Section GenericTransforms.
Context {A : Type} `{Inhabited A}.
Variable bf : nat -> Z -> A -> A -> A * A.
Variable ibf : nat -> Z -> A -> A -> A * A.
Variable fm : Z -> A -> A.

Fixpoint gntt_inner (n level : nat) (zeta : Z) (distance j : nat) (p : list A)
  : list A * nat :=
  match n with
  | O => (p, j)
  | S n' =>
      let xy := bf level zeta (p !!! j) (p !!! (j + distance)%nat) in
      let p := <[(j + distance)%nat := snd xy]> p in
      let p := <[j := fst xy]> p in
      gntt_inner n' level zeta distance (S j) p
  end.

Fixpoint gntt_starts (fuel level distance start k : nat) (p : list A) : list A * nat :=
  match fuel with
  | O => (p, k)
  | S fuel' =>
      if decide (start < kyberN)%nat then
        let zeta := zetas !!! k in
        let '(p, j) := gntt_inner distance level zeta distance start p in
        gntt_starts fuel' level distance (j + distance)%nat (S k) p
      else (p, k)
  end.

Definition gnttRef (p : list A) : list A :=
  fst (fold_left (fun (st : list A * nat) (level : nat) =>
                    gntt_starts kyberN level (2 ^ level)%nat 0 (snd st) (fst st))
                 (rev (seq 0 8)) (p, 1%nat)).

Fixpoint ginvntt_inner (fuel level distance j jTwiddle : nat) (a : list A) : list A :=
  match fuel with
  | O => a
  | S fuel' =>
      if decide (j < kyberN - 1)%nat then
        let w := omegasInvBitrevMontgomery !!! jTwiddle in
        let xy := ibf level w (a !!! j) (a !!! (j + distance)%nat) in
        let a := <[j := fst xy]> a in
        let a := <[(j + distance)%nat := snd xy]> a in
        ginvntt_inner fuel' level distance (j + 2 * distance)%nat (S jTwiddle) a
      else a
  end.

Definition ginvnttRef (a : list A) : list A :=
  let a :=
    fold_left (fun (a : list A) (level : nat) =>
                 let distance := (2 ^ level)%nat in
                 fold_left (fun (a : list A) (start : nat) =>
                              ginvntt_inner kyberN level distance start 0 a)
                           (seq 0 distance) a)
              (seq 0 8) a in
  fold_left (fun (a : list A) (i : nat) =>
               <[i := fm (psisInvMontgomery !!! i) (a !!! i)]> a)
            (seq 0 (length psisInvMontgomery)) a.

End GenericTransforms.

(** The butterflies of the source. *)
Definition ntt_bf (level : nat) (zeta x y : Z) : Z * Z :=
  let t := montgomeryReduce (u32 (zeta * y)) in
  (if Nat.odd level then u16 (x + t) else barrettReduce (u16 (x + t)),
   barrettReduce (u16 (u16 (x + 4 * kyberQ) - t))).

Definition invntt_bf (level : nat) (w x y : Z) : Z * Z :=
  (if Nat.odd level then barrettReduce (u16 (x + y)) else u16 (x + y),
   montgomeryReduce (u32 (w * u32 (u32 (x + 4 * kyberQ) - y)))).

Definition invntt_scale (psi x : Z) : Z := montgomeryReduce (u32 (x * psi)).

(** Linear forms over the input coefficients, with coefficients modulo q;
    a missing tail counts as zeros. *)
Fixpoint form_eval (f env : list Z) : Z :=
  match f, env with
  | c :: f', x :: env' => c * x + form_eval f' env'
  | _, _ => 0
  end.

Fixpoint form_add (f g : list Z) : list Z :=
  match f, g with
  | [], _ => map (fun y => y mod kyberQ) g
  | _, [] => map (fun x => x mod kyberQ) f
  | x :: f', y :: g' => (x + y) mod kyberQ :: form_add f' g'
  end.

Fixpoint form_sub (f g : list Z) : list Z :=
  match f, g with
  | [], _ => map (fun y => (- y) mod kyberQ) g
  | _, [] => map (fun x => x mod kyberQ) f
  | x :: f', y :: g' => (x - y) mod kyberQ :: form_sub f' g'
  end.

Definition form_scale (c : Z) (f : list Z) : list Z :=
  map (fun x => (c * x) mod kyberQ) f.

Fixpoint form_unit (n i : nat) : list Z :=
  match n with
  | O => []
  | S n' =>
      match i with
      | O => 1 :: replicate n' 0
      | S i' => 0 :: form_unit n' i'
      end
  end.

(** An abstract coefficient: every concrete value it stands for lies in
    [0, a_hi] and is congruent modulo q to the form [a_form] of the input
    coefficients.  [None] stands for any value. *)
Record aval : Type := { a_hi : Z; a_form : list Z }.

Definition mont_hi (h : Z) : Z := (h + (2 ^ 18 - 1) * kyberQ) / 2 ^ 18.

Definition abs_ntt_bf (level : nat) (zeta : Z) (x y : option aval)
  : option aval * option aval :=
  match x, y with
  | Some x, Some y =>
      let thi := mont_hi (zeta * a_hi y) in
      let tform := form_scale (zeta * montRinv) (a_form y) in
      if (zeta * a_hi y + (2 ^ 18 - 1) * kyberQ <? 2 ^ 32)
         && (a_hi x + 4 * kyberQ <? 2 ^ 16) && (thi <=? 4 * kyberQ)
         && (a_hi x + thi <? 2 ^ 16)
      then
        (Some {| a_hi := if Nat.odd level then a_hi x + thi
                         else barrett_hi (a_hi x + thi);
                 a_form := form_add (a_form x) tform |},
         Some {| a_hi := barrett_hi (a_hi x + 4 * kyberQ);
                 a_form := form_sub (a_form x) tform |})
      else (None, None)
  | _, _ => (None, None)
  end.

Definition abs_invntt_bf (level : nat) (w : Z) (x y : option aval)
  : option aval * option aval :=
  match x, y with
  | Some x, Some y =>
      let thi := w * (a_hi x + 4 * kyberQ) in
      if (a_hi x + a_hi y <? 2 ^ 16) && (a_hi y <=? 4 * kyberQ)
         && (a_hi x + 4 * kyberQ <? 2 ^ 32)
         && (thi + (2 ^ 18 - 1) * kyberQ <? 2 ^ 32)
      then
        (Some {| a_hi := if Nat.odd level then barrett_hi (a_hi x + a_hi y)
                         else a_hi x + a_hi y;
                 a_form := form_add (a_form x) (a_form y) |},
         Some {| a_hi := mont_hi thi;
                 a_form := form_scale (w * montRinv)
                             (form_sub (a_form x) (a_form y)) |})
      else (None, None)
  | _, _ => (None, None)
  end.

Definition abs_invntt_scale (psi : Z) (x : option aval) : option aval :=
  match x with
  | Some x =>
      if a_hi x * psi + (2 ^ 18 - 1) * kyberQ <? 2 ^ 32
      then Some {| a_hi := mont_hi (a_hi x * psi);
                   a_form := form_scale (psi * montRinv) (a_form x) |}
      else None
  | None => None
  end.

(** The abstract polynomial that stands for every polynomial with
    coefficients in [0, bound]: coefficient [i] is the input coefficient
    [i] itself. *)
Definition abs_input (bound : Z) : list (option aval) :=
  map (fun i : nat => Some {| a_hi := bound; a_form := form_unit kyberN i |})
      (seq 0 kyberN).

Fixpoint list_Z_eqb (l1 l2 : list Z) : bool :=
  match l1, l2 with
  | [], [] => true
  | x :: l1', y :: l2' => (x =? y) && list_Z_eqb l1' l2'
  | _, _ => false
  end.

(** Every abstract coefficient is bounded by [bound]. *)
Definition abs_all_below (bound : Z) (l : list (option aval)) : bool :=
  forallb (fun x : option aval =>
             match x with
             | Some x => a_hi x <? bound
             | None => false
             end) l.

(** Every abstract coefficient is bounded by [bound], and coefficient [i]
    is congruent to input coefficient [i]. *)
Fixpoint abs_all_identity (bound : Z) (i : nat) (l : list (option aval)) : bool :=
  match l with
  | [] => true
  | x :: l' =>
      match x with
      | Some x => (a_hi x <? bound) && list_Z_eqb (a_form x) (form_unit kyberN i)
      | None => false
      end && abs_all_identity bound (S i) l'
  end.

(** Concrete value [v] is one of those the abstract coefficient [a] stands
    for, when the input polynomial is [env]. *)
Definition absR (env : list Z) (v : Z) (a : option aval) : Prop :=
  match a with
  | None => True
  | Some a =>
      0 <= v <= a_hi a /\ v mod kyberQ = form_eval (a_form a) env mod kyberQ
  end.

Definition table_below_q (t : list Z) : bool :=
  forallb (fun z : Z => (0 <=? z) && (z <? kyberQ)) t.

(** ** Proof devices: the arithmetic without wrap-around *)

(** The coefficient arithmetic of [pointwiseAccRef] and of the butterflies
    with every 16-bit and 32-bit sum, difference and product left
    unreduced.  Where these agree with the source, no such operation
    wraps. *)
Definition pointwiseAcc_nowrap (a b : list (list Z)) : list Z :=
  map (fun j : nat =>
    let t := montgomeryReduce (4613 * (b !!! 0%nat) !!! j) in
    let pj := montgomeryReduce ((a !!! 0%nat) !!! j * t) in
    let pj := fold_left (fun (pj : Z) (i : nat) =>
                let t := montgomeryReduce (4613 * (b !!! i) !!! j) in
                pj + montgomeryReduce ((a !!! i) !!! j * t))
              (seq 1 (length a - 1)) pj in
    barrettReduce pj)
  (seq 0 kyberN).

Definition ntt_bf_nowrap (level : nat) (zeta x y : Z) : Z * Z :=
  let t := montgomeryReduce (zeta * y) in
  (if Nat.odd level then x + t else barrettReduce (x + t),
   barrettReduce (x + 4 * kyberQ - t)).

Definition invntt_bf_nowrap (level : nat) (w x y : Z) : Z * Z :=
  (if Nat.odd level then barrettReduce (x + y) else x + y,
   montgomeryReduce (w * (x + 4 * kyberQ - y))).

Definition invntt_scale_nowrap (psi x : Z) : Z := montgomeryReduce (x * psi).

(** Two coefficient domains run side by side. *)
Definition pair_bf {A B : Type} (f : nat -> Z -> A -> A -> A * A)
    (g : nat -> Z -> B -> B -> B * B) (level : nat) (z : Z) (x y : A * B)
  : (A * B) * (A * B) :=
  ((fst (f level z (fst x) (fst y)), fst (g level z (snd x) (snd y))),
   (snd (f level z (fst x) (fst y)), snd (g level z (snd x) (snd y)))).

Definition pair_fm {A B : Type} (f : Z -> A -> A) (g : Z -> B -> B) (psi : Z)
    (x : A * B) : A * B :=
  (f psi (fst x), g psi (snd x)).

(** [v] is the value [fst b] computed without wrap-around whenever the
    abstract coefficient [snd b] carries a bound, and is described by it. *)
Definition nowrapR (env : list Z) (v : Z) (b : Z * option aval) : Prop :=
  absR env v (snd b) /\ (snd b <> None -> v = fst b).

(** The rejection loop of [genMatrix] read off the SHAKE-128 stream [s]
    directly: candidate [g] is examined at each turn, whatever the
    buffering. *)
Fixpoint sample_stream (fuel : nat) (s : nat -> Z) (g ctr : nat) (p : list Z)
  : outcome (list Z) :=
  match fuel with
  | O => OutOfFuel
  | S fuel' =>
      if decide (ctr < kyberN)%nat then
        let val := xof_candidate s g in
        let '(p, ctr) := if decide (val < kyberQ) then (<[ctr := val]> p, S ctr)
                         else (p, ctr) in
        sample_stream fuel' s (S g) ctr p
      else Ok p
  end.

(** ** Reference values for the arithmetic of the polynomial operations *)

(** Coefficient [j] of the inner product of two vectors, over the integers. *)
Definition inner_product_at (a b : list (list Z)) (j : nat) : Z :=
  fold_right Z.add 0
    (map (fun i : nat => (a !!! i) !!! j * (b !!! i) !!! j) (seq 0 (length a))).

(** The bit that [poly.toMsg] reads off one coefficient, and the check that
    the eight bits of a byte are put back in place. *)
Definition msg_bit (c : Z) : Z :=
  (u16 (shl16 (freeze c) 1 + kyberQ / 2) / kyberQ) .& 1.

Definition msg_byte_ok (v : Z) : bool :=
  fold_left (fun (m : Z) (j : nat) =>
               m .| u8 (shl16 ((v >> Z.of_nat j) .& 1) (Z.of_nat j)))
            (seq 0 8) 0 =? v.

(** Distance of two values modulo q, and the checks of the rounding error
    of the two compressions on a canonical coefficient. *)
Definition dist_q (x y : Z) : Z :=
  Z.min ((x - y) mod kyberQ) ((y - x) mod kyberQ).

Definition compress3_error_ok (x : Z) : bool :=
  dist_q x (scale3 (quant3 x)) <=? 480.

Definition compress11_error_ok (x : Z) : bool :=
  dist_q x (scale11 (quant11 x)) <=? 2.

(** The 13-bit candidates below q among the first [n] candidates of a
    SHAKE-128 stream, in stream order. *)
Definition accepted_candidates (s : nat -> Z) (n : nat) : list Z :=
  List.filter (fun c : Z => c <? kyberQ) (map (xof_candidate s) (seq 0 n)).

Section ExtSeed.
Context {sponge : Sponge}.

(** The SHAKE-128 input of [genMatrix] for the polynomial at row [i],
    column [j]. *)
Definition genMatrix_extSeed (seed : list Z) (transposed : bool) (i j : nat) : list Z :=
  if transposed
  then gocopy (replicate SymSize 0) seed ++ [u8 (Z.of_nat i); u8 (Z.of_nat j)]
  else gocopy (replicate SymSize 0) seed ++ [u8 (Z.of_nat j); u8 (Z.of_nat i)].

End ExtSeed.

(** Byte tapes for running the definitions on concrete inputs. *)
Definition sample_tape (a b : Z) (n : nat) : list Z :=
  map (fun i : nat => (a * Z.of_nat i + b) mod 256) (seq 0 n).

(** A private key with constant buffers of the sizes of [p]. *)
Definition sample_PrivateKey (p : ParameterSet) : PrivateKey :=
  {| PrivateKey_PublicKey :=
       {| PublicKey_pk := {| pk_packed := replicate (indcpaPublicKeySize p) 0;
                             pk_h := replicate SymSize 0 |};
          PublicKey_p := p |};
     PrivateKey_sk := {| sk_packed := replicate (indcpaSecretKeySize p) 0 |};
     PrivateKey_z := replicate SymSize 1 |}.

(** ** What the transforms compute *)

(** Reversal of the eight low bits of an index. *)
Definition brv8 (i : nat) : nat :=
  Z.to_nat
    (fold_left (fun (acc : Z) (b : nat) =>
                  if Z.testbit (Z.of_nat i) (Z.of_nat b)
                  then acc + 2 ^ (7 - Z.of_nat b) else acc)
               (seq 0 8) 0).

(** [b^e] modulo q, and the list [c, c*z, c*z^2, ...] of [n] values modulo q. *)
Definition powmod (b : Z) (e : nat) : Z :=
  Nat.iter e (fun x : Z => (x * b) mod kyberQ) 1.

Fixpoint powers (z c : Z) (n : nat) : list Z :=
  match n with
  | O => []
  | S n' => c :: powers z ((c * z) mod kyberQ) n'
  end.

(** The value modulo q of the polynomial with coefficients [p] at [z]. *)
Definition poly_eval_at (p : list Z) (z : Z) : Z :=
  fold_right (fun (c acc : Z) => (c + z * acc) mod kyberQ) 0 p.

(** The primitive 512th root of unity psi = 62 modulo q, and the point at
    which output [i] of the forward transform evaluates
    its input, psi^(2*brv8(i)+1). *)
Definition kyberPsi : Z := 62.
Definition ntt_point (i : nat) : Z := powmod kyberPsi (2 * brv8 i + 1).

(** Abstract coefficient [i0 + k] of [l] carries the linear form [rows (i0 + k)]. *)
Fixpoint abs_forms_match (rows : nat -> list Z) (i : nat) (l : list (option aval))
  : bool :=
  match l with
  | [] => true
  | x :: l' =>
      match x with
      | Some x => list_Z_eqb (a_form x) (rows i)
      | None => false
      end && abs_forms_match rows (S i) l'
  end.


(** ** The noise distribution *)

(** Bit [n] of a byte buffer, the least significant bit of byte 0 first. *)
Definition buf_bit (buf : list Z) (n : nat) : Z :=
  Z.b2z (Z.testbit (buf !!! (n / 8)%nat) (Z.of_nat (n mod 8))).

(** Number of bits set among the [len] bits of the buffer from bit [start]. *)
Definition popcount_at (buf : list Z) (start len : nat) : Z :=
  fold_right Z.add 0 (map (buf_bit buf) (seq start len)).

(** The same count on an integer. *)
Definition bits_sum (t : Z) (s len : nat) : Z :=
  fold_right Z.add 0
    (map (fun j : nat => Z.b2z (Z.testbit t (Z.of_nat j))) (seq s len)).

(** The mask with the lowest bit of each of [m] fields of [e] bits set
    ([0x249249], [0x11111111] and [0x0842108421] in [cbdRef]), and the sum
    [d] of the masked shifts of [t] that [cbdRef] accumulates. *)
Fixpoint cbd_mask (e : Z) (m : nat) : Z :=
  match m with
  | O => 0
  | S m => 1 + 2 ^ e * cbd_mask e m
  end.

Definition cbd_fields (e m : nat) (t : Z) : Z :=
  fold_right Z.add 0
    (map (fun j : nat => (t >> Z.of_nat j) .& cbd_mask (Z.of_nat e) m) (seq 0 e)).

(** ** Multiplication modulo X^256 + 1 *)

(** Polynomials over Z as lists, the constant coefficient first. *)
Definition evalZ (p : list Z) (z : Z) : Z :=
  fold_right (fun c acc : Z => c + z * acc) 0 p.

Definition poly_scale (c : Z) (p : list Z) : list Z := map (Z.mul c) p.

Fixpoint poly_plus (p r : list Z) : list Z :=
  match p, r with
  | [], _ => r
  | _, [] => p
  | x :: p', y :: r' => x + y :: poly_plus p' r'
  end.

(** The product of two polynomials. *)
Fixpoint poly_mul (p r : list Z) : list Z :=
  match p with
  | [] => []
  | c :: p' => poly_plus (poly_scale c r) (0 :: poly_mul p' r)
  end.

(** Reduction modulo X^256 + 1: X^(256 + k) is -X^k. *)
Definition negacyclic (m : list Z) : list Z :=
  map (fun k : nat => nth k m 0 - nth (kyberN + k) m 0) (seq 0 kyberN).

(** Coefficient [k] of the sum over [i] of the products [a[i] * b[i]]
    modulo X^256 + 1. *)
Definition negacyclic_acc (a b : list (list Z)) (k : nat) : Z :=
  fold_right Z.add 0
    (map (fun i : nat => nth k (negacyclic (poly_mul (a !!! i) (b !!! i))) 0)
         (seq 0 (length a))).
(* ================================================================== *)
(** * Properties *)
(* ================================================================== *)

(** ** Facts about the reductions *)

Lemma montRinv_spec : (montR * montRinv) mod kyberQ = 1.
Proof. reflexivity. Qed.

Lemma u16_small x : 0 <= x < 65536 -> u16 x = x.
Proof. intros H. unfold u16. now apply Z.mod_small. Qed.

Lemma u32_small x : 0 <= x < 4294967296 -> u32 x = x.
Proof. intros H. unfold u32. now apply Z.mod_small. Qed.

Lemma u8_small x : 0 <= x < 256 -> u8 x = x.
Proof. intros H. unfold u8. now apply Z.mod_small. Qed.

Lemma u16_range x : 0 <= u16 x < 65536.
Proof. unfold u16. apply Z.mod_pos_bound. lia. Qed.

Lemma u8_range x : 0 <= u8 x < 256.
Proof. unfold u8. apply Z.mod_pos_bound. lia. Qed.

(** Without wrap-around the Montgomery reduction is an exact division:
    [a + u*q] is a multiple of [R], with [u < R]. *)
Lemma montgomeryReduce_exact a :
  0 <= a -> a + (2 ^ 18 - 1) * kyberQ < 2 ^ 32 ->
  exists u, 0 <= u < 2 ^ 18 /\ montgomeryReduce a * 2 ^ 18 = a + u * kyberQ.
Proof.
  intros Ha Hb. unfold montgomeryReduce, rlog, qinv, kyberQ in *.
  change (shl32 1 18 - 1) with (Z.ones 18).
  rewrite Z.land_ones by lia. rewrite Z.shiftr_div_pow2 by lia.
  set (u := u32 (a * 7679) mod 2 ^ 18).
  assert (Hu : 0 <= u < 2 ^ 18) by (apply Z.mod_pos_bound; lia).
  assert (Hu' : u = (a * 7679) mod 2 ^ 18).
  { unfold u, u32. apply Z.mod_mod_divide. exists (2 ^ 14). reflexivity. }
  exists u. split; [exact Hu|].
  rewrite (u32_small (u * 7681)) by nia.
  rewrite (u32_small (a + u * 7681)) by nia.
  assert (Hdiv : (a + u * 7681) mod 2 ^ 18 = 0).
  { rewrite Hu'. rewrite Z.add_mod by lia.
    rewrite (Z.mul_mod (_ mod _)) by lia. rewrite Z.mod_mod by lia.
    rewrite <- Z.mul_mod by lia. rewrite <- Z.add_mod by lia.
    replace (a + a * 7679 * 7681) with (a * 225 * 2 ^ 18) by lia.
    apply Z_mod_mult. }
  pose proof (Z.div_mod (a + u * 7681) (2 ^ 18) ltac:(lia)) as Hdm.
  rewrite Hdiv in Hdm.
  rewrite u16_small; [lia|].
  split; [apply Z.div_pos; lia|].
  apply Z.div_lt_upper_bound; nia.
Qed.

Lemma montgomeryReduce_bound a h :
  0 <= a <= h -> h + (2 ^ 18 - 1) * kyberQ < 2 ^ 32 ->
  0 <= montgomeryReduce a <= (h + (2 ^ 18 - 1) * kyberQ) / 2 ^ 18.
Proof.
  intros Ha Hh.
  destruct (montgomeryReduce_exact a) as (u & Hu & E); [lia|lia|].
  split; [unfold kyberQ in *; nia|].
  apply Z.div_le_lower_bound; [lia|]. unfold kyberQ in *. nia.
Qed.

Lemma montgomeryReduce_congr a :
  0 <= a -> a + (2 ^ 18 - 1) * kyberQ < 2 ^ 32 ->
  montgomeryReduce a mod kyberQ = (a * montRinv) mod kyberQ.
Proof.
  intros Ha Hb.
  destruct (montgomeryReduce_exact a) as (u & Hu & E); [lia|lia|].
  set (r := montgomeryReduce a) in *.
  assert (H1 : (r * 2 ^ 18 * montRinv) mod kyberQ = (a * montRinv) mod kyberQ).
  { rewrite E. rewrite Z.mul_add_distr_r.
    replace (u * kyberQ * montRinv) with (u * montRinv * kyberQ) by lia.
    apply Z_mod_plus_full. }
  rewrite <- H1.
  replace (r * 2 ^ 18 * montRinv) with (r * (montR * montRinv)) by (unfold montR, rlog; lia).
  rewrite Z.mul_mod by (unfold kyberQ; lia).
  rewrite montRinv_spec. rewrite Z.mul_1_r. symmetry. apply Z.mod_mod.
  unfold kyberQ; lia.
Qed.

Lemma forall_from_spec n f :
  forall x0, forall_from n x0 f = true ->
  forall x, x0 <= x < x0 + Z.of_nat n -> f x = true.
Proof.
  induction n as [|n IH]; intros x0 H x Hx; [lia|].
  simpl in H. apply andb_true_iff in H as [H1 H2].
  destruct (Z.eq_dec x x0) as [->|Hne]; [exact H1|].
  apply (IH (x0 + 1)); [exact H2|lia].
Qed.

(** Barrett reduction subtracts [floor(a / 2^13) * q] and never wraps. *)
Lemma barrettReduce_eq a :
  0 <= a < 2 ^ 16 -> barrettReduce a = a - (a / 2 ^ 13) * kyberQ.
Proof.
  intros Ha. unfold barrettReduce, kyberQ.
  rewrite Z.shiftr_div_pow2 by lia.
  assert (0 <= a / 2 ^ 13 < 8).
  { split; [apply Z.div_pos; lia|apply Z.div_lt_upper_bound; lia]. }
  pose proof (Z.div_mod a (2 ^ 13) ltac:(lia)).
  pose proof (Z.mod_pos_bound a (2 ^ 13) ltac:(lia)).
  rewrite u32_small by lia. rewrite (u16_small (_ * _)) by lia.
  apply u16_small. lia.
Qed.

Lemma barrettReduce_congr a :
  0 <= a < 2 ^ 16 -> barrettReduce a mod kyberQ = a mod kyberQ.
Proof.
  intros Ha. rewrite barrettReduce_eq by exact Ha.
  unfold Z.sub. rewrite <- Z.mul_opp_l. apply Z_mod_plus_full.
Qed.

Lemma barrettReduce_bound a h :
  0 <= a <= h -> h < 2 ^ 16 -> 0 <= barrettReduce a <= barrett_hi h.
Proof.
  intros Ha Hh. rewrite barrettReduce_eq by lia. unfold barrett_hi, kyberQ.
  pose proof (Z.div_mod a (2 ^ 13) ltac:(lia)).
  pose proof (Z.mod_pos_bound a (2 ^ 13) ltac:(lia)).
  assert (0 <= a / 2 ^ 13) by (apply Z.div_pos; lia).
  assert (a / 2 ^ 13 <= h / 2 ^ 13) by (apply Z.div_le_mono; lia).
  destruct (Z.ltb_spec h (2 ^ 13)).
  - assert (a / 2 ^ 13 = 0) by (apply Z.div_small; lia). lia.
  - lia.
Qed.

Lemma barrettReduce_lt_2q a : 0 <= a < 2 ^ 16 -> 0 <= barrettReduce a < 2 * kyberQ.
Proof.
  intros Ha. pose proof (barrettReduce_bound a 65535 ltac:(lia) ltac:(lia)) as H.
  change (barrett_hi 65535) with 11768 in H. unfold kyberQ. lia.
Qed.

Lemma freeze_ok_all : forall_from (Z.to_nat (2 ^ 16)) 0 freeze_ok = true.
Proof. vm_compute. reflexivity. Qed.

Lemma freeze_spec x : 0 <= x < 2 ^ 16 -> freeze x = x mod kyberQ.
Proof.
  intros Hx. pose proof (forall_from_spec _ _ _ freeze_ok_all x) as H.
  rewrite Z2Nat.id in H by lia. specialize (H Hx).
  unfold freeze_ok in H. apply andb_true_iff in H as [_ H].
  now apply Z.eqb_eq in H.
Qed.

Lemma freeze_range x : 0 <= x < 2 ^ 16 -> 0 <= freeze x < kyberQ.
Proof.
  intros Hx. rewrite freeze_spec by exact Hx. apply Z.mod_pos_bound. reflexivity.
Qed.

Lemma freeze_canonical x : 0 <= x < kyberQ -> freeze x = x.
Proof.
  intros Hx. rewrite freeze_spec by (unfold kyberQ in *; lia).
  now apply Z.mod_small.
Qed.

Lemma freeze_congr a b :
  0 <= a < 2 ^ 16 -> 0 <= b < 2 ^ 16 -> a mod kyberQ = b mod kyberQ ->
  freeze a = freeze b.
Proof. intros Ha Hb Hc. now rewrite !freeze_spec. Qed.

(** C4, as the spec states it, quantifies over every 32-bit input; the
    all-ones word already breaks the congruence because [a + u*q] leaves
    the 32-bit range. *)
Lemma C4_montgomery_all_inputs_fails :
  ~ (forall a, 0 <= a < 2 ^ 32 ->
       montgomeryReduce a mod kyberQ = (a * montRinv) mod kyberQ /\
       0 <= montgomeryReduce a < 2 * kyberQ).
Proof.
  intros H. destruct (H (2 ^ 32 - 1) ltac:(lia)) as [Hc _].
  vm_compute in Hc. discriminate Hc.
Qed.

(** C4 (amended): for every 32-bit [a <= (q-1)*R], with R = 2^18,
    [montgomeryReduce a] is congruent to [a * R^-1] modulo q and lies in
    [0, 2q); for every 16-bit [x], [freeze x] lies in [0, q) and is congruent
    to [x] modulo q. *)
Theorem C4_reduction_laws :
  (forall a, 0 <= a <= (kyberQ - 1) * montR ->
     montgomeryReduce a mod kyberQ = (a * montRinv) mod kyberQ /\
     (montgomeryReduce a * montR) mod kyberQ = a mod kyberQ /\
     0 <= montgomeryReduce a < 2 * kyberQ) /\
  (forall x, 0 <= x < 2 ^ 16 ->
     0 <= freeze x < kyberQ /\ freeze x mod kyberQ = x mod kyberQ).
Proof.
  split.
  - intros a Ha. unfold montR, rlog, kyberQ in Ha.
    assert (Hov : a + (2 ^ 18 - 1) * kyberQ < 2 ^ 32) by (unfold kyberQ; lia).
    split; [apply montgomeryReduce_congr; lia|].
    split.
    + destruct (montgomeryReduce_exact a) as (u & Hu & E); [lia|lia|].
      unfold montR, rlog. rewrite E. apply Z_mod_plus_full.
    + pose proof (montgomeryReduce_bound a ((7681 - 1) * 2 ^ 18) ltac:(lia)
                    ltac:(unfold kyberQ; lia)) as Hb.
      change (((7681 - 1) * 2 ^ 18 + (2 ^ 18 - 1) * kyberQ) / 2 ^ 18)
        with 15360 in Hb. unfold kyberQ. lia.
  - intros x Hx. split; [apply freeze_range; exact Hx|].
    rewrite freeze_spec by exact Hx. apply Z.mod_mod. discriminate.
Qed.

Lemma C4_reduction_laws_witness :
  (montgomeryReduce 990 mod kyberQ = (990 * montRinv) mod kyberQ /\
   (montgomeryReduce 990 * montR) mod kyberQ = 990 mod kyberQ /\
   0 <= montgomeryReduce 990 < 2 * kyberQ) /\
  (0 <= freeze 65535 < kyberQ /\ freeze 65535 mod kyberQ = 65535 mod kyberQ).
Proof.
  split.
  - apply (proj1 C4_reduction_laws 990). vm_compute. split; discriminate.
  - apply (proj2 C4_reduction_laws 65535). vm_compute. split; [discriminate|reflexivity].
Defined.
(** ** The outcome monad *)

Lemma obind_Ok {A B : Type} (m : outcome A) (f : A -> outcome B) (b : B) :
  obind m f = Ok b -> exists a, m = Ok a /\ f a = Ok b.
Proof. destruct m; simpl; intros E; try discriminate. eauto. Qed.

Lemma omapM_length {A B : Type} (f : A -> outcome B) (l : list A) (ys : list B) :
  omapM f l = Ok ys -> length ys = length l.
Proof.
  revert ys. induction l as [|x l IH]; simpl; intros ys E.
  - now inversion E.
  - apply obind_Ok in E as (y & _ & E). apply obind_Ok in E as (ys' & E' & E).
    inversion E; subst. simpl. f_equal. now apply IH.
Qed.

(** ** Lengths of the serialisations *)

Lemma flat_map_length_const {A B : Type} (f : A -> list B) (c : nat) (l : list A) :
  (forall x, length (f x) = c) -> length (flat_map f l) = (length l * c)%nat.
Proof.
  intros Hf. induction l as [|x l IH]; simpl; [reflexivity|].
  rewrite length_app, Hf, IH. reflexivity.
Qed.

Lemma poly_toBytes_length p : length (poly_toBytes p) = polySize.
Proof.
  unfold poly_toBytes. rewrite (flat_map_length_const _ 13); [reflexivity|].
  intros i. reflexivity.
Qed.

Lemma poly_compress_length p : length (poly_compress p) = polyCompressedSize.
Proof.
  unfold poly_compress. rewrite (flat_map_length_const _ 3); [reflexivity|].
  intros i. reflexivity.
Qed.

Lemma polyVec_toBytes_length v :
  length (polyVec_toBytes v) = (length v * polySize)%nat.
Proof. apply flat_map_length_const, poly_toBytes_length. Qed.

Lemma polyVec_compress_length v :
  length (polyVec_compress v) = (length v * compressedCoeffSize)%nat.
Proof.
  apply flat_map_length_const. intros vec.
  rewrite (flat_map_length_const _ 11); [reflexivity|]. intros j. reflexivity.
Qed.

Lemma gocopy_full (dst src : list Z) : length dst = length src -> gocopy dst src = src.
Proof.
  intros E. unfold gocopy. rewrite E, firstn_all, drop_ge by lia.
  apply app_nil_r.
Qed.

Lemma is_parameter_set_fill p :
  is_parameter_set p ->
  (ps_k p = 2 \/ ps_k p = 3 \/ ps_k p = 4)%nat /\
  (ps_eta p = 3 \/ ps_eta p = 4 \/ ps_eta p = 5)%nat /\
  indcpaSecretKeySize p = (ps_k p * polySize)%nat /\
  indcpaPublicKeySize p = (ps_k p * compressedCoeffSize + SymSize)%nat /\
  publicKeySize p = indcpaPublicKeySize p /\
  secretKeySize p = (indcpaSecretKeySize p + indcpaPublicKeySize p + 2 * SymSize)%nat /\
  cipherTextSize p = (ps_k p * compressedCoeffSize + polyCompressedSize)%nat.
Proof.
  intros [-> | [-> | ->]]; cbn; repeat split; auto.
Qed.

Section KemBytes.
Context {sponge : Sponge} {laws : SpongeLaws sponge}.

Lemma ReadFull_Ok rng n b rng' :
  ReadFull rng n = Ok (b, rng') -> length b = n /\ rng = b ++ rng'.
Proof.
  unfold ReadFull. destruct (decide (n <= length rng)%nat); [|case_decide; discriminate].
  intros E. inversion E; subst. split.
  - rewrite length_take. lia.
  - symmetry. apply take_drop.
Qed.

Lemma indcpaKeyPair_shape fuel p rng pk sk rng' :
  is_parameter_set p ->
  indcpaKeyPair fuel p rng = Ok (pk, sk, rng') ->
  length (sk_packed sk) = indcpaSecretKeySize p /\
  length (pk_packed pk) = indcpaPublicKeySize p /\
  pk_h pk = sha3_256 (pk_packed pk).
Proof.
  intros Hp E. destruct (is_parameter_set_fill p Hp) as (_ & _ & Hsk & Hpk & _).
  unfold indcpaKeyPair in E.
  apply obind_Ok in E as ([d rng1] & Hd & E).
  apply obind_Ok in E as (a & Ha & E).
  apply obind_Ok in E as (skpv & Hs & E).
  apply obind_Ok in E as (e & He & E).
  inversion E; subst; clear E. cbn [sk_packed pk_packed pk_h].
  apply omapM_length in Hs. rewrite length_seq in Hs.
  split; [|split; [|reflexivity]].
  - unfold packSecretKey. rewrite polyVec_toBytes_length.
    unfold polyVec_ntt. rewrite length_map, Hs. now rewrite Hsk.
  - unfold packPublicKey. rewrite length_app, polyVec_compress_length.
    unfold polyVec_add. rewrite length_map, length_seq.
    rewrite !length_take, sha3_512_length, Hpk. reflexivity.
Qed.

Lemma GenerateKeyPair_shape fuel p rng pk sk rng' :
  is_parameter_set p ->
  GenerateKeyPair fuel p rng = Ok (pk, sk, rng') ->
  wf_PrivateKey sk /\ PrivateKey_PublicKey sk = pk /\ PublicKey_p pk = p /\
  pk_h (PublicKey_pk pk) = sha3_256 (pk_packed (PublicKey_pk pk)).
Proof.
  intros Hp E. unfold GenerateKeyPair in E.
  apply obind_Ok in E as ([[ipk isk] rng1] & Hkp & E).
  apply obind_Ok in E as ([z rng2] & Hz & E).
  inversion E; subst; clear E. cbn.
  destruct (indcpaKeyPair_shape _ _ _ _ _ _ Hp Hkp) as (H1 & H2 & H3).
  apply ReadFull_Ok in Hz as [Hz _].
  unfold wf_PrivateKey. cbn. rewrite H3, sha3_256_length. auto 10.
Qed.

End KemBytes.
Section KemBytesClaims.
Context {sponge : Sponge} {laws : SpongeLaws sponge}.

Lemma slice_app_mid (a b c : list Z) (lo hi : nat) :
  lo = length a -> hi = (lo + length b)%nat -> slice (a ++ b ++ c) lo hi = b.
Proof.
  intros -> ->. unfold slice.
  rewrite drop_app_length.
  replace (length a + length b - length a)%nat with (length b) by lia.
  apply take_app_length.
Qed.

(** C7: for each of the three parameter sets and every key pair that
    [GenerateKeyPair] returns, [PrivateKeyFromBytes (sk.Bytes())] succeeds
    and returns [sk] itself (same packed IND-CPA secret key, same packed
    public key and cached hash, same [z]), [PublicKeyFromBytes (pk.Bytes())]
    returns [pk] itself, and the two serialisations have the sizes of the
    parameter-set table: 1632/736, 2400/1088 and 3168/1440 bytes. *)
Theorem C7_key_serialisation_round_trip fuel p rng pk sk rng' :
  is_parameter_set p ->
  GenerateKeyPair fuel p rng = Ok (pk, sk, rng') ->
  PrivateKeyFromBytes p (PrivateKey_Bytes sk) = Ok sk /\
  PublicKeyFromBytes p (PublicKey_Bytes pk) = Ok pk /\
  length (PrivateKey_Bytes sk) = PrivateKeySize p /\
  length (PublicKey_Bytes pk) = PublicKeySize p /\
  (PrivateKeySize p, PublicKeySize p) =
    (if decide (p = Kyber512) then (1632, 736)
     else if decide (p = Kyber768) then (2400, 1088)
     else (3168, 1440))%nat.
Proof.
  intros Hp E.
  destruct (GenerateKeyPair_shape _ _ _ _ _ _ Hp E) as (Hwf & Hpk & Hpp & Hh).
  destruct Hwf as (_ & Lsk & Lpk & Lh & Lz).
  destruct (is_parameter_set_fill p Hp) as (_ & _ & Ssk & Spk & Spub & Ssec & _).
  destruct sk as [[[pkp h] p'] [skp] z]. cbn in *. subst pk. cbn in *. subst p'.
  unfold SymSize in *.
  assert (Lb : length (PrivateKey_Bytes
            {| PrivateKey_PublicKey :=
                 {| PublicKey_pk := {| pk_packed := pkp; pk_h := h |}; PublicKey_p := p |};
               PrivateKey_sk := {| sk_packed := skp |}; PrivateKey_z := z |})
          = secretKeySize p).
  { unfold PrivateKey_Bytes. cbn. rewrite !length_app. lia. }
  split; [|split; [|split; [exact Lb|split]]].
  - unfold PrivateKeyFromBytes. unfold SymSize in *.
    destruct (decide (_ <> secretKeySize p)) as [Hne|_]; [contradiction|].
    unfold PrivateKey_Bytes. cbn [sk_packed pk_packed pk_h PrivateKey_sk
      PrivateKey_PublicKey PublicKey_pk PrivateKey_z app].
    rewrite <- !app_assoc.
    rewrite (slice_app_mid skp pkp (h ++ z)) by lia.
    unfold indcpaPublicKey_fromBytes.
    destruct (decide (length pkp <> _)) as [Hne|_]; [lia|].
    cbn [obind pk_h].
    replace (skp ++ pkp ++ h ++ z) with ((skp ++ pkp) ++ h ++ z)
      by now rewrite <- app_assoc.
    rewrite (slice_app_mid (skp ++ pkp) h z) by (rewrite ?length_app; lia).
    destruct (decide (sha3_256 pkp <> h)) as [Hne|_]; [congruence|].
    rewrite <- app_assoc.
    rewrite take_app_length' by lia.
    unfold indcpaSecretKey_fromBytes.
    destruct (decide (length skp <> _)) as [Hne|_]; [lia|].
    cbn [obind].
    replace (skp ++ pkp ++ h ++ z) with ((skp ++ pkp ++ h) ++ z)
      by now rewrite <- !app_assoc.
    rewrite drop_app_length' by (rewrite !length_app; lia).
    rewrite gocopy_full by (rewrite length_replicate; lia).
    now rewrite <- Hh.
  - unfold PublicKeyFromBytes, PublicKey_Bytes, indcpaPublicKey_toBytes,
      indcpaPublicKey_fromBytes. cbn.
    destruct (decide (length pkp <> _)) as [Hne|_]; [lia|].
    cbn. now rewrite <- Hh.
  - unfold PublicKey_Bytes, indcpaPublicKey_toBytes, PublicKeySize. cbn. lia.
  - destruct Hp as [-> | [-> | ->]]; reflexivity.
Qed.

(** C8: a buffer of exactly [PrivateKeySize()] bytes whose embedded hash
    field differs from SHA3-256 of the embedded public-key bytes is
    rejected with [ErrInvalidPrivateKey] (no key is returned); a buffer of
    any other length is rejected with [ErrInvalidKeySize], a different
    error. *)
Theorem C8_PrivateKeyFromBytes_rejects p (b : list Z) :
  is_parameter_set p ->
  (length b = PrivateKeySize p ->
   slice b (indcpaSecretKeySize p + publicKeySize p)
           (indcpaSecretKeySize p + publicKeySize p + SymSize)
     <> sha3_256 (slice b (indcpaSecretKeySize p)
                          (indcpaSecretKeySize p + publicKeySize p)) ->
   PrivateKeyFromBytes p b = Err ErrInvalidPrivateKey) /\
  (length b <> PrivateKeySize p ->
   PrivateKeyFromBytes p b = Err ErrInvalidKeySize) /\
  ErrInvalidPrivateKey <> ErrInvalidKeySize.
Proof.
  intros Hp.
  destruct (is_parameter_set_fill p Hp) as (_ & _ & Ssk & Spk & Spub & Ssec & _).
  split; [|split; [|discriminate]].
  - intros Lb Hh. unfold PrivateKeyFromBytes, PrivateKeySize in *.
    destruct (decide (length b <> secretKeySize p)) as [Hne|_]; [contradiction|].
    unfold indcpaPublicKey_fromBytes.
    destruct (decide (length (slice b _ _) <> _)) as [Hne|_].
    { exfalso. apply Hne. unfold slice. rewrite length_take, length_drop. lia. }
    cbn [obind pk_h].
    destruct (decide (sha3_256 _ <> _)) as [_|Heq]; [reflexivity|].
    exfalso. apply Hh. apply dec_stable in Heq. now rewrite Heq.
  - intros Lb. unfold PrivateKeyFromBytes, PrivateKeySize in *.
    destruct (decide (length b <> secretKeySize p)); [reflexivity|contradiction].
Qed.

End KemBytesClaims.
(** ** The stand-in sponge satisfies the assumptions *)

Lemma toy_digest_length n x : length (toy_digest n x) = n.
Proof. unfold toy_digest. now rewrite length_map, length_seq. Qed.

Lemma toy_digest_bytes n x : Forall is_byte (toy_digest n x).
Proof.
  unfold toy_digest. apply Forall_forall. intros b Hb.
  apply list_elem_of_In, in_map_iff in Hb as (i & <- & _).
  unfold is_byte. apply Z.mod_pos_bound. lia.
Qed.

Lemma toy_sponge_laws : SpongeLaws toy_sponge.
Proof.
  split.
  - intros x. apply (toy_digest_length 32).
  - intros x. apply (toy_digest_length 64).
  - intros x n. apply toy_digest_length.
  - intros x n. apply toy_digest_bytes.
  - intros x i. unfold is_byte. cbn. lia.
  - intros x. exists kyberN. vm_compute. lia.
Defined.

Lemma C7_key_serialisation_round_trip_witness :
  match GenerateKeyPair (sponge := toy_sponge) 300 Kyber512 (replicate 64 7) with
  | Ok (pk, sk, _) =>
      PrivateKeyFromBytes (sponge := toy_sponge) Kyber512 (PrivateKey_Bytes sk) = Ok sk /\
      PublicKeyFromBytes (sponge := toy_sponge) Kyber512 (PublicKey_Bytes pk) = Ok pk /\
      length (PrivateKey_Bytes sk) = 1632%nat /\
      length (PublicKey_Bytes pk) = 736%nat
  | _ => False
  end.
Proof.
  assert (E : exists r, GenerateKeyPair (sponge := toy_sponge) 300 Kyber512
                         (replicate 64 7) = Ok r).
  { vm_compute. eexists. reflexivity. }
  destruct E as [[[pk sk] rng'] E]. rewrite E.
  destruct (C7_key_serialisation_round_trip (sponge := toy_sponge) (laws := toy_sponge_laws)
              300 Kyber512 (replicate 64 7) pk sk rng' (or_introl eq_refl) E)
    as (H1 & H2 & H3 & H4 & _).
  repeat split; assumption.
Defined.

Lemma C8_PrivateKeyFromBytes_rejects_witness :
  PrivateKeyFromBytes (sponge := toy_sponge) Kyber512 (replicate 1632 0)
    = Err ErrInvalidPrivateKey /\
  PrivateKeyFromBytes (sponge := toy_sponge) Kyber512 (replicate 1631 0)
    = Err ErrInvalidKeySize.
Proof.
  destruct (C8_PrivateKeyFromBytes_rejects (sponge := toy_sponge) Kyber512
              (replicate 1632 0) (or_introl eq_refl)) as (H1 & _ & _).
  destruct (C8_PrivateKeyFromBytes_rejects (sponge := toy_sponge) Kyber512
              (replicate 1631 0) (or_introl eq_refl)) as (_ & H2 & _).
  split.
  - apply H1; [reflexivity|]. vm_compute. discriminate.
  - apply H2. vm_compute. discriminate.
Defined.
(** ** Bit-level reasoning for the packings *)

Local Arguments Z.testbit : simpl never.

Lemma testbit_above a k n : 0 <= a < 2 ^ k -> k <= n -> Z.testbit a n = false.
Proof.
  intros [Ha Hk] Hn. destruct (Z.eq_dec a 0) as [->|Hne]; [apply Z.bits_0|].
  apply Z.bits_above_log2; [lia|].
  assert (0 <= k) by (destruct (Z.le_gt_cases 0 k); [lia|]; rewrite Z.pow_neg_r in Hk by lia; lia).
  assert (Z.log2 a < k) by (apply Z.log2_lt_pow2; lia). lia.
Qed.

Lemma testbit_u8 x n : 0 <= n -> Z.testbit (u8 x) n = (n <? 8) && Z.testbit x n.
Proof. intros Hn. unfold u8. change 256 with (2 ^ 8). now apply Z.testbit_mod_pow2. Qed.

Lemma testbit_u16 x n : 0 <= n -> Z.testbit (u16 x) n = (n <? 16) && Z.testbit x n.
Proof. intros Hn. unfold u16. change 65536 with (2 ^ 16). now apply Z.testbit_mod_pow2. Qed.

Lemma testbit_u32 x n : 0 <= n -> Z.testbit (u32 x) n = (n <? 32) && Z.testbit x n.
Proof. intros Hn. unfold u32. change 4294967296 with (2 ^ 32). now apply Z.testbit_mod_pow2. Qed.

Lemma testbit_u64 x n : 0 <= n -> Z.testbit (u64 x) n = (n <? 64) && Z.testbit x n.
Proof.
  intros Hn. unfold u64. change 18446744073709551616 with (2 ^ 64).
  now apply Z.testbit_mod_pow2.
Qed.

(** Two numbers below [2^w] with the same low [w] bits are equal. *)
Lemma bits_inj_below w a b :
  0 <= w -> 0 <= a < 2 ^ w -> 0 <= b < 2 ^ w ->
  (forall n, 0 <= n < w -> Z.testbit a n = Z.testbit b n) -> a = b.
Proof.
  intros Hw Ha Hb H. apply Z.bits_inj'. intros n Hn.
  destruct (Z.lt_ge_cases n w) as [Hlt|Hge]; [apply H; lia|].
  rewrite (testbit_above a w n), (testbit_above b w n) by lia. reflexivity.
Qed.

Lemma below_land_ones w a : 0 <= w -> (0 <= a < 2 ^ w <-> a .& Z.ones w = a).
Proof.
  intros Hw. rewrite Z.land_ones by lia. split.
  - intros H. now apply Z.mod_small.
  - intros <-. apply Z.mod_pos_bound. lia.
Qed.

Lemma lor_below w a b : 0 <= w -> 0 <= a < 2 ^ w -> 0 <= b < 2 ^ w -> 0 <= a .| b < 2 ^ w.
Proof.
  intros Hw Ha Hb. apply below_land_ones; [lia|].
  apply below_land_ones in Ha, Hb; try lia.
  rewrite Z.land_lor_distr_l. congruence.
Qed.

Lemma land_below_l w a b : 0 <= w -> 0 <= a < 2 ^ w -> 0 <= a .& b < 2 ^ w.
Proof.
  intros Hw Ha. apply below_land_ones; [lia|].
  apply below_land_ones in Ha; try lia.
  rewrite <- Z.land_assoc, (Z.land_comm b), Z.land_assoc. congruence.
Qed.

Lemma land_below_r w a b : 0 <= w -> 0 <= b < 2 ^ w -> 0 <= a .& b < 2 ^ w.
Proof. intros Hw Hb. rewrite Z.land_comm. now apply land_below_l. Qed.

Lemma shiftr_below w a k : 0 <= k -> 0 <= a < 2 ^ w -> 0 <= a >> k < 2 ^ w.
Proof.
  intros Hk Ha. rewrite Z.shiftr_div_pow2 by lia. split.
  - apply Z.div_pos; lia.
  - apply Z.le_lt_trans with a; [|lia]. apply Z.div_le_upper_bound; [lia|]. nia.
Qed.

Lemma below_mono w w' a : w <= w' -> 0 <= a < 2 ^ w -> 0 <= a < 2 ^ w'.
Proof.
  intros Hw Ha. split; [lia|]. apply Z.lt_le_trans with (2 ^ w); [lia|].
  apply Z.pow_le_mono_r; lia.
Qed.

Lemma shiftr_below_sh w k w' a :
  0 <= k -> 0 <= w -> w' <= w + k -> 0 <= a < 2 ^ w' -> 0 <= a >> k < 2 ^ w.
Proof.
  intros Hk Hw Hw' Ha. rewrite Z.shiftr_div_pow2 by lia. split.
  - apply Z.div_pos; lia.
  - apply Z.div_lt_upper_bound; [lia|]. rewrite <- Z.pow_add_r by lia.
    apply (below_mono w' (k + w)); lia.
Qed.

Lemma shiftl_below w k w' a :
  0 <= k -> 0 <= w' -> w' + k <= w -> 0 <= a < 2 ^ w' -> 0 <= Z.shiftl a k < 2 ^ w.
Proof.
  intros Hk Hw Hw' Ha. rewrite Z.shiftl_mul_pow2 by lia. split; [nia|].
  apply Z.lt_le_trans with (2 ^ w' * 2 ^ k); [nia|].
  rewrite <- Z.pow_add_r by lia. apply Z.pow_le_mono_r; lia.
Qed.

Lemma u8_keep w x : 0 <= x < 2 ^ w -> 0 <= u8 x < 2 ^ w.
Proof.
  intros Hx. unfold u8. pose proof (Z.mod_pos_bound x 256 ltac:(lia)).
  pose proof (Z.mod_le x 256 ltac:(lia) ltac:(lia)). lia.
Qed.

Lemma u16_keep w x : 0 <= x < 2 ^ w -> 0 <= u16 x < 2 ^ w.
Proof.
  intros Hx. unfold u16. pose proof (Z.mod_pos_bound x 65536 ltac:(lia)).
  pose proof (Z.mod_le x 65536 ltac:(lia) ltac:(lia)). lia.
Qed.

Lemma u32_keep w x : 0 <= x < 2 ^ w -> 0 <= u32 x < 2 ^ w.
Proof.
  intros Hx. unfold u32. pose proof (Z.mod_pos_bound x 4294967296 ltac:(lia)).
  pose proof (Z.mod_le x 4294967296 ltac:(lia) ltac:(lia)). lia.
Qed.

Lemma u8_below w x : 8 <= w -> 0 <= u8 x < 2 ^ w.
Proof. intros Hw. apply (below_mono 8); [lia|]. apply u8_range. Qed.

Lemma u16_below w x : 16 <= w -> 0 <= u16 x < 2 ^ w.
Proof. intros Hw. apply (below_mono 16); [lia|]. apply u16_range. Qed.

(** Bounds of the expressions met in the packing code. *)
Ltac below :=
  unfold shl8, shl16, shl32;
  repeat first
    [ assumption
    | match goal with
      | H : 0 <= ?t < 2 ^ ?k |- 0 <= ?t < 2 ^ ?w => apply (below_mono k w t); [lia|exact H]
      | H : 0 <= ?t < 2 ^ ?k |- 0 <= ?t >> ?s < 2 ^ ?w =>
          apply (shiftr_below_sh w s k t); [lia|lia|lia|exact H]
      | |- 0 <= ?a .& Zpos ?p < 2 ^ ?w =>
          apply (land_below_r w a (Zpos p)); [lia|apply (below_mono (Z.log2 (Zpos p) + 1));
             [cbv; discriminate|cbv; split; [discriminate|reflexivity]]]
      | |- 0 <= Z.shiftl ?a ?s < 2 ^ ?w =>
          apply (shiftl_below w s (w - s) a); [lia|lia|lia|]
      end
    | apply lor_below; [lia| |]
    | apply u8_below; lia
    | apply u16_below; lia
    | apply u8_keep
    | apply u16_keep
    | apply u32_keep
    | apply shiftr_below; [lia|]
    | apply land_below_l; [lia|] ].

(** Rewriting [Z.testbit] through the operators of the packing code. *)
Ltac tb_const :=
  repeat match goal with
  | |- context [Z.testbit ?t ?m] =>
      lazymatch m with
      | Z0 => fail
      | Zpos _ => fail
      | Zneg _ => fail
      | _ => let m' := eval compute in m in change (Z.testbit t m) with (Z.testbit t m')
      end
  | |- context [?a <? ?b] =>
      let v := eval compute in (a <? b) in change (a <? b) with v
  end;
  repeat match goal with
  | |- context [Z.testbit (Zpos ?p) ?m] =>
      let v := eval compute in (Z.testbit (Zpos p) m) in
      change (Z.testbit (Zpos p) m) with v
  | |- context [Z.testbit 0 ?m] => rewrite (Z.bits_0 m)
  | |- context [Z.testbit ?t (Zneg ?m)] => rewrite (Z.testbit_neg_r t (Zneg m)) by lia
  end.

Ltac tb_push :=
  unfold shl8, shl16, shl32, shl64;
  repeat first
    [ rewrite Z.lor_spec | rewrite Z.land_spec | rewrite Z.lxor_spec
    | rewrite Z.shiftr_spec by lia | rewrite Z.shiftl_spec by lia
    | rewrite testbit_u8 by lia | rewrite testbit_u16 by lia
    | rewrite testbit_u32 by lia | rewrite testbit_u64 by lia ];
  tb_const.

(** Case split of a bit index [n] known to lie in [lo, lo + count). *)
Ltac index_from n lo count :=
  lazymatch count with
  | O => exfalso; lia
  | S ?c =>
      let lo' := eval compute in (lo + 1) in
      destruct (Z.eq_dec n lo) as [-> | ?]; [|index_from n lo' c]
  end.

Ltac index16 n := index_from n 0 16%nat.
Ltac index8 n := index_from n 0 8%nat.

Ltac tb_high :=
  repeat match goal with
  | H : 0 <= ?t < 2 ^ ?k |- context [Z.testbit ?t ?m] =>
      rewrite (testbit_above t k m H) by lia
  end.

(** ** Lists built group by group *)

Lemma flat_map_lookup_total {A B : Type} `{Inhabited A} `{Inhabited B}
    (f : A -> list B) (c : nat) (l : list A) (i j : nat) :
  (forall x, length (f x) = c) -> (i < length l)%nat -> (j < c)%nat ->
  flat_map f l !!! (c * i + j)%nat = f (l !!! i) !!! j.
Proof.
  intros Hf. revert i. induction l as [|x l IH]; intros i Hi Hj; [simpl in Hi; lia|].
  simpl. destruct i as [|i].
  - rewrite Nat.mul_0_r. simpl. apply lookup_total_app_l. rewrite Hf. lia.
  - rewrite lookup_total_app_r by (rewrite Hf; lia). rewrite Hf.
    replace (c * S i + j - c)%nat with (c * i + j)%nat by lia.
    simpl. apply IH; [simpl in Hi; lia|lia].
Qed.

Lemma flat_map_seq_lookup_total {B : Type} `{Inhabited B}
    (f : nat -> list B) (c n i j : nat) :
  (forall x, length (f x) = c) -> (i < n)%nat -> (j < c)%nat ->
  flat_map f (seq 0 n) !!! (c * i + j)%nat = f i !!! j.
Proof.
  intros Hf Hi Hj. rewrite (flat_map_lookup_total f c) by (rewrite ?length_seq; auto).
  now rewrite lookup_total_seq_lt.
Qed.

Lemma lookup_total_map {A B : Type} `{Inhabited A} `{Inhabited B}
    (f : A -> B) (l : list A) (i : nat) :
  (i < length l)%nat -> map f l !!! i = f (l !!! i).
Proof.
  revert i. induction l as [|x l IH]; intros i Hi; [cbn in Hi; lia|].
  destruct i as [|i]; [reflexivity|]. cbn in Hi.
  change (map f l !!! i = f (l !!! i)). apply IH. lia.
Qed.

Lemma flat_map_ext_seq {B : Type} (f g : nat -> list B) (n : nat) :
  (forall i, (i < n)%nat -> f i = g i) -> flat_map f (seq 0 n) = flat_map g (seq 0 n).
Proof.
  intros Hfg. rewrite !flat_map_concat_map. f_equal.
  apply map_ext_in. intros i Hi. apply Hfg. apply in_seq in Hi. lia.
Qed.

Lemma map_ext_seq {B : Type} (f g : nat -> B) (n : nat) :
  (forall i, (i < n)%nat -> f i = g i) -> map f (seq 0 n) = map g (seq 0 n).
Proof.
  intros Hfg. apply map_ext_in. intros i Hi. apply Hfg. apply in_seq in Hi. lia.
Qed.

Lemma list_eq_total {A : Type} `{Inhabited A} (l1 l2 : list A) :
  length l1 = length l2 ->
  (forall k, (k < length l1)%nat -> l1 !!! k = l2 !!! k) -> l1 = l2.
Proof.
  intros Hlen Hk. apply list_eq. intros k.
  destruct (decide (k < length l1)%nat) as [Hlt|Hge].
  - rewrite (list_lookup_lookup_total_lt l1 k Hlt).
    rewrite (list_lookup_lookup_total_lt l2 k) by lia. f_equal. now apply Hk.
  - rewrite !lookup_ge_None_2 by lia. reflexivity.
Qed.

(** A list of [c * n] elements is the concatenation of its [n] groups of
    [c] consecutive elements. *)
Lemma groups_of {A B : Type} `{Inhabited A} `{Inhabited B}
    (f : A -> B) (c n : nat) (l : list A) :
  length l = (c * n)%nat ->
  flat_map (fun i : nat => map (fun j : nat => f (l !!! (c * i + j)%nat)) (seq 0 c)) (seq 0 n)
  = map f l.
Proof.
  intros Hlen.
  assert (Hc : forall x : nat,
             length (map (fun j : nat => f (l !!! (c * x + j)%nat)) (seq 0 c)) = c).
  { intros x. now rewrite length_map, length_seq. }
  apply list_eq_total.
  - rewrite (flat_map_length_const _ c) by exact Hc.
    rewrite length_seq, length_map. lia.
  - intros k Hk. rewrite (flat_map_length_const _ c), length_seq in Hk by exact Hc.
    assert (c <> 0)%nat by (intros ->; lia).
    rewrite (Nat.div_mod_eq k c) at 1.
    assert (k mod c < c)%nat by (apply Nat.mod_upper_bound; lia).
    assert (k / c < n)%nat by (apply Nat.Div0.div_lt_upper_bound; lia).
    rewrite (flat_map_seq_lookup_total _ c) by auto.
    rewrite (list_lookup_total_fmap _ (seq 0 c)) by (rewrite length_seq; lia).
    rewrite lookup_total_seq_lt by lia. simpl.
    rewrite <- (Nat.div_mod_eq k c).
    symmetry. apply list_lookup_total_fmap. lia.
Qed.

Lemma map_lookup_seq {A B : Type} `{Inhabited A} (g : A -> B) (l : list A) :
  map (fun i : nat => g (l !!! i)) (seq 0 (length l)) = map g l.
Proof.
  induction l as [|x l IH]; [reflexivity|].
  cbn [length]. rewrite <- cons_seq. cbn [map]. f_equal.
  rewrite <- fmap_S_seq. change (fmap S (seq 0 (length l))) with (map S (seq 0 (length l))).
  rewrite map_map. exact IH.
Qed.
(** ** The 13-bit serialisation *)

Lemma poly_toBytes_groups p :
  poly_toBytes p =
  flat_map (fun i : nat =>
    pack13 (freeze (p !!! (8 * i + 0)%nat)) (freeze (p !!! (8 * i + 1)%nat))
           (freeze (p !!! (8 * i + 2)%nat)) (freeze (p !!! (8 * i + 3)%nat))
           (freeze (p !!! (8 * i + 4)%nat)) (freeze (p !!! (8 * i + 5)%nat))
           (freeze (p !!! (8 * i + 6)%nat)) (freeze (p !!! (8 * i + 7)%nat)))
  (seq 0 (kyberN / 8)).
Proof. reflexivity. Qed.

Lemma poly_fromBytes_groups a :
  poly_fromBytes a =
  flat_map (fun i : nat =>
    unpack13 (a !!! (13 * i + 0)%nat) (a !!! (13 * i + 1)%nat) (a !!! (13 * i + 2)%nat)
             (a !!! (13 * i + 3)%nat) (a !!! (13 * i + 4)%nat) (a !!! (13 * i + 5)%nat)
             (a !!! (13 * i + 6)%nat) (a !!! (13 * i + 7)%nat) (a !!! (13 * i + 8)%nat)
             (a !!! (13 * i + 9)%nat) (a !!! (13 * i + 10)%nat) (a !!! (13 * i + 11)%nat)
             (a !!! (13 * i + 12)%nat))
  (seq 0 (kyberN / 8)).
Proof. reflexivity. Qed.

Ltac split_list_eq :=
  repeat match goal with
  | |- _ :: _ = _ :: _ => f_equal
  end.

Ltac bits16 :=
  apply (bits_inj_below 16);
  [ lia | below | below
  | let n := fresh "n" in let Hn := fresh "Hn" in let Hc := fresh "Hc" in
    intros n Hn; index16 n; tb_push; tb_high; btauto ].

(** Unpacking the thirteen bytes of a group gives back its eight 13-bit
    values. *)
Lemma unpack13_pack13 t0 t1 t2 t3 t4 t5 t6 t7 :
  0 <= t0 < 2 ^ 13 -> 0 <= t1 < 2 ^ 13 -> 0 <= t2 < 2 ^ 13 -> 0 <= t3 < 2 ^ 13 ->
  0 <= t4 < 2 ^ 13 -> 0 <= t5 < 2 ^ 13 -> 0 <= t6 < 2 ^ 13 -> 0 <= t7 < 2 ^ 13 ->
  let r := pack13 t0 t1 t2 t3 t4 t5 t6 t7 in
  unpack13 (r !!! 0%nat) (r !!! 1%nat) (r !!! 2%nat) (r !!! 3%nat) (r !!! 4%nat)
           (r !!! 5%nat) (r !!! 6%nat) (r !!! 7%nat) (r !!! 8%nat) (r !!! 9%nat)
           (r !!! 10%nat) (r !!! 11%nat) (r !!! 12%nat)
  = [t0; t1; t2; t3; t4; t5; t6; t7].
Proof.
  intros H0 H1 H2 H3 H4 H5 H6 H7 r. subst r. unfold pack13, unpack13.
  cbn [lookup_total list_lookup_total].
  split_list_eq; bits16.
Qed.
Lemma poly_below_lookup bound p i :
  poly_below bound p -> (i < kyberN)%nat -> 0 <= p !!! i < bound.
Proof.
  intros [Hlen Hall] Hi.
  apply (Forall_lookup_total_1 (fun c : Z => 0 <= c < bound)); [exact Hall|lia].
Qed.

Lemma poly_below_mono b b' p : b <= b' -> poly_below b p -> poly_below b' p.
Proof.
  intros Hb [Hlen Hall]. split; [exact Hlen|].
  eapply Forall_impl; [exact Hall|]. cbn. intros; lia.
Qed.

Lemma map_freeze_canonical p : poly_below kyberQ p -> map freeze p = p.
Proof.
  intros [_ Hall]. induction Hall as [|c p Hc _ IH]; [reflexivity|].
  cbn. now rewrite freeze_canonical, IH.
Qed.

Lemma freeze_below13 c : 0 <= c < 2 ^ 16 -> 0 <= freeze c < 2 ^ 13.
Proof. intros Hc. pose proof (freeze_range c Hc). unfold kyberQ in *. lia. Qed.

Lemma poly_fromBytes_toBytes p :
  poly_below 65536 p -> poly_fromBytes (poly_toBytes p) = map freeze p.
Proof.
  intros Hp. rewrite poly_fromBytes_groups.
  rewrite <- (groups_of freeze 8 32 p) by (destruct Hp as [-> _]; reflexivity).
  change (kyberN / 8)%nat with 32%nat.
  apply flat_map_ext_seq. intros i Hi.
  rewrite poly_toBytes_groups. change (kyberN / 8)%nat with 32%nat.
  rewrite !(flat_map_seq_lookup_total _ 13 32 i) by (auto; lia).
  apply unpack13_pack13; apply freeze_below13;
    apply (poly_below_lookup 65536); auto; unfold kyberN; lia.
Qed.

Lemma poly_fromBytes_app a rest :
  length a = polySize -> poly_fromBytes (a ++ rest) = poly_fromBytes a.
Proof.
  intros Hlen. rewrite !poly_fromBytes_groups. change (kyberN / 8)%nat with 32%nat.
  apply flat_map_ext_seq. intros i Hi.
  rewrite !(lookup_total_app_l a rest) by (rewrite Hlen; unfold polySize; lia).
  reflexivity.
Qed.

Lemma drop_flat_map_const {A B : Type} `{Inhabited A} (f : A -> list B) (c : nat)
    (l : list A) (i : nat) :
  (forall x, length (f x) = c) -> (i < length l)%nat ->
  drop (i * c) (flat_map f l) = f (l !!! i) ++ flat_map f (drop (S i) l).
Proof.
  intros Hf. revert i. induction l as [|x l IH]; intros i Hi; [simpl in Hi; lia|].
  destruct i as [|i]; [reflexivity|].
  cbn [flat_map]. replace (S i * c)%nat with (length (f x) + i * c)%nat by (rewrite Hf; lia).
  rewrite drop_app_add. apply IH. simpl in Hi. lia.
Qed.

Lemma polyVec_fromBytes_toBytes v :
  Forall (poly_below 65536) v ->
  polyVec_fromBytes (length v) (polyVec_toBytes v) = map (map freeze) v.
Proof.
  intros Hv. unfold polyVec_fromBytes, polyVec_toBytes.
  rewrite <- (map_lookup_seq (map freeze) v).
  apply map_ext_seq. intros i Hi.
  rewrite (drop_flat_map_const poly_toBytes polySize) by (auto using poly_toBytes_length).
  rewrite poly_fromBytes_app by apply poly_toBytes_length.
  apply poly_fromBytes_toBytes.
  apply (Forall_lookup_total_1 (poly_below 65536)); assumption.
Qed.

(** C10: reading back the 13-bit serialisation of a polynomial gives the
    polynomial of its frozen coefficients; on coefficients already in
    [0, q) the round trip is the identity; and the same holds polynomial by
    polynomial for [polyVec.toBytes] and [polyVec.fromBytes]. *)
Theorem C10_toBytes_fromBytes_round_trip :
  (forall p, poly_below 65536 p -> poly_fromBytes (poly_toBytes p) = map freeze p) /\
  (forall p, poly_below kyberQ p -> poly_fromBytes (poly_toBytes p) = p) /\
  (forall v, Forall (poly_below 65536) v ->
     polyVec_fromBytes (length v) (polyVec_toBytes v) = map (map freeze) v) /\
  (forall v, Forall (poly_below kyberQ) v ->
     polyVec_fromBytes (length v) (polyVec_toBytes v) = v).
Proof.
  assert (Hq : forall p, poly_below kyberQ p -> poly_below 65536 p).
  { intros p. apply poly_below_mono. unfold kyberQ. lia. }
  repeat split.
  - apply poly_fromBytes_toBytes.
  - intros p Hp. rewrite poly_fromBytes_toBytes by auto. now apply map_freeze_canonical.
  - apply polyVec_fromBytes_toBytes.
  - intros v Hv. rewrite polyVec_fromBytes_toBytes by (eapply Forall_impl; eauto).
    induction Hv as [|p v Hp _ IH]; [reflexivity|].
    cbn [map]. now rewrite map_freeze_canonical, IH.
Qed.

Lemma C10_toBytes_fromBytes_round_trip_witness :
  let p := map (fun i : nat => 257 * Z.of_nat i) (seq 0 256) in
  let c := map (fun i : nat => 30 * Z.of_nat i) (seq 0 256) in
  poly_fromBytes (poly_toBytes p) = map freeze p /\
  poly_fromBytes (poly_toBytes c) = c /\
  polyVec_fromBytes 2 (polyVec_toBytes [p; c]) = [map freeze p; map freeze c] /\
  polyVec_fromBytes 2 (polyVec_toBytes [c; c]) = [c; c].
Proof.
  intros p c.
  assert (Hp : poly_below 65536 p).
  { split; [reflexivity|]. apply Forall_forall. intros x Hx.
    apply list_elem_of_In, in_map_iff in Hx as (i & <- & Hi). apply in_seq in Hi. lia. }
  assert (Hc : poly_below kyberQ c).
  { split; [reflexivity|]. apply Forall_forall. intros x Hx.
    apply list_elem_of_In, in_map_iff in Hx as (i & <- & Hi). apply in_seq in Hi.
    unfold kyberQ. lia. }
  assert (Hc' : poly_below 65536 c).
  { revert Hc. apply poly_below_mono. unfold kyberQ. lia. }
  destruct C10_toBytes_fromBytes_round_trip as (H1 & H2 & H3 & H4).
  split; [exact (H1 p Hp)|]. split; [exact (H2 c Hc)|]. split.
  - apply (H3 [p; c]). repeat (constructor; [assumption|]). constructor.
  - apply (H4 [c; c]). repeat (constructor; [assumption|]). constructor.
Defined.
(** ** The 3-bit compression of a polynomial *)

Lemma poly_compress_groups p :
  poly_compress p =
  flat_map (fun g : nat =>
    pack3 (quant3 (freeze (p !!! (8 * g + 0)%nat))) (quant3 (freeze (p !!! (8 * g + 1)%nat)))
          (quant3 (freeze (p !!! (8 * g + 2)%nat))) (quant3 (freeze (p !!! (8 * g + 3)%nat)))
          (quant3 (freeze (p !!! (8 * g + 4)%nat))) (quant3 (freeze (p !!! (8 * g + 5)%nat)))
          (quant3 (freeze (p !!! (8 * g + 6)%nat))) (quant3 (freeze (p !!! (8 * g + 7)%nat))))
  (seq 0 (kyberN / 8)).
Proof. reflexivity. Qed.

Lemma poly_decompress_groups a :
  poly_decompress a =
  flat_map (fun g : nat =>
    map scale3 (unpack3 (a !!! (3 * g)%nat) (a !!! (3 * g + 1)%nat) (a !!! (3 * g + 2)%nat)))
  (seq 0 (kyberN / 8)).
Proof. reflexivity. Qed.

Lemma quant3_scale3_all : forall_from 8 0 quant3_scale3_ok = true.
Proof. vm_compute. reflexivity. Qed.

(** Compressing a decompressed 3-bit value gives the value back. *)
Lemma quant3_scale3 x : 0 <= x < 2 ^ 3 -> quant3 (freeze (scale3 x)) = x.
Proof.
  intros Hx. apply Z.eqb_eq.
  apply (forall_from_spec 8 quant3_scale3_ok 0 quant3_scale3_all). lia.
Qed.

Ltac bits8 :=
  apply (bits_inj_below 8);
  [ lia | below | below
  | let n := fresh "n" in let Hn := fresh "Hn" in let Hc := fresh "Hc" in
    intros n Hn; index8 n; tb_push; tb_high; btauto ].

Lemma unpack3_below a0 a1 a2 :
  0 <= a0 < 2 ^ 8 -> 0 <= a1 < 2 ^ 8 -> 0 <= a2 < 2 ^ 8 ->
  Forall (fun x : Z => 0 <= x < 2 ^ 3) (unpack3 a0 a1 a2).
Proof.
  intros H0 H1 H2. unfold unpack3.
  repeat (constructor; [below|]). constructor.
Qed.

Lemma pack3_unpack3 a0 a1 a2 :
  0 <= a0 < 2 ^ 8 -> 0 <= a1 < 2 ^ 8 -> 0 <= a2 < 2 ^ 8 ->
  let f := unpack3 a0 a1 a2 in
  pack3 (f !!! 0%nat) (f !!! 1%nat) (f !!! 2%nat) (f !!! 3%nat)
        (f !!! 4%nat) (f !!! 5%nat) (f !!! 6%nat) (f !!! 7%nat)
  = [a0; a1; a2].
Proof.
  intros H0 H1 H2 f. subst f. unfold pack3, unpack3.
  cbn [lookup_total list_lookup_total].
  split_list_eq; bits8.
Qed.
Lemma poly_compress_decompress c :
  length c = polyCompressedSize -> Forall is_byte c ->
  poly_compress (poly_decompress c) = c.
Proof.
  intros Hlen Hb. rewrite poly_compress_groups. change (kyberN / 8)%nat with 32%nat.
  transitivity (map id c); [|apply map_id].
  rewrite <- (groups_of id 3 32 c) by exact Hlen.
  apply flat_map_ext_seq. intros g Hg.
  rewrite poly_decompress_groups. change (kyberN / 8)%nat with 32%nat.
  rewrite !(flat_map_seq_lookup_total _ 8 32 g)
    by (try (intros; reflexivity); auto; lia).
  assert (Hc : forall j, (j < 3)%nat -> 0 <= c !!! (3 * g + j)%nat < 2 ^ 8).
  { intros j Hj. apply (Forall_lookup_total_1 is_byte); [exact Hb|].
    rewrite Hlen. unfold polyCompressedSize. lia. }
  pose proof (Hc 0%nat ltac:(lia)) as H0. rewrite Nat.add_0_r in H0.
  pose proof (Hc 1%nat ltac:(lia)) as H1. pose proof (Hc 2%nat ltac:(lia)) as H2.
  pose proof (unpack3_below _ _ _ H0 H1 H2) as Hf.
  cbn [seq map]. rewrite Nat.add_0_r.
  set (f := unpack3 _ _ _) in *.
  rewrite !(list_lookup_total_fmap scale3 f)
    by (subst f; unfold unpack3; cbn [length]; lia).
  rewrite !quant3_scale3
    by (apply (Forall_lookup_total_1 (fun x : Z => 0 <= x < 2 ^ 3) f);
        [exact Hf|subst f; unfold unpack3; cbn [length]; lia]).
  subst f. now apply pack3_unpack3.
Qed.

(** ** The 11-bit compression of a vector *)

Lemma polyVec_compress_groups v :
  polyVec_compress v =
  flat_map (fun vec : poly =>
    flat_map (fun j : nat =>
      pack11 (quant11 (freeze (vec !!! (8 * j + 0)%nat)))
             (quant11 (freeze (vec !!! (8 * j + 1)%nat)))
             (quant11 (freeze (vec !!! (8 * j + 2)%nat)))
             (quant11 (freeze (vec !!! (8 * j + 3)%nat)))
             (quant11 (freeze (vec !!! (8 * j + 4)%nat)))
             (quant11 (freeze (vec !!! (8 * j + 5)%nat)))
             (quant11 (freeze (vec !!! (8 * j + 6)%nat)))
             (quant11 (freeze (vec !!! (8 * j + 7)%nat))))
    (seq 0 (kyberN / 8)))
  v.
Proof. reflexivity. Qed.

Lemma polyVec_decompress_groups k a :
  polyVec_decompress k a =
  map (fun idx : nat =>
    flat_map (fun j : nat =>
      let off := (idx * compressedCoeffSize)%nat in
      map scale11
        (unpack11 (a !!! (off + 11 * j + 0)%nat) (a !!! (off + 11 * j + 1)%nat)
                  (a !!! (off + 11 * j + 2)%nat) (a !!! (off + 11 * j + 3)%nat)
                  (a !!! (off + 11 * j + 4)%nat) (a !!! (off + 11 * j + 5)%nat)
                  (a !!! (off + 11 * j + 6)%nat) (a !!! (off + 11 * j + 7)%nat)
                  (a !!! (off + 11 * j + 8)%nat) (a !!! (off + 11 * j + 9)%nat)
                  (a !!! (off + 11 * j + 10)%nat)))
    (seq 0 (kyberN / 8)))
  (seq 0 k).
Proof. reflexivity. Qed.

Lemma quant11_scale11_all : forall_from 2048 0 quant11_scale11_ok = true.
Proof. vm_compute. reflexivity. Qed.

Lemma quant11_scale11 x : 0 <= x < 2 ^ 11 -> quant11 (freeze (scale11 x)) = x.
Proof.
  intros Hx. apply Z.eqb_eq.
  apply (forall_from_spec 2048 quant11_scale11_ok 0 quant11_scale11_all). lia.
Qed.

Lemma unpack11_below b0 b1 b2 b3 b4 b5 b6 b7 b8 b9 b10 :
  0 <= b0 < 2 ^ 8 -> 0 <= b1 < 2 ^ 8 -> 0 <= b2 < 2 ^ 8 -> 0 <= b3 < 2 ^ 8 ->
  0 <= b4 < 2 ^ 8 -> 0 <= b5 < 2 ^ 8 -> 0 <= b6 < 2 ^ 8 -> 0 <= b7 < 2 ^ 8 ->
  0 <= b8 < 2 ^ 8 -> 0 <= b9 < 2 ^ 8 -> 0 <= b10 < 2 ^ 8 ->
  Forall (fun x : Z => 0 <= x < 2 ^ 11) (unpack11 b0 b1 b2 b3 b4 b5 b6 b7 b8 b9 b10).
Proof.
  intros. unfold unpack11.
  repeat (constructor; [below|]). constructor.
Qed.

Lemma pack11_unpack11 b0 b1 b2 b3 b4 b5 b6 b7 b8 b9 b10 :
  0 <= b0 < 2 ^ 8 -> 0 <= b1 < 2 ^ 8 -> 0 <= b2 < 2 ^ 8 -> 0 <= b3 < 2 ^ 8 ->
  0 <= b4 < 2 ^ 8 -> 0 <= b5 < 2 ^ 8 -> 0 <= b6 < 2 ^ 8 -> 0 <= b7 < 2 ^ 8 ->
  0 <= b8 < 2 ^ 8 -> 0 <= b9 < 2 ^ 8 -> 0 <= b10 < 2 ^ 8 ->
  let f := unpack11 b0 b1 b2 b3 b4 b5 b6 b7 b8 b9 b10 in
  pack11 (f !!! 0%nat) (f !!! 1%nat) (f !!! 2%nat) (f !!! 3%nat)
         (f !!! 4%nat) (f !!! 5%nat) (f !!! 6%nat) (f !!! 7%nat)
  = [b0; b1; b2; b3; b4; b5; b6; b7; b8; b9; b10].
Proof.
  intros H0 H1 H2 H3 H4 H5 H6 H7 H8 H9 H10 f. subst f. unfold pack11, unpack11.
  cbn [lookup_total list_lookup_total].
  split_list_eq; bits8.
Qed.
Lemma flat_map_map {A B C : Type} (f : B -> list C) (g : A -> B) (l : list A) :
  flat_map f (map g l) = flat_map (fun x => f (g x)) l.
Proof. induction l as [|x l IH]; [reflexivity|]. cbn. now rewrite IH. Qed.

(** One polynomial of a vector: the 352 bytes at offset [off] of [a] are
    recovered from the polynomial they decompress to. *)
Lemma compress11_decompress11 (a : list Z) (off : nat) :
  (forall i, (i < compressedCoeffSize)%nat -> is_byte (a !!! (off + i)%nat)) ->
  let P :=
    flat_map (fun j : nat =>
      map scale11
        (unpack11 (a !!! (off + 11 * j + 0)%nat) (a !!! (off + 11 * j + 1)%nat)
                  (a !!! (off + 11 * j + 2)%nat) (a !!! (off + 11 * j + 3)%nat)
                  (a !!! (off + 11 * j + 4)%nat) (a !!! (off + 11 * j + 5)%nat)
                  (a !!! (off + 11 * j + 6)%nat) (a !!! (off + 11 * j + 7)%nat)
                  (a !!! (off + 11 * j + 8)%nat) (a !!! (off + 11 * j + 9)%nat)
                  (a !!! (off + 11 * j + 10)%nat)))
    (seq 0 32) in
  flat_map (fun j : nat =>
    pack11 (quant11 (freeze (P !!! (8 * j + 0)%nat))) (quant11 (freeze (P !!! (8 * j + 1)%nat)))
           (quant11 (freeze (P !!! (8 * j + 2)%nat))) (quant11 (freeze (P !!! (8 * j + 3)%nat)))
           (quant11 (freeze (P !!! (8 * j + 4)%nat))) (quant11 (freeze (P !!! (8 * j + 5)%nat)))
           (quant11 (freeze (P !!! (8 * j + 6)%nat))) (quant11 (freeze (P !!! (8 * j + 7)%nat))))
  (seq 0 32)
  = map (fun i : nat => a !!! (off + i)%nat) (seq 0 compressedCoeffSize).
Proof.
  intros Hb P.
  set (l := map (fun i : nat => a !!! (off + i)%nat) (seq 0 compressedCoeffSize)).
  transitivity (map id l); [|apply map_id].
  rewrite <- (groups_of id 11 32 l) by (subst l; now rewrite length_map, length_seq).
  apply flat_map_ext_seq. intros j Hj. subst P.
  rewrite !(flat_map_seq_lookup_total _ 8 32 j)
    by (try (intros; reflexivity); auto; lia).
  assert (Hl : forall m, (m < 11)%nat -> l !!! (11 * j + m)%nat = a !!! (off + 11 * j + m)%nat).
  { intros m Hm. subst l.
    rewrite (list_lookup_total_fmap (fun i : nat => a !!! (off + i)%nat))
      by (rewrite length_seq; unfold compressedCoeffSize; lia).
    rewrite lookup_total_seq_lt by (unfold compressedCoeffSize; lia).
    cbn [Nat.add]. now rewrite Nat.add_assoc. }
  assert (Ha : forall m, (m < 11)%nat -> 0 <= a !!! (off + 11 * j + m)%nat < 2 ^ 8).
  { intros m Hm. rewrite <- Nat.add_assoc. apply Hb. unfold compressedCoeffSize. lia. }
  cbn [seq map]. unfold id. rewrite !Hl by lia.
  pose proof (unpack11_below _ _ _ _ _ _ _ _ _ _ _
    (Ha 0%nat ltac:(lia)) (Ha 1%nat ltac:(lia)) (Ha 2%nat ltac:(lia)) (Ha 3%nat ltac:(lia))
    (Ha 4%nat ltac:(lia)) (Ha 5%nat ltac:(lia)) (Ha 6%nat ltac:(lia)) (Ha 7%nat ltac:(lia))
    (Ha 8%nat ltac:(lia)) (Ha 9%nat ltac:(lia)) (Ha 10%nat ltac:(lia))) as Hf.
  set (f := unpack11 _ _ _ _ _ _ _ _ _ _ _) in *.
  rewrite !(list_lookup_total_fmap scale11 f)
    by (subst f; unfold unpack11; cbn [length]; lia).
  rewrite !quant11_scale11
    by (apply (Forall_lookup_total_1 (fun x : Z => 0 <= x < 2 ^ 11) f);
        [exact Hf|subst f; unfold unpack11; cbn [length]; lia]).
  subst f. apply pack11_unpack11; apply Ha; lia.
Qed.

Lemma polyVec_compress_decompress k c :
  length c = (k * compressedCoeffSize)%nat -> Forall is_byte c ->
  polyVec_compress (polyVec_decompress k c) = c.
Proof.
  intros Hlen Hb.
  rewrite polyVec_compress_groups, polyVec_decompress_groups, flat_map_map.
  change (kyberN / 8)%nat with 32%nat.
  transitivity (map id c); [|apply map_id].
  rewrite <- (groups_of id compressedCoeffSize k c) by lia.
  apply flat_map_ext_seq. intros idx Hidx.
  transitivity (map (fun i : nat => c !!! (idx * compressedCoeffSize + i)%nat)
                    (seq 0 compressedCoeffSize)).
  - apply (compress11_decompress11 c (idx * compressedCoeffSize)).
    intros i Hi. apply (Forall_lookup_total_1 is_byte); [exact Hb|]. rewrite Hlen. nia.
  - apply map_ext_seq. intros i Hi. unfold id. f_equal. lia.
Qed.

Lemma poly_decompress_compress_lossy :
  poly_decompress (poly_compress (replicate 256 1)) <> replicate 256 1.
Proof. vm_compute. discriminate. Qed.

(** C6: compressing the decompression of a compressed byte string gives
    the byte string back, for the 96-byte encoding of a polynomial (3 bits
    per coefficient) and for the k*352-byte encoding of a vector (11 bits
    per coefficient); decompression does not invert compression: some
    polynomial is changed by compress-then-decompress. *)
Theorem C6_compress_idempotent_on_range :
  (forall c, length c = polyCompressedSize -> Forall is_byte c ->
     poly_compress (poly_decompress c) = c) /\
  (forall k c, length c = (k * compressedCoeffSize)%nat -> Forall is_byte c ->
     polyVec_compress (polyVec_decompress k c) = c) /\
  (exists p, poly_below kyberQ p /\ poly_decompress (poly_compress p) <> p).
Proof.
  split; [exact poly_compress_decompress|].
  split; [exact polyVec_compress_decompress|].
  exists (replicate 256 1). split; [|exact poly_decompress_compress_lossy].
  split; [reflexivity|]. apply Forall_replicate. unfold kyberQ. lia.
Qed.

Lemma C6_compress_idempotent_on_range_witness :
  let c := map (fun i : nat => (37 * Z.of_nat i + 5) mod 256) (seq 0 96) in
  let d := map (fun i : nat => (91 * Z.of_nat i + 3) mod 256) (seq 0 704) in
  poly_compress (poly_decompress c) = c /\
  polyVec_compress (polyVec_decompress 2 d) = d.
Proof.
  intros c d.
  assert (Hbytes : forall (f : nat -> Z) n,
             Forall is_byte (map (fun i : nat => f i mod 256) (seq 0 n))).
  { intros f n. apply Forall_forall. intros x Hx.
    apply list_elem_of_In, in_map_iff in Hx as (i & <- & _).
    apply Z.mod_pos_bound. lia. }
  split.
  - apply (proj1 C6_compress_idempotent_on_range c); [reflexivity|].
    apply (Hbytes (fun i => 37 * Z.of_nat i + 5)).
  - apply (proj1 (proj2 C6_compress_idempotent_on_range) 2%nat d); [reflexivity|].
    apply (Hbytes (fun i => 91 * Z.of_nat i + 3)).
Defined.
(** ** The transforms as instances of the generic loops *)

Lemma ntt_inner_generic n level zeta distance j (p : list Z) :
  distance <> 0%nat ->
  ntt_inner n level zeta distance j p = gntt_inner ntt_bf n level zeta distance j p.
Proof.
  intros Hd. revert j p. induction n as [|n IH]; intros j p; [reflexivity|].
  cbn [ntt_inner gntt_inner]. unfold ntt_bf. cbn [fst snd].
  rewrite !list_lookup_total_insert_ne by lia.
  destruct (Nat.odd level); apply IH.
Qed.

Lemma ntt_starts_generic fuel level distance start k (p : list Z) :
  distance <> 0%nat ->
  ntt_starts fuel level distance start k p
  = gntt_starts ntt_bf fuel level distance start k p.
Proof.
  intros Hd. revert start k p. induction fuel as [|fuel IH]; intros start k p; [reflexivity|].
  cbn [ntt_starts gntt_starts]. destruct (decide (start < kyberN)%nat); [|reflexivity].
  rewrite ntt_inner_generic by exact Hd.
  destruct (gntt_inner ntt_bf distance level (zetas !!! k) distance start p) as [p' j].
  apply IH.
Qed.

Lemma fold_left_ext_in {S X : Type} (f g : S -> X -> S) (l : list X) (s : S) :
  (forall s x, In x l -> f s x = g s x) -> fold_left f l s = fold_left g l s.
Proof.
  revert s. induction l as [|x l IH]; intros s Hfg; [reflexivity|].
  cbn. rewrite Hfg by (left; reflexivity). apply IH. intros; apply Hfg. now right.
Qed.

Lemma pow2_nonzero level : (2 ^ level <> 0)%nat.
Proof. apply Nat.pow_nonzero. discriminate. Qed.

Lemma nttRef_generic p : nttRef p = gnttRef ntt_bf p.
Proof.
  unfold nttRef, gnttRef.
  rewrite (fold_left_ext_in
    (fun (st : list Z * nat) (level : nat) =>
       ntt_starts kyberN level (2 ^ level)%nat 0 (snd st) (fst st))
    (fun (st : list Z * nat) (level : nat) =>
       gntt_starts ntt_bf kyberN level (2 ^ level)%nat 0 (snd st) (fst st))).
  - reflexivity.
  - intros st level _. apply ntt_starts_generic, pow2_nonzero.
Qed.

Lemma invntt_inner_generic fuel level distance j jTwiddle (a : list Z) :
  distance <> 0%nat ->
  invntt_inner fuel level distance j jTwiddle a
  = ginvntt_inner invntt_bf fuel level distance j jTwiddle a.
Proof.
  intros Hd. revert j jTwiddle a.
  induction fuel as [|fuel IH]; intros j jTwiddle a; [reflexivity|].
  cbn [invntt_inner ginvntt_inner].
  destruct (decide (j < kyberN - 1)%nat); [|reflexivity].
  unfold invntt_bf. cbn [fst snd].
  destruct (Nat.odd level); rewrite !list_lookup_total_insert_ne by lia; apply IH.
Qed.

Lemma invnttRef_generic a : invnttRef a = ginvnttRef invntt_bf invntt_scale a.
Proof.
  unfold invnttRef, ginvnttRef.
  rewrite (fold_left_ext_in
    (fun (a : list Z) (level : nat) =>
       let distance := (2 ^ level)%nat in
       fold_left (fun (a : list Z) (start : nat) =>
                    invntt_inner kyberN level distance start 0 a)
                 (seq 0 distance) a)
    (fun (a : list Z) (level : nat) =>
       let distance := (2 ^ level)%nat in
       fold_left (fun (a : list Z) (start : nat) =>
                    ginvntt_inner invntt_bf kyberN level distance start 0 a)
                 (seq 0 distance) a)).
  - reflexivity.
  - intros a' level _. cbv zeta.
    rewrite (fold_left_ext_in
      (fun (a : list Z) (start : nat) =>
         invntt_inner kyberN level (2 ^ level)%nat start 0 a)
      (fun (a : list Z) (start : nat) =>
         ginvntt_inner invntt_bf kyberN level (2 ^ level)%nat start 0 a)).
    + reflexivity.
    + intros a'' start _. apply invntt_inner_generic, pow2_nonzero.
Qed.

(** ** A relation between two coefficient domains is preserved by the loops *)

Lemma Forall2_lookup_total {A B : Type} `{Inhabited A} `{Inhabited B}
    (R : A -> B -> Prop) (l : list A) (l' : list B) (i : nat) :
  R inhabitant inhabitant -> Forall2 R l l' -> R (l !!! i) (l' !!! i).
Proof.
  intros Hd Hl. revert i. induction Hl as [|x y l l' Hxy _ IH]; intros i.
  - rewrite !lookup_total_nil. exact Hd.
  - destruct i as [|i]; [exact Hxy|apply IH].
Qed.

Section Related.
Context {A B : Type} `{Inhabited A} `{Inhabited B}.
Variable R : A -> B -> Prop.
Variables (bfA : nat -> Z -> A -> A -> A * A) (bfB : nat -> Z -> B -> B -> B * B).
Variables (ibfA : nat -> Z -> A -> A -> A * A) (ibfB : nat -> Z -> B -> B -> B * B).
Variables (fmA : Z -> A -> A) (fmB : Z -> B -> B).
Hypothesis R_default : R inhabitant inhabitant.
Hypothesis bf_related : forall level zeta x x' y y',
  0 <= zeta < kyberQ -> R x x' -> R y y' ->
  R (fst (bfA level zeta x y)) (fst (bfB level zeta x' y')) /\
  R (snd (bfA level zeta x y)) (snd (bfB level zeta x' y')).
Hypothesis ibf_related : forall level w x x' y y',
  0 <= w < kyberQ -> R x x' -> R y y' ->
  R (fst (ibfA level w x y)) (fst (ibfB level w x' y')) /\
  R (snd (ibfA level w x y)) (snd (ibfB level w x' y')).
Hypothesis fm_related : forall psi x x',
  0 <= psi < kyberQ -> R x x' -> R (fmA psi x) (fmB psi x').
Hypothesis zetas_range : forall k, 0 <= zetas !!! k < kyberQ.
Hypothesis omegas_range : forall k, 0 <= omegasInvBitrevMontgomery !!! k < kyberQ.
Hypothesis psis_range : forall k, 0 <= psisInvMontgomery !!! k < kyberQ.

Lemma gntt_inner_related n level zeta distance j p p' :
  0 <= zeta < kyberQ -> Forall2 R p p' ->
  Forall2 R (fst (gntt_inner bfA n level zeta distance j p))
            (fst (gntt_inner bfB n level zeta distance j p')) /\
  snd (gntt_inner bfA n level zeta distance j p)
  = snd (gntt_inner bfB n level zeta distance j p').
Proof.
  intros Hz. revert j p p'. induction n as [|n IH]; intros j p p' Hp; [now split|].
  cbn [gntt_inner]. apply IH.
  destruct (bf_related level zeta (p !!! j) (p' !!! j)
              (p !!! (j + distance)%nat) (p' !!! (j + distance)%nat) Hz)
    as [Hx Hy]; try (apply Forall2_lookup_total; assumption).
  apply Forall2_insert; [apply Forall2_insert|]; assumption.
Qed.

Lemma gntt_starts_related fuel level distance start k p p' :
  Forall2 R p p' ->
  Forall2 R (fst (gntt_starts bfA fuel level distance start k p))
            (fst (gntt_starts bfB fuel level distance start k p')) /\
  snd (gntt_starts bfA fuel level distance start k p)
  = snd (gntt_starts bfB fuel level distance start k p').
Proof.
  revert start k p p'. induction fuel as [|fuel IH]; intros start k p p' Hp; [now split|].
  cbn [gntt_starts]. destruct (decide (start < kyberN)%nat); [|now split].
  destruct (gntt_inner_related distance level (zetas !!! k) distance start p p'
              (zetas_range k) Hp) as [H1 H2].
  destruct (gntt_inner bfA distance level (zetas !!! k) distance start p) as [q j].
  destruct (gntt_inner bfB distance level (zetas !!! k) distance start p') as [q' j'].
  cbn [fst snd] in H1, H2. subst j'. now apply IH.
Qed.

Lemma gnttRef_related p p' :
  Forall2 R p p' -> Forall2 R (gnttRef bfA p) (gnttRef bfB p').
Proof.
  intros Hp. unfold gnttRef.
  assert (Hgen : forall levels (st : list A * nat) (st' : list B * nat),
             Forall2 R (fst st) (fst st') -> snd st = snd st' ->
             Forall2 R
               (fst (fold_left (fun (st : list A * nat) (level : nat) =>
                        gntt_starts bfA kyberN level (2 ^ level)%nat 0 (snd st) (fst st))
                      levels st))
               (fst (fold_left (fun (st : list B * nat) (level : nat) =>
                        gntt_starts bfB kyberN level (2 ^ level)%nat 0 (snd st) (fst st))
                      levels st'))).
  { induction levels as [|level levels IH]; intros st st' H1 H2; [exact H1|].
    cbn [fold_left]. rewrite <- H2.
    destruct (gntt_starts_related kyberN level (2 ^ level)%nat 0 (snd st)
                (fst st) (fst st') H1) as [H3 H4].
    now apply IH. }
  now apply Hgen.
Qed.

Lemma ginvntt_inner_related fuel level distance j jTwiddle a a' :
  Forall2 R a a' ->
  Forall2 R (ginvntt_inner ibfA fuel level distance j jTwiddle a)
            (ginvntt_inner ibfB fuel level distance j jTwiddle a').
Proof.
  revert j jTwiddle a a'.
  induction fuel as [|fuel IH]; intros j jTwiddle a a' Ha; [exact Ha|].
  cbn [ginvntt_inner]. destruct (decide (j < kyberN - 1)%nat); [|exact Ha].
  apply IH.
  destruct (ibf_related level (omegasInvBitrevMontgomery !!! jTwiddle)
              (a !!! j) (a' !!! j) (a !!! (j + distance)%nat) (a' !!! (j + distance)%nat)
              (omegas_range jTwiddle))
    as [Hx Hy]; try (apply Forall2_lookup_total; assumption).
  apply Forall2_insert; [apply Forall2_insert|]; assumption.
Qed.

Lemma fold_left_related {X : Type} (f : list A -> X -> list A) (g : list B -> X -> list B)
    (l : list X) a a' :
  (forall x b b', Forall2 R b b' -> Forall2 R (f b x) (g b' x)) ->
  Forall2 R a a' -> Forall2 R (fold_left f l a) (fold_left g l a').
Proof.
  intros Hfg. revert a a'. induction l as [|x l IH]; intros a a' Ha; [exact Ha|].
  cbn [fold_left]. apply IH, Hfg, Ha.
Qed.

Lemma ginvnttRef_related a a' :
  Forall2 R a a' -> Forall2 R (ginvnttRef ibfA fmA a) (ginvnttRef ibfB fmB a').
Proof.
  intros Ha. unfold ginvnttRef.
  apply fold_left_related.
  - intros i b b' Hb. apply Forall2_insert; [exact Hb|].
    apply fm_related; [apply psis_range|]. now apply Forall2_lookup_total.
  - apply fold_left_related; [|exact Ha].
    intros level b b' Hb. apply fold_left_related; [|exact Hb].
    intros start c c' Hc. now apply ginvntt_inner_related.
Qed.

End Related.
(** ** Linear forms modulo q *)

Lemma cong_add a a' b b' :
  a mod kyberQ = a' mod kyberQ -> b mod kyberQ = b' mod kyberQ ->
  (a + b) mod kyberQ = (a' + b') mod kyberQ.
Proof.
  intros Ha Hb. rewrite Z.add_mod, Ha, Hb, <- Z.add_mod by discriminate. reflexivity.
Qed.

Lemma cong_sub a a' b b' :
  a mod kyberQ = a' mod kyberQ -> b mod kyberQ = b' mod kyberQ ->
  (a - b) mod kyberQ = (a' - b') mod kyberQ.
Proof.
  intros Ha Hb. rewrite Zminus_mod, Ha, Hb, <- Zminus_mod. reflexivity.
Qed.

Lemma cong_mul a a' b b' :
  a mod kyberQ = a' mod kyberQ -> b mod kyberQ = b' mod kyberQ ->
  (a * b) mod kyberQ = (a' * b') mod kyberQ.
Proof.
  intros Ha Hb. rewrite Z.mul_mod, Ha, Hb, <- Z.mul_mod by discriminate. reflexivity.
Qed.

Lemma cong_mod a : (a mod kyberQ) mod kyberQ = a mod kyberQ.
Proof. apply Z.mod_mod. discriminate. Qed.

Lemma form_eval_nil_r f : form_eval f [] = 0.
Proof. destruct f; reflexivity. Qed.

Lemma form_eval_map_mod f env :
  form_eval (map (fun x => x mod kyberQ) f) env mod kyberQ = form_eval f env mod kyberQ.
Proof.
  revert env. induction f as [|c f IH]; intros [|x env]; try reflexivity.
  cbn [map form_eval]. apply cong_add; [|apply IH].
  apply cong_mul; [apply cong_mod|reflexivity].
Qed.

Lemma form_eval_add f g env :
  form_eval (form_add f g) env mod kyberQ
  = (form_eval f env + form_eval g env) mod kyberQ.
Proof.
  revert g env. induction f as [|c f IH]; intros g env.
  - cbn [form_add]. rewrite form_eval_map_mod. destruct env; reflexivity.
  - destruct g as [|d g].
    + cbn [form_add]. rewrite form_eval_map_mod. cbn [form_eval].
      destruct env; [reflexivity|]. now rewrite Z.add_0_r.
    + destruct env as [|x env]; [reflexivity|]. cbn [form_add form_eval].
      replace (c * x + form_eval f env + (d * x + form_eval g env))
        with ((c + d) * x + (form_eval f env + form_eval g env)) by lia.
      apply cong_add; [|apply IH]. apply cong_mul; [apply cong_mod|reflexivity].
Qed.

Lemma form_eval_map_opp g env :
  form_eval (map (fun y => (- y) mod kyberQ) g) env mod kyberQ
  = (- form_eval g env) mod kyberQ.
Proof.
  revert env. induction g as [|d g IH]; intros [|x env]; try reflexivity.
  cbn [map form_eval].
  replace (- (d * x + form_eval g env)) with ((- d) * x + - form_eval g env) by lia.
  apply cong_add; [|apply IH]. apply cong_mul; [apply cong_mod|reflexivity].
Qed.

Lemma form_eval_sub f g env :
  form_eval (form_sub f g) env mod kyberQ
  = (form_eval f env - form_eval g env) mod kyberQ.
Proof.
  revert g env. induction f as [|c f IH]; intros g env.
  - cbn [form_sub]. rewrite form_eval_map_opp. destruct env; reflexivity.
  - destruct g as [|d g].
    + cbn [form_sub]. rewrite form_eval_map_mod. cbn [form_eval].
      destruct env; [reflexivity|]. now rewrite Z.sub_0_r.
    + destruct env as [|x env]; [reflexivity|]. cbn [form_sub form_eval].
      replace (c * x + form_eval f env - (d * x + form_eval g env))
        with ((c - d) * x + (form_eval f env - form_eval g env)) by lia.
      apply cong_add; [|apply IH]. apply cong_mul; [apply cong_mod|reflexivity].
Qed.

Lemma form_eval_scale c f env :
  form_eval (form_scale c f) env mod kyberQ = (c * form_eval f env) mod kyberQ.
Proof.
  revert env. induction f as [|d f IH]; intros [|x env];
    try (cbn; now rewrite ?Z.mul_0_r).
  cbn [form_scale map form_eval].
  replace (c * (d * x + form_eval f env)) with (c * d * x + c * form_eval f env) by lia.
  apply cong_add; [|apply IH]. apply cong_mul; [apply cong_mod|reflexivity].
Qed.

Lemma form_eval_zeros n env : form_eval (replicate n 0) env = 0.
Proof.
  revert env. induction n as [|n IH]; intros [|x env]; try reflexivity.
  cbn [replicate form_eval]. now rewrite IH.
Qed.

Lemma form_eval_unit n i (env : list Z) :
  (i < n)%nat -> length env = n -> form_eval (form_unit n i) env = env !!! i.
Proof.
  revert i env. induction n as [|n IH]; intros i env Hi Hlen; [lia|].
  destruct env as [|x env]; [discriminate|]. destruct i as [|i].
  - cbn [form_unit form_eval]. rewrite form_eval_zeros.
    change ((x :: env) !!! 0%nat) with x. lia.
  - cbn [form_unit form_eval]. rewrite IH by (cbn in Hlen; lia).
    change ((x :: env) !!! S i) with (env !!! i). lia.
Qed.

Lemma list_Z_eqb_eq l1 l2 : list_Z_eqb l1 l2 = true -> l1 = l2.
Proof.
  revert l2. induction l1 as [|x l1 IH]; intros [|y l2] E; try discriminate; [reflexivity|].
  cbn in E. apply andb_true_iff in E as [E1 E2]. apply Z.eqb_eq in E1.
  f_equal; [exact E1|now apply IH].
Qed.

(** ** Soundness of the abstract butterflies *)

Section AbstractSound.
Variable env : list Z.

Lemma mont_sound (a h : Z) :
  0 <= a <= h -> h + (2 ^ 18 - 1) * kyberQ < 2 ^ 32 ->
  0 <= montgomeryReduce (u32 a) <= mont_hi h /\
  montgomeryReduce (u32 a) mod kyberQ = (a * montRinv) mod kyberQ.
Proof.
  intros Ha Hh. assert (Hq : kyberQ = 7681) by reflexivity.
  rewrite u32_small by lia. split.
  - apply montgomeryReduce_bound; lia.
  - apply montgomeryReduce_congr; lia.
Qed.

Lemma abs_ntt_bf_sound level zeta x ax y ay :
  0 <= zeta < kyberQ -> absR env x ax -> absR env y ay ->
  absR env (fst (ntt_bf level zeta x y)) (fst (abs_ntt_bf level zeta ax ay)) /\
  absR env (snd (ntt_bf level zeta x y)) (snd (abs_ntt_bf level zeta ax ay)).
Proof.
  intros Hz Hx Hy. assert (Hq : kyberQ = 7681) by reflexivity.
  destruct ax as [[hx fx]|], ay as [[hy fy]|]; try (cbn; auto; fail).
  unfold abs_ntt_bf. cbn [a_hi a_form].
  destruct (_ && _) eqn:Hok; [|cbn; auto].
  apply andb_true_iff in Hok as [Hok H4]. apply andb_true_iff in Hok as [Hok H3].
  apply andb_true_iff in Hok as [H1 H2].
  apply Z.ltb_lt in H1, H2, H4. apply Z.leb_le in H3.
  cbn [absR a_hi a_form] in Hx, Hy. destruct Hx as [Hx Hxc], Hy as [Hy Hyc].
  destruct (mont_sound (zeta * y) (zeta * hy)) as [Ht Htc]; [nia|lia|].
  unfold ntt_bf. set (t := montgomeryReduce (u32 (zeta * y))) in *.
  cbn [fst snd absR a_hi a_form].
  assert (Htf : t mod kyberQ
                = form_eval (form_scale (zeta * montRinv) fy) env mod kyberQ).
  { rewrite form_eval_scale, Htc.
    replace (zeta * y * montRinv) with (zeta * montRinv * y) by lia.
    apply cong_mul; [reflexivity|exact Hyc]. }
  split.
  - rewrite (u16_small (x + t)) by lia.
    destruct (Nat.odd level).
    + split; [lia|]. rewrite form_eval_add. now apply cong_add.
    + split.
      * apply barrettReduce_bound; lia.
      * rewrite barrettReduce_congr by lia. rewrite form_eval_add. now apply cong_add.
  - rewrite (u16_small (x + 4 * kyberQ)) by lia.
    rewrite (u16_small (x + 4 * kyberQ - t)) by lia. split.
    + pose proof (barrettReduce_bound (x + 4 * kyberQ - t) (hx + 4 * kyberQ)
                    ltac:(lia) ltac:(lia)). lia.
    + rewrite barrettReduce_congr by lia. rewrite form_eval_sub.
      replace (x + 4 * kyberQ - t) with (x - t + 4 * kyberQ) by lia.
      rewrite Z_mod_plus_full. now apply cong_sub.
Qed.

Lemma abs_invntt_bf_sound level w x ax y ay :
  0 <= w < kyberQ -> absR env x ax -> absR env y ay ->
  absR env (fst (invntt_bf level w x y)) (fst (abs_invntt_bf level w ax ay)) /\
  absR env (snd (invntt_bf level w x y)) (snd (abs_invntt_bf level w ax ay)).
Proof.
  intros Hw Hx Hy. assert (Hq : kyberQ = 7681) by reflexivity.
  destruct ax as [[hx fx]|], ay as [[hy fy]|]; try (cbn; auto; fail).
  unfold abs_invntt_bf. cbn [a_hi a_form].
  destruct (_ && _) eqn:Hok; [|cbn; auto].
  apply andb_true_iff in Hok as [Hok H4]. apply andb_true_iff in Hok as [Hok H3].
  apply andb_true_iff in Hok as [H1 H2].
  apply Z.ltb_lt in H1, H3, H4. apply Z.leb_le in H2.
  cbn [absR a_hi a_form] in Hx, Hy. destruct Hx as [Hx Hxc], Hy as [Hy Hyc].
  unfold invntt_bf. cbn [fst snd absR a_hi a_form]. split.
  - rewrite (u16_small (x + y)) by lia.
    destruct (Nat.odd level).
    + split.
      * apply barrettReduce_bound; lia.
      * rewrite barrettReduce_congr by lia. rewrite form_eval_add. now apply cong_add.
    + split; [lia|]. rewrite form_eval_add. now apply cong_add.
  - rewrite (u32_small (x + 4 * kyberQ)) by lia.
    rewrite (u32_small (x + 4 * kyberQ - y)) by lia.
    destruct (mont_sound (w * (x + 4 * kyberQ - y)) (w * (hx + 4 * kyberQ)))
      as [Ht Htc]; [nia|lia|].
    split; [exact Ht|]. rewrite Htc, form_eval_scale.
    replace (w * (x + 4 * kyberQ - y) * montRinv)
      with (w * montRinv * (x - y + 4 * kyberQ)) by lia.
    apply cong_mul; [reflexivity|]. rewrite Z_mod_plus_full, form_eval_sub.
    now apply cong_sub.
Qed.

Lemma abs_invntt_scale_sound psi x ax :
  0 <= psi < kyberQ -> absR env x ax ->
  absR env (invntt_scale psi x) (abs_invntt_scale psi ax).
Proof.
  intros Hp Hx. assert (Hq : kyberQ = 7681) by reflexivity.
  destruct ax as [[hx fx]|]; [|exact I].
  unfold abs_invntt_scale. cbn [a_hi a_form].
  destruct (_ <? _) eqn:Hok; [|exact I]. apply Z.ltb_lt in Hok.
  cbn [absR a_hi a_form] in *. destruct Hx as [Hx Hxc]. unfold invntt_scale.
  destruct (mont_sound (x * psi) (hx * psi)) as [Ht Htc]; [nia|lia|].
  split; [exact Ht|]. rewrite Htc, form_eval_scale.
  replace (x * psi * montRinv) with (psi * montRinv * x) by lia.
  apply cong_mul; [reflexivity|exact Hxc].
Qed.

End AbstractSound.
(** ** The twiddle tables *)

Lemma table_below_q_lookup (t : list Z) (k : nat) :
  table_below_q t = true -> 0 <= t !!! k < kyberQ.
Proof.
  intros Ht. destruct (decide (k < length t)%nat) as [Hk|Hk].
  - unfold table_below_q in Ht. rewrite forallb_forall in Ht.
    assert (Hin : In (t !!! k) t).
    { apply list_elem_of_In, list_elem_of_lookup_total_2. exact Hk. }
    specialize (Ht _ Hin). apply andb_true_iff in Ht as [H1 H2].
    apply Z.leb_le in H1. apply Z.ltb_lt in H2. lia.
  - rewrite list_lookup_total_alt, lookup_ge_None_2 by lia. cbn. unfold kyberQ. lia.
Qed.

Lemma zetas_range k : 0 <= zetas !!! k < kyberQ.
Proof. apply table_below_q_lookup. vm_compute. reflexivity. Qed.

Lemma omegas_range k : 0 <= omegasInvBitrevMontgomery !!! k < kyberQ.
Proof. apply table_below_q_lookup. vm_compute. reflexivity. Qed.

Lemma psis_range k : 0 <= psisInvMontgomery !!! k < kyberQ.
Proof. apply table_below_q_lookup. vm_compute. reflexivity. Qed.

(** The tables are the ones the parameters determine: powers of the
    primitive 512-th root of unity 62, in Montgomery form, bit-reversed. *)
Lemma zetas_first_entries :
  take 4 zetas = [montR mod kyberQ; (montR * 62 ^ 128) mod kyberQ;
                  (montR * 62 ^ 64) mod kyberQ; (montR * 62 ^ 192) mod kyberQ] /\
  (62 ^ 256) mod kyberQ = kyberQ - 1 /\
  (psisInvMontgomery !!! 0%nat * 256) mod kyberQ = montR mod kyberQ.
Proof. vm_compute. auto. Qed.

(** ** Lengths *)

Section Lengths.
Context {A : Type} `{Inhabited A}.
Variables (bf ibf : nat -> Z -> A -> A -> A * A) (fm : Z -> A -> A).

Lemma gntt_inner_length n level zeta distance j (p : list A) :
  length (fst (gntt_inner bf n level zeta distance j p)) = length p.
Proof.
  revert j p. induction n as [|n IH]; intros j p; [reflexivity|].
  cbn [gntt_inner]. rewrite IH, !length_insert. reflexivity.
Qed.

Lemma gntt_starts_length fuel level distance start k (p : list A) :
  length (fst (gntt_starts bf fuel level distance start k p)) = length p.
Proof.
  revert start k p. induction fuel as [|fuel IH]; intros start k p; [reflexivity|].
  cbn [gntt_starts]. destruct (decide (start < kyberN)%nat); [|reflexivity].
  pose proof (gntt_inner_length distance level (zetas !!! k) distance start p) as Hl.
  destruct (gntt_inner bf distance level (zetas !!! k) distance start p) as [q j].
  rewrite IH. exact Hl.
Qed.

Lemma gntt_levels_length (levels : list nat) (st : list A * nat) :
  length (fst (fold_left (fun (st : list A * nat) (level : nat) =>
                 gntt_starts bf kyberN level (2 ^ level)%nat 0 (snd st) (fst st))
               levels st))
  = length (fst st).
Proof.
  revert st. induction levels as [|level levels IH]; intros st; [reflexivity|].
  cbn [fold_left]. rewrite IH. apply gntt_starts_length.
Qed.

Lemma gnttRef_length (p : list A) : length (gnttRef bf p) = length p.
Proof. unfold gnttRef. apply (gntt_levels_length _ (p, 1%nat)). Qed.

Lemma ginvntt_inner_length fuel level distance j jTwiddle (a : list A) :
  length (ginvntt_inner ibf fuel level distance j jTwiddle a) = length a.
Proof.
  revert j jTwiddle a. induction fuel as [|fuel IH]; intros j jTwiddle a; [reflexivity|].
  cbn [ginvntt_inner]. destruct (decide (j < kyberN - 1)%nat); [|reflexivity].
  rewrite IH, !length_insert. reflexivity.
Qed.

Lemma fold_left_length {X : Type} (f : list A -> X -> list A) (l : list X) (a : list A) :
  (forall b x, length (f b x) = length b) -> length (fold_left f l a) = length a.
Proof.
  intros Hf. revert a. induction l as [|x l IH]; intros a; [reflexivity|].
  cbn [fold_left]. now rewrite IH, Hf.
Qed.

Lemma ginvnttRef_length (a : list A) : length (ginvnttRef ibf fm a) = length a.
Proof.
  unfold ginvnttRef. rewrite fold_left_length by (intros; apply length_insert).
  apply fold_left_length. intros b level. apply fold_left_length.
  intros c start. apply ginvntt_inner_length.
Qed.

End Lengths.

Lemma nttRef_length p : length (nttRef p) = length p.
Proof. rewrite nttRef_generic. apply gnttRef_length. Qed.

Lemma invnttRef_length p : length (invnttRef p) = length p.
Proof. rewrite invnttRef_generic. apply ginvnttRef_length. Qed.

(** ** Bounds and congruences of the transforms *)

Lemma abs_input_related bound (p : list Z) :
  length p = kyberN -> Forall (fun c : Z => 0 <= c <= bound) p ->
  Forall2 (absR p) p (abs_input bound).
Proof.
  intros Hlen Hall. apply Forall2_same_length_lookup. split.
  - unfold abs_input. now rewrite length_map, length_seq.
  - intros i x a Hx Ha. unfold abs_input in Ha.
    rewrite list_lookup_fmap in Ha.
    destruct (seq 0 kyberN !! i) as [j|] eqn:Hj; [|discriminate].
    apply lookup_seq in Hj as [-> Hi].
    assert (Ha' : a = Some {| a_hi := bound; a_form := form_unit kyberN i |}).
    { symmetry. exact (f_equal (default a) Ha). }
    rewrite Ha'.
    change (0 <= x <= bound /\
            x mod kyberQ = form_eval (form_unit kyberN i) p mod kyberQ).
    split.
    + apply (Forall_lookup_1 _ _ _ _ Hall Hx).
    + rewrite form_eval_unit by auto.
      now rewrite (list_lookup_total_correct _ _ _ Hx).
Qed.

Lemma nttRef_related env p pa :
  Forall2 (absR env) p pa ->
  Forall2 (absR env) (nttRef p) (gnttRef abs_ntt_bf pa).
Proof.
  intros Hp. rewrite nttRef_generic.
  apply (gnttRef_related (absR env)); [exact I| |exact zetas_range|exact Hp].
  intros level zeta x x' y y'. apply abs_ntt_bf_sound.
Qed.

Lemma invnttRef_related env p pa :
  Forall2 (absR env) p pa ->
  Forall2 (absR env) (invnttRef p) (ginvnttRef abs_invntt_bf abs_invntt_scale pa).
Proof.
  intros Hp. rewrite invnttRef_generic.
  apply (ginvnttRef_related (absR env));
    [exact I| | |exact omegas_range|exact psis_range|exact Hp].
  - intros level w x x' y y'. apply abs_invntt_bf_sound.
  - intros psi x x'. apply abs_invntt_scale_sound.
Qed.

Lemma abs_all_below_sound env bound (r : list Z) ra :
  Forall2 (absR env) r ra -> abs_all_below bound ra = true ->
  Forall (fun c : Z => 0 <= c < bound) r.
Proof.
  intros Hr. induction Hr as [|x a r ra Hxa _ IH]; intros Hc; [constructor|].
  cbn in Hc. apply andb_true_iff in Hc as [H1 H2].
  constructor; [|now apply IH].
  destruct a as [a|]; [|discriminate]. apply Z.ltb_lt in H1.
  destruct Hxa as [Hx _]. lia.
Qed.

Lemma abs_all_identity_sound env bound i0 (r : list Z) ra :
  Forall2 (absR env) r ra -> abs_all_identity bound i0 ra = true ->
  forall k, (k < length r)%nat ->
    0 <= r !!! k < bound /\
    (r !!! k) mod kyberQ = form_eval (form_unit kyberN (i0 + k)) env mod kyberQ.
Proof.
  intros Hr. revert i0. induction Hr as [|x a r ra Hxa _ IH]; intros i0 Hc k Hk;
    [cbn in Hk; lia|].
  cbn [abs_all_identity] in Hc. apply andb_true_iff in Hc as [H1 H2].
  destruct k as [|k].
  - destruct a as [a|]; [|discriminate]. apply andb_true_iff in H1 as [Hb Hf].
    apply Z.ltb_lt in Hb. apply list_Z_eqb_eq in Hf.
    destruct Hxa as [Hx Hxc]. rewrite Nat.add_0_r, <- Hf.
    change ((x :: r) !!! 0%nat) with x. split; [lia|exact Hxc].
  - change ((x :: r) !!! S k) with (r !!! k).
    replace (i0 + S k)%nat with (S i0 + k)%nat by lia.
    apply IH; [exact H2|cbn in Hk; lia].
Qed.

Lemma ntt_abs_check :
  abs_all_below (2 * kyberQ) (gnttRef abs_ntt_bf (abs_input (2 * kyberQ - 1))) = true.
Proof. vm_compute. reflexivity. Qed.

Lemma invntt_abs_check :
  abs_all_below (2 * kyberQ)
    (ginvnttRef abs_invntt_bf abs_invntt_scale (abs_input (2 * kyberQ - 1))) = true.
Proof. vm_compute. reflexivity. Qed.

Lemma round_trip_abs_check :
  abs_all_identity (2 * kyberQ) 0
    (ginvnttRef abs_invntt_bf abs_invntt_scale
       (gnttRef abs_ntt_bf (abs_input (2 * kyberQ - 1)))) = true.
Proof. vm_compute. reflexivity. Qed.

Lemma poly_below_abs_input p :
  poly_below (2 * kyberQ) p -> Forall2 (absR p) p (abs_input (2 * kyberQ - 1)).
Proof.
  intros [Hlen Hall]. apply abs_input_related; [exact Hlen|].
  eapply Forall_impl; [exact Hall|]. cbn. intros; lia.
Qed.

Lemma nttRef_below p : poly_below (2 * kyberQ) p -> poly_below (2 * kyberQ) (nttRef p).
Proof.
  intros Hp. split; [rewrite nttRef_length; apply Hp|].
  apply (abs_all_below_sound p _ _ _ (nttRef_related p p _ (poly_below_abs_input p Hp))).
  exact ntt_abs_check.
Qed.

Lemma invnttRef_below p :
  poly_below (2 * kyberQ) p -> poly_below (2 * kyberQ) (invnttRef p).
Proof.
  intros Hp. split; [rewrite invnttRef_length; apply Hp|].
  apply (abs_all_below_sound p _ _ _ (invnttRef_related p p _ (poly_below_abs_input p Hp))).
  exact invntt_abs_check.
Qed.

Lemma invntt_ntt_congruent p :
  poly_below (2 * kyberQ) p ->
  forall k, (k < kyberN)%nat ->
    0 <= invnttRef (nttRef p) !!! k < 2 * kyberQ /\
    (invnttRef (nttRef p) !!! k) mod kyberQ = (p !!! k) mod kyberQ.
Proof.
  intros Hp k Hk.
  pose proof (invnttRef_related p _ _ (nttRef_related p p _ (poly_below_abs_input p Hp)))
    as Hrel.
  destruct (abs_all_identity_sound p _ 0 _ _ Hrel round_trip_abs_check k) as [Hb Hc].
  { rewrite invnttRef_length, nttRef_length. destruct Hp as [-> _]. exact Hk. }
  split; [exact Hb|]. rewrite Hc. cbn [Nat.add].
  rewrite form_eval_unit; [reflexivity|exact Hk|apply Hp].
Qed.

Lemma map_freeze_congruent (r p : list Z) :
  length r = length p ->
  (forall k, (k < length p)%nat ->
     0 <= r !!! k < 2 ^ 16 /\ 0 <= p !!! k < 2 ^ 16 /\
     (r !!! k) mod kyberQ = (p !!! k) mod kyberQ) ->
  map freeze r = map freeze p.
Proof.
  intros Hlen Hk. apply list_eq_total; [now rewrite !length_map|].
  intros k Hlt. rewrite length_map in Hlt.
  rewrite !lookup_total_map by lia.
  destruct (Hk k) as (H1 & H2 & H3); [lia|]. now apply freeze_congr.
Qed.

Lemma invntt_ntt_freeze p :
  poly_below (2 * kyberQ) p -> map freeze (invnttRef (nttRef p)) = map freeze p.
Proof.
  intros Hp. assert (Hpl : length p = kyberN) by apply Hp.
  apply map_freeze_congruent.
  - now rewrite invnttRef_length, nttRef_length.
  - intros k Hk. rewrite Hpl in Hk.
    destruct (invntt_ntt_congruent p Hp k Hk) as [Hb Hc].
    pose proof (poly_below_lookup _ _ k Hp Hk) as Hpk.
    unfold kyberQ in Hb, Hpk. repeat split; first [lia | exact Hc].
Qed.

(** C5, as stated, asks for [p] itself after the final freeze, for every
    array of 256 [uint16] values.  A coefficient equal to q comes back as
    0; and for coefficients near 2^16 the sums inside [nttRef] wrap, so
    that the result is not even congruent to [p] modulo q. *)
Lemma C5_every_polynomial_fails :
  ~ (forall p, poly_below 65536 p -> map freeze (invnttRef (nttRef p)) = p) /\
  ~ (forall p, poly_below 65536 p ->
       map freeze (invnttRef (nttRef p)) = map freeze p).
Proof.
  assert (Hp : forall c, 0 <= c < 65536 -> poly_below 65536 (replicate 256 c)).
  { intros c Hc. split; [reflexivity|]. now apply Forall_replicate. }
  assert (E1 : map freeze (invnttRef (nttRef (replicate 256 7681)))
               <> replicate 256 7681) by (vm_compute; discriminate).
  assert (E2 : map freeze (invnttRef (nttRef (replicate 256 65535)))
               <> map freeze (replicate 256 65535)) by (vm_compute; discriminate).
  split; intros H.
  - apply E1, H, Hp. lia.
  - apply E2, H, Hp. lia.
Qed.

(** C5 (amended): for every polynomial whose 256 coefficients lie in
    [0, 2q), the range kept during chained arithmetic, [nttRef] followed by
    [invnttRef] and a freeze of every coefficient gives the frozen
    coefficients of [p]; when the coefficients of [p] are canonical, in
    [0, q), this is [p] itself.  No Montgomery factor is left: the
    multiplication by [psisInvMontgomery] absorbs it. *)
Theorem C5_invntt_ntt_round_trip p :
  (poly_below (2 * kyberQ) p ->
     map freeze (invnttRef (nttRef p)) = map freeze p) /\
  (poly_below kyberQ p -> map freeze (invnttRef (nttRef p)) = p).
Proof.
  split.
  - apply invntt_ntt_freeze.
  - intros Hp. rewrite invntt_ntt_freeze.
    + now apply map_freeze_canonical.
    + revert Hp. apply poly_below_mono. unfold kyberQ. lia.
Qed.

Lemma C5_invntt_ntt_round_trip_witness :
  let p := map (fun i : nat => 60 * Z.of_nat i) (seq 0 256) in
  let c := map (fun i : nat => 30 * Z.of_nat i) (seq 0 256) in
  map freeze (invnttRef (nttRef p)) = map freeze p /\
  map freeze (invnttRef (nttRef c)) = c.
Proof.
  intros p c.
  assert (Hb : forall m b, 0 <= m -> 255 * m < b ->
             poly_below b (map (fun i : nat => m * Z.of_nat i) (seq 0 256))).
  { intros m b Hm0 Hm. split; [reflexivity|]. apply Forall_forall. intros x Hx.
    apply list_elem_of_In, in_map_iff in Hx as (i & <- & Hi). apply in_seq in Hi. nia. }
  split.
  - apply (proj1 (C5_invntt_ntt_round_trip p)). apply (Hb 60 (2 * kyberQ)); [lia|reflexivity].
  - apply (proj2 (C5_invntt_ntt_round_trip c)). apply (Hb 30 kyberQ); [lia|reflexivity].
Defined.
(** ** Coefficient ranges of the polynomial operations *)

Lemma Forall_map_seq {B : Type} (P : B -> Prop) (f : nat -> B) (n : nat) :
  (forall i, (i < n)%nat -> P (f i)) -> Forall P (map f (seq 0 n)).
Proof.
  intros Hf. apply Forall_forall. intros x Hx.
  apply list_elem_of_In, in_map_iff in Hx as (i & <- & Hi).
  apply Hf. apply in_seq in Hi. lia.
Qed.

Lemma Forall_flat_map_seq {B : Type} (P : B -> Prop) (f : nat -> list B) (n : nat) :
  (forall i, (i < n)%nat -> Forall P (f i)) -> Forall P (flat_map f (seq 0 n)).
Proof.
  intros Hf. apply Forall_forall. intros x Hx.
  apply list_elem_of_In, in_flat_map in Hx as (i & Hi & Hx).
  apply in_seq in Hi. specialize (Hf i ltac:(lia)).
  rewrite Forall_forall in Hf. apply Hf. now apply list_elem_of_In.
Qed.

Lemma barrett_hi_below h : 0 <= h < 2 ^ 16 -> barrett_hi h < 2 * kyberQ.
Proof.
  intros Hh. unfold barrett_hi, kyberQ. destruct (Z.ltb_spec h (2 ^ 13)); [lia|].
  assert (h / 2 ^ 13 < 8) by (apply Z.div_lt_upper_bound; lia). lia.
Qed.

Lemma poly_add_below a b :
  poly_below (2 * kyberQ) a -> poly_below (2 * kyberQ) b ->
  poly_below (2 * kyberQ) (poly_add a b) /\
  poly_add a b = map (fun i : nat => barrettReduce (a !!! i + b !!! i)) (seq 0 kyberN).
Proof.
  intros Ha Hb. assert (Hq : kyberQ = 7681) by reflexivity.
  assert (Hw : forall i, (i < kyberN)%nat -> u16 (a !!! i + b !!! i) = a !!! i + b !!! i).
  { intros i Hi. pose proof (poly_below_lookup _ _ i Ha Hi).
    pose proof (poly_below_lookup _ _ i Hb Hi). apply u16_small. lia. }
  assert (He : poly_add a b
               = map (fun i : nat => barrettReduce (a !!! i + b !!! i)) (seq 0 kyberN)).
  { unfold poly_add. apply map_ext_seq. intros i Hi. now rewrite Hw. }
  split; [|exact He]. rewrite He. split; [now rewrite length_map, length_seq|].
  apply Forall_map_seq. intros i Hi.
  pose proof (poly_below_lookup _ _ i Ha Hi). pose proof (poly_below_lookup _ _ i Hb Hi).
  apply barrettReduce_lt_2q. lia.
Qed.

Lemma poly_sub_below a b :
  poly_below (2 * kyberQ) a -> poly_below (2 * kyberQ) b ->
  poly_below (2 * kyberQ) (poly_sub a b) /\
  poly_sub a b
  = map (fun i : nat => barrettReduce (a !!! i + 3 * kyberQ - b !!! i)) (seq 0 kyberN).
Proof.
  intros Ha Hb. assert (Hq : kyberQ = 7681) by reflexivity.
  assert (He : poly_sub a b
               = map (fun i : nat => barrettReduce (a !!! i + 3 * kyberQ - b !!! i))
                     (seq 0 kyberN)).
  { unfold poly_sub. apply map_ext_seq. intros i Hi.
    pose proof (poly_below_lookup _ _ i Ha Hi). pose proof (poly_below_lookup _ _ i Hb Hi).
    rewrite (u16_small (a !!! i + 3 * kyberQ)) by lia.
    rewrite (u16_small (a !!! i + 3 * kyberQ - b !!! i)) by lia. reflexivity. }
  split; [|exact He]. rewrite He. split; [now rewrite length_map, length_seq|].
  apply Forall_map_seq. intros i Hi.
  pose proof (poly_below_lookup _ _ i Ha Hi). pose proof (poly_below_lookup _ _ i Hb Hi).
  apply barrettReduce_lt_2q. lia.
Qed.

Lemma poly_decompress_below a :
  length a = polyCompressedSize -> Forall is_byte a ->
  poly_below kyberQ (poly_decompress a).
Proof.
  intros Hlen Hb. rewrite poly_decompress_groups. change (kyberN / 8)%nat with 32%nat.
  split; [rewrite (flat_map_length_const _ 8); [reflexivity|intros; reflexivity]|].
  apply Forall_flat_map_seq. intros g Hg.
  assert (Hc : forall j, (j < 3)%nat -> 0 <= a !!! (3 * g + j)%nat < 2 ^ 8).
  { intros j Hj. apply (Forall_lookup_total_1 is_byte); [exact Hb|].
    rewrite Hlen. unfold polyCompressedSize. lia. }
  pose proof (Hc 0%nat ltac:(lia)) as H0. rewrite Nat.add_0_r in H0.
  pose proof (unpack3_below _ _ _ H0 (Hc 1%nat ltac:(lia)) (Hc 2%nat ltac:(lia))) as Hf.
  revert Hf. generalize (unpack3 (a !!! (3 * g)%nat) (a !!! (3 * g + 1)%nat)
                                 (a !!! (3 * g + 2)%nat)).
  intros f Hf. induction Hf as [|x f Hx _ IH]; [constructor|].
  cbn [map]. constructor; [|exact IH].
  unfold scale3, kyberQ. rewrite (u16_small (x * 7681)) by lia.
  rewrite (u16_small (x * 7681 + 4)) by lia. rewrite Z.shiftr_div_pow2 by lia.
  split; [apply Z.div_pos; lia|apply Z.div_lt_upper_bound; lia].
Qed.

Lemma scale11_below x : 0 <= x < 2 ^ 11 -> 0 <= scale11 x < kyberQ.
Proof.
  intros Hx. unfold scale11, kyberQ. rewrite (u32_small (x * 7681)) by lia.
  rewrite (u32_small (x * 7681 + 1024)) by lia. rewrite Z.shiftr_div_pow2 by lia.
  assert (0 <= (x * 7681 + 1024) / 2 ^ 11 < 7681).
  { split; [apply Z.div_pos; lia|apply Z.div_lt_upper_bound; lia]. }
  rewrite u16_small by lia. lia.
Qed.

Lemma polyVec_decompress_below k a :
  length a = (k * compressedCoeffSize)%nat -> Forall is_byte a ->
  length (polyVec_decompress k a) = k /\
  Forall (poly_below kyberQ) (polyVec_decompress k a).
Proof.
  intros Hlen Hb. rewrite polyVec_decompress_groups. change (kyberN / 8)%nat with 32%nat.
  split; [now rewrite length_map, length_seq|].
  apply Forall_map_seq. intros idx Hidx. cbv zeta.
  split; [rewrite (flat_map_length_const _ 8); [reflexivity|intros; reflexivity]|].
  apply Forall_flat_map_seq. intros j Hj.
  assert (Hc : forall m, (m < 11)%nat ->
             0 <= a !!! (idx * compressedCoeffSize + 11 * j + m)%nat < 2 ^ 8).
  { intros m Hm. apply (Forall_lookup_total_1 is_byte); [exact Hb|].
    rewrite Hlen. unfold compressedCoeffSize. nia. }
  pose proof (unpack11_below _ _ _ _ _ _ _ _ _ _ _
    (Hc 0%nat ltac:(lia)) (Hc 1%nat ltac:(lia)) (Hc 2%nat ltac:(lia)) (Hc 3%nat ltac:(lia))
    (Hc 4%nat ltac:(lia)) (Hc 5%nat ltac:(lia)) (Hc 6%nat ltac:(lia)) (Hc 7%nat ltac:(lia))
    (Hc 8%nat ltac:(lia)) (Hc 9%nat ltac:(lia)) (Hc 10%nat ltac:(lia))) as Hf.
  revert Hf. generalize (unpack11
    (a !!! (idx * compressedCoeffSize + 11 * j + 0)%nat)
    (a !!! (idx * compressedCoeffSize + 11 * j + 1)%nat)
    (a !!! (idx * compressedCoeffSize + 11 * j + 2)%nat)
    (a !!! (idx * compressedCoeffSize + 11 * j + 3)%nat)
    (a !!! (idx * compressedCoeffSize + 11 * j + 4)%nat)
    (a !!! (idx * compressedCoeffSize + 11 * j + 5)%nat)
    (a !!! (idx * compressedCoeffSize + 11 * j + 6)%nat)
    (a !!! (idx * compressedCoeffSize + 11 * j + 7)%nat)
    (a !!! (idx * compressedCoeffSize + 11 * j + 8)%nat)
    (a !!! (idx * compressedCoeffSize + 11 * j + 9)%nat)
    (a !!! (idx * compressedCoeffSize + 11 * j + 10)%nat)).
  intros f Hf. induction Hf as [|x f Hx _ IH]; [constructor|].
  cbn [map]. constructor; [now apply scale11_below|exact IH].
Qed.

Lemma unpack13_below b0 b1 b2 b3 b4 b5 b6 b7 b8 b9 b10 b11 b12 :
  0 <= b0 < 2 ^ 8 -> 0 <= b1 < 2 ^ 8 -> 0 <= b2 < 2 ^ 8 -> 0 <= b3 < 2 ^ 8 ->
  0 <= b4 < 2 ^ 8 -> 0 <= b5 < 2 ^ 8 -> 0 <= b6 < 2 ^ 8 -> 0 <= b7 < 2 ^ 8 ->
  0 <= b8 < 2 ^ 8 -> 0 <= b9 < 2 ^ 8 -> 0 <= b10 < 2 ^ 8 -> 0 <= b11 < 2 ^ 8 ->
  0 <= b12 < 2 ^ 8 ->
  Forall (fun x : Z => 0 <= x < 2 ^ 13)
         (unpack13 b0 b1 b2 b3 b4 b5 b6 b7 b8 b9 b10 b11 b12).
Proof.
  intros. unfold unpack13.
  repeat (constructor; [below|]). constructor.
Qed.

Lemma poly_fromBytes_below a :
  (polySize <= length a)%nat -> Forall is_byte a ->
  poly_below (2 ^ 13) (poly_fromBytes a).
Proof.
  intros Hlen Hb. rewrite poly_fromBytes_groups. change (kyberN / 8)%nat with 32%nat.
  split; [rewrite (flat_map_length_const _ 8); [reflexivity|intros; reflexivity]|].
  apply Forall_flat_map_seq. intros i Hi.
  assert (Hc : forall m, (m < 13)%nat -> 0 <= a !!! (13 * i + m)%nat < 2 ^ 8).
  { intros m Hm. apply (Forall_lookup_total_1 is_byte); [exact Hb|].
    unfold polySize in Hlen. lia. }
  apply unpack13_below; apply Hc; lia.
Qed.

Lemma polyVec_fromBytes_below k a :
  length a = (k * polySize)%nat -> Forall is_byte a ->
  length (polyVec_fromBytes k a) = k /\
  Forall (poly_below (2 ^ 13)) (polyVec_fromBytes k a).
Proof.
  intros Hlen Hb. unfold polyVec_fromBytes.
  split; [now rewrite length_map, length_seq|].
  apply Forall_map_seq. intros i Hi. apply poly_fromBytes_below.
  - rewrite length_drop, Hlen. unfold polySize. nia.
  - now apply Forall_drop.
Qed.

Lemma poly_fromMsg_below msg :
  poly_below (2 ^ 12) (poly_fromMsg msg).
Proof.
  unfold poly_fromMsg.
  split; [rewrite (flat_map_length_const _ 8); [reflexivity|]|].
  { intros i. now rewrite length_map, length_seq. }
  apply Forall_flat_map_seq. intros i Hi. apply Forall_map_seq. intros j Hj.
  change ((kyberQ + 1) / 2) with 3841. below.
Qed.
(** ** Noise sampling *)

Lemma cbd_sum32_below (f : nat -> Z) (B : Z) (s n : nat) (d0 : Z) :
  (forall j, 0 <= f j <= B) -> 0 <= d0 -> d0 + Z.of_nat n * B < 2 ^ 32 ->
  0 <= fold_left (fun (d : Z) (j : nat) => u32 (d + u32 (f j))) (seq s n) d0
    <= d0 + Z.of_nat n * B.
Proof.
  intros Hf. revert s d0. induction n as [|n IH]; intros s d0 Hd0 Hb; [cbn; lia|].
  cbn [seq fold_left]. pose proof (Hf s) as Hs.
  rewrite (u32_small (f s)) by nia. rewrite (u32_small (d0 + f s)) by nia.
  specialize (IH (S s) (d0 + f s) ltac:(lia) ltac:(nia)). nia.
Qed.

Lemma cbd_sum64_below (f : nat -> Z) (B : Z) (s n : nat) (d0 : Z) :
  (forall j, 0 <= f j <= B) -> 0 <= d0 -> d0 + Z.of_nat n * B < 2 ^ 64 ->
  0 <= fold_left (fun (d : Z) (j : nat) => u64 (d + f j)) (seq s n) d0
    <= d0 + Z.of_nat n * B.
Proof.
  intros Hf. revert s d0. induction n as [|n IH]; intros s d0 Hd0 Hb; [cbn; lia|].
  cbn [seq fold_left]. pose proof (Hf s) as Hs.
  assert (Hu : u64 (d0 + f s) = d0 + f s) by (apply Z.mod_small; nia).
  rewrite Hu. specialize (IH (S s) (d0 + f s) ltac:(lia) ltac:(nia)). nia.
Qed.

Lemma land_mask_below x (m : Z) : 0 <= m -> 0 <= x .& m <= m.
Proof.
  intros Hm. split; [apply Z.land_nonneg; lia|].
  destruct (Z.eq_dec m 0) as [->|Hne]; [rewrite Z.land_0_r; lia|].
  assert (Hs : x .& m = m - Z.ldiff m x).
  { rewrite <- (Z.lor_ldiff_and m x) at 2. rewrite Z.land_comm.
    rewrite <- Z.add_nocarry_lor.
    - lia.
    - apply Z.bits_inj'. intros n Hn.
      rewrite Z.land_spec, Z.ldiff_spec, Z.land_spec, Z.bits_0. btauto. }
  assert (0 <= Z.ldiff m x) by (apply Z.ldiff_nonneg; lia). lia.
Qed.

Lemma cbd_coeff32_below a b :
  0 <= a < 32 -> 0 <= b < 32 ->
  0 <= u16 (u32 (u32 (a + kyberQ) - b)) < 2 * kyberQ.
Proof.
  intros Ha Hb. unfold kyberQ. rewrite (u32_small (a + 7681)) by lia.
  rewrite (u32_small (a + 7681 - b)) by lia. rewrite u16_small by lia. lia.
Qed.

Lemma cbd_coeff64_below a b :
  0 <= a < 32 -> 0 <= b < 32 ->
  0 <= u16 (u64 (u64 (a + kyberQ) - b)) < 2 * kyberQ.
Proof.
  intros Ha Hb. unfold kyberQ, u64. rewrite (Z.mod_small (a + 7681)) by lia.
  rewrite (Z.mod_small (a + 7681 - b)) by lia. rewrite u16_small by lia. lia.
Qed.

Lemma shiftr_le_below d k B w :
  0 <= k -> 0 <= d <= B -> B < 2 ^ k * w -> 0 <= d >> k < w.
Proof.
  intros Hk Hd HB. rewrite Z.shiftr_div_pow2 by lia. split.
  - apply Z.div_pos; lia.
  - apply Z.div_lt_upper_bound; lia.
Qed.

Ltac cbd_field :=
  match goal with
  | |- 0 <= ?x .& Zpos ?m < _ =>
      let H := fresh in
      pose proof (land_mask_below x (Zpos m) ltac:(lia)) as H; lia
  end.

Ltac cbd_enough :=
  unfold cbdRef; change (kyberN / 4)%nat with 64%nat;
  match goal with
  | |- context [(?a <? ?b)%nat] => destruct (Nat.ltb_spec a b); [exfalso; lia|]
  end.

Lemma cbdRef_below (buf : list Z) (eta : nat) :
  (eta = 3 \/ eta = 4 \/ eta = 5)%nat -> (eta * 64 <= length buf)%nat ->
  exists p, cbdRef buf eta = Ok p /\ poly_below (2 * kyberQ) p.
Proof.
  intros [-> | [-> | ->]] Hl; cbd_enough; eexists; (split; [reflexivity|]);
    (split; [rewrite (flat_map_length_const _ 4); [reflexivity|intros; reflexivity]|]);
    apply Forall_flat_map_seq; intros i Hi; cbv zeta.
  - set (t := loadLittleEndian (drop (3 * i) buf) 3).
    pose proof (cbd_sum32_below (fun j : nat => (t >> Z.of_nat j) .& 2396745)
                  2396745 0 3 0) as Hd.
    specialize (Hd (fun j => land_mask_below _ 2396745 ltac:(lia)) ltac:(lia) ltac:(lia)).
    cbv beta in Hd. set (d := fold_left _ (seq 0 3) 0) in *.
    repeat (constructor;
            [apply cbd_coeff32_below;
             first [cbd_field | apply (shiftr_le_below d 21 (0 + Z.of_nat 3 * 2396745)); lia]|]).
    constructor.
  - set (t := loadLittleEndian (drop (4 * i) buf) 4).
    pose proof (cbd_sum32_below (fun j : nat => (t >> Z.of_nat j) .& 286331153)
                  286331153 0 4 0) as Hd.
    specialize (Hd (fun j => land_mask_below _ 286331153 ltac:(lia)) ltac:(lia) ltac:(lia)).
    cbv beta in Hd. set (d := fold_left _ (seq 0 4) 0) in *.
    repeat (constructor;
            [apply cbd_coeff32_below;
             first [cbd_field | apply (shiftr_le_below d 28 (0 + Z.of_nat 4 * 286331153)); lia]|]).
    constructor.
  - set (t := loadLittleEndian (drop (5 * i) buf) 5).
    pose proof (cbd_sum64_below (fun j : nat => (t >> Z.of_nat j) .& 35468117025)
                  35468117025 0 5 0) as Hd.
    specialize (Hd (fun j => land_mask_below _ 35468117025 ltac:(lia)) ltac:(lia) ltac:(lia)).
    cbv beta in Hd. set (d := fold_left _ (seq 0 5) 0) in *.
    repeat (constructor;
            [apply cbd_coeff64_below;
             first [cbd_field | apply (shiftr_le_below d 35 (0 + Z.of_nat 5 * 35468117025)); lia]|]).
    constructor.
Qed.

(** ** Pointwise multiply-accumulate *)

Lemma acc_fold_below (term : nat -> Z) (T : Z) (l : list nat) (acc A : Z) :
  (forall i, In i l -> 0 <= term i <= T) -> 0 <= acc <= A ->
  A + T * Z.of_nat (length l) < 2 ^ 16 ->
  fold_left (fun (pj : Z) (i : nat) => u16 (pj + term i)) l acc
  = fold_left (fun (pj : Z) (i : nat) => pj + term i) l acc /\
  0 <= fold_left (fun (pj : Z) (i : nat) => pj + term i) l acc
    <= A + T * Z.of_nat (length l).
Proof.
  revert acc A. induction l as [|i l IH]; intros acc A Ht Hacc Hb; [cbn in *; lia|].
  cbn [fold_left length] in *. pose proof (Ht i ltac:(now left)) as Hi.
  rewrite (u16_small (acc + term i)) by nia.
  destruct (IH (acc + term i) (A + T)) as [E B]; [intros; apply Ht; now right|lia|nia|].
  split; [exact E|]. nia.
Qed.

Lemma pointwise_term_below (x y : Z) :
  0 <= x < 2 * kyberQ -> 0 <= y < 2 * kyberQ ->
  let t := montgomeryReduce (u32 (4613 * y)) in
  montgomeryReduce (u32 (4613 * y)) = montgomeryReduce (4613 * y) /\
  montgomeryReduce (u32 (x * t)) = montgomeryReduce (x * t) /\
  0 <= montgomeryReduce (u32 (x * t)) <= 8146.
Proof.
  intros Hx Hy t. assert (Hq : kyberQ = 7681) by reflexivity.
  destruct (mont_sound (4613 * y) (4613 * 15361)) as [Ht _]; [lia|lia|].
  change (mont_hi (4613 * 15361)) with 7951 in Ht. fold t in Ht.
  destruct (mont_sound (x * t) (15361 * 7951)) as [Hp _]; [nia|lia|].
  change (mont_hi (15361 * 7951)) with 8146 in Hp.
  rewrite (u32_small (4613 * y)) by lia. split; [reflexivity|].
  rewrite (u32_small (x * t)) in * by nia. split; [reflexivity|exact Hp].
Qed.

Lemma pointwiseAccRef_below (a b : list (list Z)) :
  (1 <= length a <= 8)%nat -> length b = length a ->
  Forall (poly_below (2 * kyberQ)) a -> Forall (poly_below (2 * kyberQ)) b ->
  poly_below (2 * kyberQ) (pointwiseAccRef a b) /\
  pointwiseAccRef a b = pointwiseAcc_nowrap a b.
Proof.
  intros Hk Hlen Ha Hb.
  assert (Hterm : forall i j, (i < length a)%nat -> (j < kyberN)%nat ->
            let t := montgomeryReduce (u32 (4613 * (b !!! i) !!! j)) in
            montgomeryReduce (u32 (4613 * (b !!! i) !!! j))
              = montgomeryReduce (4613 * (b !!! i) !!! j) /\
            montgomeryReduce (u32 ((a !!! i) !!! j * t))
              = montgomeryReduce ((a !!! i) !!! j * t) /\
            0 <= montgomeryReduce (u32 ((a !!! i) !!! j * t)) <= 8146).
  { intros i j Hi Hj. apply pointwise_term_below.
    - apply poly_below_lookup; [|exact Hj].
      apply (Forall_lookup_total_1 (poly_below (2 * kyberQ))); [exact Ha|exact Hi].
    - apply poly_below_lookup; [|exact Hj].
      apply (Forall_lookup_total_1 (poly_below (2 * kyberQ))); [exact Hb|lia]. }
  assert (Hj : forall j, (j < kyberN)%nat ->
            let f := fun (wrap : bool) (j : nat) =>
              fold_left (fun (pj : Z) (i : nat) =>
                  pj + montgomeryReduce ((a !!! i) !!! j
                         * montgomeryReduce (4613 * (b !!! i) !!! j)))
                (seq 1 (length a - 1))
                (montgomeryReduce ((a !!! 0%nat) !!! j
                   * montgomeryReduce (4613 * (b !!! 0%nat) !!! j))) in
            fold_left (fun (pj : Z) (i : nat) =>
                u16 (pj + montgomeryReduce (u32 ((a !!! i) !!! j
                       * montgomeryReduce (u32 (4613 * (b !!! i) !!! j))))))
              (seq 1 (length a - 1))
              (montgomeryReduce (u32 ((a !!! 0%nat) !!! j
                 * montgomeryReduce (u32 (4613 * (b !!! 0%nat) !!! j)))))
            = f true j /\ 0 <= f true j < 2 ^ 16).
  { intros j Hjlt f. subst f. cbv beta.
    destruct (Hterm 0%nat j ltac:(lia) Hjlt) as (E1 & E2 & B0).
    cbv zeta in E2, B0. rewrite E1 in E2, B0. rewrite E2 in B0. rewrite E1, E2.
    destruct (acc_fold_below
      (fun i : nat => montgomeryReduce (u32 ((a !!! i) !!! j
                        * montgomeryReduce (u32 (4613 * (b !!! i) !!! j)))))
      8146 (seq 1 (length a - 1))
      (montgomeryReduce ((a !!! 0%nat) !!! j * montgomeryReduce (4613 * (b !!! 0%nat) !!! j)))
      8146) as [E B].
    - intros i Hi. apply in_seq in Hi.
      destruct (Hterm i j ltac:(lia) Hjlt) as (_ & _ & Bi). exact Bi.
    - exact B0.
    - rewrite length_seq. lia.
    - rewrite length_seq in B. cbv beta in E. rewrite E.
      assert (Hext : fold_left (fun (pj : Z) (i : nat) =>
                 pj + montgomeryReduce (u32 ((a !!! i) !!! j
                        * montgomeryReduce (u32 (4613 * (b !!! i) !!! j)))))
               (seq 1 (length a - 1))
               (montgomeryReduce ((a !!! 0%nat) !!! j
                  * montgomeryReduce (4613 * (b !!! 0%nat) !!! j)))
             = fold_left (fun (pj : Z) (i : nat) =>
                 pj + montgomeryReduce ((a !!! i) !!! j
                        * montgomeryReduce (4613 * (b !!! i) !!! j)))
               (seq 1 (length a - 1))
               (montgomeryReduce ((a !!! 0%nat) !!! j
                  * montgomeryReduce (4613 * (b !!! 0%nat) !!! j)))).
      { apply fold_left_ext_in. intros s i Hi. apply in_seq in Hi.
        destruct (Hterm i j ltac:(lia) Hjlt) as (Ei1 & Ei2 & _).
        cbv zeta in Ei2. rewrite Ei1 in Ei2. now rewrite Ei1, Ei2. }
      rewrite <- Hext. split; [reflexivity|]. cbv beta in B. lia. }
  assert (He : pointwiseAccRef a b = pointwiseAcc_nowrap a b).
  { unfold pointwiseAccRef, pointwiseAcc_nowrap. apply map_ext_seq. intros j Hjlt.
    cbv zeta. destruct (Hj j Hjlt) as [E _]. cbv zeta beta in E. now rewrite E. }
  split; [|exact He]. rewrite He. unfold pointwiseAcc_nowrap.
  split; [now rewrite length_map, length_seq|].
  apply Forall_map_seq. intros j Hjlt. cbv zeta.
  destruct (Hj j Hjlt) as [_ B]. cbv zeta beta in B.
  apply barrettReduce_lt_2q. exact B.
Qed.
(** ** The transforms never wrap on coefficients in [0, 2q) *)

Section NoWrap.
Variable env : list Z.

Lemma ntt_bf_nowrap_eq level zeta x ax y ay :
  0 <= zeta < kyberQ -> absR env x ax -> absR env y ay ->
  abs_ntt_bf level zeta ax ay <> (None, None) ->
  ntt_bf level zeta x y = ntt_bf_nowrap level zeta x y.
Proof.
  intros Hz Hx Hy Hne. assert (Hq : kyberQ = 7681) by reflexivity.
  destruct ax as [[hx fx]|], ay as [[hy fy]|]; try (cbn in Hne; congruence).
  unfold abs_ntt_bf in Hne. cbn [a_hi a_form] in Hne.
  destruct (_ && _) eqn:Hok; [|congruence]. clear Hne.
  apply andb_true_iff in Hok as [Hok H4]. apply andb_true_iff in Hok as [Hok H3].
  apply andb_true_iff in Hok as [H1 H2].
  apply Z.ltb_lt in H1, H2, H4. apply Z.leb_le in H3.
  cbn [absR a_hi a_form] in Hx, Hy. destruct Hx as [Hx _], Hy as [Hy _].
  destruct (mont_sound (zeta * y) (zeta * hy)) as [Ht _]; [nia|lia|].
  unfold ntt_bf, ntt_bf_nowrap.
  rewrite (u32_small (zeta * y)) in * by nia.
  set (t := montgomeryReduce (zeta * y)) in *.
  rewrite (u16_small (x + t)) by lia.
  rewrite (u16_small (x + 4 * kyberQ)) by lia.
  rewrite (u16_small (x + 4 * kyberQ - t)) by lia. reflexivity.
Qed.

Lemma invntt_bf_nowrap_eq level w x ax y ay :
  0 <= w < kyberQ -> absR env x ax -> absR env y ay ->
  abs_invntt_bf level w ax ay <> (None, None) ->
  invntt_bf level w x y = invntt_bf_nowrap level w x y.
Proof.
  intros Hw Hx Hy Hne. assert (Hq : kyberQ = 7681) by reflexivity.
  destruct ax as [[hx fx]|], ay as [[hy fy]|]; try (cbn in Hne; congruence).
  unfold abs_invntt_bf in Hne. cbn [a_hi a_form] in Hne.
  destruct (_ && _) eqn:Hok; [|congruence]. clear Hne.
  apply andb_true_iff in Hok as [Hok H4]. apply andb_true_iff in Hok as [Hok H3].
  apply andb_true_iff in Hok as [H1 H2].
  apply Z.ltb_lt in H1, H3, H4. apply Z.leb_le in H2.
  cbn [absR a_hi a_form] in Hx, Hy. destruct Hx as [Hx _], Hy as [Hy _].
  unfold invntt_bf, invntt_bf_nowrap.
  rewrite (u16_small (x + y)) by lia.
  rewrite (u32_small (x + 4 * kyberQ)) by lia.
  rewrite (u32_small (x + 4 * kyberQ - y)) by lia.
  rewrite (u32_small (w * (x + 4 * kyberQ - y))) by nia. reflexivity.
Qed.

Lemma invntt_scale_nowrap_eq psi x ax :
  0 <= psi < kyberQ -> absR env x ax -> abs_invntt_scale psi ax <> None ->
  invntt_scale psi x = invntt_scale_nowrap psi x.
Proof.
  intros Hp Hx Hne. assert (Hq : kyberQ = 7681) by reflexivity.
  destruct ax as [[hx fx]|]; [|cbn in Hne; congruence].
  unfold abs_invntt_scale in Hne. cbn [a_hi a_form] in Hne.
  destruct (_ <? _) eqn:Hok; [|congruence]. apply Z.ltb_lt in Hok.
  cbn [absR a_hi a_form] in Hx. destruct Hx as [Hx _].
  unfold invntt_scale, invntt_scale_nowrap. rewrite u32_small by nia. reflexivity.
Qed.

Lemma abs_ntt_bf_none level zeta ax ay :
  ax = None \/ ay = None -> abs_ntt_bf level zeta ax ay = (None, None).
Proof. intros [-> | ->]; try destruct ax; try destruct ay; reflexivity. Qed.

Lemma abs_invntt_bf_none level w ax ay :
  ax = None \/ ay = None -> abs_invntt_bf level w ax ay = (None, None).
Proof. intros [-> | ->]; try destruct ax; try destruct ay; reflexivity. Qed.

Lemma nowrap_ntt_bf_related level zeta x bx y by_ :
  0 <= zeta < kyberQ -> nowrapR env x bx -> nowrapR env y by_ ->
  nowrapR env (fst (ntt_bf level zeta x y))
              (fst (pair_bf ntt_bf_nowrap abs_ntt_bf level zeta bx by_)) /\
  nowrapR env (snd (ntt_bf level zeta x y))
              (snd (pair_bf ntt_bf_nowrap abs_ntt_bf level zeta bx by_)).
Proof.
  intros Hz [Hx Ex] [Hy Ey].
  destruct (abs_ntt_bf_sound env level zeta x (snd bx) y (snd by_) Hz Hx Hy) as [S1 S2].
  assert (Heq : abs_ntt_bf level zeta (snd bx) (snd by_) <> (None, None) ->
                ntt_bf level zeta x y = ntt_bf_nowrap level zeta (fst bx) (fst by_)).
  { intros Hne.
    destruct (snd bx) as [ax|] eqn:Eax;
      [|exfalso; apply Hne, abs_ntt_bf_none; now left].
    destruct (snd by_) as [ay|] eqn:Eay;
      [|exfalso; apply Hne, abs_ntt_bf_none; now right].
    rewrite <- Ex, <- Ey by discriminate.
    now apply (ntt_bf_nowrap_eq level zeta x (Some ax) y (Some ay)). }
  unfold pair_bf, nowrapR. cbn [fst snd]. split; (split; [assumption|]).
  - intros Hne. rewrite Heq; [reflexivity|]. intros E. now rewrite E in Hne.
  - intros Hne. rewrite Heq; [reflexivity|]. intros E. now rewrite E in Hne.
Qed.

Lemma nowrap_invntt_bf_related level w x bx y by_ :
  0 <= w < kyberQ -> nowrapR env x bx -> nowrapR env y by_ ->
  nowrapR env (fst (invntt_bf level w x y))
              (fst (pair_bf invntt_bf_nowrap abs_invntt_bf level w bx by_)) /\
  nowrapR env (snd (invntt_bf level w x y))
              (snd (pair_bf invntt_bf_nowrap abs_invntt_bf level w bx by_)).
Proof.
  intros Hw [Hx Ex] [Hy Ey].
  destruct (abs_invntt_bf_sound env level w x (snd bx) y (snd by_) Hw Hx Hy) as [S1 S2].
  assert (Heq : abs_invntt_bf level w (snd bx) (snd by_) <> (None, None) ->
                invntt_bf level w x y = invntt_bf_nowrap level w (fst bx) (fst by_)).
  { intros Hne.
    destruct (snd bx) as [ax|] eqn:Eax;
      [|exfalso; apply Hne, abs_invntt_bf_none; now left].
    destruct (snd by_) as [ay|] eqn:Eay;
      [|exfalso; apply Hne, abs_invntt_bf_none; now right].
    rewrite <- Ex, <- Ey by discriminate.
    now apply (invntt_bf_nowrap_eq level w x (Some ax) y (Some ay)). }
  unfold pair_bf, nowrapR. cbn [fst snd]. split; (split; [assumption|]).
  - intros Hne. rewrite Heq; [reflexivity|]. intros E. now rewrite E in Hne.
  - intros Hne. rewrite Heq; [reflexivity|]. intros E. now rewrite E in Hne.
Qed.

Lemma nowrap_invntt_scale_related psi x bx :
  0 <= psi < kyberQ -> nowrapR env x bx ->
  nowrapR env (invntt_scale psi x)
              (pair_fm invntt_scale_nowrap abs_invntt_scale psi bx).
Proof.
  intros Hp [Hx Ex]. unfold pair_fm, nowrapR. cbn [fst snd]. split.
  - now apply abs_invntt_scale_sound.
  - intros Hne. destruct (snd bx) as [ax|] eqn:Eax; [|cbn in Hne; congruence].
    rewrite <- Ex by discriminate.
    now apply (invntt_scale_nowrap_eq psi x (Some ax)).
Qed.

End NoWrap.

(** Three lists related through a middle one are equal where the middle
    one says so. *)
Lemma Forall2_chain {A M C D : Type} (R1 : A -> M -> Prop) (R2 : M -> C -> Prop)
    (R3 : M -> D -> Prop) (Q : C -> Prop) (T : A -> D -> Prop)
    (l : list A) (m : list M) (c : list C) (d : list D) :
  (forall x y z w, R1 x y -> R2 y z -> R3 y w -> Q z -> T x w) ->
  Forall2 R1 l m -> Forall2 R2 m c -> Forall2 R3 m d -> Forall Q c ->
  Forall2 T l d.
Proof.
  intros HT H1. revert c d. induction H1 as [|x y l m Hxy _ IH]; intros c d H2 H3 HQ.
  - inversion H3; subst. constructor.
  - inversion H2; subst. inversion H3; subst. inversion HQ; subst.
    constructor; [eapply HT; eassumption|]. eapply IH; eassumption.
Qed.

Lemma abs_all_below_some bound (ra : list (option aval)) :
  abs_all_below bound ra = true -> Forall (fun a => a <> None) ra.
Proof.
  induction ra as [|a ra IH]; intros Hc; [constructor|].
  cbn in Hc. apply andb_true_iff in Hc as [H1 H2].
  constructor; [|now apply IH]. destruct a; [discriminate|discriminate].
Qed.

Lemma zip_related_input env (p : list Z) (pa : list (option aval)) :
  Forall2 (absR env) p pa ->
  Forall2 (nowrapR env) p (zip p pa) /\
  Forall2 (fun (b : Z * option aval) (a : option aval) => snd b = a) (zip p pa) pa /\
  Forall2 (fun (b : Z * option aval) (v : Z) => fst b = v) (zip p pa) p.
Proof.
  intros H. induction H as [|x a p pa Hxa _ (IH1 & IH2 & IH3)]; [repeat constructor|].
  cbn [zip zip_with]. repeat split; constructor; auto.
  split; [exact Hxa|reflexivity].
Qed.

Lemma nttRef_nowrap p :
  poly_below (2 * kyberQ) p -> nttRef p = gnttRef ntt_bf_nowrap p.
Proof.
  intros Hp. pose proof (poly_below_abs_input p Hp) as H0.
  destruct (zip_related_input p p _ H0) as (Z1 & Z2 & Z3).
  set (P0 := zip p (abs_input (2 * kyberQ - 1))) in *.
  apply list_eq_Forall2.
  apply (Forall2_chain (nowrapR p)
           (fun (b : Z * option aval) (a : option aval) => snd b = a)
           (fun (b : Z * option aval) (v : Z) => fst b = v)
           (fun a => a <> None) eq
           (nttRef p) (gnttRef (pair_bf ntt_bf_nowrap abs_ntt_bf) P0)
           (gnttRef abs_ntt_bf (abs_input (2 * kyberQ - 1)))
           (gnttRef ntt_bf_nowrap p)).
  - intros x y z w [_ E] <- <- Hz. now apply E.
  - rewrite nttRef_generic.
    apply (gnttRef_related (nowrapR p)); [split; [exact I|intros H; exfalso; apply H; reflexivity]|
      |exact zetas_range|exact Z1].
    intros level zeta x x' y y'. apply nowrap_ntt_bf_related.
  - apply (gnttRef_related (fun (b : Z * option aval) (a : option aval) => snd b = a));
      [reflexivity| |exact zetas_range|exact Z2].
    intros level zeta x x' y y' _ <- <-. split; reflexivity.
  - apply (gnttRef_related (fun (b : Z * option aval) (v : Z) => fst b = v));
      [reflexivity| |exact zetas_range|exact Z3].
    intros level zeta x x' y y' _ <- <-. split; reflexivity.
  - apply (abs_all_below_some (2 * kyberQ)). exact ntt_abs_check.
Qed.

Lemma invnttRef_nowrap p :
  poly_below (2 * kyberQ) p ->
  invnttRef p = ginvnttRef invntt_bf_nowrap invntt_scale_nowrap p.
Proof.
  intros Hp. pose proof (poly_below_abs_input p Hp) as H0.
  destruct (zip_related_input p p _ H0) as (Z1 & Z2 & Z3).
  set (P0 := zip p (abs_input (2 * kyberQ - 1))) in *.
  apply list_eq_Forall2.
  apply (Forall2_chain (nowrapR p)
           (fun (b : Z * option aval) (a : option aval) => snd b = a)
           (fun (b : Z * option aval) (v : Z) => fst b = v)
           (fun a => a <> None) eq
           (invnttRef p)
           (ginvnttRef (pair_bf invntt_bf_nowrap abs_invntt_bf)
                       (pair_fm invntt_scale_nowrap abs_invntt_scale) P0)
           (ginvnttRef abs_invntt_bf abs_invntt_scale (abs_input (2 * kyberQ - 1)))
           (ginvnttRef invntt_bf_nowrap invntt_scale_nowrap p)).
  - intros x y z w [_ E] <- <- Hz. now apply E.
  - rewrite invnttRef_generic.
    apply (ginvnttRef_related (nowrapR p)); [split; [exact I|intros H; exfalso; apply H; reflexivity]|
      | |exact omegas_range|exact psis_range|exact Z1].
    + intros level w x x' y y'. apply nowrap_invntt_bf_related.
    + intros psi x x'. apply nowrap_invntt_scale_related.
  - apply (ginvnttRef_related
             (fun (b : Z * option aval) (a : option aval) => snd b = a));
      [reflexivity| | |exact omegas_range|exact psis_range|exact Z2].
    + intros level w x x' y y' _ <- <-. split; reflexivity.
    + intros psi x x' _ <-. reflexivity.
  - apply (ginvnttRef_related (fun (b : Z * option aval) (v : Z) => fst b = v));
      [reflexivity| | |exact omegas_range|exact psis_range|exact Z3].
    + intros level w x x' y y' _ <- <-. split; reflexivity.
    + intros psi x x' _ <-. reflexivity.
  - apply (abs_all_below_some (2 * kyberQ)). exact invntt_abs_check.
Qed.
(** ** C9: the coefficient range [0, 2q) is kept by every operation *)

Lemma poly_below_replicate (c bound : Z) :
  0 <= c < bound -> poly_below bound (replicate kyberN c).
Proof.
  intros Hc. split; [apply length_replicate|]. apply Forall_replicate. exact Hc.
Qed.

Lemma Forall_below_mono b b' (v : list (list Z)) :
  b <= b' -> Forall (poly_below b) v -> Forall (poly_below b') v.
Proof.
  intros Hb Hv. eapply Forall_impl; [exact Hv|]. intros p. now apply poly_below_mono.
Qed.

(** C9: every polynomial operation maps coefficients in [0, 2q) to
    coefficients in [0, 2q), q = 7681, and its 16- and 32-bit arithmetic
    agrees with arithmetic on unbounded integers there: [poly_add],
    [poly_sub], [pointwiseAccRef] (for vectors of one to eight polynomials),
    [nttRef] and [invnttRef]; [cbdRef] (eta 3, 4 or 5, on a buffer of at
    least 64*eta bytes), [poly_decompress], [polyVec_decompress],
    [poly_fromBytes], [polyVec_fromBytes] and [poly_fromMsg] (on a message
    of 32 bytes) produce such coefficients from bytes of the lengths the
    library passes; and [freeze] maps every 16-bit value into [0, q). *)
Theorem C9_coefficient_range_invariant :
  (forall a b : list Z,
     poly_below (2 * kyberQ) a -> poly_below (2 * kyberQ) b ->
     poly_below (2 * kyberQ) (poly_add a b) /\
     poly_add a b
     = map (fun i : nat => barrettReduce (a !!! i + b !!! i)) (seq 0 kyberN)) /\
  (forall a b : list Z,
     poly_below (2 * kyberQ) a -> poly_below (2 * kyberQ) b ->
     poly_below (2 * kyberQ) (poly_sub a b) /\
     poly_sub a b
     = map (fun i : nat => barrettReduce (a !!! i + 3 * kyberQ - b !!! i))
           (seq 0 kyberN)) /\
  (forall a b : list (list Z),
     (1 <= length a <= 8)%nat -> length b = length a ->
     Forall (poly_below (2 * kyberQ)) a -> Forall (poly_below (2 * kyberQ)) b ->
     poly_below (2 * kyberQ) (pointwiseAccRef a b) /\
     pointwiseAccRef a b = pointwiseAcc_nowrap a b) /\
  (forall p : list Z,
     poly_below (2 * kyberQ) p ->
     poly_below (2 * kyberQ) (nttRef p) /\ nttRef p = gnttRef ntt_bf_nowrap p) /\
  (forall p : list Z,
     poly_below (2 * kyberQ) p ->
     poly_below (2 * kyberQ) (invnttRef p) /\
     invnttRef p = ginvnttRef invntt_bf_nowrap invntt_scale_nowrap p) /\
  (forall (buf : list Z) (eta : nat),
     (eta = 3 \/ eta = 4 \/ eta = 5)%nat -> (eta * 64 <= length buf)%nat ->
     exists p, cbdRef buf eta = Ok p /\ poly_below (2 * kyberQ) p) /\
  (forall a : list Z,
     length a = polyCompressedSize -> Forall is_byte a ->
     poly_below (2 * kyberQ) (poly_decompress a)) /\
  (forall (k : nat) (a : list Z),
     length a = (k * compressedCoeffSize)%nat -> Forall is_byte a ->
     Forall (poly_below (2 * kyberQ)) (polyVec_decompress k a)) /\
  (forall a : list Z,
     (polySize <= length a)%nat -> Forall is_byte a ->
     poly_below (2 * kyberQ) (poly_fromBytes a)) /\
  (forall (k : nat) (a : list Z),
     length a = (k * polySize)%nat -> Forall is_byte a ->
     Forall (poly_below (2 * kyberQ)) (polyVec_fromBytes k a)) /\
  (forall msg : list Z,
     length msg = SymSize -> poly_below (2 * kyberQ) (poly_fromMsg msg)) /\
  (forall x : Z, 0 <= x < 2 ^ 16 -> 0 <= freeze x < kyberQ).
Proof.
  assert (Hq : kyberQ = 7681) by reflexivity.
  repeat apply conj.
  - exact poly_add_below.
  - exact poly_sub_below.
  - exact pointwiseAccRef_below.
  - intros p Hp. split; [now apply nttRef_below|now apply nttRef_nowrap].
  - intros p Hp. split; [now apply invnttRef_below|now apply invnttRef_nowrap].
  - exact cbdRef_below.
  - intros a Hlen Hb. apply (poly_below_mono kyberQ); [lia|].
    now apply poly_decompress_below.
  - intros k a Hlen Hb. apply (Forall_below_mono kyberQ); [lia|].
    now apply polyVec_decompress_below.
  - intros a Hlen Hb. apply (poly_below_mono (2 ^ 13)); [lia|].
    now apply poly_fromBytes_below.
  - intros k a Hlen Hb. apply (Forall_below_mono (2 ^ 13)); [lia|].
    now apply polyVec_fromBytes_below.
  - intros msg _. apply (poly_below_mono (2 ^ 12)); [lia|]. apply poly_fromMsg_below.
  - exact freeze_range.
Qed.

Lemma C9_coefficient_range_invariant_witness :
  poly_below (2 * kyberQ) (poly_add (replicate kyberN 15361) (replicate kyberN 15361)) /\
  poly_below (2 * kyberQ) (poly_sub (replicate kyberN 0) (replicate kyberN 15361)) /\
  poly_below (2 * kyberQ)
    (pointwiseAccRef (replicate 4 (replicate kyberN 15361))
                     (replicate 4 (replicate kyberN 15361))) /\
  poly_below (2 * kyberQ) (nttRef (replicate kyberN 15361)) /\
  poly_below (2 * kyberQ) (invnttRef (replicate kyberN 15361)) /\
  (exists p, cbdRef (replicate 320 255) 5 = Ok p /\ poly_below (2 * kyberQ) p) /\
  poly_below (2 * kyberQ) (poly_decompress (replicate polyCompressedSize 255)) /\
  poly_below (2 * kyberQ) (poly_fromBytes (replicate polySize 255)) /\
  poly_below (2 * kyberQ) (poly_fromMsg (replicate SymSize 255)) /\
  0 <= freeze 65535 < kyberQ.
Proof.
  pose proof C9_coefficient_range_invariant
    as (Hadd & Hsub & Hacc & Hntt & Hinv & Hcbd & Hdec & _ & Hfb & _ & Hmsg & Hfr).
  assert (Hmax : poly_below (2 * kyberQ) (replicate kyberN 15361))
    by (apply poly_below_replicate; vm_compute; split; [discriminate|reflexivity]).
  assert (Hzero : poly_below (2 * kyberQ) (replicate kyberN 0))
    by (apply poly_below_replicate; vm_compute; split; [discriminate|reflexivity]).
  assert (Hbytes : forall n, Forall is_byte (replicate n 255))
    by (intros n; apply Forall_replicate; vm_compute; split; [discriminate|reflexivity]).
  split; [exact (proj1 (Hadd _ _ Hmax Hmax))|].
  split; [exact (proj1 (Hsub _ _ Hzero Hmax))|].
  split.
  { apply Hacc; [cbn; lia|reflexivity|apply Forall_replicate; exact Hmax
                 |apply Forall_replicate; exact Hmax]. }
  split; [exact (proj1 (Hntt _ Hmax))|].
  split; [exact (proj1 (Hinv _ Hmax))|].
  split; [apply Hcbd; [right; right; reflexivity|rewrite length_replicate; lia]|].
  split; [apply Hdec; [reflexivity|apply Hbytes]|].
  split; [apply Hfb; [rewrite length_replicate; lia|apply Hbytes]|].
  split; [apply Hmsg; apply length_replicate|].
  apply Hfr. vm_compute. split; [discriminate|reflexivity].
Defined.
(** ** The rejection sampling of [genMatrix] ends *)

Lemma accepted_upto_mono (s : nat -> Z) (g n : nat) :
  (g <= n)%nat -> (accepted_upto s g <= accepted_upto s n)%nat.
Proof.
  induction 1 as [|n _ IH]; [lia|]. cbn [accepted_upto]. lia.
Qed.

Lemma sample_stream_total (s : nat -> Z) (n : nat) :
  forall (m g ctr : nat) (p : list Z),
    (n - g <= m)%nat ->
    (kyberN + accepted_upto s g <= ctr + accepted_upto s n)%nat ->
    exists r, forall fuel, (m < fuel)%nat -> sample_stream fuel s g ctr p = Ok r.
Proof.
  induction m as [|m IH]; intros g ctr p Hm Hacc.
  - assert (Hge : (kyberN <= ctr)%nat).
    { pose proof (accepted_upto_mono s n g ltac:(lia)). lia. }
    exists p. intros [|fuel] Hf; [lia|]. cbn [sample_stream].
    destruct (decide (ctr < kyberN)%nat); [lia|reflexivity].
  - destruct (decide (ctr < kyberN)%nat) as [Hlt|Hge].
    + assert (Hg : (g < n)%nat).
      { destruct (decide (g < n)%nat) as [|Hn]; [assumption|].
        pose proof (accepted_upto_mono s n g ltac:(lia)). lia. }
      pose proof (accepted_upto_mono s (S g) n Hg) as Hmono.
      cbn [accepted_upto] in Hmono.
      destruct (decide (xof_candidate s g < kyberQ)) as [Hv|Hv] eqn:Ev.
      * destruct (IH (S g) (S ctr) (<[ctr := xof_candidate s g]> p)) as [r Hr];
          [lia|cbn [accepted_upto]; rewrite Ev; lia|].
        exists r. intros [|fuel] Hf; [lia|]. cbn [sample_stream].
        destruct (decide (ctr < kyberN)%nat); [|lia]. rewrite Ev. apply Hr. lia.
      * destruct (IH (S g) ctr p) as [r Hr];
          [lia|cbn [accepted_upto]; rewrite Ev; lia|].
        exists r. intros [|fuel] Hf; [lia|]. cbn [sample_stream].
        destruct (decide (ctr < kyberN)%nat); [|lia]. rewrite Ev. apply Hr. lia.
    + exists p. intros [|fuel] Hf; [lia|]. cbn [sample_stream].
      destruct (decide (ctr < kyberN)%nat); [lia|reflexivity].
Qed.

Section Sampling.
Context {sponge : Sponge} {laws : SpongeLaws sponge}.

Lemma xof_read_lookup (ext : list Z) (off n i : nat) :
  (i < n)%nat -> xof_read ext off n !!! i = shake128 ext (off + i).
Proof.
  intros Hi. unfold xof_read.
  rewrite (lookup_total_map (fun i => shake128 ext (off + i)%nat) (seq 0 n) i)
    by (rewrite length_seq; exact Hi).
  now rewrite lookup_total_seq_lt by exact Hi.
Qed.

Lemma xof_read_length (ext : list Z) (off n : nat) : length (xof_read ext off n) = n.
Proof. unfold xof_read. now rewrite length_map, length_seq. Qed.

(** The buffered loop examines the candidates of the stream in order:
    [buf] holds stream bytes [2*gb ..] at positions [2*a .. 2*b). *)
Lemma genMatrix_sample_stream (ext : list Z) :
  forall (fuel gb a b : nat) (buf : list Z) (ctr : nat) (p : list Z),
    (a < b)%nat -> length buf = (shake128Rate * maxBlocks)%nat ->
    (2 * b <= length buf)%nat ->
    (forall i, (2 * a <= i < 2 * b)%nat -> buf !!! i = shake128 ext (2 * gb + i)) ->
    genMatrix_sample fuel ext (2 * gb + 2 * b) buf ctr (2 * a) (2 * b) p
    = sample_stream fuel (shake128 ext) (gb + a) ctr p.
Proof.
  induction fuel as [|fuel IH]; intros gb a b buf ctr p Hab Hlen Hb Hbuf; [reflexivity|].
  cbn [genMatrix_sample sample_stream].
  destruct (decide (ctr < kyberN)%nat); [|reflexivity].
  assert (Hval : (buf !!! (2 * a)%nat .| shl16 (buf !!! (2 * a + 1)%nat) 8) .& 0x1fff
                 = xof_candidate (shake128 ext) (gb + a)).
  { unfold xof_candidate. rewrite !Hbuf by lia.
    replace (2 * gb + 2 * a)%nat with (2 * (gb + a))%nat by lia.
    replace (2 * gb + (2 * a + 1))%nat with (2 * (gb + a) + 1)%nat by lia.
    reflexivity. }
  cbv zeta. rewrite Hval.
  set (st := if decide (xof_candidate (shake128 ext) (gb + a) < kyberQ)
             then (<[ctr := xof_candidate (shake128 ext) (gb + a)]> p, S ctr)
             else (p, ctr)).
  destruct st as [p' ctr'].
  destruct (decide ((2 * a + 2)%nat = (2 * b)%nat)) as [He|Hne].
  - replace (2 * gb + 2 * b + shake128Rate)%nat with (2 * (gb + b) + 2 * 84)%nat
      by (unfold shake128Rate; lia).
    replace (S (gb + a)) with (gb + b + 0)%nat by lia.
    apply (IH (gb + b)%nat 0%nat 84%nat).
    + lia.
    + unfold gocopy. rewrite length_app, length_take, length_drop, xof_read_length, Hlen.
      unfold shake128Rate, maxBlocks. lia.
    + unfold gocopy. rewrite length_app, length_take, length_drop, xof_read_length, Hlen.
      unfold shake128Rate, maxBlocks. lia.
    + intros i Hi. unfold gocopy.
      rewrite lookup_total_app_l
        by (rewrite length_take, xof_read_length, Hlen;
            unfold shake128Rate, maxBlocks; lia).
      rewrite take_ge
        by (rewrite xof_read_length, Hlen; unfold shake128Rate, maxBlocks; lia).
      rewrite xof_read_lookup by (unfold shake128Rate; lia).
      f_equal. lia.
  - replace (2 * a + 2)%nat with (2 * (a + 1))%nat by lia.
    rewrite IH; [f_equal; lia|lia|exact Hlen|exact Hb|].
    intros i Hi. apply Hbuf. lia.
Qed.

Lemma genMatrix_cell_total (ext : list Z) (p : list Z) :
  exists n r, forall fuel, (n < fuel)%nat ->
    genMatrix_sample fuel ext (shake128Rate * maxBlocks)
      (xof_read ext 0 (shake128Rate * maxBlocks)) 0 0
      (length (xof_read ext 0 (shake128Rate * maxBlocks))) p = Ok r.
Proof.
  destruct (shake128_productive ext) as [n Hn].
  destruct (sample_stream_total (shake128 ext) n n 0 0 p) as [r Hr];
    [lia|cbn [accepted_upto]; lia|].
  exists n, r. intros fuel Hf. rewrite xof_read_length, <- (Hr fuel Hf).
  apply (genMatrix_sample_stream ext fuel 0 0 336).
  - lia.
  - apply xof_read_length.
  - rewrite xof_read_length. unfold shake128Rate, maxBlocks. lia.
  - intros i Hi. rewrite xof_read_lookup by (unfold shake128Rate, maxBlocks; lia).
    reflexivity.
Qed.

End Sampling.
(** ** C2: decapsulation always returns a secret *)

Lemma omapM_eventually {A B : Type} (f : nat -> A -> outcome B) (l : list A) :
  (forall x, exists n y, forall fuel, (n < fuel)%nat -> f fuel x = Ok y) ->
  exists n ys, forall fuel, (n < fuel)%nat -> omapM (f fuel) l = Ok ys.
Proof.
  intros Hf. induction l as [|x l (n & ys & IH)]; [now exists 0%nat, []|].
  destruct (Hf x) as (n0 & y & Hy).
  exists (Nat.max n0 n), (y :: ys). intros fuel Hfuel. cbn [omapM].
  rewrite Hy by lia. cbn [obind]. rewrite IH by lia. reflexivity.
Qed.

Lemma omapM_Ok {A B : Type} (f : A -> outcome B) (l : list A) :
  (forall x, exists y, f x = Ok y) -> exists ys, omapM f l = Ok ys.
Proof.
  intros Hf. induction l as [|x l [ys IH]]; [now exists []|].
  destruct (Hf x) as [y Hy]. exists (y :: ys). cbn [omapM].
  rewrite Hy. cbn [obind]. rewrite IH. reflexivity.
Qed.

Lemma poly_toMsg_length p : length (poly_toMsg p) = SymSize.
Proof. unfold poly_toMsg. now rewrite length_map, length_seq. Qed.

Lemma is_parameter_set_eta p :
  is_parameter_set p -> (ps_eta p = 3 \/ ps_eta p = 4 \/ ps_eta p = 5)%nat.
Proof. intros [-> | [-> | ->]]; cbn; lia. Qed.

Section Decapsulation.
Context {sponge : Sponge} {laws : SpongeLaws sponge}.

Lemma genMatrix_total (k : nat) (seed : list Z) (transposed : bool) :
  exists n a, forall fuel, (n < fuel)%nat -> genMatrix fuel k seed transposed = Ok a.
Proof.
  unfold genMatrix. cbv zeta.
  apply (omapM_eventually
           (fun (fuel i : nat) =>
              omapM (fun j : nat =>
                genMatrix_sample fuel
                  (if transposed
                   then gocopy (replicate SymSize 0) seed ++ [u8 (Z.of_nat i); u8 (Z.of_nat j)]
                   else gocopy (replicate SymSize 0) seed ++ [u8 (Z.of_nat j); u8 (Z.of_nat i)])
                  (shake128Rate * maxBlocks)
                  (xof_read
                     (if transposed
                      then gocopy (replicate SymSize 0) seed ++ [u8 (Z.of_nat i); u8 (Z.of_nat j)]
                      else gocopy (replicate SymSize 0) seed ++ [u8 (Z.of_nat j); u8 (Z.of_nat i)])
                     0 (shake128Rate * maxBlocks))
                  0 0
                  (length
                     (xof_read
                        (if transposed
                         then gocopy (replicate SymSize 0) seed
                              ++ [u8 (Z.of_nat i); u8 (Z.of_nat j)]
                         else gocopy (replicate SymSize 0) seed
                              ++ [u8 (Z.of_nat j); u8 (Z.of_nat i)])
                        0 (shake128Rate * maxBlocks)))
                  (replicate kyberN 0))
                (seq 0 k))).
  intros i.
  apply (omapM_eventually
           (fun (fuel j : nat) =>
                genMatrix_sample fuel
                  (if transposed
                   then gocopy (replicate SymSize 0) seed ++ [u8 (Z.of_nat i); u8 (Z.of_nat j)]
                   else gocopy (replicate SymSize 0) seed ++ [u8 (Z.of_nat j); u8 (Z.of_nat i)])
                  (shake128Rate * maxBlocks)
                  (xof_read
                     (if transposed
                      then gocopy (replicate SymSize 0) seed ++ [u8 (Z.of_nat i); u8 (Z.of_nat j)]
                      else gocopy (replicate SymSize 0) seed ++ [u8 (Z.of_nat j); u8 (Z.of_nat i)])
                     0 (shake128Rate * maxBlocks))
                  0 0
                  (length
                     (xof_read
                        (if transposed
                         then gocopy (replicate SymSize 0) seed
                              ++ [u8 (Z.of_nat i); u8 (Z.of_nat j)]
                         else gocopy (replicate SymSize 0) seed
                              ++ [u8 (Z.of_nat j); u8 (Z.of_nat i)])
                        0 (shake128Rate * maxBlocks)))
                  (replicate kyberN 0))).
  intros j. apply genMatrix_cell_total.
Qed.

Lemma poly_getNoise_Ok (seed : list Z) (nonce : Z) (eta : nat) :
  (eta = 3 \/ eta = 4 \/ eta = 5)%nat -> exists p, poly_getNoise seed nonce eta = Ok p.
Proof.
  intros Heta. unfold poly_getNoise, poly_cbd. cbv zeta.
  destruct (cbdRef_below (shake256 (seed ++ [nonce]) (eta * kyberN / 4)) eta Heta)
    as (p & Hp & _).
  { rewrite shake256_length. destruct Heta as [-> | [-> | ->]]; vm_compute; lia. }
  now exists p.
Qed.

Lemma getNoise_vec_Ok (k : nat) (seed : list Z) (nonce : Z) (eta : nat) :
  (eta = 3 \/ eta = 4 \/ eta = 5)%nat -> exists v, getNoise_vec k seed nonce eta = Ok v.
Proof.
  intros Heta. unfold getNoise_vec. apply omapM_Ok. intros i.
  now apply poly_getNoise_Ok.
Qed.

(** With enough fuel for the rejection loops, [indcpaEncrypt] writes a
    ciphertext, the same for every larger fuel. *)
Lemma indcpaEncrypt_total (p : ParameterSet) (m : list Z) (pk : indcpaPublicKey)
    (coins : list Z) :
  is_parameter_set p ->
  exists n c, forall fuel, (n < fuel)%nat -> indcpaEncrypt fuel p m pk coins = Ok c.
Proof.
  intros Hp. pose proof (is_parameter_set_eta p Hp) as Heta.
  unfold indcpaEncrypt.
  destruct (unpackPublicKey (ps_k p) (pk_packed pk)) as [pkpv seed].
  destruct (genMatrix_total (ps_k p) seed true) as (n & at_ & Hat).
  destruct (getNoise_vec_Ok (ps_k p) coins 0 (ps_eta p) Heta) as [sp Hsp].
  destruct (getNoise_vec_Ok (ps_k p) coins (Z.of_nat (ps_k p)) (ps_eta p) Heta)
    as [ep Hep].
  destruct (poly_getNoise_Ok coins (u8 (Z.of_nat (ps_k p) + Z.of_nat (ps_k p)))
              (ps_eta p) Heta) as [epp Hepp].
  exists n. eexists. intros fuel Hfuel. cbv zeta.
  rewrite (Hat fuel Hfuel). cbn [obind]. rewrite Hsp. cbn [obind].
  rewrite Hep. cbn [obind]. rewrite Hepp. cbn [obind]. reflexivity.
Qed.

(** C2: for a private key with the buffers of its parameter set and a
    ciphertext [ct] of [CipherTextSize] bytes, [KEMDecrypt] returns, for
    every fuel above a threshold, one and the same 32-byte secret, never a
    panic or an error; with m' the decrypted candidate, kr' =
    SHA3-512(m' || h) and [cmp] the re-encryption of m' under the coins
    kr'[32:], the secret is SHA3-256(kr'[:32] || z) when [cmp] differs from
    [ct], and SHA3-256(kr'[:32] || SHA3-256(ct)) when it does not. *)
Theorem C2_KEMDecrypt_never_fails (sk : PrivateKey) (ct : list Z) :
  wf_PrivateKey sk ->
  length ct = CipherTextSize (PublicKey_p (PrivateKey_PublicKey sk)) ->
  let p := PublicKey_p (PrivateKey_PublicKey sk) in
  let pk := PublicKey_pk (PrivateKey_PublicKey sk) in
  let m := indcpaDecrypt p ct (PrivateKey_sk sk) in
  let kr := sha3_512 (m ++ pk_h pk) in
  exists (fuel0 : nat) (cmp ss : list Z),
    length ss = 32%nat /\
    (cmp <> ct -> ss = sha3_256 (take SymSize kr ++ PrivateKey_z sk)) /\
    (cmp = ct -> ss = sha3_256 (take SymSize kr ++ sha3_256 ct)) /\
    forall fuel, (fuel0 <= fuel)%nat ->
      indcpaEncrypt fuel p m pk (drop SymSize kr) = Ok cmp /\
      KEMDecrypt fuel sk ct = Ok ss.
Proof.
  intros (Hp & Hsk & Hpk & Hh & Hz) Hct p pk m kr.
  fold p in Hp, Hsk, Hpk. fold pk in Hpk, Hh.
  destruct (indcpaEncrypt_total p m pk (drop SymSize kr) Hp) as (n & cmp & Hcmp).
  assert (Hm : length m = SymSize).
  { unfold m, indcpaDecrypt. destruct (unpackCiphertext (ps_k p) ct) as [bp v].
    apply poly_toMsg_length. }
  assert (Hkr : length kr = 64%nat) by apply sha3_512_length.
  assert (Hhc : length (sha3_256 ct) = 32%nat) by apply sha3_256_length.
  assert (Hlo : gocopy (drop SymSize kr) (sha3_256 ct) = sha3_256 ct).
  { apply gocopy_full. rewrite length_drop, Hkr, Hhc. reflexivity. }
  assert (Hbuf : m ++ gocopy (replicate SymSize 0) (pk_h pk) = m ++ pk_h pk).
  { f_equal. apply gocopy_full. rewrite length_replicate. now rewrite Hh. }
  assert (Htake : take SymSize (m ++ pk_h pk) = m).
  { rewrite take_app_le by lia. apply take_ge. lia. }
  assert (Hhi : take SymSize (take SymSize kr ++ sha3_256 ct) = take SymSize kr).
  { rewrite take_app_le by (rewrite length_take, Hkr; unfold SymSize; lia).
    apply take_ge. rewrite length_take, Hkr. unfold SymSize. lia. }
  assert (Hdrop : drop SymSize (take SymSize kr ++ sha3_256 ct) = sha3_256 ct).
  { rewrite drop_app_ge by (rewrite length_take, Hkr; unfold SymSize; lia).
    rewrite length_take, Hkr. reflexivity. }
  assert (Hrun : forall fuel, (S n <= fuel)%nat ->
            indcpaEncrypt fuel p m pk (drop SymSize kr) = Ok cmp /\
            KEMDecrypt fuel sk ct
            = Ok (sha3_256 (take SymSize kr
                            ++ (if ConstantTimeSelect (ConstantTimeCompare ct cmp) 0 1 =? 1
                                then PrivateKey_z sk else sha3_256 ct)))).
  { intros fuel Hfuel. split; [apply Hcmp; lia|].
    unfold KEMDecrypt. fold p. fold pk. fold m.
    destruct (decide (length ct <> CipherTextSize p)) as [Hne|_]; [contradiction|].
    cbv zeta. rewrite Hbuf, Htake. fold kr. rewrite (Hcmp fuel) by lia. cbn [obind].
    rewrite Hlo, Hhi, Hdrop. unfold ConstantTimeCopy.
    destruct (decide (length (sha3_256 ct) = length (PrivateKey_z sk))) as [_|Hne];
      [|rewrite Hhc, Hz in Hne; contradiction].
    reflexivity. }
  exists (S n), cmp. eexists. split; [|split; [|split; [|exact Hrun]]].
  - apply sha3_256_length.
  - intros Hne. unfold ConstantTimeCompare.
    destruct (decide (length ct = length cmp)); [|reflexivity].
    destruct (decide (ct = cmp)) as [E|_]; [congruence|reflexivity].
  - intros ->. unfold ConstantTimeCompare.
    destruct (decide (length ct = length ct)) as [_|Hne]; [|contradiction].
    destruct (decide (ct = ct)) as [_|Hne]; [|contradiction]. reflexivity.
Qed.

End Decapsulation.
Lemma C2_KEMDecrypt_never_fails_witness :
  let sk :=
    {| PrivateKey_PublicKey :=
         {| PublicKey_pk :=
              {| pk_packed := replicate (indcpaPublicKeySize Kyber512) 0;
                 pk_h := replicate SymSize 0 |};
            PublicKey_p := Kyber512 |};
       PrivateKey_sk := {| sk_packed := replicate (indcpaSecretKeySize Kyber512) 0 |};
       PrivateKey_z := replicate SymSize 1 |} in
  let ct := replicate (CipherTextSize Kyber512) 0 in
  wf_PrivateKey sk /\ length ct = CipherTextSize Kyber512 /\
  exists (fuel0 : nat) (ss : list Z),
    length ss = 32%nat /\
    forall fuel, (fuel0 <= fuel)%nat -> @KEMDecrypt toy_sponge fuel sk ct = Ok ss.
Proof.
  intros sk ct.
  assert (Hwf : wf_PrivateKey sk).
  { unfold wf_PrivateKey, sk. cbn [PrivateKey_PublicKey PublicKey_p PublicKey_pk
      PrivateKey_sk PrivateKey_z pk_packed pk_h sk_packed].
    split; [left; reflexivity|]. repeat split; apply length_replicate. }
  assert (Hct : length ct = CipherTextSize Kyber512) by apply length_replicate.
  split; [exact Hwf|]. split; [exact Hct|].
  destruct (@C2_KEMDecrypt_never_fails toy_sponge toy_sponge_laws sk ct Hwf Hct)
    as (fuel0 & cmp & ss & Hlen & _ & _ & Hrun).
  exists fuel0, ss. split; [exact Hlen|]. intros fuel Hf. apply Hrun. exact Hf.
Defined.
(** ** Encapsulation and decapsulation meet when the message is recovered *)

Section Encapsulation.
Context {sponge : Sponge} {laws : SpongeLaws sponge}.

Lemma indcpaEncrypt_length fuel p m pk coins c :
  is_parameter_set p -> indcpaEncrypt fuel p m pk coins = Ok c ->
  length c = CipherTextSize p.
Proof.
  intros Hp E. destruct (is_parameter_set_fill p Hp) as (_ & _ & _ & _ & _ & _ & Hc).
  unfold indcpaEncrypt in E.
  destruct (unpackPublicKey (ps_k p) (pk_packed pk)) as [pkpv seed].
  apply obind_Ok in E as (at_ & _ & E).
  apply obind_Ok in E as (sp & _ & E).
  apply obind_Ok in E as (ep & _ & E).
  apply obind_Ok in E as (epp & _ & E).
  inversion E; subst; clear E.
  unfold packCiphertext, CipherTextSize.
  rewrite length_app, polyVec_compress_length, poly_compress_length.
  unfold polyVec_add. rewrite length_map, length_seq. now rewrite Hc.
Qed.

(** Both secrets are 32 bytes, and they are equal as soon as
    [indcpaDecrypt] gives back the message that [KEMEncrypt] encrypted, the
    SHA3-256 digest of the 32 tape bytes it read. *)
Lemma KEMDecrypt_KEMEncrypt_if_recovered fuel (sk : PrivateKey) rng ct ss rng' :
  wf_PrivateKey sk ->
  KEMEncrypt fuel (PrivateKey_PublicKey sk) rng = Ok (ct, ss, rng') ->
  length ss = 32%nat /\
  (indcpaDecrypt (PublicKey_p (PrivateKey_PublicKey sk)) ct (PrivateKey_sk sk)
   = sha3_256 (take SymSize rng) ->
   KEMDecrypt fuel sk ct = Ok ss).
Proof.
  intros (Hp & Hsk & Hpk & Hh & Hz) E. unfold KEMEncrypt in E.
  apply obind_Ok in E as ([b0 rng1] & Hrd & E).
  apply obind_Ok in E as (c & Hc & E).
  inversion E; subst; clear E.
  split; [apply sha3_256_length|]. intros Hm.
  assert (Hb0 : b0 = take SymSize rng).
  { unfold ReadFull in Hrd. destruct (decide (SymSize <= length rng)%nat); [|case_decide; discriminate].
    now inversion Hrd. }
  subst b0.
  set (p := PublicKey_p (PrivateKey_PublicKey sk)) in *.
  set (pk := PublicKey_pk (PrivateKey_PublicKey sk)) in *.
  set (buf := sha3_256 (take SymSize rng)) in *.
  set (kr := sha3_512 (buf ++ pk_h pk)) in *.
  assert (Hbuf : length buf = SymSize) by apply sha3_256_length.
  assert (Hkr : length kr = 64%nat) by apply sha3_512_length.
  assert (Hhc : length (sha3_256 ct) = 32%nat) by apply sha3_256_length.
  unfold KEMDecrypt. fold p. fold pk.
  destruct (decide (length ct <> CipherTextSize p)) as [Hne|_].
  { exfalso. apply Hne. now apply (indcpaEncrypt_length fuel p buf pk (drop SymSize kr)). }
  cbv zeta. rewrite Hm.
  rewrite (gocopy_full (replicate SymSize 0) (pk_h pk))
    by (rewrite length_replicate; now rewrite Hh).
  fold kr.
  replace (take SymSize (buf ++ pk_h pk)) with buf
    by (rewrite take_app_le by lia; symmetry; apply take_ge; lia).
  rewrite Hc. cbn [obind].
  rewrite (gocopy_full (drop SymSize kr) (sha3_256 ct))
    by (rewrite length_drop, Hkr, Hhc; reflexivity).
  unfold ConstantTimeCompare.
  destruct (decide (length ct = length ct)) as [_|Hne]; [|contradiction].
  destruct (decide (ct = ct)) as [_|Hne]; [|contradiction].
  change (ConstantTimeSelect 1 0 1) with 0. unfold ConstantTimeCopy.
  rewrite drop_app_ge by (rewrite length_take, Hkr; unfold SymSize; lia).
  rewrite length_take, Hkr. change (SymSize `min` 64)%nat with SymSize.
  rewrite Nat.sub_diag, drop_0.
  destruct (decide (length (sha3_256 ct) = length (PrivateKey_z sk))) as [_|Hne];
    [|rewrite Hhc, Hz in Hne; contradiction].
  cbn [obind]. change (0 =? 1) with false. cbv iota.
  rewrite take_app_le by (rewrite length_take, Hkr; unfold SymSize; lia).
  rewrite (take_ge (take SymSize kr)) by (rewrite length_take, Hkr; unfold SymSize; lia).
  reflexivity.
Qed.

End Encapsulation.
(** * Further properties *)

(** ** Reductions and coefficient arithmetic modulo q *)

(** X1: for every 16-bit [a], [barrettReduce a] is congruent to [a]
    modulo q, is at most [a], and lies in {0, ..., 11768}; values below 2^13
    are returned unchanged, so the result can exceed q (8191 is a fixed
    point): the reduction is partial, unlike [freeze]. *)
Theorem X1_barrettReduce_partial_reduction :
  (forall a, 0 <= a < 2 ^ 16 ->
     barrettReduce a mod kyberQ = a mod kyberQ /\
     0 <= barrettReduce a <= a /\ barrettReduce a <= 11768) /\
  (forall a, 0 <= a < 2 ^ 13 -> barrettReduce a = a) /\
  barrettReduce 65535 = 11768 /\
  kyberQ < barrettReduce 8191.
Proof.
  split; [|split; [|split; reflexivity]].
  - intros a Ha. split; [now apply barrettReduce_congr|].
    pose proof (barrettReduce_bound a 65535 ltac:(lia) ltac:(lia)) as Hb.
    change (barrett_hi 65535) with 11768 in Hb.
    rewrite barrettReduce_eq in * by exact Ha.
    assert (0 <= a / 2 ^ 13) by (apply Z.div_pos; lia). unfold kyberQ in *. lia.
  - intros a Ha. rewrite barrettReduce_eq by lia.
    rewrite Z.div_small by lia. lia.
Qed.

Lemma X1_barrettReduce_partial_reduction_witness :
  barrettReduce 40000 mod kyberQ = 40000 mod kyberQ /\
  0 <= barrettReduce 40000 <= 40000 /\ barrettReduce 40000 <= 11768 /\
  barrettReduce 5000 = 5000.
Proof.
  pose proof X1_barrettReduce_partial_reduction as (H1 & H2 & _).
  destruct (H1 40000) as (A & B & C); [vm_compute; split; [discriminate|reflexivity]|].
  split; [exact A|]. split; [exact B|]. split; [exact C|].
  apply H2. vm_compute. split; [discriminate|reflexivity].
Defined.

Lemma poly_add_lookup (a b : list Z) (i : nat) :
  (i < kyberN)%nat ->
  map (fun i : nat => barrettReduce (a !!! i + b !!! i)) (seq 0 kyberN) !!! i
  = barrettReduce (a !!! i + b !!! i).
Proof.
  intros Hi.
  rewrite (lookup_total_map (fun i : nat => barrettReduce (a !!! i + b !!! i))
             (seq 0 kyberN) i) by (rewrite length_seq; exact Hi).
  now rewrite lookup_total_seq_lt by exact Hi.
Qed.

(** X2: on polynomials with coefficients in [0, 2q), [poly.add] computes
    the sum and [poly.sub] the difference coefficient by coefficient
    modulo q. *)
Theorem X2_poly_add_sub_modulo_q (a b : list Z) (i : nat) :
  poly_below (2 * kyberQ) a -> poly_below (2 * kyberQ) b -> (i < kyberN)%nat ->
  (poly_add a b !!! i) mod kyberQ = (a !!! i + b !!! i) mod kyberQ /\
  (poly_sub a b !!! i) mod kyberQ = (a !!! i - b !!! i) mod kyberQ.
Proof.
  intros Ha Hb Hi. assert (Hq : kyberQ = 7681) by reflexivity.
  pose proof (poly_below_lookup _ _ i Ha Hi) as Hai.
  pose proof (poly_below_lookup _ _ i Hb Hi) as Hbi.
  destruct (poly_add_below a b Ha Hb) as [_ Eadd].
  destruct (poly_sub_below a b Ha Hb) as [_ Esub].
  rewrite Eadd, Esub. split.
  - rewrite poly_add_lookup by exact Hi. apply barrettReduce_congr. lia.
  - rewrite (lookup_total_map
               (fun i : nat => barrettReduce (a !!! i + 3 * kyberQ - b !!! i))
               (seq 0 kyberN) i) by (rewrite length_seq; exact Hi).
    rewrite lookup_total_seq_lt by exact Hi. cbn [Nat.add].
    rewrite barrettReduce_congr by lia.
    replace (a !!! i + 3 * kyberQ - b !!! i) with (a !!! i - b !!! i + 3 * kyberQ) by lia.
    apply Z_mod_plus_full.
Qed.

Lemma X2_poly_add_sub_modulo_q_witness :
  (poly_add (replicate kyberN 15000) (replicate kyberN 9000) !!! 7%nat) mod kyberQ
  = (replicate kyberN 15000 !!! 7%nat + replicate kyberN 9000 !!! 7%nat) mod kyberQ /\
  (poly_sub (replicate kyberN 15000) (replicate kyberN 9000) !!! 7%nat) mod kyberQ
  = (replicate kyberN 15000 !!! 7%nat - replicate kyberN 9000 !!! 7%nat) mod kyberQ.
Proof.
  apply X2_poly_add_sub_modulo_q.
  - apply poly_below_replicate. vm_compute. split; [discriminate|reflexivity].
  - apply poly_below_replicate. vm_compute. split; [discriminate|reflexivity].
  - vm_compute. lia.
Defined.

(** One product of [pointwiseAccRef]: the factor 4613 = R^2 mod q and the
    two Montgomery reductions cancel. *)
Lemma pointwise_term_congr (x y : Z) :
  0 <= x < 2 * kyberQ -> 0 <= y < 2 * kyberQ ->
  montgomeryReduce (u32 (x * montgomeryReduce (u32 (4613 * y)))) mod kyberQ
  = (x * y) mod kyberQ.
Proof.
  intros Hx Hy. assert (Hq : kyberQ = 7681) by reflexivity.
  destruct (mont_sound (4613 * y) (4613 * 15361)) as [Ht Ct]; [lia|lia|].
  change (mont_hi (4613 * 15361)) with 7951 in Ht.
  set (t := montgomeryReduce (u32 (4613 * y))) in *.
  destruct (mont_sound (x * t) (15361 * 7951)) as [_ Cp]; [nia|lia|].
  rewrite Cp. unfold montRinv in *.
  replace (x * t * 225) with (x * 225 * t) by ring.
  rewrite (cong_mul (x * 225) (x * 225) t (4613 * y * 225) eq_refl Ct).
  replace (x * 225 * (4613 * y * 225)) with (x * y + x * y * 30404 * kyberQ)
    by (rewrite Hq; ring).
  apply Z_mod_plus_full.
Qed.

Lemma fold_left_add_congr (term prod : nat -> Z) (l : list nat) (acc acc' : Z) :
  (forall i, In i l -> term i mod kyberQ = prod i mod kyberQ) ->
  acc mod kyberQ = acc' mod kyberQ ->
  fold_left (fun (pj : Z) (i : nat) => pj + term i) l acc mod kyberQ
  = (acc' + fold_right Z.add 0 (map prod l)) mod kyberQ.
Proof.
  revert acc acc'. induction l as [|i l IH]; intros acc acc' Ht Hacc.
  - cbn. now rewrite Z.add_0_r.
  - cbn [fold_left map fold_right].
    rewrite (IH (acc + term i) (acc' + prod i)).
    + f_equal. lia.
    + intros k Hk. apply Ht. now right.
    + apply cong_add; [exact Hacc|]. apply Ht. now left.
Qed.

Lemma pointwiseAccRef_inner_product (a b : list (list Z)) (j : nat) :
  (1 <= length a <= 8)%nat -> length b = length a ->
  Forall (poly_below (2 * kyberQ)) a -> Forall (poly_below (2 * kyberQ)) b ->
  (j < kyberN)%nat ->
  (pointwiseAccRef a b !!! j) mod kyberQ = inner_product_at a b j mod kyberQ.
Proof.
  intros Hk Hlen Ha Hb Hj. assert (Hq : kyberQ = 7681) by reflexivity.
  assert (Hab : forall i, (i < length a)%nat ->
            0 <= (a !!! i) !!! j < 2 * kyberQ /\ 0 <= (b !!! i) !!! j < 2 * kyberQ).
  { intros i Hi. split; (apply poly_below_lookup; [|exact Hj]).
    - apply (Forall_lookup_total_1 (poly_below (2 * kyberQ))); [exact Ha|exact Hi].
    - apply (Forall_lookup_total_1 (poly_below (2 * kyberQ))); [exact Hb|lia]. }
  set (term := fun i : nat =>
         montgomeryReduce (u32 ((a !!! i) !!! j
                                * montgomeryReduce (u32 (4613 * (b !!! i) !!! j))))).
  assert (Hterm : forall i, (i < length a)%nat ->
            0 <= term i <= 8146 /\
            term i mod kyberQ = ((a !!! i) !!! j * (b !!! i) !!! j) mod kyberQ).
  { intros i Hi. destruct (Hab i Hi) as [Hx Hy]. split.
    - apply (pointwise_term_below _ _ Hx Hy).
    - apply pointwise_term_congr; assumption. }
  unfold pointwiseAccRef.
  rewrite (lookup_total_map _ (seq 0 kyberN) j) by (rewrite length_seq; exact Hj).
  rewrite lookup_total_seq_lt by exact Hj. cbn [Nat.add]. cbv zeta.
  change (fold_left _ (seq 1 (length a - 1)) _)
    with (fold_left (fun (pj : Z) (i : nat) => u16 (pj + term i))
            (seq 1 (length a - 1)) (term 0%nat)).
  destruct (acc_fold_below term 8146 (seq 1 (length a - 1)) (term 0%nat) 8146)
    as [E B].
  { intros i Hi. apply in_seq in Hi. apply Hterm. lia. }
  { apply Hterm. lia. }
  { rewrite length_seq. lia. }
  rewrite length_seq in B. rewrite E.
  rewrite barrettReduce_congr by lia.
  rewrite (fold_left_add_congr term
             (fun i : nat => (a !!! i) !!! j * (b !!! i) !!! j)
             (seq 1 (length a - 1)) (term 0%nat)
             ((a !!! 0%nat) !!! j * (b !!! 0%nat) !!! j)).
  - unfold inner_product_at.
    replace (seq 0 (length a)) with (0%nat :: seq 1 (length a - 1))
      by (destruct (length a) eqn:El; [lia|cbn; now rewrite Nat.sub_0_r]).
    reflexivity.
  - intros i Hi. apply in_seq in Hi. apply Hterm. lia.
  - apply Hterm. lia.
Qed.

(** X3: for vectors of one to eight polynomials with coefficients in
    [0, 2q), coefficient [j] of [pointwiseAccRef a b] is congruent modulo q
    to the inner product of the coefficients [j]: the sum over [i] of
    [a[i][j] * b[i][j]], with no Montgomery factor left. *)
Theorem X3_pointwiseAcc_inner_product (a b : list (list Z)) (j : nat) :
  (1 <= length a <= 8)%nat -> length b = length a ->
  Forall (poly_below (2 * kyberQ)) a -> Forall (poly_below (2 * kyberQ)) b ->
  (j < kyberN)%nat ->
  (pointwiseAccRef a b !!! j) mod kyberQ = inner_product_at a b j mod kyberQ.
Proof. exact (pointwiseAccRef_inner_product a b j). Qed.

Lemma X3_pointwiseAcc_inner_product_witness :
  (pointwiseAccRef (replicate 3 (replicate kyberN 15000))
                   (replicate 3 (replicate kyberN 9000)) !!! 200%nat) mod kyberQ
  = inner_product_at (replicate 3 (replicate kyberN 15000))
                     (replicate 3 (replicate kyberN 9000)) 200 mod kyberQ.
Proof.
  apply X3_pointwiseAcc_inner_product.
  - cbn. lia.
  - reflexivity.
  - apply Forall_replicate, poly_below_replicate.
    vm_compute. split; [discriminate|reflexivity].
  - apply Forall_replicate, poly_below_replicate.
    vm_compute. split; [discriminate|reflexivity].
  - vm_compute. lia.
Defined.
(** ** Message encoding *)

Lemma msg_byte_ok_all : forall_from 256 0 msg_byte_ok = true.
Proof. vm_compute. reflexivity. Qed.

Lemma msg_byte_assemble (v : Z) :
  is_byte v ->
  fold_left (fun (m : Z) (j : nat) =>
               m .| u8 (shl16 ((v >> Z.of_nat j) .& 1) (Z.of_nat j)))
            (seq 0 8) 0 = v.
Proof.
  intros Hv. apply Z.eqb_eq.
  apply (forall_from_spec 256 msg_byte_ok 0 msg_byte_ok_all). unfold is_byte in Hv. lia.
Qed.

Lemma msg_bit_cases (v : Z) (j : nat) :
  (v >> Z.of_nat j) .& 1 = 0 \/ (v >> Z.of_nat j) .& 1 = 1.
Proof.
  pose proof (Z.land_ones (v >> Z.of_nat j) 1 ltac:(lia)) as E.
  change (Z.ones 1) with 1 in E. rewrite E.
  pose proof (Z.mod_pos_bound (v >> Z.of_nat j) (2 ^ 1) ltac:(lia)). lia.
Qed.

Lemma poly_fromMsg_lookup (msg : list Z) (i j : nat) :
  (i < SymSize)%nat -> (j < 8)%nat ->
  poly_fromMsg msg !!! (8 * i + j)%nat
  = ((msg !!! i >> Z.of_nat j) .& 1) * ((kyberQ + 1) / 2).
Proof.
  intros Hi Hj. unfold poly_fromMsg.
  rewrite (flat_map_seq_lookup_total _ 8 SymSize i j);
    [|intros x; now rewrite length_map, length_seq|exact Hi|exact Hj].
  cbv zeta.
  rewrite (lookup_total_map _ (seq 0 8) j) by (rewrite length_seq; exact Hj).
  rewrite lookup_total_seq_lt by exact Hj. cbn [Nat.add].
  destruct (msg_bit_cases (msg !!! i) j) as [-> | ->]; reflexivity.
Qed.

(** The decoding threshold: a coefficient within q/4 of [bit * (q+1)/2]
    modulo q decodes to [bit]. *)
Lemma msg_bit_decode (c bit e : Z) :
  0 <= c < 2 ^ 16 -> bit = 0 \/ bit = 1 -> -1920 <= e <= 1919 ->
  c mod kyberQ = (bit * ((kyberQ + 1) / 2) + e) mod kyberQ ->
  msg_bit c = bit.
Proof.
  intros Hc Hbit He Hce. unfold msg_bit. rewrite freeze_spec by exact Hc.
  change ((kyberQ + 1) / 2) with 3841 in Hce. change (kyberQ / 2) with 3840.
  assert (Hq : kyberQ = 7681) by reflexivity.
  pose proof (Z.mod_pos_bound c kyberQ ltac:(lia)) as Hx.
  set (x := c mod kyberQ) in *.
  unfold shl16. rewrite Z.shiftl_mul_pow2 by lia. change (2 ^ 1) with 2.
  rewrite (u16_small (x * 2)) by lia. rewrite (u16_small (x * 2 + 3840)) by lia.
  destruct Hbit as [-> | ->].
  - destruct (Z_lt_le_dec e 0) as [Hneg|Hpos].
    + assert (Ex : x = kyberQ + e).
      { rewrite Hce. replace (0 * 3841 + e) with (kyberQ + e + (-1) * kyberQ) by lia.
        rewrite Z_mod_plus_full. apply Z.mod_small. lia. }
      replace ((x * 2 + 3840) / kyberQ) with 2; [reflexivity|].
      apply (Z.div_unique (x * 2 + 3840) kyberQ 2 (x * 2 + 3840 - 2 * kyberQ)); lia.
    + assert (Ex : x = e) by (rewrite Hce; apply Z.mod_small; lia).
      rewrite Z.div_small by lia. reflexivity.
  - assert (Ex : x = 3841 + e) by (rewrite Hce; apply Z.mod_small; lia).
    replace ((x * 2 + 3840) / kyberQ) with 1; [reflexivity|].
    apply (Z.div_unique (x * 2 + 3840) kyberQ 1 (x * 2 + 3840 - kyberQ)); lia.
Qed.

Lemma poly_toMsg_noisy (msg p : list Z) :
  length msg = SymSize -> Forall is_byte msg -> poly_below (2 ^ 16) p ->
  (forall k, (k < kyberN)%nat ->
     exists e, -1920 <= e <= 1919 /\
               (p !!! k) mod kyberQ = (poly_fromMsg msg !!! k + e) mod kyberQ) ->
  poly_toMsg p = msg.
Proof.
  intros Hlen Hb Hp Hnoise.
  apply list_eq_total; [rewrite poly_toMsg_length; now rewrite Hlen|].
  intros i Hi. rewrite poly_toMsg_length in Hi. unfold poly_toMsg.
  rewrite (lookup_total_map _ (seq 0 SymSize) i) by (rewrite length_seq; exact Hi).
  rewrite lookup_total_seq_lt by exact Hi. cbn [Nat.add].
  rewrite <- (msg_byte_assemble (msg !!! i))
    by (apply (Forall_lookup_total_1 is_byte); [exact Hb|lia]).
  apply fold_left_ext_in. intros m j Hj. apply in_seq in Hj. cbv zeta.
  f_equal. f_equal. f_equal.
  assert (Hk : (8 * i + j < kyberN)%nat) by (unfold SymSize, kyberN in *; lia).
  destruct (Hnoise _ Hk) as (e & He & Hce).
  rewrite poly_fromMsg_lookup in Hce by (try exact Hi; lia).
  apply (msg_bit_decode _ _ e); [|apply msg_bit_cases|exact He|exact Hce].
  pose proof (poly_below_lookup _ _ _ Hp Hk). lia.
Qed.

(** X4: [toMsg] inverts [fromMsg] on 32-byte messages, and it still does
    when every coefficient has moved by an error in [-1920, 1919] (less than
    a quarter of q) modulo q: [toMsg p = msg] for every polynomial [p] of
    16-bit coefficients with [p[k] = fromMsg(msg)[k] + e_k (mod q)]. *)
Theorem X4_toMsg_fromMsg_noise_tolerance (msg : list Z) :
  length msg = SymSize -> Forall is_byte msg ->
  poly_toMsg (poly_fromMsg msg) = msg /\
  forall p : list Z,
    poly_below (2 ^ 16) p ->
    (forall k, (k < kyberN)%nat ->
       exists e, -1920 <= e <= 1919 /\
                 (p !!! k) mod kyberQ = (poly_fromMsg msg !!! k + e) mod kyberQ) ->
    poly_toMsg p = msg.
Proof.
  intros Hlen Hb. split; [|intros p; now apply poly_toMsg_noisy].
  apply poly_toMsg_noisy; [exact Hlen|exact Hb| |].
  - apply (poly_below_mono (2 ^ 12)); [lia|apply poly_fromMsg_below].
  - intros k Hk. exists 0. split; [lia|]. now rewrite Z.add_0_r.
Qed.

Lemma X4_toMsg_fromMsg_noise_tolerance_witness :
  let msg := map (fun i : nat => (37 * Z.of_nat i + 5) mod 256) (seq 0 32) in
  poly_toMsg (poly_fromMsg msg) = msg /\
  poly_toMsg (map (fun c : Z => c + 1919) (poly_fromMsg msg)) = msg.
Proof.
  intros msg.
  assert (Hlen : length msg = SymSize) by reflexivity.
  assert (Hb : Forall is_byte msg).
  { unfold msg. apply Forall_map_seq. intros i Hi. apply Z.mod_pos_bound. lia. }
  destruct (X4_toMsg_fromMsg_noise_tolerance msg Hlen Hb) as [H1 H2].
  split; [exact H1|]. apply H2.
  - destruct (poly_fromMsg_below msg) as [Hl Hall]. split; [now rewrite length_map|].
    apply Forall_forall. intros c Hc.
    apply list_elem_of_In, in_map_iff in Hc as (c0 & <- & Hc0).
    rewrite Forall_forall in Hall. apply list_elem_of_In in Hc0.
    specialize (Hall c0 Hc0). cbv beta in Hall. lia.
  - intros k Hk. exists 1919. split; [lia|].
    rewrite (lookup_total_map (fun c : Z => c + 1919) (poly_fromMsg msg) k)
      by (destruct (poly_fromMsg_below msg) as [Hl _]; rewrite Hl; exact Hk).
    reflexivity.
Defined.
(** ** The rounding error of the compressions *)

(** Bounds of fields cut out of packed bytes. *)
Ltac below_packed :=
  unfold shl8, shl16, shl32;
  repeat first
    [ match goal with
      | |- 0 <= u8 ?x >> ?s < 2 ^ ?w =>
          apply (shiftr_below_sh w s 8 (u8 x)); [lia|lia|lia|apply u8_range]
      | |- 0 <= ?a .& Zpos ?p < 2 ^ ?w =>
          apply (land_below_r w a (Zpos p)); [lia|apply (below_mono (Z.log2 (Zpos p) + 1));
             [cbv; discriminate|cbv; split; [discriminate|reflexivity]]]
      end
    | apply lor_below; [lia| |]
    | apply u32_keep ];
  try below.

Ltac bits3 :=
  apply (bits_inj_below 3);
  [ lia | below_packed | below
  | let n := fresh "n" in let Hn := fresh "Hn" in
    intros n Hn; index_from n 0 3%nat; tb_push; tb_high; btauto ].

Ltac bits11 :=
  apply (bits_inj_below 11);
  [ lia | below_packed | below
  | let n := fresh "n" in let Hn := fresh "Hn" in
    intros n Hn; index_from n 0 11%nat; tb_push; tb_high; btauto ].

(** Unpacking the three bytes of a group gives back its eight 3-bit
    values. *)
Lemma unpack3_pack3 t0 t1 t2 t3 t4 t5 t6 t7 :
  0 <= t0 < 2 ^ 3 -> 0 <= t1 < 2 ^ 3 -> 0 <= t2 < 2 ^ 3 -> 0 <= t3 < 2 ^ 3 ->
  0 <= t4 < 2 ^ 3 -> 0 <= t5 < 2 ^ 3 -> 0 <= t6 < 2 ^ 3 -> 0 <= t7 < 2 ^ 3 ->
  let r := pack3 t0 t1 t2 t3 t4 t5 t6 t7 in
  unpack3 (r !!! 0%nat) (r !!! 1%nat) (r !!! 2%nat) = [t0; t1; t2; t3; t4; t5; t6; t7].
Proof.
  intros H0 H1 H2 H3 H4 H5 H6 H7 r. subst r. unfold pack3, unpack3.
  cbn [lookup_total list_lookup_total].
  split_list_eq; bits3.
Qed.

Lemma unpack11_pack11 t0 t1 t2 t3 t4 t5 t6 t7 :
  0 <= t0 < 2 ^ 11 -> 0 <= t1 < 2 ^ 11 -> 0 <= t2 < 2 ^ 11 -> 0 <= t3 < 2 ^ 11 ->
  0 <= t4 < 2 ^ 11 -> 0 <= t5 < 2 ^ 11 -> 0 <= t6 < 2 ^ 11 -> 0 <= t7 < 2 ^ 11 ->
  let r := pack11 t0 t1 t2 t3 t4 t5 t6 t7 in
  unpack11 (r !!! 0%nat) (r !!! 1%nat) (r !!! 2%nat) (r !!! 3%nat) (r !!! 4%nat)
           (r !!! 5%nat) (r !!! 6%nat) (r !!! 7%nat) (r !!! 8%nat) (r !!! 9%nat)
           (r !!! 10%nat)
  = [t0; t1; t2; t3; t4; t5; t6; t7].
Proof.
  intros H0 H1 H2 H3 H4 H5 H6 H7 r. subst r. unfold pack11, unpack11.
  cbn [lookup_total list_lookup_total].
  split_list_eq; bits11.
Qed.

Lemma quant3_below c : 0 <= quant3 c < 2 ^ 3.
Proof. unfold quant3. apply (land_below_r 3); lia. Qed.

Lemma quant11_below c : 0 <= quant11 c < 2 ^ 11.
Proof. unfold quant11. apply u16_keep. apply (land_below_r 11); lia. Qed.

(** Decompressing the compression of a polynomial rounds each coefficient
    on its own. *)
Lemma poly_decompress_compress_eq (p : list Z) :
  length p = kyberN ->
  poly_decompress (poly_compress p) = map (fun c : Z => scale3 (quant3 (freeze c))) p.
Proof.
  intros Hlen. rewrite poly_decompress_groups. change (kyberN / 8)%nat with 32%nat.
  rewrite <- (groups_of (fun c : Z => scale3 (quant3 (freeze c))) 8 32 p) by exact Hlen.
  apply flat_map_ext_seq. intros g Hg.
  rewrite poly_compress_groups. change (kyberN / 8)%nat with 32%nat.
  assert (E0 : (3 * g)%nat = (3 * g + 0)%nat) by lia. rewrite E0 at 1. clear E0.
  rewrite !(flat_map_seq_lookup_total _ 3 32 g)
    by (try (intros; reflexivity); auto; lia).
  rewrite (unpack3_pack3 _ _ _ _ _ _ _ _
             (quant3_below _) (quant3_below _) (quant3_below _) (quant3_below _)
             (quant3_below _) (quant3_below _) (quant3_below _) (quant3_below _)).
  reflexivity.
Qed.

Lemma polyVec_compress_lookup (v : list (list Z)) (idx j m : nat) :
  (idx < length v)%nat -> (j < 32)%nat -> (m < 11)%nat ->
  polyVec_compress v !!! (idx * compressedCoeffSize + 11 * j + m)%nat
  = pack11 (quant11 (freeze ((v !!! idx) !!! (8 * j + 0)%nat)))
           (quant11 (freeze ((v !!! idx) !!! (8 * j + 1)%nat)))
           (quant11 (freeze ((v !!! idx) !!! (8 * j + 2)%nat)))
           (quant11 (freeze ((v !!! idx) !!! (8 * j + 3)%nat)))
           (quant11 (freeze ((v !!! idx) !!! (8 * j + 4)%nat)))
           (quant11 (freeze ((v !!! idx) !!! (8 * j + 5)%nat)))
           (quant11 (freeze ((v !!! idx) !!! (8 * j + 6)%nat)))
           (quant11 (freeze ((v !!! idx) !!! (8 * j + 7)%nat))) !!! m.
Proof.
  intros Hidx Hj Hm. rewrite polyVec_compress_groups. change (kyberN / 8)%nat with 32%nat.
  replace (idx * compressedCoeffSize + 11 * j + m)%nat
    with (compressedCoeffSize * idx + (11 * j + m))%nat by lia.
  rewrite (flat_map_lookup_total _ compressedCoeffSize v idx (11 * j + m));
    [|intros x; rewrite (flat_map_length_const _ 11); [reflexivity|intros; reflexivity]
     |exact Hidx|unfold compressedCoeffSize; lia].
  now rewrite (flat_map_seq_lookup_total _ 11 32 j m)
    by (try (intros; reflexivity); lia).
Qed.

Lemma polyVec_decompress_compress_eq (v : list (list Z)) :
  Forall (fun p : list Z => length p = kyberN) v ->
  polyVec_decompress (length v) (polyVec_compress v)
  = map (map (fun c : Z => scale11 (quant11 (freeze c)))) v.
Proof.
  intros Hv. rewrite polyVec_decompress_groups. change (kyberN / 8)%nat with 32%nat.
  rewrite <- (map_lookup_seq (map (fun c : Z => scale11 (quant11 (freeze c)))) v).
  apply map_ext_seq. intros idx Hidx. cbv zeta.
  rewrite <- (groups_of (fun c : Z => scale11 (quant11 (freeze c))) 8 32 (v !!! idx))
    by (apply (Forall_lookup_total_1 (fun p : list Z => length p = kyberN));
        [exact Hv|exact Hidx]).
  apply flat_map_ext_seq. intros j Hj.
  rewrite !polyVec_compress_lookup by lia.
  rewrite (unpack11_pack11 _ _ _ _ _ _ _ _
             (quant11_below _) (quant11_below _) (quant11_below _) (quant11_below _)
             (quant11_below _) (quant11_below _) (quant11_below _) (quant11_below _)).
  reflexivity.
Qed.

Lemma compress3_error_all : forall_from (Z.to_nat 7681) 0 compress3_error_ok = true.
Proof. vm_compute. reflexivity. Qed.

Lemma compress11_error_all : forall_from (Z.to_nat 7681) 0 compress11_error_ok = true.
Proof. vm_compute. reflexivity. Qed.

Lemma dist_q_mod x y : dist_q (x mod kyberQ) y = dist_q x y.
Proof.
  unfold dist_q. now rewrite Zminus_mod_idemp_l, Zminus_mod_idemp_r.
Qed.

Lemma compress3_error (c : Z) :
  0 <= c < 2 ^ 16 -> dist_q c (scale3 (quant3 (freeze c))) <= 480.
Proof.
  intros Hc. rewrite <- dist_q_mod, <- freeze_spec by exact Hc.
  apply Z.leb_le.
  apply (forall_from_spec _ compress3_error_ok 0 compress3_error_all).
  rewrite Z2Nat.id by lia.
  pose proof (freeze_range c Hc). unfold kyberQ in *. lia.
Qed.

Lemma compress11_error (c : Z) :
  0 <= c < 2 ^ 16 -> dist_q c (scale11 (quant11 (freeze c))) <= 2.
Proof.
  intros Hc. rewrite <- dist_q_mod, <- freeze_spec by exact Hc.
  apply Z.leb_le.
  apply (forall_from_spec _ compress11_error_ok 0 compress11_error_all).
  rewrite Z2Nat.id by lia.
  pose proof (freeze_range c Hc). unfold kyberQ in *. lia.
Qed.

(** X5: compression followed by decompression moves each coefficient by a
    bounded amount modulo q: by at most 480 for the 3-bit compression of a
    polynomial and by at most 2 for the 11-bit compression of a vector, for
    all 16-bit coefficients; both bounds are reached. *)
Theorem X5_compression_error_bound :
  (forall (p : list Z) (i : nat),
     poly_below (2 ^ 16) p -> (i < kyberN)%nat ->
     dist_q (p !!! i) (poly_decompress (poly_compress p) !!! i) <= 480) /\
  (forall (v : list (list Z)) (i j : nat),
     Forall (poly_below (2 ^ 16)) v -> (i < length v)%nat -> (j < kyberN)%nat ->
     dist_q ((v !!! i) !!! j)
            ((polyVec_decompress (length v) (polyVec_compress v) !!! i) !!! j) <= 2) /\
  dist_q 480 (poly_decompress (poly_compress (replicate kyberN 480)) !!! 0%nat) = 480 /\
  dist_q 2 ((polyVec_decompress 1 (polyVec_compress [replicate kyberN 2]) !!! 0%nat)
              !!! 0%nat) = 2.
Proof.
  split; [|split; [|split; vm_compute; reflexivity]].
  - intros p i [Hlen Hp] Hi. rewrite poly_decompress_compress_eq by exact Hlen.
    rewrite (lookup_total_map _ p i) by (rewrite Hlen; exact Hi).
    apply compress3_error.
    apply (Forall_lookup_total_1 (fun c : Z => 0 <= c < 2 ^ 16)); [exact Hp|].
    rewrite Hlen. exact Hi.
  - intros v i j Hv Hi Hj.
    rewrite polyVec_decompress_compress_eq
      by (eapply Forall_impl; [exact Hv|]; intros p Hp; apply Hp).
    rewrite (lookup_total_map _ v i) by exact Hi.
    destruct (Forall_lookup_total_1 (poly_below (2 ^ 16)) v i Hv Hi) as [Hlen Hp].
    rewrite (lookup_total_map _ (v !!! i) j) by (rewrite Hlen; exact Hj).
    apply compress11_error.
    apply (Forall_lookup_total_1 (fun c : Z => 0 <= c < 2 ^ 16)); [exact Hp|].
    rewrite Hlen. exact Hj.
Qed.

Lemma X5_compression_error_bound_witness :
  let p := map (fun i : nat => (977 * Z.of_nat i + 13) mod 65536) (seq 0 256) in
  dist_q (p !!! 100%nat) (poly_decompress (poly_compress p) !!! 100%nat) <= 480 /\
  dist_q (([p; p] !!! 1%nat) !!! 100%nat)
         ((polyVec_decompress 2 (polyVec_compress [p; p]) !!! 1%nat) !!! 100%nat) <= 2.
Proof.
  intros p.
  assert (Hp : poly_below (2 ^ 16) p).
  { split; [reflexivity|]. apply Forall_map_seq. intros i Hi.
    apply Z.mod_pos_bound. lia. }
  pose proof X5_compression_error_bound as (H1 & H2 & _).
  split.
  - apply H1; [exact Hp|vm_compute; lia].
  - apply (H2 [p; p] 1%nat 100%nat).
    + constructor; [exact Hp|]. constructor; [exact Hp|]. constructor.
    + cbn. lia.
    + vm_compute. lia.
Defined.
(** ** Key deserialisation *)

Lemma slice_chain (b : list Z) (n m : nat) :
  slice b n (n + m) ++ drop (n + m) b = drop n b.
Proof.
  unfold slice. replace (n + m - n)%nat with m by lia.
  rewrite <- (drop_drop b m n). apply take_drop.
Qed.

Section KeyBytes.
Context {sponge : Sponge} {laws : SpongeLaws sponge}.

(** X6: [PublicKeyFromBytes] accepts every byte string of
    [PublicKeySize()] bytes, whatever its content: the key returned carries
    the parameter set, serialises back to the same bytes and caches their
    SHA3-256 digest; any other length is rejected with
    [ErrInvalidKeySize]. *)
Theorem X6_PublicKeyFromBytes_any_bytes (p : ParameterSet) (b : list Z) :
  is_parameter_set p ->
  (length b = PublicKeySize p ->
   exists pk, PublicKeyFromBytes p b = Ok pk /\ PublicKey_Bytes pk = b /\
              PublicKey_p pk = p /\ pk_h (PublicKey_pk pk) = sha3_256 b) /\
  (length b <> PublicKeySize p -> PublicKeyFromBytes p b = Err ErrInvalidKeySize).
Proof.
  intros Hp. destruct (is_parameter_set_fill p Hp) as (_ & _ & _ & _ & Spub & _).
  unfold PublicKeySize, PublicKeyFromBytes, indcpaPublicKey_fromBytes. rewrite Spub.
  split; intros Hlen.
  - destruct (decide (length b <> indcpaPublicKeySize p)) as [Hne|_]; [contradiction|].
    eexists. cbn [obind]. repeat split.
  - destruct (decide (length b <> indcpaPublicKeySize p)) as [_|He]; [reflexivity|].
    exfalso. apply Hlen. now destruct (decide (length b = indcpaPublicKeySize p)).
Qed.

(** X7: a byte string that [PrivateKeyFromBytes] accepts has
    [PrivateKeySize()] bytes and is what [Bytes] returns for the key; the
    key carries the parameter set, buffers of its sizes, and the SHA3-256
    digest of its packed public key.  Conversely every byte string of that
    size whose embedded digest matches is accepted. *)
Theorem X7_PrivateKeyFromBytes_accepted (p : ParameterSet) (b : list Z) :
  is_parameter_set p ->
  (forall sk, PrivateKeyFromBytes p b = Ok sk ->
     length b = PrivateKeySize p /\ PrivateKey_Bytes sk = b /\ wf_PrivateKey sk /\
     PublicKey_p (PrivateKey_PublicKey sk) = p /\
     pk_h (PublicKey_pk (PrivateKey_PublicKey sk))
     = sha3_256 (pk_packed (PublicKey_pk (PrivateKey_PublicKey sk)))) /\
  (length b = PrivateKeySize p ->
   slice b (indcpaSecretKeySize p + publicKeySize p)
           (indcpaSecretKeySize p + publicKeySize p + SymSize)
   = sha3_256 (slice b (indcpaSecretKeySize p)
                        (indcpaSecretKeySize p + publicKeySize p)) ->
   exists sk, PrivateKeyFromBytes p b = Ok sk).
Proof.
  intros Hp.
  destruct (is_parameter_set_fill p Hp) as (_ & _ & _ & _ & Spub & Ssec & _).
  unfold PrivateKeySize, PrivateKeyFromBytes, indcpaPublicKey_fromBytes,
    indcpaSecretKey_fromBytes.
  set (n := indcpaSecretKeySize p) in *. set (m := publicKeySize p) in *.
  assert (Hslice : (n + m + 2 * SymSize <= length b)%nat -> length (slice b n (n + m)) = m).
  { intros Hl. unfold slice. rewrite length_take, length_drop. lia. }
  split.
  - intros sk E.
    destruct (decide (length b <> secretKeySize p)) as [|Hlen]; [discriminate|].
    assert (Hl : length b = (n + m + 2 * SymSize)%nat).
    { rewrite <- Spub in Ssec. fold n m in Ssec. rewrite <- Ssec.
      now destruct (decide (length b = secretKeySize p)). }
    destruct (decide (length (slice b n (n + m)) <> indcpaPublicKeySize p)) as [|_];
      [discriminate|].
    cbn [obind pk_h] in E.
    destruct (decide (sha3_256 (slice b n (n + m)) <> slice b (n + m) (n + m + SymSize)))
      as [|Hh]; [discriminate|].
    assert (Hh' : sha3_256 (slice b n (n + m)) = slice b (n + m) (n + m + SymSize)).
    { now destruct (decide (sha3_256 (slice b n (n + m))
                            = slice b (n + m) (n + m + SymSize))). }
    destruct (decide (length (take n b) <> n)) as [|_]; [discriminate|].
    cbn [obind] in E. inversion E; subst sk; clear E.
    assert (Hz : gocopy (replicate SymSize 0) (drop (n + m + SymSize) b)
                 = drop (n + m + SymSize) b).
    { apply gocopy_full. rewrite length_replicate, length_drop. lia. }
    split; [rewrite Ssec, <- Spub; exact Hl|].
    split; [|split; [|split; reflexivity]].
    + unfold PrivateKey_Bytes.
      cbn [PrivateKey_sk PrivateKey_PublicKey PublicKey_pk PrivateKey_z sk_packed
             pk_packed pk_h app].
      change (gocopy _ (drop (n + m + SymSize) b))
        with (gocopy (replicate SymSize 0) (drop (n + m + SymSize) b)).
      rewrite Hz, Hh', <- !app_assoc, !slice_chain. apply take_drop.
    + unfold wf_PrivateKey.
      cbn [PrivateKey_sk PrivateKey_PublicKey PublicKey_pk PublicKey_p PrivateKey_z
             sk_packed pk_packed pk_h].
      split; [exact Hp|]. fold n.
      split; [rewrite length_take; lia|].
      split; [rewrite Hslice by lia; now rewrite <- Spub|].
      split; [apply sha3_256_length|].
      change (gocopy _ (drop (n + m + SymSize) b))
        with (gocopy (replicate SymSize 0) (drop (n + m + SymSize) b)).
      rewrite Hz, length_drop. lia.
  - intros Hlen Hh.
    destruct (decide (length b <> secretKeySize p)) as [Hne|_]; [contradiction|].
    assert (Hl : length b = (n + m + 2 * SymSize)%nat).
    { rewrite <- Spub in Ssec. fold n m in Ssec. now rewrite <- Ssec. }
    destruct (decide (length (slice b n (n + m)) <> indcpaPublicKeySize p)) as [Hne|_].
    { exfalso. apply Hne. rewrite Hslice by lia. now rewrite <- Spub. }
    cbn [obind pk_h].
    destruct (decide (sha3_256 (slice b n (n + m)) <> slice b (n + m) (n + m + SymSize)))
      as [Hne|_]; [now rewrite Hh in Hne|].
    destruct (decide (length (take n b) <> n)) as [Hne|_].
    { exfalso. apply Hne. rewrite length_take. lia. }
    cbn [obind]. eexists. reflexivity.
Qed.

End KeyBytes.

Lemma X6_PublicKeyFromBytes_any_bytes_witness :
  exists pk, @PublicKeyFromBytes toy_sponge Kyber768 (replicate 1088 7) = Ok pk /\
             PublicKey_Bytes pk = replicate 1088 7 /\
             PublicKey_p pk = Kyber768 /\
             pk_h (PublicKey_pk pk) = @sha3_256 toy_sponge (replicate 1088 7).
Proof.
  apply (@X6_PublicKeyFromBytes_any_bytes toy_sponge Kyber768 (replicate 1088 7)).
  - right. left. reflexivity.
  - reflexivity.
Defined.

Lemma X7_PrivateKeyFromBytes_accepted_witness :
  let pkb := replicate (publicKeySize Kyber512) 9 in
  let b := replicate (indcpaSecretKeySize Kyber512) 3 ++ pkb
           ++ @sha3_256 toy_sponge pkb ++ replicate SymSize 1 in
  exists sk, @PrivateKeyFromBytes toy_sponge Kyber512 b = Ok sk /\
             PrivateKey_Bytes sk = b /\ wf_PrivateKey sk.
Proof.
  intros pkb b.
  pose proof (@X7_PrivateKeyFromBytes_accepted toy_sponge toy_sponge_laws Kyber512 b
                ltac:(left; reflexivity)) as [Hacc Hconv].
  destruct Hconv as [sk E]; [reflexivity|vm_compute; reflexivity|].
  exists sk. split; [exact E|].
  destruct (Hacc sk E) as (_ & Hb & Hwf & _). split; assumption.
Defined.
(** ** The matrix generated from a seed *)

Lemma omapM_lookup {A B : Type} `{Inhabited A} `{Inhabited B}
    (f : A -> outcome B) (l : list A) (ys : list B) (i : nat) :
  omapM f l = Ok ys -> (i < length l)%nat -> f (l !!! i) = Ok (ys !!! i).
Proof.
  revert ys i. induction l as [|x l IH]; intros ys i E Hi; [cbn in Hi; lia|].
  cbn [omapM] in E. apply obind_Ok in E as (y & Hy & E).
  apply obind_Ok in E as (ys' & Hys & E). inversion E; subst ys; clear E.
  destruct i as [|i]; [exact Hy|].
  change (f (l !!! i) = Ok (ys' !!! i)). apply IH; [exact Hys|cbn in Hi; lia].
Qed.

Lemma filter_candidates_below (s : nat -> Z) (l : list nat) :
  Forall (fun c : Z => 0 <= c < kyberQ)
         (List.filter (fun c : Z => c <? kyberQ) (map (xof_candidate s) l)).
Proof.
  apply Forall_forall. intros c Hc.
  apply list_elem_of_In, filter_In in Hc as [Hin Hlt].
  apply in_map_iff in Hin as (g & <- & _). apply Z.ltb_lt in Hlt.
  split; [|exact Hlt]. unfold xof_candidate. apply Z.land_nonneg. right. lia.
Qed.

(** What a run of the sampling loop returns: the coefficients already
    stored, then the accepted candidates from [g] on, in order. *)
Lemma sample_stream_run (s : nat -> Z) :
  forall (fuel g ctr : nat) (p r : list Z),
    sample_stream fuel s g ctr p = Ok r ->
    length p = kyberN -> (ctr <= kyberN)%nat ->
    r = take ctr p
        ++ take (kyberN - ctr)
             (List.filter (fun c : Z => c <? kyberQ)
                          (map (xof_candidate s) (seq g fuel))) /\
    (kyberN <= ctr + length (List.filter (fun c : Z => (c <? kyberQ)%Z)
                                         (map (xof_candidate s) (seq g fuel))))%nat.
Proof.
  induction fuel as [|fuel IH]; intros g ctr p r E Hlen Hctr; [discriminate|].
  cbn [sample_stream] in E. cbn [seq map List.filter].
  destruct (decide (ctr < kyberN)%nat) as [Hlt|Hge].
  - destruct (decide (xof_candidate s g < kyberQ)) as [Hv|Hv].
    + apply IH in E as [E Hn]; [|now rewrite length_insert|lia].
      rewrite (proj2 (Z.ltb_lt _ _) Hv). cbn [length]. split; [|lia].
      rewrite E. replace (kyberN - ctr)%nat with (S (kyberN - S ctr)) by lia.
      cbn [take]. rewrite (take_S_r _ ctr (xof_candidate s g)).
      * rewrite take_insert_ge by lia. now rewrite <- app_assoc.
      * apply list_lookup_insert_eq. lia.
    + apply IH in E as [E Hn]; [|exact Hlen|exact Hctr].
      rewrite (proj2 (Z.ltb_ge (xof_candidate s g) kyberQ) ltac:(lia)). split; assumption.
  - inversion E; subst r. replace ctr with kyberN by lia.
    rewrite Nat.sub_diag, take_0, app_nil_r. split; [|lia].
    symmetry. apply take_ge. lia.
Qed.

Lemma accepted_candidates_prefix (s : nat -> Z) (n n' : nat) :
  (n <= n')%nat ->
  accepted_candidates s n'
  = accepted_candidates s n
    ++ List.filter (fun c : Z => c <? kyberQ) (map (xof_candidate s) (seq n (n' - n))).
Proof.
  intros Hn. unfold accepted_candidates.
  replace n' with (n + (n' - n))%nat at 1 by lia.
  now rewrite seq_app, map_app, List.filter_app.
Qed.

Lemma accepted_candidates_take (s : nat -> Z) (n n' : nat) :
  (kyberN <= length (accepted_candidates s n))%nat ->
  (kyberN <= length (accepted_candidates s n'))%nat ->
  take kyberN (accepted_candidates s n) = take kyberN (accepted_candidates s n').
Proof.
  intros H1 H2. destruct (Nat.le_ge_cases n n') as [Hle|Hle].
  - rewrite (accepted_candidates_prefix s n n' Hle). now rewrite take_app_le.
  - rewrite (accepted_candidates_prefix s n' n Hle). now rewrite take_app_le.
Qed.

Section Matrix.
Context {sponge : Sponge}.

Lemma genMatrix_cell_stream (ext : list Z) (fuel : nat) (p : list Z) :
  genMatrix_sample fuel ext (shake128Rate * maxBlocks)
    (xof_read ext 0 (shake128Rate * maxBlocks)) 0 0
    (length (xof_read ext 0 (shake128Rate * maxBlocks))) p
  = sample_stream fuel (shake128 ext) 0 0 p.
Proof.
  rewrite xof_read_length.
  apply (genMatrix_sample_stream ext fuel 0 0 336).
  - lia.
  - apply xof_read_length.
  - rewrite xof_read_length. unfold shake128Rate, maxBlocks. lia.
  - intros i Hi. rewrite xof_read_lookup by (unfold shake128Rate, maxBlocks; lia).
    reflexivity.
Qed.

Lemma genMatrix_cell (fuel k : nat) (seed : list Z) (transposed : bool)
    (a : list (list (list Z))) (i j : nat) :
  genMatrix fuel k seed transposed = Ok a -> (i < k)%nat -> (j < k)%nat ->
  length a = k /\ length (a !!! i) = k /\
  sample_stream fuel (shake128 (genMatrix_extSeed seed transposed i j)) 0 0
                (replicate kyberN 0)
  = Ok ((a !!! i) !!! j).
Proof.
  intros E Hi Hj. unfold genMatrix in E. cbv zeta in E.
  pose proof (omapM_length _ _ _ E) as La. rewrite length_seq in La.
  pose proof (omapM_lookup _ _ _ i E ltac:(rewrite length_seq; exact Hi)) as Ei.
  rewrite lookup_total_seq_lt in Ei by exact Hi. cbn [Nat.add] in Ei.
  pose proof (omapM_length _ _ _ Ei) as Li. rewrite length_seq in Li.
  pose proof (omapM_lookup _ _ _ j Ei ltac:(rewrite length_seq; exact Hj)) as Ej.
  rewrite lookup_total_seq_lt in Ej by exact Hj. cbn [Nat.add] in Ej.
  rewrite genMatrix_cell_stream in Ej.
  split; [exact La|]. split; [exact Li|]. exact Ej.
Qed.

(** X8: every polynomial of the matrix that [genMatrix] returns is made of
    the first 256 values below q among the 13-bit little-endian candidates
    of the SHAKE-128 stream on [seed || j || i] ([seed || i || j] when
    transposed), in stream order: refilling the buffer loses and repeats
    nothing.  The matrix is [k] by [k] and its coefficients are canonical,
    in [0, q). *)
Theorem X8_genMatrix_rejection_sampling (fuel k : nat) (seed : list Z)
    (transposed : bool) (a : list (list (list Z))) (i j : nat) :
  genMatrix fuel k seed transposed = Ok a -> (i < k)%nat -> (j < k)%nat ->
  length a = k /\ length (a !!! i) = k /\
  poly_below kyberQ ((a !!! i) !!! j) /\
  forall n,
    (kyberN <= length (accepted_candidates
                         (shake128 (genMatrix_extSeed seed transposed i j)) n))%nat ->
    (a !!! i) !!! j
    = take kyberN (accepted_candidates
                     (shake128 (genMatrix_extSeed seed transposed i j)) n).
Proof.
  intros E Hi Hj. destruct (genMatrix_cell fuel k seed transposed a i j E Hi Hj)
    as (La & Li & Es).
  apply sample_stream_run in Es as [Er Hn]; [|apply length_replicate|lia].
  rewrite take_0, Nat.sub_0_r in Er. cbn [app] in Er. cbn [Nat.add] in Hn.
  fold (accepted_candidates (shake128 (genMatrix_extSeed seed transposed i j)) fuel)
    in Er, Hn.
  split; [exact La|]. split; [exact Li|]. split.
  - rewrite Er. split; [rewrite length_take; lia|].
    apply Forall_take. apply filter_candidates_below.
  - intros n Hacc. rewrite Er. now apply accepted_candidates_take.
Qed.

(** X9: the matrix generated with [transposed = true] is the transpose
    of the one generated with [transposed = false] from the same seed. *)
Theorem X9_genMatrix_transposed (fuel k : nat) (seed : list Z)
    (a at_ : list (list (list Z))) (i j : nat) :
  genMatrix fuel k seed false = Ok a -> genMatrix fuel k seed true = Ok at_ ->
  (i < k)%nat -> (j < k)%nat ->
  (at_ !!! i) !!! j = (a !!! j) !!! i.
Proof.
  intros Ea Eat Hi Hj.
  destruct (genMatrix_cell fuel k seed true at_ i j Eat Hi Hj) as (_ & _ & E1).
  destruct (genMatrix_cell fuel k seed false a j i Ea Hj Hi) as (_ & _ & E2).
  unfold genMatrix_extSeed in E1, E2. rewrite E1 in E2. now inversion E2.
Qed.

End Matrix.

Lemma X8_genMatrix_rejection_sampling_witness :
  exists a, @genMatrix toy_sponge 300 2 (replicate 32 5) false = Ok a /\
    length a = 2%nat /\ poly_below kyberQ ((a !!! 1%nat) !!! 0%nat) /\
    (a !!! 1%nat) !!! 0%nat
    = take kyberN
        (accepted_candidates
           (@shake128 toy_sponge (genMatrix_extSeed (replicate 32 5) false 1 0)) 256).
Proof.
  assert (E : exists a, @genMatrix toy_sponge 300 2 (replicate 32 5) false = Ok a)
    by (vm_compute; eexists; reflexivity).
  destruct E as [a E]. exists a. split; [exact E|].
  destruct (@X8_genMatrix_rejection_sampling toy_sponge 300 2 (replicate 32 5) false
              a 1 0 E ltac:(lia) ltac:(lia)) as (La & _ & Hb & Hacc).
  split; [exact La|]. split; [exact Hb|].
  apply Hacc. vm_compute. lia.
Defined.

Lemma X9_genMatrix_transposed_witness :
  exists a at_,
    @genMatrix toy_sponge 300 2 (replicate 32 5) false = Ok a /\
    @genMatrix toy_sponge 300 2 (replicate 32 5) true = Ok at_ /\
    (at_ !!! 0%nat) !!! 1%nat = (a !!! 1%nat) !!! 0%nat.
Proof.
  assert (E : exists a, @genMatrix toy_sponge 300 2 (replicate 32 5) false = Ok a)
    by (vm_compute; eexists; reflexivity).
  assert (Et : exists a, @genMatrix toy_sponge 300 2 (replicate 32 5) true = Ok a)
    by (vm_compute; eexists; reflexivity).
  destruct E as [a E]. destruct Et as [at_ Et]. exists a, at_.
  split; [exact E|]. split; [exact Et|].
  apply (@X9_genMatrix_transposed toy_sponge 300 2 (replicate 32 5) a at_ 0 1 E Et);
    lia.
Defined.
(** ** Runs of the KEM *)

Section KemRuns.
Context {sponge : Sponge} {laws : SpongeLaws sponge}.

Lemma ReadFull_app (b rest : list Z) (n : nat) :
  length b = n -> ReadFull (b ++ rest) n = Ok (b, rest).
Proof.
  intros <-. unfold ReadFull. rewrite length_app.
  destruct (decide (length b <= length b + length rest)%nat); [|lia].
  now rewrite take_app_length, drop_app_length.
Qed.

Lemma ReadFull_short (rng : list Z) (n : nat) :
  (length rng < n)%nat -> exists e, ReadFull rng n = Err e.
Proof.
  intros H. unfold ReadFull. destruct (decide (n <= length rng)%nat); [lia|].
  destruct (decide (length rng = 0%nat)); eexists; reflexivity.
Qed.

Lemma KEMDecrypt_total (sk : PrivateKey) (ct : list Z) :
  wf_PrivateKey sk ->
  length ct = CipherTextSize (PublicKey_p (PrivateKey_PublicKey sk)) ->
  exists n ss, length ss = 32%nat /\
    forall fuel, (n < fuel)%nat -> KEMDecrypt fuel sk ct = Ok ss.
Proof.
  intros (Hp & Hsk & Hpk & Hh & Hz) Hct.
  set (p := PublicKey_p (PrivateKey_PublicKey sk)) in *.
  set (pk := PublicKey_pk (PrivateKey_PublicKey sk)) in *.
  set (buf := indcpaDecrypt p ct (PrivateKey_sk sk)
              ++ gocopy (replicate SymSize 0) (pk_h pk)).
  set (kr := sha3_512 buf).
  destruct (indcpaEncrypt_total p (take SymSize buf) pk (drop SymSize kr) Hp)
    as (n & cmp & Hcmp).
  assert (Hkr : length kr = 64%nat) by apply sha3_512_length.
  assert (Hhc : length (sha3_256 ct) = 32%nat) by apply sha3_256_length.
  exists n. eexists. split; [|intros fuel Hfuel; unfold KEMDecrypt; fold p pk].
  2: { destruct (decide (length ct <> CipherTextSize p)) as [Hne|_]; [contradiction|].
       cbv zeta. fold buf. fold kr. rewrite (Hcmp fuel Hfuel). cbn [obind].
       unfold ConstantTimeCopy.
       destruct (decide (length (drop SymSize (take SymSize kr
                           ++ gocopy (drop SymSize kr) (sha3_256 ct)))
                         = length (PrivateKey_z sk))) as [_|Hne].
       - cbn [obind]. reflexivity.
       - exfalso. apply Hne.
         rewrite (gocopy_full (drop SymSize kr) (sha3_256 ct))
           by (rewrite length_drop, Hkr, Hhc; reflexivity).
         rewrite length_drop, length_app, length_take, Hkr, Hhc, Hz. reflexivity. }
  apply sha3_256_length.
Qed.

Lemma indcpaKeyPair_total (p : ParameterSet) (d : list Z) :
  is_parameter_set p -> length d = SymSize ->
  exists n pk sk, forall fuel rest, (n < fuel)%nat ->
    indcpaKeyPair fuel p (d ++ rest) = Ok (pk, sk, rest).
Proof.
  intros Hp Hd. pose proof (is_parameter_set_eta p Hp) as Heta.
  set (buf := sha3_512 d).
  destruct (genMatrix_total (ps_k p) (take SymSize buf) false) as (n & a & Ha).
  destruct (getNoise_vec_Ok (ps_k p) (drop SymSize buf) 0 (ps_eta p) Heta) as [s Hs].
  destruct (getNoise_vec_Ok (ps_k p) (drop SymSize buf) (Z.of_nat (ps_k p)) (ps_eta p)
              Heta) as [e He].
  exists n. do 2 eexists. intros fuel rest Hfuel. unfold indcpaKeyPair.
  rewrite (ReadFull_app d rest SymSize Hd). cbn [obind]. cbv zeta. fold buf.
  rewrite (Ha fuel Hfuel). cbn [obind]. rewrite Hs. cbn [obind]. rewrite He.
  cbn [obind]. reflexivity.
Qed.

Lemma GenerateKeyPair_total (p : ParameterSet) (d z : list Z) :
  is_parameter_set p -> length d = SymSize -> length z = SymSize ->
  exists n ipk isk, forall fuel rest, (n < fuel)%nat ->
    GenerateKeyPair fuel p (d ++ z ++ rest)
    = Ok ({| PublicKey_pk := ipk; PublicKey_p := p |},
          {| PrivateKey_PublicKey := {| PublicKey_pk := ipk; PublicKey_p := p |};
             PrivateKey_sk := isk; PrivateKey_z := z |},
          rest).
Proof.
  intros Hp Hd Hz. destruct (indcpaKeyPair_total p d Hp Hd) as (n & ipk & isk & Hk).
  exists n, ipk, isk. intros fuel rest Hfuel. unfold GenerateKeyPair.
  rewrite (Hk fuel (z ++ rest) Hfuel). cbn [obind].
  rewrite (ReadFull_app z rest SymSize Hz). cbn [obind]. reflexivity.
Qed.

Lemma KEMEncrypt_total (pk : PublicKey) (coins : list Z) :
  is_parameter_set (PublicKey_p pk) -> length coins = SymSize ->
  exists n ct ss,
    length ct = CipherTextSize (PublicKey_p pk) /\ length ss = 32%nat /\
    forall fuel rest, (n < fuel)%nat ->
      KEMEncrypt fuel pk (coins ++ rest) = Ok (ct, ss, rest).
Proof.
  intros Hp Hc.
  set (buf := sha3_256 coins). set (kr := sha3_512 (buf ++ pk_h (PublicKey_pk pk))).
  destruct (indcpaEncrypt_total (PublicKey_p pk) buf (PublicKey_pk pk)
              (drop SymSize kr) Hp) as (n & ct & Hct).
  exists n, ct. eexists. split; [|split].
  - apply (indcpaEncrypt_length (S n) (PublicKey_p pk) buf (PublicKey_pk pk)
             (drop SymSize kr)); [exact Hp|apply Hct; lia].
  - apply sha3_256_length.
  - intros fuel rest Hfuel. unfold KEMEncrypt.
    rewrite (ReadFull_app coins rest SymSize Hc). cbn [obind]. cbv zeta.
    fold buf. fold kr. rewrite (Hct fuel Hfuel). cbn [obind]. reflexivity.
Qed.

(** X10: [GenerateKeyPair] reads exactly 64 bytes of the tape, 32 for the
    IND-CPA key pair and then 32 that become [z] unchanged; the keys are a
    function of these bytes alone, the private key embeds the public key and
    has the buffer sizes of the parameter set.  On a tape of fewer than 64
    bytes it returns an error and no key. *)
Theorem X10_GenerateKeyPair_reads_64_bytes (p : ParameterSet) :
  is_parameter_set p ->
  (forall d z : list Z, length d = SymSize -> length z = SymSize ->
     exists fuel0 pk sk,
       wf_PrivateKey sk /\ PrivateKey_PublicKey sk = pk /\ PublicKey_p pk = p /\
       PrivateKey_z sk = z /\
       forall fuel rest, (fuel0 <= fuel)%nat ->
         GenerateKeyPair fuel p (d ++ z ++ rest) = Ok (pk, sk, rest)) /\
  (forall rng : list Z, (length rng < 2 * SymSize)%nat ->
     exists fuel0, forall fuel, (fuel0 <= fuel)%nat ->
       exists e, GenerateKeyPair fuel p rng = Err e).
Proof.
  intros Hp. split.
  - intros d z Hd Hz.
    destruct (GenerateKeyPair_total p d z Hp Hd Hz) as (n & ipk & isk & Hrun).
    exists (S n). do 2 eexists.
    split; [|split; [|split; [|split; [|intros fuel rest Hf; apply Hrun; lia]]]];
      try reflexivity.
    pose proof (Hrun (S n) [] ltac:(lia)) as E.
    now destruct (GenerateKeyPair_shape _ _ _ _ _ _ Hp E) as (Hwf & _).
  - intros rng Hlen. destruct (decide (length rng < SymSize)%nat) as [Hs|Hs].
    + exists 0%nat. intros fuel _. destruct (ReadFull_short rng SymSize Hs) as [e E].
      exists e. unfold GenerateKeyPair, indcpaKeyPair. now rewrite E.
    + destruct (indcpaKeyPair_total p (take SymSize rng) Hp) as (n & ipk & isk & Hk).
      { rewrite length_take. lia. }
      destruct (ReadFull_short (drop SymSize rng) SymSize) as [e E];
        [rewrite length_drop; lia|].
      exists (S n). intros fuel Hf. exists e. unfold GenerateKeyPair.
      rewrite <- (take_drop SymSize rng) at 1.
      rewrite (Hk fuel (drop SymSize rng)) by lia. cbn [obind].
      rewrite E. reflexivity.
Qed.

(** X11: for a public key with a packed key of the size of its parameter
    set, [KEMEncrypt] reads exactly 32 bytes of the tape; the cipher text
    has [CipherTextSize()] bytes, the shared secret 32, and both are a
    function of the public key and of these 32 bytes alone.  On a tape of
    fewer than 32 bytes it returns an error. *)
Theorem X11_KEMEncrypt_reads_32_bytes (pk : PublicKey) :
  wf_PublicKey pk ->
  (forall coins : list Z, length coins = SymSize ->
     exists fuel0 ct ss,
       length ct = CipherTextSize (PublicKey_p pk) /\ length ss = 32%nat /\
       forall fuel rest, (fuel0 <= fuel)%nat ->
         KEMEncrypt fuel pk (coins ++ rest) = Ok (ct, ss, rest)) /\
  (forall (rng : list Z) (fuel : nat), (length rng < SymSize)%nat ->
     exists e, KEMEncrypt fuel pk rng = Err e).
Proof.
  intros (Hp & _). split.
  - intros coins Hc.
    destruct (KEMEncrypt_total pk coins Hp Hc) as (n & ct & ss & Lct & Lss & Hrun).
    exists (S n), ct, ss. split; [exact Lct|]. split; [exact Lss|].
    intros fuel rest Hf. apply Hrun. lia.
  - intros rng fuel Hlen. destruct (ReadFull_short rng SymSize Hlen) as [e E].
    exists e. unfold KEMEncrypt. now rewrite E.
Qed.

(** X12: decapsulation of a cipher text that [KEMEncrypt] produced for the
    public key of [sk] returns the encapsulated secret whenever the IND-CPA
    decryption gives back the encrypted message, the SHA3-256 digest of the
    32 tape bytes: the re-encryption then reproduces the cipher text and the
    rejection value [z] is not used. *)
Theorem X12_KEMDecrypt_of_KEMEncrypt (fuel : nat) (sk : PrivateKey)
    (rng ct ss rng' : list Z) :
  wf_PrivateKey sk ->
  KEMEncrypt fuel (PrivateKey_PublicKey sk) rng = Ok (ct, ss, rng') ->
  indcpaDecrypt (PublicKey_p (PrivateKey_PublicKey sk)) ct (PrivateKey_sk sk)
  = sha3_256 (take SymSize rng) ->
  KEMDecrypt fuel sk ct = Ok ss.
Proof.
  intros Hwf E Hm.
  now apply (proj2 (KEMDecrypt_KEMEncrypt_if_recovered fuel sk rng ct ss rng' Hwf E)).
Qed.

End KemRuns.
Lemma X10_GenerateKeyPair_reads_64_bytes_witness :
  (exists fuel0 pk sk,
     wf_PrivateKey sk /\ PrivateKey_PublicKey sk = pk /\ PublicKey_p pk = Kyber512 /\
     PrivateKey_z sk = replicate 32 8 /\
     forall fuel rest, (fuel0 <= fuel)%nat ->
       @GenerateKeyPair toy_sponge fuel Kyber512 (replicate 32 7 ++ replicate 32 8 ++ rest)
       = Ok (pk, sk, rest)) /\
  (exists fuel0, forall fuel, (fuel0 <= fuel)%nat ->
     exists e, @GenerateKeyPair toy_sponge fuel Kyber512 (replicate 40 7) = Err e).
Proof.
  pose proof (@X10_GenerateKeyPair_reads_64_bytes toy_sponge toy_sponge_laws Kyber512
                ltac:(left; reflexivity)) as [H1 H2].
  split.
  - apply (H1 (replicate 32 7) (replicate 32 8)); reflexivity.
  - apply (H2 (replicate 40 7)). vm_compute. lia.
Defined.

Lemma X11_KEMEncrypt_reads_32_bytes_witness :
  let pk := {| PublicKey_pk := {| pk_packed := replicate 736 3; pk_h := replicate 32 4 |};
               PublicKey_p := Kyber512 |} in
  (exists fuel0 ct ss,
     length ct = CipherTextSize Kyber512 /\ length ss = 32%nat /\
     forall fuel rest, (fuel0 <= fuel)%nat ->
       @KEMEncrypt toy_sponge fuel pk (replicate 32 9 ++ rest) = Ok (ct, ss, rest)) /\
  (exists e, @KEMEncrypt toy_sponge 5 pk (replicate 31 9) = Err e).
Proof.
  intros pk.
  assert (Hwf : wf_PublicKey pk).
  { split; [left; reflexivity|]. split; apply length_replicate. }
  pose proof (@X11_KEMEncrypt_reads_32_bytes toy_sponge toy_sponge_laws pk Hwf)
    as [H1 H2].
  split.
  - apply (H1 (replicate 32 9)). reflexivity.
  - apply (H2 (replicate 31 9) 5%nat). vm_compute. lia.
Defined.

Lemma X12_KEMDecrypt_of_KEMEncrypt_witness :
  exists pk sk r ct ss r',
    @GenerateKeyPair toy_sponge 300 Kyber512 (replicate 64 7) = Ok (pk, sk, r) /\
    @KEMEncrypt toy_sponge 300 pk (replicate 32 9) = Ok (ct, ss, r') /\
    @KEMDecrypt toy_sponge 300 sk ct = Ok ss.
Proof.
  let v := eval vm_compute in (@GenerateKeyPair toy_sponge 300 Kyber512 (replicate 64 7)) in
  lazymatch v with
  | Ok (?pk, ?sk, ?r) =>
      assert (Ek : @GenerateKeyPair toy_sponge 300 Kyber512 (replicate 64 7) = Ok (pk, sk, r))
        by (vm_compute; reflexivity);
      let w := eval vm_compute in (@KEMEncrypt toy_sponge 300 pk (replicate 32 9)) in
      lazymatch w with
      | Ok (?ct, ?ss, ?r') =>
          assert (Ee : @KEMEncrypt toy_sponge 300 pk (replicate 32 9) = Ok (ct, ss, r'))
            by (vm_compute; reflexivity);
          exists pk, sk, r, ct, ss, r'; split; [exact Ek|split; [exact Ee|]];
          apply (@X12_KEMDecrypt_of_KEMEncrypt toy_sponge toy_sponge_laws 300 sk
                   (replicate 32 9) ct ss r');
          [ exact (proj1 (@GenerateKeyPair_shape toy_sponge toy_sponge_laws 300 Kyber512
                            (replicate 64 7) pk sk r (or_introl eq_refl) Ek))
          | exact Ee
          | vm_compute; reflexivity ]
      end
  end.
Defined.
(** ** Key exchange *)

Section Kex.
Context {sponge : Sponge} {laws : SpongeLaws sponge}.

Lemma PublicKeyFromBytes_Ok (p : ParameterSet) (b : list Z) :
  is_parameter_set p -> length b = PublicKeySize p ->
  PublicKeyFromBytes p b
  = Ok {| PublicKey_pk := {| pk_packed := b; pk_h := sha3_256 b |}; PublicKey_p := p |}.
Proof.
  intros Hp Hb. destruct (is_parameter_set_fill p Hp) as (_ & _ & _ & _ & Spub & _).
  unfold PublicKeyFromBytes, indcpaPublicKey_fromBytes, PublicKeySize in *.
  destruct (decide (length b <> indcpaPublicKeySize p)) as [Hne|_]; [lia|reflexivity].
Qed.

Lemma PublicKeyFromBytes_Err (p : ParameterSet) (b : list Z) :
  is_parameter_set p -> length b <> PublicKeySize p ->
  PublicKeyFromBytes p b = Err ErrInvalidKeySize.
Proof.
  intros Hp Hb. destruct (is_parameter_set_fill p Hp) as (_ & _ & _ & _ & Spub & _).
  unfold PublicKeyFromBytes, indcpaPublicKey_fromBytes, PublicKeySize in *.
  destruct (decide (length b <> indcpaPublicKeySize p)) as [_|He]; [reflexivity|].
  exfalso. apply Hb. rewrite Spub. now destruct (decide (length b = indcpaPublicKeySize p)).
Qed.

Lemma KEMEncrypt_shape (fuel : nat) (pk : PublicKey) (rng ct ss rng' : list Z) :
  is_parameter_set (PublicKey_p pk) ->
  KEMEncrypt fuel pk rng = Ok (ct, ss, rng') ->
  length ct = CipherTextSize (PublicKey_p pk) /\ length ss = SymSize /\
  rng' = drop SymSize rng.
Proof.
  intros Hp E. unfold KEMEncrypt in E.
  apply obind_Ok in E as ([b0 rng1] & Hrd & E).
  apply obind_Ok in E as (c & Hc & E). inversion E; subst; clear E.
  split; [now apply indcpaEncrypt_length in Hc|]. split; [apply sha3_256_length|].
  unfold ReadFull in Hrd. destruct (decide (SymSize <= length rng)%nat); [|case_decide; discriminate].
  now inversion Hrd.
Qed.

Lemma GenerateKeyPair_tape (fuel : nat) (p : ParameterSet) (rng : list Z) pk sk rng' :
  GenerateKeyPair fuel p rng = Ok (pk, sk, rng') -> rng' = drop (2 * SymSize) rng.
Proof.
  intros E. unfold GenerateKeyPair in E.
  apply obind_Ok in E as ([[ipk isk] rng1] & Hkp & E).
  apply obind_Ok in E as ([z rng2] & Hz & E). inversion E; subst; clear E.
  unfold indcpaKeyPair in Hkp.
  apply obind_Ok in Hkp as ([d rng0] & Hd & Hkp).
  apply obind_Ok in Hkp as (a & _ & Hkp).
  apply obind_Ok in Hkp as (s & _ & Hkp).
  apply obind_Ok in Hkp as (e & _ & Hkp). inversion Hkp; subst; clear Hkp.
  unfold ReadFull in Hd, Hz.
  repeat case_decide; try congruence.
  inversion Hd; subst. inversion Hz; subst. rewrite drop_drop. reflexivity.
Qed.

Lemma NewUAKEInitiatorState_shape (fuel : nat) (pk : PublicKey)
    (rng rng' : list Z) (s : UAKEInitiatorState) :
  is_parameter_set (PublicKey_p pk) ->
  NewUAKEInitiatorState fuel pk rng = Ok (s, rng') ->
  let p := PublicKey_p pk in
  rng' = drop (3 * SymSize) rng /\
  wf_PrivateKey (UAKE_eSk s) /\
  PublicKey_p (PrivateKey_PublicKey (UAKE_eSk s)) = p /\
  length (UAKE_Message s) = UAKEInitiatorMessageSize p /\
  take (PublicKeySize p) (UAKE_Message s)
  = PublicKey_Bytes (PrivateKey_PublicKey (UAKE_eSk s)) /\
  KEMEncrypt fuel pk (drop (2 * SymSize) rng)
  = Ok (drop (PublicKeySize p) (UAKE_Message s), UAKE_tk s, rng') /\
  pk_h (PublicKey_pk (PrivateKey_PublicKey (UAKE_eSk s)))
  = sha3_256 (pk_packed (PublicKey_pk (PrivateKey_PublicKey (UAKE_eSk s)))).
Proof.
  intros Hp E p. unfold NewUAKEInitiatorState in E. fold p in E.
  apply obind_Ok in E as ([[epk esk] rng1] & Hk & E).
  apply obind_Ok in E as ([[ct tk] rng2] & He & E).
  inversion E; subst s rng2; clear E. cbn [fst snd] in *.
  cbn [UAKE_Message UAKE_eSk UAKE_tk].
  destruct (GenerateKeyPair_shape _ _ _ _ _ _ Hp Hk) as (Hwf & Hpk & Hpp & Hh).
  pose proof (GenerateKeyPair_tape _ _ _ _ _ _ Hk) as Hr1.
  destruct (KEMEncrypt_shape _ _ _ _ _ _ Hp He) as (Lct & Ltk & Hr2).
  assert (Lpk : length (PublicKey_Bytes (PrivateKey_PublicKey esk)) = PublicKeySize p).
  { destruct Hwf as (_ & _ & L & _). rewrite Hpk, Hpp in L.
    destruct (is_parameter_set_fill p Hp) as (_ & _ & _ & _ & Spub & _).
    unfold PublicKey_Bytes, indcpaPublicKey_toBytes, PublicKeySize. rewrite Hpk.
    now rewrite Spub. }
  split; [rewrite Hr2, Hr1, drop_drop; f_equal; lia|].
  split; [exact Hwf|]. split; [now rewrite Hpk|].
  split; [rewrite length_app, Lpk, Lct; reflexivity|].
  split; [rewrite take_app_length' by (symmetry; exact Lpk); reflexivity|].
  split; [|now rewrite Hpk].
  rewrite drop_app_length' by (symmetry; exact Lpk). rewrite <- Hr1. exact He.
Qed.

(** X13: [NewUAKEInitiatorState] draws an ephemeral key pair and then
    encapsulates to the responder's key, reading 96 tape bytes in this
    order; its message is the ephemeral public key followed by the cipher
    text and has [UAKEInitiatorMessageSize()] bytes.  [NewAKEInitiatorState]
    returns the same message, key and transient secret. *)
Theorem X13_NewUAKEInitiatorState_message (fuel : nat) (pk : PublicKey)
    (rng rng' : list Z) (s : UAKEInitiatorState) :
  is_parameter_set (PublicKey_p pk) ->
  NewUAKEInitiatorState fuel pk rng = Ok (s, rng') ->
  let p := PublicKey_p pk in
  rng' = drop (3 * SymSize) rng /\
  wf_PrivateKey (UAKE_eSk s) /\
  PublicKey_p (PrivateKey_PublicKey (UAKE_eSk s)) = p /\
  length (UAKE_Message s) = UAKEInitiatorMessageSize p /\
  take (PublicKeySize p) (UAKE_Message s)
  = PublicKey_Bytes (PrivateKey_PublicKey (UAKE_eSk s)) /\
  KEMEncrypt fuel pk (drop (2 * SymSize) rng)
  = Ok (drop (PublicKeySize p) (UAKE_Message s), UAKE_tk s, rng') /\
  NewAKEInitiatorState fuel pk rng
  = Ok ({| AKE_Message := UAKE_Message s; AKE_eSk := UAKE_eSk s;
           AKE_tk := UAKE_tk s |}, rng').
Proof.
  intros Hp E p.
  destruct (NewUAKEInitiatorState_shape fuel pk rng rng' s Hp E)
    as (H1 & H2 & H3 & H4 & H5 & H6 & _).
  repeat (split; [assumption|]).
  unfold NewAKEInitiatorState. rewrite E. reflexivity.
Qed.

Lemma must_Ok {A : Type} (x : A) : must (Ok x) = Ok x.
Proof. reflexivity. Qed.

Lemma UAKEResponderShared_total (sk : PrivateKey) (coins recv : list Z) :
  wf_PrivateKey sk -> length coins = SymSize ->
  length recv = UAKEInitiatorMessageSize (PublicKey_p (PrivateKey_PublicKey sk)) ->
  exists n msg ss,
    length msg = UAKEResponderMessageSize (PublicKey_p (PrivateKey_PublicKey sk)) /\
    length ss = SymSize /\
    forall fuel rest, (n < fuel)%nat ->
      UAKEResponderShared fuel sk (coins ++ rest) recv = Ok (msg, ss, rest).
Proof.
  intros Hwf Hc Hrecv. pose proof Hwf as (Hp & _).
  set (p := PublicKey_p (PrivateKey_PublicKey sk)) in *.
  unfold UAKEInitiatorMessageSize in Hrecv.
  set (pk := {| PublicKey_pk := {| pk_packed := take (PublicKeySize p) recv;
                                   pk_h := sha3_256 (take (PublicKeySize p) recv) |};
                PublicKey_p := p |}).
  destruct (KEMEncrypt_total pk coins Hp Hc) as (n1 & msg & tk1 & Lmsg & _ & Henc).
  destruct (KEMDecrypt_total sk (drop (PublicKeySize p) recv) Hwf) as (n2 & tk2 & _ & Hdec).
  { rewrite length_drop. fold p. lia. }
  exists (Nat.max n1 n2), msg. eexists. split; [exact Lmsg|].
  split; [|intros fuel rest Hfuel; unfold UAKEResponderShared; fold p].
  2: { destruct (decide (length recv <> UAKEInitiatorMessageSize p)) as [Hne|_];
         [unfold UAKEInitiatorMessageSize in Hne; contradiction|].
       cbv zeta.
       rewrite (PublicKeyFromBytes_Ok p (take (PublicKeySize p) recv) Hp)
         by (rewrite length_take; lia).
       rewrite must_Ok. cbn [obind]. fold pk.
       rewrite (Henc fuel rest) by lia. rewrite must_Ok. cbn [obind fst snd].
       rewrite (Hdec fuel) by lia. cbn [obind]. reflexivity. }
  apply shake256_length.
Qed.

(** X14: [UAKEResponderShared] with a well-formed private key panics with
    [ErrInvalidMessageSize] on a message of the wrong size; on every message
    of [UAKEInitiatorMessageSize()] bytes, whatever its content, it reads 32
    tape bytes and returns a reply of [UAKEResponderMessageSize()] bytes and
    a 32-byte secret; when the tape is shorter than 32 bytes it panics with
    the read error. *)
Theorem X14_UAKEResponderShared_outcomes (sk : PrivateKey) :
  wf_PrivateKey sk ->
  let p := PublicKey_p (PrivateKey_PublicKey sk) in
  (forall fuel rng recv, length recv <> UAKEInitiatorMessageSize p ->
     UAKEResponderShared fuel sk rng recv = Panic (PanicError ErrInvalidMessageSize)) /\
  (forall coins recv, length coins = SymSize ->
     length recv = UAKEInitiatorMessageSize p ->
     exists fuel0 msg ss,
       length msg = UAKEResponderMessageSize p /\ length ss = SymSize /\
       forall fuel rest, (fuel0 <= fuel)%nat ->
         UAKEResponderShared fuel sk (coins ++ rest) recv = Ok (msg, ss, rest)) /\
  (forall fuel rng recv, length recv = UAKEInitiatorMessageSize p ->
     (length rng < SymSize)%nat ->
     exists e, UAKEResponderShared fuel sk rng recv = Panic (PanicError e)).
Proof.
  intros Hwf p. pose proof Hwf as (Hp & _). fold p in Hp. split; [|split].
  - intros fuel rng recv Hne. unfold UAKEResponderShared. fold p.
    destruct (decide (length recv <> UAKEInitiatorMessageSize p)); [reflexivity|].
    contradiction.
  - intros coins recv Hc Hrecv.
    destruct (UAKEResponderShared_total sk coins recv Hwf Hc Hrecv)
      as (n & msg & ss & Lm & Ls & Hrun).
    exists (S n), msg, ss. split; [exact Lm|]. split; [exact Ls|].
    intros fuel rest Hf. apply Hrun. lia.
  - intros fuel rng recv Hrecv Hrng. destruct (ReadFull_short rng SymSize Hrng) as [e E].
    exists e. unfold UAKEResponderShared. fold p.
    destruct (decide (length recv <> UAKEInitiatorMessageSize p)) as [Hne|_];
      [contradiction|].
    cbv zeta. unfold UAKEInitiatorMessageSize in Hrecv.
    rewrite (PublicKeyFromBytes_Ok p (take (PublicKeySize p) recv) Hp)
      by (rewrite length_take; lia).
    rewrite must_Ok. cbn [obind]. unfold KEMEncrypt.
    rewrite E. reflexivity.
Qed.

Lemma AKEResponderShared_total (sk : PrivateKey) (peer : PublicKey)
    (c1 c2 recv : list Z) :
  wf_PrivateKey sk -> PublicKey_p peer = PublicKey_p (PrivateKey_PublicKey sk) ->
  length c1 = SymSize -> length c2 = SymSize ->
  length recv = AKEInitiatorMessageSize (PublicKey_p (PrivateKey_PublicKey sk)) ->
  exists n msg ss,
    length msg = AKEResponderMessageSize (PublicKey_p (PrivateKey_PublicKey sk)) /\
    length ss = SymSize /\
    forall fuel rest, (n < fuel)%nat ->
      AKEResponderShared fuel sk (c1 ++ c2 ++ rest) recv peer true = Ok (msg, ss, rest).
Proof.
  intros Hwf Hpeer Hc1 Hc2 Hrecv. pose proof Hwf as (Hp & _).
  set (p := PublicKey_p (PrivateKey_PublicKey sk)) in *.
  unfold AKEInitiatorMessageSize in Hrecv.
  set (pk := {| PublicKey_pk := {| pk_packed := take (PublicKeySize p) recv;
                                   pk_h := sha3_256 (take (PublicKeySize p) recv) |};
                PublicKey_p := p |}).
  destruct (KEMEncrypt_total pk c1 Hp Hc1) as (n1 & m1 & tk1 & Lm1 & _ & Henc1).
  destruct (KEMEncrypt_total peer c2 ltac:(now rewrite Hpeer) Hc2)
    as (n2 & m2 & tk2 & Lm2 & _ & Henc2).
  destruct (KEMDecrypt_total sk (drop (PublicKeySize p) recv) Hwf) as (n3 & tk3 & _ & Hdec).
  { rewrite length_drop. fold p. lia. }
  exists (Nat.max n1 (Nat.max n2 n3)), (m1 ++ m2). eexists.
  split; [rewrite length_app, Lm1, Lm2, Hpeer; unfold AKEResponderMessageSize;
          cbn [PublicKey_p pk]; lia|].
  split; [|intros fuel rest Hfuel; unfold AKEResponderShared; fold p].
  2: { cbn [negb].
       destruct (decide (length recv <> AKEInitiatorMessageSize p)) as [Hne|_];
         [unfold AKEInitiatorMessageSize in Hne; contradiction|].
       cbv zeta.
       rewrite (PublicKeyFromBytes_Ok p (take (PublicKeySize p) recv) Hp)
         by (rewrite length_take; lia).
       rewrite must_Ok. cbn [obind]. fold pk.
       rewrite (Henc1 fuel (c2 ++ rest)) by lia. rewrite must_Ok. cbn [obind fst snd].
       rewrite (Henc2 fuel rest) by lia. rewrite must_Ok. cbn [obind fst snd].
       rewrite (Hdec fuel) by lia. cbn [obind app]. reflexivity. }
  apply shake256_length.
Qed.

(** X15: [AKEResponderShared] with a well-formed private key first
    compares the parameter-set pointer of the peer's key with its own and
    panics with [ErrParameterSetMismatch] when they differ, whatever the
    other arguments; then it checks the message size and panics with
    [ErrInvalidMessageSize].  Otherwise, the pointers being equal and the
    peer's key well formed, it reads 64 tape bytes, 32 for each
    encapsulation, and returns a reply of [AKEResponderMessageSize()] bytes
    and a 32-byte secret, whatever the content of the message. *)
Theorem X15_AKEResponderShared_outcomes (sk : PrivateKey) :
  wf_PrivateKey sk ->
  let p := PublicKey_p (PrivateKey_PublicKey sk) in
  (forall fuel rng recv peer,
     AKEResponderShared fuel sk rng recv peer false
     = Panic (PanicError ErrParameterSetMismatch)) /\
  (forall fuel rng recv peer,
     length recv <> AKEInitiatorMessageSize p ->
     AKEResponderShared fuel sk rng recv peer true
     = Panic (PanicError ErrInvalidMessageSize)) /\
  (forall c1 c2 recv peer, wf_PublicKey peer -> PublicKey_p peer = p ->
     length c1 = SymSize -> length c2 = SymSize ->
     length recv = AKEInitiatorMessageSize p ->
     exists fuel0 msg ss,
       length msg = AKEResponderMessageSize p /\ length ss = SymSize /\
       forall fuel rest, (fuel0 <= fuel)%nat ->
         AKEResponderShared fuel sk (c1 ++ c2 ++ rest) recv peer true
         = Ok (msg, ss, rest)).
Proof.
  intros Hwf p. split; [|split].
  - intros fuel rng recv peer. reflexivity.
  - intros fuel rng recv peer Hne. unfold AKEResponderShared. fold p. cbn [negb].
    destruct (decide (length recv <> AKEInitiatorMessageSize p)); [reflexivity|].
    contradiction.
  - intros c1 c2 recv peer _ Hpeer Hc1 Hc2 Hrecv.
    destruct (AKEResponderShared_total sk peer c1 c2 recv Hwf Hpeer Hc1 Hc2 Hrecv)
      as (n & msg & ss & Lm & Ls & Hrun).
    exists (S n), msg, ss. split; [exact Lm|]. split; [exact Ls|].
    intros fuel rest Hf. apply Hrun. lia.
Qed.

(** X16: the initiator's [Shared] never returns an error: with
    well-formed keys, [UAKEInitiatorState.Shared] returns a 32-byte secret
    for every reply of [UAKEResponderMessageSize()] bytes and panics with
    [ErrInvalidCipherTextSize] for any other; [AKEInitiatorState.Shared]
    panics with [ErrParameterSetMismatch] when the parameter-set pointer of
    the long-term key is not the one of the state, with
    [ErrInvalidMessageSize] when the pointers are equal and the reply has
    not [AKEResponderMessageSize()] bytes, and returns a 32-byte secret
    otherwise. *)
Theorem X16_initiator_Shared_outcomes :
  (forall (s : UAKEInitiatorState) (recv : list Z),
     wf_PrivateKey (UAKE_eSk s) ->
     let p := PublicKey_p (PrivateKey_PublicKey (UAKE_eSk s)) in
     (length recv <> UAKEResponderMessageSize p ->
      forall fuel, UAKEInitiatorState_Shared fuel s recv
                   = Panic (PanicError ErrInvalidCipherTextSize)) /\
     (length recv = UAKEResponderMessageSize p ->
      exists fuel0 ss, length ss = SymSize /\
        forall fuel, (fuel0 <= fuel)%nat ->
          UAKEInitiatorState_Shared fuel s recv = Ok ss)) /\
  (forall (s : AKEInitiatorState) (recv : list Z) (isk : PrivateKey),
     wf_PrivateKey (AKE_eSk s) -> wf_PrivateKey isk ->
     let p := PublicKey_p (PrivateKey_PublicKey (AKE_eSk s)) in
     (forall fuel, AKEInitiatorState_Shared fuel s recv isk false
                   = Panic (PanicError ErrParameterSetMismatch)) /\
     (length recv <> AKEResponderMessageSize p ->
      forall fuel, AKEInitiatorState_Shared fuel s recv isk true
                   = Panic (PanicError ErrInvalidMessageSize)) /\
     (PublicKey_p (PrivateKey_PublicKey isk) = p ->
      length recv = AKEResponderMessageSize p ->
      exists fuel0 ss, length ss = SymSize /\
        forall fuel, (fuel0 <= fuel)%nat ->
          AKEInitiatorState_Shared fuel s recv isk true = Ok ss)).
Proof.
  split.
  - intros s recv Hwf p. unfold UAKEResponderMessageSize. split.
    + intros Hne fuel. unfold UAKEInitiatorState_Shared, KEMDecrypt. fold p.
      destruct (decide (length recv <> CipherTextSize p)); [reflexivity|contradiction].
    + intros Hlen. destruct (KEMDecrypt_total (UAKE_eSk s) recv Hwf Hlen)
        as (n & tk & _ & Hdec).
      exists (S n). eexists. split; [|intros fuel Hf; unfold UAKEInitiatorState_Shared].
      2: { rewrite (Hdec fuel) by lia. cbn [obind]. reflexivity. }
      apply shake256_length.
  - intros s recv isk Hwf Hwfi p. split; [|split].
    + intros fuel. reflexivity.
    + intros Hne fuel. unfold AKEInitiatorState_Shared. fold p. cbn [negb].
      destruct (decide (length recv <> AKEResponderMessageSize p));
        [reflexivity|contradiction].
    + intros He Hlen. unfold AKEResponderMessageSize in Hlen.
      destruct (KEMDecrypt_total (AKE_eSk s) (take (CipherTextSize p) recv) Hwf)
        as (n1 & tk1 & _ & Hd1); [rewrite length_take; fold p; lia|].
      destruct (KEMDecrypt_total isk (drop (CipherTextSize p) recv) Hwfi)
        as (n2 & tk2 & _ & Hd2); [rewrite length_drop, He; lia|].
      exists (S (Nat.max n1 n2)). eexists.
      split; [|intros fuel Hf; unfold AKEInitiatorState_Shared; fold p].
      2: { cbn [negb].
           destruct (decide (length recv <> AKEResponderMessageSize p)) as [Hne|_];
             [unfold AKEResponderMessageSize in Hne; contradiction|].
           cbv zeta. rewrite (Hd1 fuel) by lia. cbn [obind].
           rewrite (Hd2 fuel) by lia. cbn [obind]. reflexivity. }
      apply shake256_length.
Qed.

(** X17: UAKE agreement.  When the initiator state was built for the
    responder's public key and the responder answered the initiator's
    message, the initiator's [Shared] on the reply returns the responder's
    secret, provided the two IND-CPA decryptions give back the encrypted
    messages (the SHA3-256 digests of the 32 tape bytes each encapsulation
    read). *)
Theorem X17_UAKE_agreement_if_recovered (fuel : nat) (skB : PrivateKey)
    (rngA rngA' rngB rngB' msg ssB : list Z) (s : UAKEInitiatorState) :
  wf_PrivateKey skB ->
  NewUAKEInitiatorState fuel (PrivateKey_PublicKey skB) rngA = Ok (s, rngA') ->
  UAKEResponderShared fuel skB rngB (UAKE_Message s) = Ok (msg, ssB, rngB') ->
  let p := PublicKey_p (PrivateKey_PublicKey skB) in
  indcpaDecrypt p (drop (PublicKeySize p) (UAKE_Message s)) (PrivateKey_sk skB)
  = sha3_256 (take SymSize (drop (2 * SymSize) rngA)) ->
  indcpaDecrypt p msg (PrivateKey_sk (UAKE_eSk s)) = sha3_256 (take SymSize rngB) ->
  UAKEInitiatorState_Shared fuel s msg = Ok ssB.
Proof.
  intros Hwf EA EB p HrecA HrecB. pose proof Hwf as (Hp & _). fold p in Hp.
  destruct (NewUAKEInitiatorState_shape fuel (PrivateKey_PublicKey skB)
              rngA rngA' s Hp EA) as (_ & HwfE & HpE & Lmsg & Htake & Henc & Hh).
  fold p in HpE, Lmsg, Htake, Henc.
  unfold UAKEResponderShared in EB. fold p in EB.
  destruct (decide (length (UAKE_Message s) <> UAKEInitiatorMessageSize p)) as [|_];
    [discriminate|].
  cbv zeta in EB. unfold UAKEInitiatorMessageSize in Lmsg.
  rewrite (PublicKeyFromBytes_Ok p (take (PublicKeySize p) (UAKE_Message s)) Hp) in EB
    by (rewrite length_take; lia).
  rewrite must_Ok in EB. cbn [obind] in EB.
  assert (HpkE : {| PublicKey_pk :=
                      {| pk_packed := take (PublicKeySize p) (UAKE_Message s);
                         pk_h := sha3_256 (take (PublicKeySize p) (UAKE_Message s)) |};
                    PublicKey_p := p |} = PrivateKey_PublicKey (UAKE_eSk s)).
  { rewrite Htake. destruct (PrivateKey_PublicKey (UAKE_eSk s)) as [[pkp h] p'] eqn:Epk.
    cbn in HpE, Hh. subst p'. unfold PublicKey_Bytes, indcpaPublicKey_toBytes. cbn.
    now rewrite Hh. }
  rewrite HpkE in EB.
  destruct (KEMEncrypt fuel (PrivateKey_PublicKey (UAKE_eSk s)) rngB)
    as [[[m1 tk1] r1]| | |] eqn:EencB; try discriminate.
  rewrite must_Ok in EB. cbn [obind fst snd] in EB.
  pose proof (proj2 (KEMDecrypt_KEMEncrypt_if_recovered fuel skB _ _ _ _ Hwf Henc) HrecA)
    as HdecB.
  rewrite HdecB in EB. cbn [obind] in EB. inversion EB; subst m1 ssB r1; clear EB.
  unfold UAKEInitiatorState_Shared.
  rewrite (proj2 (KEMDecrypt_KEMEncrypt_if_recovered fuel (UAKE_eSk s) _ _ _ _ HwfE EencB)).
  - reflexivity.
  - rewrite HpE. exact HrecB.
Qed.

(** X18: AKE agreement.  When the initiator state was built for the
    responder's long-term public key and the responder answered the
    initiator's message for the initiator's long-term public key, the
    initiator's [Shared] on the reply returns the responder's secret,
    provided the three IND-CPA decryptions give back the encrypted messages
    and the initiator's long-term key carries the parameter-set pointer of
    the state (the responder having returned, its own comparison found equal
    pointers); with another pointer the initiator panics instead.
    The reply is the cipher text for the ephemeral key followed by the one
    for the initiator's long-term key, and the secret is SHAKE-256 of the
    ephemeral-derived, the long-term-derived and the initial transient key,
    in this order. *)
Theorem X18_AKE_agreement_if_recovered (fuel : nat) (skA skB : PrivateKey)
    (rngA rngA' rngB rngB' msg ssB : list Z) (s : AKEInitiatorState)
    (sameB : bool) :
  wf_PrivateKey skA -> wf_PrivateKey skB ->
  PublicKey_p (PrivateKey_PublicKey skA) = PublicKey_p (PrivateKey_PublicKey skB) ->
  NewAKEInitiatorState fuel (PrivateKey_PublicKey skB) rngA = Ok (s, rngA') ->
  AKEResponderShared fuel skB rngB (AKE_Message s) (PrivateKey_PublicKey skA) sameB
  = Ok (msg, ssB, rngB') ->
  let p := PublicKey_p (PrivateKey_PublicKey skB) in
  indcpaDecrypt p (drop (PublicKeySize p) (AKE_Message s)) (PrivateKey_sk skB)
  = sha3_256 (take SymSize (drop (2 * SymSize) rngA)) ->
  indcpaDecrypt p (take (CipherTextSize p) msg) (PrivateKey_sk (AKE_eSk s))
  = sha3_256 (take SymSize rngB) ->
  indcpaDecrypt p (drop (CipherTextSize p) msg) (PrivateKey_sk skA)
  = sha3_256 (take SymSize (drop SymSize rngB)) ->
  sameB = true /\
  AKEInitiatorState_Shared fuel s msg skA true = Ok ssB /\
  AKEInitiatorState_Shared fuel s msg skA false
  = Panic (PanicError ErrParameterSetMismatch) /\
  exists ct1 tkE r1 ct2 tkL,
    KEMEncrypt fuel (PrivateKey_PublicKey (AKE_eSk s)) rngB = Ok (ct1, tkE, r1) /\
    KEMEncrypt fuel (PrivateKey_PublicKey skA) r1 = Ok (ct2, tkL, rngB') /\
    msg = ct1 ++ ct2 /\
    ssB = shake256 (tkE ++ tkL ++ AKE_tk s) SymSize.
Proof.
  intros HwfA Hwf HpA EA EB p HrecI HrecE HrecL.
  pose proof Hwf as (Hp & _). fold p in Hp, HpA.
  unfold NewAKEInitiatorState in EA.
  apply obind_Ok in EA as ([us rng1] & EU & EA). inversion EA; subst s rng1; clear EA.
  cbn [AKE_Message AKE_eSk AKE_tk] in *.
  destruct (NewUAKEInitiatorState_shape fuel (PrivateKey_PublicKey skB)
              rngA rngA' us Hp EU) as (_ & HwfE & HpE & Lmsg & Htake & Henc & Hh).
  fold p in HpE, Lmsg, Htake, Henc.
  unfold AKEResponderShared in EB. fold p in EB.
  destruct sameB; [|discriminate]. cbn [negb] in EB.
  destruct (decide (length (UAKE_Message us) <> AKEInitiatorMessageSize p)) as [|_];
    [discriminate|].
  cbv zeta in EB. unfold UAKEInitiatorMessageSize in Lmsg.
  rewrite (PublicKeyFromBytes_Ok p (take (PublicKeySize p) (UAKE_Message us)) Hp) in EB
    by (rewrite length_take; lia).
  rewrite must_Ok in EB. cbn [obind] in EB.
  assert (HpkE : {| PublicKey_pk :=
                      {| pk_packed := take (PublicKeySize p) (UAKE_Message us);
                         pk_h := sha3_256 (take (PublicKeySize p) (UAKE_Message us)) |};
                    PublicKey_p := p |} = PrivateKey_PublicKey (UAKE_eSk us)).
  { rewrite Htake. destruct (PrivateKey_PublicKey (UAKE_eSk us)) as [[pkp h] p'] eqn:Epk.
    cbn in HpE, Hh. subst p'. unfold PublicKey_Bytes, indcpaPublicKey_toBytes. cbn.
    now rewrite Hh. }
  rewrite HpkE in EB.
  destruct (KEMEncrypt fuel (PrivateKey_PublicKey (UAKE_eSk us)) rngB)
    as [[[ct1 tkE] r1]| | |] eqn:Eenc1; try discriminate.
  rewrite must_Ok in EB. cbn [obind fst snd] in EB.
  destruct (KEMEncrypt fuel (PrivateKey_PublicKey skA) r1)
    as [[[ct2 tkL] r2]| | |] eqn:Eenc2; try discriminate.
  rewrite must_Ok in EB. cbn [obind fst snd app] in EB.
  pose proof (proj2 (KEMDecrypt_KEMEncrypt_if_recovered fuel skB _ _ _ _ Hwf Henc) HrecI)
    as HdecB.
  rewrite HdecB in EB. cbn [obind] in EB. inversion EB; subst msg ssB r2; clear EB.
  destruct (KEMEncrypt_shape _ _ _ _ _ _ ltac:(now rewrite HpE) Eenc1) as (L1 & _ & Hr1).
  rewrite HpE in L1.
  split; [reflexivity|]. split; [|split; [reflexivity|]].
  - unfold AKEInitiatorState_Shared. cbn [AKE_eSk AKE_tk negb]. rewrite HpE.
    destruct (KEMEncrypt_shape _ _ _ _ _ _ ltac:(now rewrite HpA) Eenc2) as (L2 & _).
    rewrite HpA in L2.
    destruct (decide (length (ct1 ++ ct2) <> AKEResponderMessageSize p)) as [Hne|_].
    { exfalso. apply Hne. rewrite length_app, L1, L2. unfold AKEResponderMessageSize. lia. }
    cbv zeta. rewrite take_app_length' by (symmetry; exact L1).
    rewrite drop_app_length' by (symmetry; exact L1).
    rewrite take_app_length' in HrecE by (symmetry; exact L1).
    rewrite drop_app_length' in HrecL by (symmetry; exact L1).
    rewrite (proj2 (KEMDecrypt_KEMEncrypt_if_recovered fuel (UAKE_eSk us) _ _ _ _
                      HwfE Eenc1)) by (rewrite HpE; exact HrecE).
    cbn [obind].
    rewrite (proj2 (KEMDecrypt_KEMEncrypt_if_recovered fuel skA _ _ _ _ HwfA Eenc2))
      by (rewrite HpA, Hr1; exact HrecL).
    reflexivity.
  - exists ct1, tkE, r1, ct2, tkL. repeat split; assumption || reflexivity.
Qed.

End Kex.
Lemma sample_PrivateKey_wf (p : ParameterSet) :
  is_parameter_set p -> wf_PrivateKey (sample_PrivateKey p).
Proof.
  intros Hp. unfold wf_PrivateKey, sample_PrivateKey.
  cbn [PrivateKey_PublicKey PublicKey_p PublicKey_pk PrivateKey_sk PrivateKey_z
         pk_packed pk_h sk_packed].
  split; [exact Hp|]. repeat split; apply length_replicate.
Qed.

Lemma X13_NewUAKEInitiatorState_message_witness :
  exists s r,
    @NewUAKEInitiatorState toy_sponge 300 (PrivateKey_PublicKey (sample_PrivateKey Kyber512))
      (sample_tape 91 3 100) = Ok (s, r) /\
    r = drop 96 (sample_tape 91 3 100) /\
    length (UAKE_Message s) = UAKEInitiatorMessageSize Kyber512 /\
    take (PublicKeySize Kyber512) (UAKE_Message s)
    = PublicKey_Bytes (PrivateKey_PublicKey (UAKE_eSk s)).
Proof.
  let v := eval vm_compute in
    (@NewUAKEInitiatorState toy_sponge 300
       (PrivateKey_PublicKey (sample_PrivateKey Kyber512)) (sample_tape 91 3 100)) in
  lazymatch v with
  | Ok (?s, ?r) =>
      assert (E : @NewUAKEInitiatorState toy_sponge 300
                    (PrivateKey_PublicKey (sample_PrivateKey Kyber512))
                    (sample_tape 91 3 100) = Ok (s, r))
        by (vm_compute; reflexivity);
      exists s, r; split; [exact E|];
      destruct (@X13_NewUAKEInitiatorState_message toy_sponge toy_sponge_laws 300
                  (PrivateKey_PublicKey (sample_PrivateKey Kyber512))
                  (sample_tape 91 3 100) r s (or_introl eq_refl) E)
        as (H1 & _ & _ & H4 & H5 & _);
      split; [exact H1|split; [exact H4|exact H5]]
  end.
Defined.

Lemma X14_UAKEResponderShared_outcomes_witness :
  let sk := sample_PrivateKey Kyber512 in
  @UAKEResponderShared toy_sponge 300 sk (sample_tape 5 1 32) (replicate 7 0)
  = Panic (PanicError ErrInvalidMessageSize) /\
  (exists fuel0 msg ss,
     length msg = UAKEResponderMessageSize Kyber512 /\ length ss = SymSize /\
     forall fuel rest, (fuel0 <= fuel)%nat ->
       @UAKEResponderShared toy_sponge fuel sk (sample_tape 5 1 32 ++ rest)
         (replicate 1536 9) = Ok (msg, ss, rest)) /\
  (exists e, @UAKEResponderShared toy_sponge 300 sk (sample_tape 5 1 31) (replicate 1536 9)
             = Panic (PanicError e)).
Proof.
  intros sk.
  destruct (@X14_UAKEResponderShared_outcomes toy_sponge toy_sponge_laws sk
              (sample_PrivateKey_wf Kyber512 (or_introl eq_refl))) as (H1 & H2 & H3).
  split; [apply H1; vm_compute; lia|].
  split; [apply H2; reflexivity|].
  apply H3; [reflexivity|vm_compute; lia].
Defined.

Lemma X15_AKEResponderShared_outcomes_witness :
  let sk := sample_PrivateKey Kyber768 in
  let peer := PrivateKey_PublicKey (sample_PrivateKey Kyber768) in
  @AKEResponderShared toy_sponge 300 sk (sample_tape 5 1 64) (replicate 2240 9) peer false
  = Panic (PanicError ErrParameterSetMismatch) /\
  @AKEResponderShared toy_sponge 300 sk (sample_tape 5 1 64) (replicate 2239 9) peer true
  = Panic (PanicError ErrInvalidMessageSize) /\
  (exists fuel0 msg ss,
     length msg = AKEResponderMessageSize Kyber768 /\ length ss = SymSize /\
     forall fuel rest, (fuel0 <= fuel)%nat ->
       @AKEResponderShared toy_sponge fuel sk
         (sample_tape 5 1 32 ++ sample_tape 7 2 32 ++ rest) (replicate 2240 9) peer true
       = Ok (msg, ss, rest)).
Proof.
  intros sk peer.
  destruct (@X15_AKEResponderShared_outcomes toy_sponge toy_sponge_laws sk
              (sample_PrivateKey_wf Kyber768 (or_intror (or_introl eq_refl))))
    as (H1 & H2 & H3).
  split; [apply H1|].
  split; [apply H2; vm_compute; lia|].
  apply H3; try reflexivity.
  split; [right; left; reflexivity|]. split; apply length_replicate.
Defined.

Lemma X16_initiator_Shared_outcomes_witness :
  let s := {| UAKE_Message := []; UAKE_eSk := sample_PrivateKey Kyber512;
              UAKE_tk := replicate 32 2 |} in
  let a := {| AKE_Message := []; AKE_eSk := sample_PrivateKey Kyber512;
              AKE_tk := replicate 32 2 |} in
  @UAKEInitiatorState_Shared toy_sponge 300 s (replicate 3 0)
  = Panic (PanicError ErrInvalidCipherTextSize) /\
  (exists fuel0 ss, length ss = SymSize /\
     forall fuel, (fuel0 <= fuel)%nat ->
       @UAKEInitiatorState_Shared toy_sponge fuel s (replicate 800 5) = Ok ss) /\
  @AKEInitiatorState_Shared toy_sponge 300 a (replicate 1600 5)
    (sample_PrivateKey Kyber512) false
  = Panic (PanicError ErrParameterSetMismatch) /\
  @AKEInitiatorState_Shared toy_sponge 300 a (replicate 800 5)
    (sample_PrivateKey Kyber512) true
  = Panic (PanicError ErrInvalidMessageSize) /\
  (exists fuel0 ss, length ss = SymSize /\
     forall fuel, (fuel0 <= fuel)%nat ->
       @AKEInitiatorState_Shared toy_sponge fuel a (replicate 1600 5)
         (sample_PrivateKey Kyber512) true = Ok ss).
Proof.
  intros s a.
  pose proof (sample_PrivateKey_wf Kyber512 (or_introl eq_refl)) as Hwf.
  pose proof (@X16_initiator_Shared_outcomes toy_sponge toy_sponge_laws) as [HU HA].
  destruct (HU s (replicate 3 0) Hwf) as [U1 _].
  destruct (HU s (replicate 800 5) Hwf) as [_ U2].
  destruct (HA a (replicate 1600 5) (sample_PrivateKey Kyber512) Hwf Hwf) as (A1 & _ & A3).
  destruct (HA a (replicate 800 5) (sample_PrivateKey Kyber512) Hwf Hwf) as (_ & A2 & _).
  split; [apply U1; vm_compute; lia|].
  split; [apply U2; reflexivity|].
  split; [apply A1|].
  split; [apply A2; vm_compute; lia|].
  apply A3; reflexivity.
Defined.
Lemma X17_UAKE_agreement_if_recovered_witness :
  exists pkB skB r0 s r1 msg ssB r2,
    @GenerateKeyPair toy_sponge 300 Kyber512 (sample_tape 37 11 64) = Ok (pkB, skB, r0) /\
    @NewUAKEInitiatorState toy_sponge 300 pkB (sample_tape 91 3 96) = Ok (s, r1) /\
    @UAKEResponderShared toy_sponge 300 skB (sample_tape 17 101 64) (UAKE_Message s)
    = Ok (msg, ssB, r2) /\
    @UAKEInitiatorState_Shared toy_sponge 300 s msg = Ok ssB.
Proof.
  let v := eval vm_compute in
    (@GenerateKeyPair toy_sponge 300 Kyber512 (sample_tape 37 11 64)) in
  lazymatch v with
  | Ok (?pkB, ?skB, ?r0) =>
    assert (Ek : @GenerateKeyPair toy_sponge 300 Kyber512 (sample_tape 37 11 64)
                 = Ok (pkB, skB, r0)) by (vm_compute; reflexivity);
    let w := eval vm_compute in
      (@NewUAKEInitiatorState toy_sponge 300 pkB (sample_tape 91 3 96)) in
    lazymatch w with
    | Ok (?s, ?r1) =>
      assert (Es : @NewUAKEInitiatorState toy_sponge 300 pkB (sample_tape 91 3 96)
                   = Ok (s, r1)) by (vm_compute; reflexivity);
      let x := eval vm_compute in
        (@UAKEResponderShared toy_sponge 300 skB (sample_tape 17 101 64)
           (UAKE_Message s)) in
      lazymatch x with
      | Ok (?msg, ?ssB, ?r2) =>
        assert (Er : @UAKEResponderShared toy_sponge 300 skB (sample_tape 17 101 64)
                       (UAKE_Message s) = Ok (msg, ssB, r2))
          by (vm_compute; reflexivity);
        exists pkB, skB, r0, s, r1, msg, ssB, r2;
        split; [exact Ek|split; [exact Es|split; [exact Er|]]];
        apply (@X17_UAKE_agreement_if_recovered toy_sponge toy_sponge_laws 300 skB
                 (sample_tape 91 3 96) r1 (sample_tape 17 101 64) r2 msg ssB s);
        [ exact (proj1 (@GenerateKeyPair_shape toy_sponge toy_sponge_laws 300 Kyber512
                          (sample_tape 37 11 64) pkB skB r0 (or_introl eq_refl) Ek))
        | exact Es
        | exact Er
        | vm_compute; reflexivity
        | vm_compute; reflexivity ]
      end
    end
  end.
Defined.

Lemma X18_AKE_agreement_if_recovered_witness :
  exists pkB skB r0 pkA skA r0' s r1 msg ssB r2,
    @GenerateKeyPair toy_sponge 300 Kyber512 (sample_tape 37 11 64) = Ok (pkB, skB, r0) /\
    @GenerateKeyPair toy_sponge 300 Kyber512 (sample_tape 53 29 64) = Ok (pkA, skA, r0') /\
    @NewAKEInitiatorState toy_sponge 300 pkB (sample_tape 91 3 96) = Ok (s, r1) /\
    @AKEResponderShared toy_sponge 300 skB (sample_tape 17 101 64) (AKE_Message s) pkA
      true
    = Ok (msg, ssB, r2) /\
    @AKEInitiatorState_Shared toy_sponge 300 s msg skA true = Ok ssB.
Proof.
  let v := eval vm_compute in
    (@GenerateKeyPair toy_sponge 300 Kyber512 (sample_tape 37 11 64)) in
  let v' := eval vm_compute in
    (@GenerateKeyPair toy_sponge 300 Kyber512 (sample_tape 53 29 64)) in
  lazymatch v with
  | Ok (?pkB, ?skB, ?r0) =>
   lazymatch v' with
   | Ok (?pkA, ?skA, ?r0') =>
    assert (Ek : @GenerateKeyPair toy_sponge 300 Kyber512 (sample_tape 37 11 64)
                 = Ok (pkB, skB, r0)) by (vm_compute; reflexivity);
    assert (Ek' : @GenerateKeyPair toy_sponge 300 Kyber512 (sample_tape 53 29 64)
                  = Ok (pkA, skA, r0')) by (vm_compute; reflexivity);
    let w := eval vm_compute in
      (@NewAKEInitiatorState toy_sponge 300 pkB (sample_tape 91 3 96)) in
    lazymatch w with
    | Ok (?s, ?r1) =>
      assert (Es : @NewAKEInitiatorState toy_sponge 300 pkB (sample_tape 91 3 96)
                   = Ok (s, r1)) by (vm_compute; reflexivity);
      let x := eval vm_compute in
        (@AKEResponderShared toy_sponge 300 skB (sample_tape 17 101 64)
           (AKE_Message s) pkA true) in
      lazymatch x with
      | Ok (?msg, ?ssB, ?r2) =>
        assert (Er : @AKEResponderShared toy_sponge 300 skB (sample_tape 17 101 64)
                       (AKE_Message s) pkA true = Ok (msg, ssB, r2))
          by (vm_compute; reflexivity);
        exists pkB, skB, r0, pkA, skA, r0', s, r1, msg, ssB, r2;
        split; [exact Ek|split; [exact Ek'|split; [exact Es|split; [exact Er|]]]];
        apply (@X18_AKE_agreement_if_recovered toy_sponge toy_sponge_laws 300 skA skB
                 (sample_tape 91 3 96) r1 (sample_tape 17 101 64) r2 msg ssB s true);
        [ exact (proj1 (@GenerateKeyPair_shape toy_sponge toy_sponge_laws 300 Kyber512
                          (sample_tape 53 29 64) pkA skA r0' (or_introl eq_refl) Ek'))
        | exact (proj1 (@GenerateKeyPair_shape toy_sponge toy_sponge_laws 300 Kyber512
                          (sample_tape 37 11 64) pkB skB r0 (or_introl eq_refl) Ek))
        | reflexivity
        | exact Es
        | exact Er
        | vm_compute; reflexivity
        | vm_compute; reflexivity
        | vm_compute; reflexivity ]
      end
    end
   end
  end.
Defined.
(** ** The transforms as evaluation and interpolation *)

Lemma abs_forms_match_sound env rows i0 (r : list Z) ra :
  Forall2 (absR env) r ra -> abs_forms_match rows i0 ra = true ->
  forall k, (k < length r)%nat ->
    (r !!! k) mod kyberQ = form_eval (rows (i0 + k)%nat) env mod kyberQ.
Proof.
  intros Hr. revert i0. induction Hr as [|x a r ra Hxa _ IH]; intros i0 Hc k Hk;
    [cbn in Hk; lia|].
  cbn [abs_forms_match] in Hc. apply andb_true_iff in Hc as [H1 H2].
  destruct k as [|k].
  - destruct a as [a|]; [|discriminate]. apply list_Z_eqb_eq in H1.
    destruct Hxa as [_ Hxc]. rewrite Nat.add_0_r, <- H1. exact Hxc.
  - change ((x :: r) !!! S k) with (r !!! k).
    replace (i0 + S k)%nat with (S i0 + k)%nat by lia.
    apply IH; [exact H2|cbn in Hk; lia].
Qed.

Lemma poly_eval_at_range p z : p <> [] -> 0 <= poly_eval_at p z < kyberQ.
Proof.
  destruct p as [|c p]; [congruence|]. intros _. cbn [poly_eval_at fold_right].
  apply Z.mod_pos_bound. reflexivity.
Qed.

(** The form [c, c*z, c*z^2, ...] is [c] times the value at [z]. *)
Lemma form_eval_powers z (p : list Z) :
  forall c n, (length p <= n)%nat ->
    form_eval (powers z c n) p mod kyberQ = (c * poly_eval_at p z) mod kyberQ.
Proof.
  induction p as [|x p IH]; intros c n Hn.
  - rewrite form_eval_nil_r. cbn. now rewrite Z.mul_0_r.
  - destruct n as [|n]; [cbn in Hn; lia|].
    cbn [powers form_eval poly_eval_at fold_right].
    change (fold_right (fun c0 acc : Z => (c0 + z * acc) mod kyberQ) 0 p)
      with (poly_eval_at p z).
    rewrite <- Zplus_mod_idemp_r, (IH ((c * z) mod kyberQ) n) by (cbn in Hn; lia).
    rewrite Zmult_mod_idemp_l, Zplus_mod_idemp_r, Zmult_mod_idemp_r.
    f_equal. ring.
Qed.

Lemma ntt_forms_check :
  abs_forms_match (fun i : nat => powers (ntt_point i) 1 kyberN) 0
    (gnttRef abs_ntt_bf (abs_input (2 * kyberQ - 1))) = true.
Proof. vm_compute. reflexivity. Qed.

Lemma ntt_points_roots :
  map (fun i : nat => powmod (ntt_point i) 256) (seq 0 kyberN)
  = replicate kyberN (kyberQ - 1).
Proof. vm_compute. reflexivity. Qed.

Lemma brv8_involution_all :
  map (fun i : nat => brv8 (brv8 i)) (seq 0 kyberN) = seq 0 kyberN.
Proof. vm_compute. reflexivity. Qed.

Lemma ntt_point_root (i : nat) :
  (i < kyberN)%nat -> powmod (ntt_point i) 256 = kyberQ - 1.
Proof.
  intros Hi. pose proof (f_equal (fun l : list Z => l !!! i) ntt_points_roots) as E.
  cbv beta in E.
  rewrite (lookup_total_map (fun i : nat => powmod (ntt_point i) 256) (seq 0 kyberN) i)
    in E by (rewrite length_seq; exact Hi).
  rewrite lookup_total_seq_lt in E by exact Hi.
  rewrite lookup_total_replicate_2 in E by exact Hi. exact E.
Qed.

Lemma brv8_involution (i : nat) : (i < kyberN)%nat -> brv8 (brv8 i) = i.
Proof.
  intros Hi. pose proof (f_equal (fun l : list nat => l !!! i) brv8_involution_all) as E.
  cbv beta in E.
  rewrite (lookup_total_map (fun i : nat => brv8 (brv8 i)) (seq 0 kyberN) i)
    in E by (rewrite length_seq; exact Hi).
  rewrite !lookup_total_seq_lt in E by exact Hi. exact E.
Qed.

Lemma powmod_spec (b : Z) (e : nat) : powmod b e = b ^ Z.of_nat e mod kyberQ.
Proof.
  induction e as [|e IH]; [reflexivity|].
  change (powmod b (S e)) with ((powmod b e * b) mod kyberQ). rewrite IH.
  rewrite Zmult_mod_idemp_l, Nat2Z.inj_succ, Z.pow_succ_r by lia.
  f_equal. ring.
Qed.

Lemma nttRef_evaluates (p : list Z) (i : nat) :
  poly_below (2 * kyberQ) p -> (i < kyberN)%nat ->
  (nttRef p !!! i) mod kyberQ = poly_eval_at p (ntt_point i).
Proof.
  intros Hp Hi.
  pose proof (nttRef_related p p _ (poly_below_abs_input p Hp)) as Hrel.
  rewrite (abs_forms_match_sound p _ 0 _ _ Hrel ntt_forms_check i)
    by (rewrite nttRef_length; destruct Hp as [-> _]; exact Hi).
  cbn [Nat.add].
  rewrite form_eval_powers by (destruct Hp as [-> _]; lia).
  rewrite Z.mul_1_l. apply Z.mod_small. apply poly_eval_at_range.
  destruct Hp as [Hl _]. destruct p; [discriminate|congruence].
Qed.

(** X19: the forward transform is an evaluation.  For a polynomial with
    coefficients in [0, 2q), output [i] of [nttRef] is congruent modulo q to
    the value of the polynomial at psi^(2*brv8(i)+1), where psi = 62 and
    [brv8] reverses the eight bits of the index; each of these points is a
    root of X^256 + 1 modulo q, and [brv8] is an involution, so the outputs
    are the values at all 256 roots, in bit-reversed order. *)
Theorem X19_nttRef_is_evaluation :
  (forall (p : list Z) (i : nat),
     poly_below (2 * kyberQ) p -> (i < kyberN)%nat ->
     (nttRef p !!! i) mod kyberQ = poly_eval_at p (ntt_point i)) /\
  (forall i : nat, (i < kyberN)%nat ->
     ntt_point i = kyberPsi ^ (2 * Z.of_nat (brv8 i) + 1) mod kyberQ /\
     (ntt_point i ^ 256 + 1) mod kyberQ = 0 /\
     brv8 (brv8 i) = i).
Proof.
  split; [exact nttRef_evaluates|].
  intros i Hi.
  pose proof (ntt_point_root i Hi) as Hc1.
  split; [|split; [|exact (brv8_involution i Hi)]].
  - unfold ntt_point. rewrite powmod_spec. f_equal. f_equal. lia.
  - rewrite powmod_spec in Hc1. change (Z.of_nat 256) with 256 in Hc1.
    rewrite <- Zplus_mod_idemp_l, Hc1. reflexivity.
Qed.

Lemma X19_nttRef_is_evaluation_witness :
  (nttRef (sample_tape 37 11 256) !!! 5%nat) mod kyberQ
  = poly_eval_at (sample_tape 37 11 256) (ntt_point 5) /\
  (ntt_point 5 ^ 256 + 1) mod kyberQ = 0.
Proof.
  pose proof X19_nttRef_is_evaluation as [H1 H2].
  split.
  - apply H1; [|vm_compute; lia].
    split; [reflexivity|]. unfold sample_tape. apply Forall_map_seq. intros i Hi.
    pose proof (Z.mod_pos_bound (37 * Z.of_nat i + 11) 256 ltac:(lia)).
    unfold kyberQ. lia.
  - apply (H2 5%nat). vm_compute. lia.
Defined.

Lemma ntt_invntt_abs_check :
  abs_all_identity (2 * kyberQ) 0
    (gnttRef abs_ntt_bf
       (ginvnttRef abs_invntt_bf abs_invntt_scale (abs_input (2 * kyberQ - 1)))) = true.
Proof. vm_compute. reflexivity. Qed.

Lemma ntt_invntt_congruent p :
  poly_below (2 * kyberQ) p ->
  forall k, (k < kyberN)%nat ->
    0 <= nttRef (invnttRef p) !!! k < 2 * kyberQ /\
    (nttRef (invnttRef p) !!! k) mod kyberQ = (p !!! k) mod kyberQ.
Proof.
  intros Hp k Hk.
  pose proof (nttRef_related p _ _ (invnttRef_related p p _ (poly_below_abs_input p Hp)))
    as Hrel.
  destruct (abs_all_identity_sound p _ 0 _ _ Hrel ntt_invntt_abs_check k) as [Hb Hc].
  { rewrite nttRef_length, invnttRef_length. destruct Hp as [-> _]. exact Hk. }
  split; [exact Hb|]. rewrite Hc. cbn [Nat.add].
  rewrite form_eval_unit; [reflexivity|exact Hk|apply Hp].
Qed.

(** X20: the forward transform inverts the inverse transform.  For a
    polynomial with coefficients in [0, 2q), the coefficients of
    [nttRef (invnttRef p)] are in [0, 2q) and congruent to those of [p]
    modulo q, so that freezing them gives the frozen coefficients of [p],
    and [p] itself when it is canonical. *)
Theorem X20_ntt_invntt_round_trip (p : list Z) :
  poly_below (2 * kyberQ) p ->
  poly_below (2 * kyberQ) (nttRef (invnttRef p)) /\
  map freeze (nttRef (invnttRef p)) = map freeze p /\
  (poly_below kyberQ p -> map freeze (nttRef (invnttRef p)) = p).
Proof.
  intros Hp. assert (Hpl : length p = kyberN) by apply Hp.
  assert (Hf : map freeze (nttRef (invnttRef p)) = map freeze p).
  { apply map_freeze_congruent.
    - now rewrite nttRef_length, invnttRef_length.
    - intros k Hk. rewrite Hpl in Hk.
      destruct (ntt_invntt_congruent p Hp k Hk) as [Hb Hc].
      pose proof (poly_below_lookup _ _ k Hp Hk) as Hpk.
      unfold kyberQ in Hb, Hpk. repeat split; first [lia | exact Hc]. }
  split; [|split; [exact Hf|]].
  - apply nttRef_below. now apply invnttRef_below.
  - intros Hc. rewrite Hf. now apply map_freeze_canonical.
Qed.

Lemma X20_ntt_invntt_round_trip_witness :
  poly_below (2 * kyberQ) (nttRef (invnttRef (sample_tape 37 11 256))) /\
  map freeze (nttRef (invnttRef (sample_tape 37 11 256))) = sample_tape 37 11 256.
Proof.
  assert (Hc : poly_below kyberQ (sample_tape 37 11 256)).
  { split; [reflexivity|]. unfold sample_tape. apply Forall_map_seq. intros i Hi.
    pose proof (Z.mod_pos_bound (37 * Z.of_nat i + 11) 256 ltac:(lia)).
    unfold kyberQ. lia. }
  destruct (X20_ntt_invntt_round_trip (sample_tape 37 11 256)) as (H1 & _ & H3).
  { apply (poly_below_mono kyberQ); [unfold kyberQ; lia|exact Hc]. }
  split; [exact H1|exact (H3 Hc)].
Defined.

(** ** The noise polynomial as a centred binomial *)

Lemma testbit_split e a x n :
  0 <= e -> 0 <= a < 2 ^ e -> 0 <= n ->
  Z.testbit (a + 2 ^ e * x) n = if n <? e then Z.testbit a n else Z.testbit x (n - e).
Proof.
  intros He Ha Hn. assert (Hp : 0 < 2 ^ e) by (apply Z.pow_pos_nonneg; lia).
  destruct (Z.ltb_spec n e).
  - rewrite <- (Z.mod_pow2_bits_low (a + 2 ^ e * x) e n) by lia.
    rewrite (Z.mul_comm (2 ^ e) x), Z_mod_plus_full, Z.mod_small by lia. reflexivity.
  - replace n with ((n - e) + e) at 1 by lia.
    rewrite <- Z.div_pow2_bits by lia. f_equal.
    rewrite (Z.mul_comm (2 ^ e) x), Z.div_add, Z.div_small by lia. lia.
Qed.

Lemma pow2_ge_2 e : 0 < e -> 2 <= 2 ^ e.
Proof.
  intros He. change 2 with (2 ^ 1) at 1. apply Z.pow_le_mono_r; lia.
Qed.

Lemma cbd_mask_step e m j t :
  0 < e -> 0 <= j < e ->
  (t >> j) .& cbd_mask e (S m)
  = Z.b2z (Z.testbit t j) + 2 ^ e * (((t / 2 ^ e) >> j) .& cbd_mask e m).
Proof.
  intros He Hj. cbn [cbd_mask]. pose proof (pow2_ge_2 e He) as H2.
  apply Z.bits_inj'. intros n Hn.
  assert (Hb : 0 <= Z.b2z (Z.testbit t j) < 2 ^ e) by (destruct (Z.testbit t j); cbn; lia).
  rewrite Z.land_spec, Z.shiftr_spec by lia.
  rewrite (testbit_split e 1) by lia. rewrite (testbit_split e (Z.b2z _)) by lia.
  destruct (Z.ltb_spec n e).
  - destruct (Z.eq_dec n 0) as [->|Hn0].
    + rewrite Z.add_0_l. destruct (Z.testbit t j); reflexivity.
    + rewrite (testbit_above 1 1 n) by lia. rewrite andb_false_r.
      destruct (Z.testbit t j); cbn [Z.b2z];
        [rewrite (testbit_above 1 1 n) by lia|rewrite Z.bits_0]; reflexivity.
  - rewrite Z.land_spec, Z.shiftr_spec by lia. rewrite Z.div_pow2_bits by lia.
    f_equal. f_equal. lia.
Qed.

Lemma cbd_fields_step_list (e m : nat) (t : Z) (l : list nat) :
  Forall (fun j : nat => (j < e)%nat) l ->
  fold_right Z.add 0
    (map (fun j : nat => (t >> Z.of_nat j) .& cbd_mask (Z.of_nat e) (S m)) l)
  = fold_right Z.add 0 (map (fun j : nat => Z.b2z (Z.testbit t (Z.of_nat j))) l)
    + 2 ^ Z.of_nat e
      * fold_right Z.add 0
          (map (fun j : nat =>
                  ((t / 2 ^ Z.of_nat e) >> Z.of_nat j) .& cbd_mask (Z.of_nat e) m) l).
Proof.
  induction 1 as [|j l Hj _ IH]; [cbn; lia|].
  cbn [map fold_right]. rewrite IH, cbd_mask_step by lia. ring.
Qed.

Lemma cbd_fields_step (e m : nat) (t : Z) :
  cbd_fields e (S m) t
  = bits_sum t 0 e + 2 ^ Z.of_nat e * cbd_fields e m (t / 2 ^ Z.of_nat e).
Proof.
  unfold cbd_fields, bits_sum. apply cbd_fields_step_list.
  apply Forall_forall. intros j Hj. apply list_elem_of_In, in_seq in Hj. lia.
Qed.

Lemma cbd_fields_0 (e : nat) (t : Z) : cbd_fields e 0 t = 0.
Proof.
  unfold cbd_fields. induction (seq 0 e) as [|j l IH]; [reflexivity|].
  cbn [map fold_right]. rewrite IH. change (cbd_mask (Z.of_nat e) 0) with 0.
  rewrite Z.land_0_r. reflexivity.
Qed.

Lemma bits_sum_range (t : Z) (s len : nat) : 0 <= bits_sum t s len <= Z.of_nat len.
Proof.
  unfold bits_sum. revert s. induction len as [|len IH]; intros s; [cbn; lia|].
  cbn [seq map fold_right]. specialize (IH (S s)).
  destruct (Z.testbit t (Z.of_nat s)); cbn [Z.b2z]; lia.
Qed.

Lemma bits_sum_shift (t : Z) (k s len : nat) :
  bits_sum (t / 2 ^ Z.of_nat k) s len = bits_sum t (k + s) len.
Proof.
  unfold bits_sum. revert s. induction len as [|len IH]; intros s; [reflexivity|].
  cbn [seq map fold_right]. rewrite (IH (S s)), Z.div_pow2_bits by lia.
  replace (k + S s)%nat with (S (k + s)) by lia.
  replace (Z.of_nat s + Z.of_nat k) with (Z.of_nat (k + s)) by lia. reflexivity.
Qed.

Lemma lt_pow2 (e : nat) : Z.of_nat e < 2 ^ Z.of_nat e.
Proof. apply Z.pow_gt_lin_r; lia. Qed.

Lemma cbd_fields_div (e k m : nat) (t : Z) :
  cbd_fields e (k + m) t / 2 ^ Z.of_nat (e * k)
  = cbd_fields e m (t / 2 ^ Z.of_nat (e * k)).
Proof.
  revert t. induction k as [|k IH]; intros t.
  - rewrite Nat.mul_0_r. change (2 ^ Z.of_nat 0) with 1. now rewrite !Z.div_1_r.
  - assert (Hp : 0 < 2 ^ Z.of_nat e) by (apply Z.pow_pos_nonneg; lia).
    assert (Hq : 0 < 2 ^ Z.of_nat (e * k)) by (apply Z.pow_pos_nonneg; lia).
    replace (Z.of_nat (e * S k)) with (Z.of_nat e + Z.of_nat (e * k)) by lia.
    rewrite Z.pow_add_r by lia. rewrite <- !Z.div_div by lia.
    change (S k + m)%nat with (S (k + m)). rewrite cbd_fields_step.
    pose proof (bits_sum_range t 0 e) as Hr. pose proof (lt_pow2 e) as Hl.
    rewrite (Z.mul_comm (2 ^ Z.of_nat e)), Z.div_add, (Z.div_small (bits_sum t 0 e)) by lia.
    rewrite Z.add_0_l. apply IH.
Qed.

(** The field [k] of [d], as [cbdRef] extracts it, is the number of bits set
    in the field [k] of [t]. *)
Lemma cbd_field_inner (e k m : nat) (t : Z) :
  (cbd_fields e (k + S m) t >> Z.of_nat (e * k)) .& Z.ones (Z.of_nat e)
  = bits_sum t (e * k) e.
Proof.
  rewrite Z.land_ones, Z.shiftr_div_pow2 by lia.
  rewrite cbd_fields_div, cbd_fields_step.
  pose proof (bits_sum_range (t / 2 ^ Z.of_nat (e * k)) 0 e) as Hr.
  pose proof (lt_pow2 e) as Hl.
  rewrite (Z.mul_comm (2 ^ Z.of_nat e)), Z_mod_plus_full, Z.mod_small by lia.
  rewrite bits_sum_shift. f_equal. lia.
Qed.

Lemma cbd_field_last (e k : nat) (t : Z) :
  cbd_fields e (k + 1) t >> Z.of_nat (e * k) = bits_sum t (e * k) e.
Proof.
  rewrite Z.shiftr_div_pow2 by lia.
  rewrite cbd_fields_div, cbd_fields_step, cbd_fields_0, Z.mul_0_r, Z.add_0_r.
  rewrite bits_sum_shift. f_equal. lia.
Qed.

(** The bits of the integer [loadLittleEndian] assembles are those of the
    bytes. *)
Lemma fold_lor_testbit (g : nat -> Z) (l : list nat) (r0 n : Z) :
  Z.testbit (fold_left (fun (r : Z) (i : nat) => r .| g i) l r0) n
  = Z.testbit r0 n || existsb (fun i : nat => Z.testbit (g i) n) l.
Proof.
  revert r0. induction l as [|i l IH]; intros r0; cbn [fold_left existsb].
  - now rewrite orb_false_r.
  - rewrite IH, Z.lor_spec, orb_assoc. reflexivity.
Qed.

Lemma existsb_select (q : nat) (f : nat -> bool) (s len : nat) :
  existsb (fun i : nat => (q =? i)%nat && f i) (seq s len)
  = if ((s <=? q) && (q <? s + len))%nat then f q else false.
Proof.
  revert s. induction len as [|len IH]; intros s; cbn [seq existsb].
  - destruct (Nat.leb_spec s q), (Nat.ltb_spec q (s + 0)); try reflexivity; lia.
  - rewrite IH. destruct (Nat.eqb_spec q s) as [->|Hne].
    + rewrite Nat.leb_refl. destruct (Nat.ltb_spec s (s + S len)); [|lia].
      destruct (Nat.leb_spec (S s) s); [lia|]. cbn [andb]. apply orb_false_r.
    + cbn [andb orb].
      destruct (Nat.leb_spec (S s) q), (Nat.ltb_spec q (S s + len)),
        (Nat.leb_spec s q), (Nat.ltb_spec q (s + S len)); try reflexivity; lia.
Qed.

Lemma existsb_ext_seq (f g : nat -> bool) (s len : nat) :
  (forall i, (s <= i < s + len)%nat -> f i = g i) ->
  existsb f (seq s len) = existsb g (seq s len).
Proof.
  revert s. induction len as [|len IH]; intros s Hfg; [reflexivity|].
  cbn [seq existsb]. rewrite (Hfg s) by lia. f_equal. apply IH. intros i Hi. apply Hfg. lia.
Qed.

Lemma shl64_byte_testbit (b : Z) (i n : nat) :
  0 <= b < 256 -> (n < 64)%nat ->
  Z.testbit (shl64 b (8 * Z.of_nat i)) (Z.of_nat n)
  = (n / 8 =? i)%nat && Z.testbit b (Z.of_nat (n mod 8)).
Proof.
  intros Hb Hn. unfold shl64. rewrite testbit_u64, Z.shiftl_spec by lia.
  destruct (Z.ltb_spec (Z.of_nat n) 64); [|lia]. cbn [andb].
  pose proof (Nat.div_mod_eq n 8) as E. pose proof (Nat.mod_upper_bound n 8 ltac:(lia)) as Hm.
  destruct (Nat.eqb_spec (n / 8) i) as [<-|Hne]; cbn [andb].
  - f_equal. lia.
  - destruct (Z.lt_ge_cases (Z.of_nat n - 8 * Z.of_nat i) 0) as [Hlt|Hge].
    + now apply Z.testbit_neg_r.
    + apply (testbit_above b 8); [exact Hb|]. nia.
Qed.

Lemma loadLittleEndian_testbit (x : list Z) (bytes n : nat) :
  (bytes <= 8)%nat -> (forall i, (i < bytes)%nat -> 0 <= x !!! i < 256) ->
  (n < 8 * bytes)%nat ->
  Z.testbit (loadLittleEndian x bytes) (Z.of_nat n)
  = Z.testbit (x !!! (n / 8)%nat) (Z.of_nat (n mod 8)).
Proof.
  intros Hb Hx Hn. unfold loadLittleEndian.
  rewrite (fold_lor_testbit (fun i : nat => shl64 (x !!! i) (8 * Z.of_nat i))).
  rewrite Z.bits_0, orb_false_l.
  assert (Hq : (n / 8 < bytes)%nat) by (apply Nat.Div0.div_lt_upper_bound; lia).
  rewrite (existsb_ext_seq _
             (fun i : nat => (n / 8 =? i)%nat && Z.testbit (x !!! i) (Z.of_nat (n mod 8)))).
  - rewrite existsb_select. cbn [Nat.add].
    destruct (Nat.ltb_spec (n / 8) bytes); [reflexivity|lia].
  - intros i Hi. apply shl64_byte_testbit; [apply Hx; lia|lia].
Qed.

Lemma bits_sum_load (buf : list Z) (e i s len : nat) :
  (e <= 8)%nat -> (e * i + e <= length buf)%nat -> Forall is_byte buf ->
  (s + len <= 8 * e)%nat ->
  bits_sum (loadLittleEndian (drop (e * i) buf) e) s len
  = popcount_at buf (8 * e * i + s) len.
Proof.
  intros He Hl Hb. unfold bits_sum, popcount_at. revert s.
  induction len as [|len IH]; intros s Hs; [reflexivity|].
  replace (8 * e * i + s)%nat with (s + e * i * 8)%nat by lia.
  cbn [seq map fold_right].
  replace (S (s + e * i * 8)) with (8 * e * i + S s)%nat by lia.
  rewrite <- (IH (S s)) by lia. f_equal. unfold buf_bit.
  rewrite Nat.div_add, Nat.Div0.mod_add by lia.
  rewrite loadLittleEndian_testbit; [|exact He| |lia].
  - rewrite lookup_total_drop. do 3 f_equal. lia.
  - intros k Hk. rewrite lookup_total_drop.
    apply (Forall_lookup_total_1 is_byte buf); [exact Hb|lia].
Qed.

Lemma cbd_sum32_eq (f : nat -> Z) (B : Z) (s n : nat) (d0 : Z) :
  (forall j, 0 <= f j <= B) -> 0 <= d0 -> d0 + Z.of_nat n * B < 2 ^ 32 ->
  fold_left (fun (d : Z) (j : nat) => u32 (d + u32 (f j))) (seq s n) d0
  = d0 + fold_right Z.add 0 (map f (seq s n)).
Proof.
  intros Hf. revert s d0. induction n as [|n IH]; intros s d0 Hd0 Hb; [cbn; lia|].
  cbn [seq fold_left map fold_right]. pose proof (Hf s) as Hs.
  rewrite (u32_small (f s)) by nia. rewrite (u32_small (d0 + f s)) by nia.
  rewrite (IH (S s) (d0 + f s)) by nia. lia.
Qed.

Lemma cbd_sum64_eq (f : nat -> Z) (B : Z) (s n : nat) (d0 : Z) :
  (forall j, 0 <= f j <= B) -> 0 <= d0 -> d0 + Z.of_nat n * B < 2 ^ 64 ->
  fold_left (fun (d : Z) (j : nat) => u64 (d + f j)) (seq s n) d0
  = d0 + fold_right Z.add 0 (map f (seq s n)).
Proof.
  intros Hf. revert s d0. induction n as [|n IH]; intros s d0 Hd0 Hb; [cbn; lia|].
  cbn [seq fold_left map fold_right]. pose proof (Hf s) as Hs.
  assert (Hu : u64 (d0 + f s) = d0 + f s) by (apply Z.mod_small; nia).
  rewrite Hu, (IH (S s) (d0 + f s)) by nia. lia.
Qed.

Lemma cbd_coeff32_value a b :
  0 <= a <= 5 -> 0 <= b <= 5 -> u16 (u32 (u32 (a + kyberQ) - b)) = kyberQ + a - b.
Proof.
  intros Ha Hb. unfold kyberQ. rewrite (u32_small (a + 7681)) by lia.
  rewrite (u32_small (a + 7681 - b)) by lia. rewrite u16_small by lia. lia.
Qed.

Lemma cbd_coeff64_value a b :
  0 <= a <= 5 -> 0 <= b <= 5 -> u16 (u64 (u64 (a + kyberQ) - b)) = kyberQ + a - b.
Proof.
  intros Ha Hb. unfold kyberQ, u64. rewrite (Z.mod_small (a + 7681)) by lia.
  rewrite (Z.mod_small (a + 7681 - b)) by lia. rewrite u16_small by lia. lia.
Qed.

(** One coefficient, once the two fields of [d] are known to be counts. *)
Lemma cbd_coeff_popcount (buf : list Z) (e i n sa sb : nat) (t a b c : Z) :
  (e <= 5)%nat -> (e * i + e <= length buf)%nat -> Forall is_byte buf ->
  t = loadLittleEndian (drop (e * i) buf) e ->
  a = bits_sum t sa e -> b = bits_sum t sb e ->
  (sa + e <= 8 * e)%nat -> (sb + e <= 8 * e)%nat ->
  (8 * e * i + sa = 2 * e * n)%nat -> (8 * e * i + sb = 2 * e * n + e)%nat ->
  c = kyberQ + a - b ->
  c = kyberQ + popcount_at buf (2 * e * n) e - popcount_at buf (2 * e * n + e) e /\
  kyberQ - Z.of_nat e <= c <= kyberQ + Z.of_nat e.
Proof.
  intros He Hl Hb -> -> -> Hsa Hsb Ea Eb ->.
  pose proof (bits_sum_range (loadLittleEndian (drop (e * i) buf) e) sa e) as Ra.
  pose proof (bits_sum_range (loadLittleEndian (drop (e * i) buf) e) sb e) as Rb.
  split; [|lia].
  rewrite !bits_sum_load by (first [assumption | lia]).
  rewrite Ea, Eb. reflexivity.
Qed.

Lemma cbd_fields_eta3 (t : Z) :
  cbd_fields 3 8 t .& 7 = bits_sum t 0 3 /\
  (cbd_fields 3 8 t >> 3) .& 7 = bits_sum t 3 3 /\
  (cbd_fields 3 8 t >> 6) .& 7 = bits_sum t 6 3 /\
  (cbd_fields 3 8 t >> 9) .& 7 = bits_sum t 9 3 /\
  (cbd_fields 3 8 t >> 12) .& 7 = bits_sum t 12 3 /\
  (cbd_fields 3 8 t >> 15) .& 7 = bits_sum t 15 3 /\
  (cbd_fields 3 8 t >> 18) .& 7 = bits_sum t 18 3 /\
  cbd_fields 3 8 t >> 21 = bits_sum t 21 3.
Proof.
  split; [exact (cbd_field_inner 3 0 7 t)|].
  split; [exact (cbd_field_inner 3 1 6 t)|].
  split; [exact (cbd_field_inner 3 2 5 t)|].
  split; [exact (cbd_field_inner 3 3 4 t)|].
  split; [exact (cbd_field_inner 3 4 3 t)|].
  split; [exact (cbd_field_inner 3 5 2 t)|].
  split; [exact (cbd_field_inner 3 6 1 t)|].
  exact (cbd_field_last 3 7 t).
Qed.

Lemma cbd_fields_eta4 (t : Z) :
  cbd_fields 4 8 t .& 15 = bits_sum t 0 4 /\
  (cbd_fields 4 8 t >> 4) .& 15 = bits_sum t 4 4 /\
  (cbd_fields 4 8 t >> 8) .& 15 = bits_sum t 8 4 /\
  (cbd_fields 4 8 t >> 12) .& 15 = bits_sum t 12 4 /\
  (cbd_fields 4 8 t >> 16) .& 15 = bits_sum t 16 4 /\
  (cbd_fields 4 8 t >> 20) .& 15 = bits_sum t 20 4 /\
  (cbd_fields 4 8 t >> 24) .& 15 = bits_sum t 24 4 /\
  cbd_fields 4 8 t >> 28 = bits_sum t 28 4.
Proof.
  split; [exact (cbd_field_inner 4 0 7 t)|].
  split; [exact (cbd_field_inner 4 1 6 t)|].
  split; [exact (cbd_field_inner 4 2 5 t)|].
  split; [exact (cbd_field_inner 4 3 4 t)|].
  split; [exact (cbd_field_inner 4 4 3 t)|].
  split; [exact (cbd_field_inner 4 5 2 t)|].
  split; [exact (cbd_field_inner 4 6 1 t)|].
  exact (cbd_field_last 4 7 t).
Qed.

Lemma cbd_fields_eta5 (t : Z) :
  cbd_fields 5 8 t .& 31 = bits_sum t 0 5 /\
  (cbd_fields 5 8 t >> 5) .& 31 = bits_sum t 5 5 /\
  (cbd_fields 5 8 t >> 10) .& 31 = bits_sum t 10 5 /\
  (cbd_fields 5 8 t >> 15) .& 31 = bits_sum t 15 5 /\
  (cbd_fields 5 8 t >> 20) .& 31 = bits_sum t 20 5 /\
  (cbd_fields 5 8 t >> 25) .& 31 = bits_sum t 25 5 /\
  (cbd_fields 5 8 t >> 30) .& 31 = bits_sum t 30 5 /\
  cbd_fields 5 8 t >> 35 = bits_sum t 35 5.
Proof.
  split; [exact (cbd_field_inner 5 0 7 t)|].
  split; [exact (cbd_field_inner 5 1 6 t)|].
  split; [exact (cbd_field_inner 5 2 5 t)|].
  split; [exact (cbd_field_inner 5 3 4 t)|].
  split; [exact (cbd_field_inner 5 4 3 t)|].
  split; [exact (cbd_field_inner 5 5 2 t)|].
  split; [exact (cbd_field_inner 5 6 1 t)|].
  exact (cbd_field_last 5 7 t).
Qed.

Ltac cbd_coeff e i t sa sb val :=
  eapply (cbd_coeff_popcount _ e i _ sa sb t);
    [lia | lia | eassumption | reflexivity | reflexivity | reflexivity
    | lia | lia | lia | lia
    | apply val;
      match goal with
      | |- 0 <= bits_sum ?x ?s ?l <= _ => pose proof (bits_sum_range x s l); lia
      end ].

Lemma cbdRef_value (buf : list Z) (eta : nat) :
  (eta = 3 \/ eta = 4 \/ eta = 5)%nat ->
  (eta * 64 <= length buf)%nat -> Forall is_byte buf ->
  exists p, cbdRef buf eta = Ok p /\ length p = kyberN /\
    forall n, (n < kyberN)%nat ->
      p !!! n = kyberQ + popcount_at buf (2 * eta * n) eta
                - popcount_at buf (2 * eta * n + eta) eta /\
      kyberQ - Z.of_nat eta <= p !!! n <= kyberQ + Z.of_nat eta.
Proof.
  intros [-> | [-> | ->]] Hl Hb; cbd_enough; eexists; (split; [reflexivity|]);
    (split; [rewrite (flat_map_length_const _ 4); [reflexivity|intros; reflexivity]|]);
    intros n Hn;
    change kyberN with 256%nat in Hn;
    pose proof (Nat.div_mod_eq n 4) as En;
    pose proof (Nat.mod_upper_bound n 4 ltac:(lia)) as Hk;
    assert (Hi : (n / 4 < 64)%nat) by (apply Nat.Div0.div_lt_upper_bound; lia);
    set (i := (n / 4)%nat) in *; set (k := (n mod 4)%nat) in *; clearbody i k; subst n;
    (rewrite (flat_map_seq_lookup_total _ 4 64 i k); [|intros; reflexivity|exact Hi|exact Hk]);
    cbv zeta; set (t := loadLittleEndian _ _).
  - rewrite (cbd_sum32_eq (fun j : nat => (t >> Z.of_nat j) .& 2396745) 2396745 0 3 0)
      by first [intros; apply land_mask_below; lia | lia].
    rewrite Z.add_0_l. change (fold_right _ _ _) with (cbd_fields 3 8 t).
    destruct (cbd_fields_eta3 t) as (F0 & F1 & F2 & F3 & F4 & F5 & F6 & F7).
    destruct k as [|[|[|[|k]]]]; [| | | |lia]; cbn [lookup_total list_lookup_total].
    + rewrite F0, F1. cbd_coeff 3%nat i t 0%nat 3%nat cbd_coeff32_value.
    + rewrite F2, F3. cbd_coeff 3%nat i t 6%nat 9%nat cbd_coeff32_value.
    + rewrite F4, F5. cbd_coeff 3%nat i t 12%nat 15%nat cbd_coeff32_value.
    + rewrite F6, F7. cbd_coeff 3%nat i t 18%nat 21%nat cbd_coeff32_value.
  - rewrite (cbd_sum32_eq (fun j : nat => (t >> Z.of_nat j) .& 286331153) 286331153 0 4 0)
      by first [intros; apply land_mask_below; lia | lia].
    rewrite Z.add_0_l. change (fold_right _ _ _) with (cbd_fields 4 8 t).
    destruct (cbd_fields_eta4 t) as (F0 & F1 & F2 & F3 & F4 & F5 & F6 & F7).
    destruct k as [|[|[|[|k]]]]; [| | | |lia]; cbn [lookup_total list_lookup_total].
    + rewrite F0, F1. cbd_coeff 4%nat i t 0%nat 4%nat cbd_coeff32_value.
    + rewrite F2, F3. cbd_coeff 4%nat i t 8%nat 12%nat cbd_coeff32_value.
    + rewrite F4, F5. cbd_coeff 4%nat i t 16%nat 20%nat cbd_coeff32_value.
    + rewrite F6, F7. cbd_coeff 4%nat i t 24%nat 28%nat cbd_coeff32_value.
  - rewrite (cbd_sum64_eq (fun j : nat => (t >> Z.of_nat j) .& 35468117025)
               35468117025 0 5 0)
      by first [intros; apply land_mask_below; lia | lia].
    rewrite Z.add_0_l. change (fold_right _ _ _) with (cbd_fields 5 8 t).
    destruct (cbd_fields_eta5 t) as (F0 & F1 & F2 & F3 & F4 & F5 & F6 & F7).
    destruct k as [|[|[|[|k]]]]; [| | | |lia]; cbn [lookup_total list_lookup_total].
    + rewrite F0, F1. cbd_coeff 5%nat i t 0%nat 5%nat cbd_coeff64_value.
    + rewrite F2, F3. cbd_coeff 5%nat i t 10%nat 15%nat cbd_coeff64_value.
    + rewrite F4, F5. cbd_coeff 5%nat i t 20%nat 25%nat cbd_coeff64_value.
    + rewrite F6, F7. cbd_coeff 5%nat i t 30%nat 35%nat cbd_coeff64_value.
Qed.

Lemma cbdRef_short (buf : list Z) (eta : nat) :
  (eta = 3 \/ eta = 4 \/ eta = 5)%nat -> (length buf < eta * 64)%nat ->
  cbdRef buf eta = Panic PanicIndex.
Proof.
  intros [-> | [-> | ->]] Hl; unfold cbdRef; change (kyberN / 4)%nat with 64%nat;
    match goal with
    | |- context [(?a <? ?b)%nat] => destruct (Nat.ltb_spec a b); [reflexivity|lia]
    end.
Qed.

Section Noise.
Context {sponge : Sponge} {laws : SpongeLaws sponge}.

(** X21: the noise sampler computes a centred binomial.  For eta in
    {3, 4, 5} and a buffer of at least 64*eta bytes, [cbdRef] succeeds and
    coefficient [n] is q plus the number of bits set among the [eta] bits of
    the buffer from bit 2*eta*n, minus the number set among the next [eta]
    bits (bits counted from the least significant bit of byte 0), so that it
    lies in [q - eta, q + eta]; on a shorter buffer it panics.
    [poly_getNoise] is this function of the first 64*eta bytes of SHAKE-256
    of the seed followed by the nonce, and never panics. *)
Theorem X21_cbd_centered_binomial (buf seed : list Z) (nonce : Z) (eta : nat) :
  (eta = 3 \/ eta = 4 \/ eta = 5)%nat ->
  ((eta * 64 <= length buf)%nat -> Forall is_byte buf ->
   exists p, cbdRef buf eta = Ok p /\ length p = kyberN /\
     forall n, (n < kyberN)%nat ->
       p !!! n = kyberQ + popcount_at buf (2 * eta * n) eta
                 - popcount_at buf (2 * eta * n + eta) eta /\
       kyberQ - Z.of_nat eta <= p !!! n <= kyberQ + Z.of_nat eta) /\
  ((length buf < eta * 64)%nat -> cbdRef buf eta = Panic PanicIndex) /\
  (exists p, poly_getNoise seed nonce eta = Ok p /\ length p = kyberN /\
     forall n, (n < kyberN)%nat ->
       p !!! n
       = kyberQ
         + popcount_at (shake256 (seed ++ [nonce]) (eta * kyberN / 4)) (2 * eta * n) eta
         - popcount_at (shake256 (seed ++ [nonce]) (eta * kyberN / 4))
             (2 * eta * n + eta) eta /\
       kyberQ - Z.of_nat eta <= p !!! n <= kyberQ + Z.of_nat eta).
Proof.
  intros Heta. split; [exact (cbdRef_value buf eta Heta)|].
  split; [exact (cbdRef_short buf eta Heta)|].
  unfold poly_getNoise, poly_cbd. cbv zeta.
  apply (cbdRef_value _ eta Heta); [|apply shake256_bytes].
  rewrite shake256_length. destruct Heta as [-> | [-> | ->]]; vm_compute; lia.
Qed.

End Noise.

Lemma X21_cbd_centered_binomial_witness :
  (exists p, cbdRef (sample_tape 37 11 192) 3 = Ok p /\
     p !!! 5%nat = kyberQ + popcount_at (sample_tape 37 11 192) 30 3
                   - popcount_at (sample_tape 37 11 192) 33 3) /\
  cbdRef (sample_tape 37 11 191) 3 = Panic PanicIndex /\
  (exists p, @poly_getNoise toy_sponge (replicate 32 7) 2 3 = Ok p /\
     kyberQ - 3 <= p !!! 5%nat <= kyberQ + 3).
Proof.
  destruct (@X21_cbd_centered_binomial toy_sponge toy_sponge_laws
              (sample_tape 37 11 192) (replicate 32 7) 2 3 ltac:(now left))
    as (Hc & _ & q & Eq & _ & Hq).
  destruct (@X21_cbd_centered_binomial toy_sponge toy_sponge_laws
              (sample_tape 37 11 191) (replicate 32 7) 2 3 ltac:(now left))
    as (_ & Hs & _).
  split; [|split].
  - destruct Hc as (p & Ep & _ & Hp).
    + vm_compute. lia.
    + unfold sample_tape. apply Forall_map_seq. intros i Hi.
      apply Z.mod_pos_bound. lia.
    + exists p. split; [exact Ep|]. apply (Hp 5%nat). vm_compute. lia.
  - apply Hs. vm_compute. lia.
  - exists q. split; [exact Eq|]. apply (Hq 5%nat). vm_compute. lia.
Defined.

(** ** Multiplication through the transforms *)

Lemma evalZ_plus (p r : list Z) (z : Z) :
  evalZ (poly_plus p r) z = evalZ p z + evalZ r z.
Proof.
  revert r. induction p as [|x p IH]; intros r; [reflexivity|].
  destruct r as [|y r]; [cbn; lia|].
  cbn [poly_plus evalZ fold_right]. fold (evalZ (poly_plus p r) z).
  fold (evalZ p z). fold (evalZ r z). rewrite IH. ring.
Qed.

Lemma evalZ_scale (c : Z) (p : list Z) (z : Z) :
  evalZ (poly_scale c p) z = c * evalZ p z.
Proof.
  induction p as [|x p IH]; [cbn; lia|].
  cbn [poly_scale map evalZ fold_right]. fold (poly_scale c p).
  fold (evalZ (poly_scale c p) z). fold (evalZ p z). rewrite IH. ring.
Qed.

Lemma evalZ_mul (p r : list Z) (z : Z) :
  evalZ (poly_mul p r) z = evalZ p z * evalZ r z.
Proof.
  induction p as [|c p IH]; [reflexivity|].
  cbn [poly_mul]. rewrite evalZ_plus, evalZ_scale.
  cbn [evalZ fold_right]. fold (evalZ (poly_mul p r) z). fold (evalZ p z).
  fold (evalZ r z). rewrite IH. ring.
Qed.

Lemma poly_plus_length (p r : list Z) :
  length (poly_plus p r) = Nat.max (length p) (length r).
Proof.
  revert r. induction p as [|x p IH]; intros r; [reflexivity|].
  destruct r as [|y r]; [reflexivity|]. cbn [poly_plus length]. now rewrite IH.
Qed.

Lemma poly_mul_length (p r : list Z) :
  (length (poly_mul p r) <= length p + length r)%nat.
Proof.
  induction p as [|c p IH]; [cbn; lia|].
  cbn [poly_mul]. rewrite poly_plus_length. unfold poly_scale.
  rewrite length_map. cbn [length]. lia.
Qed.

Lemma poly_eval_at_evalZ (p : list Z) (z : Z) :
  poly_eval_at p z = evalZ p z mod kyberQ.
Proof.
  induction p as [|c p IH]; [reflexivity|].
  cbn [poly_eval_at evalZ fold_right]. fold (poly_eval_at p z). fold (evalZ p z).
  rewrite IH, <- Zplus_mod_idemp_r, Zmult_mod_idemp_r, Zplus_mod_idemp_r. reflexivity.
Qed.

(** Evaluation of a polynomial given by its coefficient function. *)
Lemma evalZ_seq_S (f : nat -> Z) (s n : nat) (z : Z) :
  evalZ (map f (seq s (S n))) z = f s + z * evalZ (map f (seq (S s) n)) z.
Proof. reflexivity. Qed.

Lemma evalZ_seq_shift (f : nat -> Z) (s n : nat) (z : Z) :
  evalZ (map f (seq (S s) n)) z = evalZ (map (fun k : nat => f (S k)) (seq s n)) z.
Proof. now rewrite <- seq_shift, map_map. Qed.

Lemma evalZ_seq_congr (f g : nat -> Z) (s n : nat) (z : Z) :
  (forall k, (s <= k < s + n)%nat -> f k mod kyberQ = g k mod kyberQ) ->
  evalZ (map f (seq s n)) z mod kyberQ = evalZ (map g (seq s n)) z mod kyberQ.
Proof.
  revert s. induction n as [|n IH]; intros s Hfg; [reflexivity|].
  rewrite !evalZ_seq_S. apply cong_add; [apply Hfg; lia|].
  apply cong_mul; [reflexivity|]. apply IH. intros k Hk. apply Hfg. lia.
Qed.

Lemma evalZ_seq_ext (f g : nat -> Z) (s n : nat) (z : Z) :
  (forall k, (s <= k < s + n)%nat -> f k = g k) ->
  evalZ (map f (seq s n)) z = evalZ (map g (seq s n)) z.
Proof.
  revert s. induction n as [|n IH]; intros s Hfg; [reflexivity|].
  rewrite !evalZ_seq_S, (Hfg s) by lia. f_equal. f_equal. apply IH.
  intros k Hk. apply Hfg. lia.
Qed.

Lemma evalZ_seq_zero (s n : nat) (z : Z) :
  evalZ (map (fun _ : nat => 0) (seq s n)) z = 0.
Proof.
  revert s. induction n as [|n IH]; intros s; [reflexivity|].
  rewrite evalZ_seq_S, IH. lia.
Qed.

Lemma evalZ_seq_add (f g : nat -> Z) (s n : nat) (z : Z) :
  evalZ (map (fun k : nat => f k + g k) (seq s n)) z
  = evalZ (map f (seq s n)) z + evalZ (map g (seq s n)) z.
Proof.
  revert s. induction n as [|n IH]; intros s; [reflexivity|].
  rewrite !evalZ_seq_S, IH. ring.
Qed.

Lemma evalZ_seq_sub (f g : nat -> Z) (s n : nat) (z : Z) :
  evalZ (map (fun k : nat => f k - g k) (seq s n)) z
  = evalZ (map f (seq s n)) z - evalZ (map g (seq s n)) z.
Proof.
  revert s. induction n as [|n IH]; intros s; [reflexivity|].
  rewrite !evalZ_seq_S, IH. ring.
Qed.

(** The value of a polynomial from its [n] lowest coefficients and the
    rest. *)
Lemma evalZ_split (n : nat) (m : list Z) (z : Z) :
  evalZ m z
  = evalZ (map (fun k : nat => nth k m 0) (seq 0 n)) z
    + z ^ Z.of_nat n * evalZ (drop n m) z.
Proof.
  revert m. induction n as [|n IH]; intros m.
  - cbn [seq map]. rewrite drop_0. change (evalZ [] z) with 0.
    change (z ^ Z.of_nat 0) with 1. lia.
  - destruct m as [|x m].
    + rewrite (evalZ_seq_ext _ (fun _ : nat => 0)) by (intros [|k] _; reflexivity).
      rewrite evalZ_seq_zero. cbn. lia.
    + rewrite evalZ_seq_S, evalZ_seq_shift. cbn [nth drop].
      change (evalZ (x :: m) z) with (x + z * evalZ m z).
      rewrite (IH m), Nat2Z.inj_succ, Z.pow_succ_r by lia. ring.
Qed.

Lemma evalZ_whole (n : nat) (m : list Z) (z : Z) :
  (length m <= n)%nat ->
  evalZ (map (fun k : nat => nth k m 0) (seq 0 n)) z = evalZ m z.
Proof.
  intros Hl. rewrite (evalZ_split n m z), drop_ge by exact Hl.
  change (evalZ [] z) with 0. lia.
Qed.

Lemma nth_drop_add (n k : nat) (m : list Z) :
  nth k (drop n m) 0 = nth (n + k) m 0.
Proof.
  revert m. induction n as [|n IH]; intros m; [now rewrite drop_0|].
  destruct m as [|x m]; [now destruct k|]. cbn [drop Nat.add nth]. apply IH.
Qed.

Lemma evalZ_fold_back (n : nat) (m : list Z) (z : Z) :
  (length m <= 2 * n)%nat -> (z ^ Z.of_nat n + 1) mod kyberQ = 0 ->
  evalZ (map (fun k : nat => nth k m 0 - nth (n + k) m 0) (seq 0 n)) z mod kyberQ
  = evalZ m z mod kyberQ.
Proof.
  intros Hl Hz. rewrite evalZ_seq_sub.
  rewrite (evalZ_split n m z).
  rewrite <- (evalZ_whole n (drop n m) z) by (rewrite length_drop; lia).
  rewrite (evalZ_seq_ext (fun k : nat => nth k (drop n m) 0)
             (fun k : nat => nth (n + k) m 0))
    by (intros k _; apply nth_drop_add).
  set (A := evalZ (map (fun k : nat => nth k m 0) (seq 0 n)) z).
  set (B := evalZ (map (fun k : nat => nth (n + k) m 0) (seq 0 n)) z).
  clearbody A B. remember (z ^ Z.of_nat n) as w eqn:Ew. clear Ew.
  replace (A + w * B) with (A - B + (w + 1) * B) by ring.
  rewrite <- (Zplus_mod_idemp_r ((w + 1) * B)).
  rewrite <- Zmult_mod_idemp_l, Hz, Z.mul_0_l. change (0 mod kyberQ) with 0.
  now rewrite Z.add_0_r.
Qed.

Lemma evalZ_negacyclic (m : list Z) (z : Z) :
  (length m <= 2 * kyberN)%nat -> (z ^ Z.of_nat kyberN + 1) mod kyberQ = 0 ->
  evalZ (negacyclic m) z mod kyberQ = evalZ m z mod kyberQ.
Proof. intros Hl Hz. unfold negacyclic. now apply evalZ_fold_back. Qed.

Lemma negacyclic_length (m : list Z) : length (negacyclic m) = kyberN.
Proof. unfold negacyclic. now rewrite length_map, length_seq. Qed.

Lemma fold_right_add_congr (f g : nat -> Z) (l : list nat) :
  (forall i, In i l -> f i mod kyberQ = g i mod kyberQ) ->
  fold_right Z.add 0 (map f l) mod kyberQ = fold_right Z.add 0 (map g l) mod kyberQ.
Proof.
  induction l as [|i l IH]; intros Hfg; [reflexivity|].
  cbn [map fold_right]. apply cong_add; [apply Hfg; now left|].
  apply IH. intros k Hk. apply Hfg. now right.
Qed.

(** The value of the accumulated product at a root of X^256 + 1. *)
Lemma evalZ_negacyclic_acc (a b : list (list Z)) (z : Z) :
  Forall (fun p : list Z => length p = kyberN) a ->
  Forall (fun p : list Z => length p = kyberN) b -> length b = length a ->
  (z ^ Z.of_nat kyberN + 1) mod kyberQ = 0 ->
  evalZ (map (negacyclic_acc a b) (seq 0 kyberN)) z mod kyberQ
  = fold_right Z.add 0
      (map (fun i : nat => evalZ (a !!! i) z * evalZ (b !!! i) z) (seq 0 (length a)))
    mod kyberQ.
Proof.
  intros Ha Hb Hlen Hz. unfold negacyclic_acc.
  assert (Hin : forall i, In i (seq 0 (length a)) -> (i < length a)%nat)
    by (intros i Hi; apply in_seq in Hi; lia).
  revert Hin. generalize (seq 0 (length a)) as l.
  induction l as [|i l IH]; intros Hin.
  - cbn [map fold_right]. now rewrite evalZ_seq_zero.
  - cbn [map fold_right].
    rewrite (evalZ_seq_add
               (fun k : nat => nth k (negacyclic (poly_mul (a !!! i) (b !!! i))) 0)).
    apply cong_add; [|apply IH; intros k Hk; apply Hin; now right].
    rewrite evalZ_whole by (rewrite negacyclic_length; lia).
    rewrite evalZ_negacyclic, evalZ_mul; [reflexivity| |exact Hz].
    pose proof (poly_mul_length (a !!! i) (b !!! i)) as Hm.
    pose proof (Hin i ltac:(now left)) as Hi.
    rewrite (Forall_lookup_total_1 _ a i Ha Hi) in Hm.
    rewrite (Forall_lookup_total_1 _ b i Hb) in Hm by lia. lia.
Qed.
